(** * NixCore wallet: ledger index, coin selection and transaction builder

    A shallow embedding of the parts of [src/wallet/wallet.cpp] that
    maintain the wallet's transaction records ([mapWallet], [mapTxSpends]),
    select coins ([SelectCoinsMinConf], [ApproximateBestSubset],
    [SelectCoins]) and assemble a transaction ([CreateTransaction]).

    Conventions of the embedding.
    - [CAmount] (int64_t) is [Z].  Signed overflow is undefined in C++ and
      every amount the wallet handles is bounded by MAX_MONEY, so sums are
      taken in [Z] without wrap-around.
    - [uint256] is [N]; the null hash is [0] and [ABANDON_HASH] is [1], as
      in the source.
    - [std::map<uint256, CWalletTx>] is a [gmap]; [std::multimap] and
      [std::set] are key-ordered lists, because the code iterates them in
      key order ([lower_bound], [*todo.begin()]).
    - Pointers to wallet records ([const CWalletTx*]) are the record's key
      in [mapWallet] or, where the wallet is not mutated meanwhile, a copy
      of the record.
    - The amount caches of a record are [mutable]: the getters that write
      them return the record next to their result ([Mutable]), and the
      balance puts it back into [mapWallet].  Coin selection and the
      candidate scan hold records by value and use the results alone.
    - External collaborators (chain state, mempool, fee estimator, script
      ownership, wallet database, random sources) are fields of one
      [Externals] record or explicit tapes of random draws.
    - A computation that may throw, hit a failed [assert], read out of
      bounds or loop is an [outcome]. *)

From Stdlib Require Import ZArith NArith List Bool Lia Permutation String.
From stdpp Require Import gmap list strings sorting.

Local Open Scope Z_scope.

(** ** Outcomes of effectful code *)

Inductive outcome (A : Type) : Type :=
| Ret (a : A)          (* normal return *)
| Throw                (* a C++ exception left the function *)
| AssertFail           (* a failed assert: the process aborts *)
| Undefined            (* out-of-bounds access: undefined behaviour *)
| OutOfFuel.           (* the loop bound of the model was reached *)

Arguments Ret {A} a.
Arguments Throw {A}.
Arguments AssertFail {A}.
Arguments Undefined {A}.
Arguments OutOfFuel {A}.

#[global] Instance outcome_ret : MRet outcome := fun A a => Ret a.

#[global] Instance outcome_bind : MBind outcome := fun A B k m =>
  match m with
  | Ret a => k a
  | Throw => Throw
  | AssertFail => AssertFail
  | Undefined => Undefined
  | OutOfFuel => OutOfFuel
  end.

(** ** Primitive data *)

Definition uint256 := N.
Definition CAmount := Z.
Definition CScript := list N.

Record COutPoint := mkOutPoint { op_hash : uint256; op_n : N }.
Record CTxIn := mkTxIn { prevout : COutPoint; scriptSig : CScript; nSequence : N }.
Record CTxOut := mkTxOut { nValue : CAmount; scriptPubKey : CScript }.

(** [CTransaction] caches its own hash in a member; [HasWitness],
    [IsCoinBase] and [IsZerocoinSpend] are read-only properties of the
    body and are kept as flags. *)
Record CTransaction := mkTx {
  tx_hash : uint256;
  vin : list CTxIn;
  vout : list CTxOut;
  tx_HasWitness : bool;
  tx_IsCoinBase : bool;
  tx_IsZerocoinSpend : bool
}.

#[global] Instance COutPoint_eq_dec : EqDecision COutPoint.
Proof. solve_decision. Defined.
#[global] Instance CTxIn_eq_dec : EqDecision CTxIn.
Proof. solve_decision. Defined.
#[global] Instance CTxOut_eq_dec : EqDecision CTxOut.
Proof. solve_decision. Defined.
#[global] Instance CTransaction_eq_dec : EqDecision CTransaction.
Proof. solve_decision. Defined.

(** [COutPoint::operator<]: by hash, then by index. *)
Definition outpoint_ltb (a b : COutPoint) : bool :=
  (op_hash a <? op_hash b)%N || ((op_hash a =? op_hash b)%N && (op_n a <? op_n b)%N).

Definition outpoint_eqb (a b : COutPoint) : bool :=
  (op_hash a =? op_hash b)%N && (op_n a =? op_n b)%N.

(** ** Random sources

    [GetRandInt(n)] draws from the process-wide generator and
    [FastRandomContext::randbool] from a per-call fast generator.  Both are
    tapes of draws; an exhausted tape keeps answering [0] / [false]. *)

Record Rng := mkRng { rng_ints : list N; rng_bits : list bool }.

Definition GetRandInt (nMax : N) (r : Rng) : N * Rng :=
  match rng_ints r with
  | [] => (0%N, r)
  | x :: xs => ((x mod nMax)%N, mkRng xs (rng_bits r))
  end.

Definition randbool (r : Rng) : bool * Rng :=
  match rng_bits r with
  | [] => (false, r)
  | b :: bs => (b, mkRng (rng_ints r) bs)
  end.

(** ** Wallet records *)

(** The amount caches of [CWalletTx] ([mutable] members): a flag says
    whether the amount next to it is valid. *)
Record AmountCache := mkCache {
  fDebitCached : bool;                nDebitCached : CAmount;
  fCreditCached : bool;               nCreditCached : CAmount;
  fImmatureCreditCached : bool;       nImmatureCreditCached : CAmount;
  fAvailableCreditCached : bool;      nAvailableCreditCached : CAmount;
  fWatchDebitCached : bool;           nWatchDebitCached : CAmount;
  fWatchCreditCached : bool;          nWatchCreditCached : CAmount;
  fImmatureWatchCreditCached : bool;  nImmatureWatchCreditCached : CAmount;
  fAvailableWatchCreditCached : bool; nAvailableWatchCreditCached : CAmount;
  fChangeCached : bool;               nChangeCached : CAmount
}.

Record CWalletTx := mkWalletTx {
  tx : CTransaction;
  hashBlock : uint256;
  nIndex : Z;
  mapValue : list (string * string);
  vOrderForm : list (string * string);
  nTimeReceived : Z;
  nTimeSmart : Z;
  fFromMe : bool;
  strFromAccount : string;
  nOrderPos : Z;
  fInMempool : bool;
  cache : AmountCache
}.

#[global] Instance AmountCache_eq_dec : EqDecision AmountCache.
Proof. solve_decision. Defined.
#[global] Instance CWalletTx_eq_dec : EqDecision CWalletTx.
Proof. solve_decision. Defined.

Definition GetHash (wtx : CWalletTx) : uint256 := tx_hash (tx wtx).

Definition set_tx (t : CTransaction) (w : CWalletTx) : CWalletTx :=
  mkWalletTx t (hashBlock w) (nIndex w) (mapValue w) (vOrderForm w)
    (nTimeReceived w) (nTimeSmart w) (fFromMe w) (strFromAccount w)
    (nOrderPos w) (fInMempool w) (cache w).
Definition set_hashBlock (h : uint256) (w : CWalletTx) : CWalletTx :=
  mkWalletTx (tx w) h (nIndex w) (mapValue w) (vOrderForm w)
    (nTimeReceived w) (nTimeSmart w) (fFromMe w) (strFromAccount w)
    (nOrderPos w) (fInMempool w) (cache w).
Definition set_nIndex (i : Z) (w : CWalletTx) : CWalletTx :=
  mkWalletTx (tx w) (hashBlock w) i (mapValue w) (vOrderForm w)
    (nTimeReceived w) (nTimeSmart w) (fFromMe w) (strFromAccount w)
    (nOrderPos w) (fInMempool w) (cache w).
Definition set_nTimeReceived (t : Z) (w : CWalletTx) : CWalletTx :=
  mkWalletTx (tx w) (hashBlock w) (nIndex w) (mapValue w) (vOrderForm w)
    t (nTimeSmart w) (fFromMe w) (strFromAccount w)
    (nOrderPos w) (fInMempool w) (cache w).
Definition set_nTimeSmart (t : Z) (w : CWalletTx) : CWalletTx :=
  mkWalletTx (tx w) (hashBlock w) (nIndex w) (mapValue w) (vOrderForm w)
    (nTimeReceived w) t (fFromMe w) (strFromAccount w)
    (nOrderPos w) (fInMempool w) (cache w).
Definition set_fFromMe (b : bool) (w : CWalletTx) : CWalletTx :=
  mkWalletTx (tx w) (hashBlock w) (nIndex w) (mapValue w) (vOrderForm w)
    (nTimeReceived w) (nTimeSmart w) b (strFromAccount w)
    (nOrderPos w) (fInMempool w) (cache w).
Definition set_nOrderPos (p : Z) (w : CWalletTx) : CWalletTx :=
  mkWalletTx (tx w) (hashBlock w) (nIndex w) (mapValue w) (vOrderForm w)
    (nTimeReceived w) (nTimeSmart w) (fFromMe w) (strFromAccount w)
    p (fInMempool w) (cache w).
Definition set_cache (c : AmountCache) (w : CWalletTx) : CWalletTx :=
  mkWalletTx (tx w) (hashBlock w) (nIndex w) (mapValue w) (vOrderForm w)
    (nTimeReceived w) (nTimeSmart w) (fFromMe w) (strFromAccount w)
    (nOrderPos w) (fInMempool w) c.

(** [CMerkleTx::ABANDON_HASH] (line 73 of the source). *)
Definition ABANDON_HASH : uint256 := 1%N.

(** Modelled from the spec: [hashUnset], [isAbandoned] and [setAbandoned]
    are inline members declared in wallet.h, which is not part of the
    source at hand.  The spec gives a record an abandoned flag and an
    unset block reference; the source keeps both in [hashBlock]
    ([AddToWallet] clears the abandoned state by assigning [hashBlock]),
    with [ABANDON_HASH] as the marker. *)
Definition hashUnset (w : CWalletTx) : bool :=
  (hashBlock w =? 0)%N || (hashBlock w =? ABANDON_HASH)%N.
Definition isAbandoned (w : CWalletTx) : bool := (hashBlock w =? ABANDON_HASH)%N.
Definition setAbandoned (w : CWalletTx) : CWalletTx := set_hashBlock ABANDON_HASH w.

(** Modelled from the spec: [CWalletTx::MarkDirty] is declared in
    wallet.h.  The spec: cached credit/debit amounts carry an explicit
    dirty bit that is set on mutation; marking dirty invalidates every
    cached amount and leaves the stored amounts alone. *)
Definition MarkDirty_cache (c : AmountCache) : AmountCache :=
  mkCache false (nDebitCached c) false (nCreditCached c)
          false (nImmatureCreditCached c) false (nAvailableCreditCached c)
          false (nWatchDebitCached c) false (nWatchCreditCached c)
          false (nImmatureWatchCreditCached c) false (nAvailableWatchCreditCached c)
          false (nChangeCached c).
Definition MarkDirty (w : CWalletTx) : CWalletTx := set_cache (MarkDirty_cache (cache w)) w.

(** The writes of a getter that has computed an amount: the amount and
    the flag next to it ([nDebitCached = v; fDebitCached = true] and the
    like). *)
Definition set_DebitCached (v : CAmount) (c : AmountCache) : AmountCache :=
  mkCache true v (fCreditCached c) (nCreditCached c)
          (fImmatureCreditCached c) (nImmatureCreditCached c)
          (fAvailableCreditCached c) (nAvailableCreditCached c)
          (fWatchDebitCached c) (nWatchDebitCached c)
          (fWatchCreditCached c) (nWatchCreditCached c)
          (fImmatureWatchCreditCached c) (nImmatureWatchCreditCached c)
          (fAvailableWatchCreditCached c) (nAvailableWatchCreditCached c)
          (fChangeCached c) (nChangeCached c).
Definition set_WatchDebitCached (v : CAmount) (c : AmountCache) : AmountCache :=
  mkCache (fDebitCached c) (nDebitCached c) (fCreditCached c) (nCreditCached c)
          (fImmatureCreditCached c) (nImmatureCreditCached c)
          (fAvailableCreditCached c) (nAvailableCreditCached c)
          true v
          (fWatchCreditCached c) (nWatchCreditCached c)
          (fImmatureWatchCreditCached c) (nImmatureWatchCreditCached c)
          (fAvailableWatchCreditCached c) (nAvailableWatchCreditCached c)
          (fChangeCached c) (nChangeCached c).
Definition set_AvailableCreditCached (v : CAmount) (c : AmountCache) : AmountCache :=
  mkCache (fDebitCached c) (nDebitCached c) (fCreditCached c) (nCreditCached c)
          (fImmatureCreditCached c) (nImmatureCreditCached c)
          true v
          (fWatchDebitCached c) (nWatchDebitCached c)
          (fWatchCreditCached c) (nWatchCreditCached c)
          (fImmatureWatchCreditCached c) (nImmatureWatchCreditCached c)
          (fAvailableWatchCreditCached c) (nAvailableWatchCreditCached c)
          (fChangeCached c) (nChangeCached c).

Definition InMempool (w : CWalletTx) : bool := fInMempool w.
Definition IsCoinBase (w : CWalletTx) : bool := tx_IsCoinBase (tx w).

(** ** The wallet *)

(** An entry of [wtxOrdered]: [TxPair] is a pair of pointers of which one
    is null; a record is pointed to by its key in [mapWallet], an
    accounting entry is reduced to the [nTime] that is read from it. *)
Inductive TxPair := TxPair_wtx (h : uint256) | TxPair_acentry (nTime : Z).

Record CWallet := mkWallet {
  mapWallet : gmap uint256 CWalletTx;
  mapTxSpends : list (COutPoint * uint256);   (* std::multimap, key order *)
  wtxOrdered : list (Z * TxPair);             (* std::multimap, key order *)
  nOrderPosNext : Z
}.

Definition set_mapWallet (m : gmap uint256 CWalletTx) (w : CWallet) : CWallet :=
  mkWallet m (mapTxSpends w) (wtxOrdered w) (nOrderPosNext w).
Definition set_mapTxSpends (m : list (COutPoint * uint256)) (w : CWallet) : CWallet :=
  mkWallet (mapWallet w) m (wtxOrdered w) (nOrderPosNext w).
Definition set_wtxOrdered (m : list (Z * TxPair)) (w : CWallet) : CWallet :=
  mkWallet (mapWallet w) (mapTxSpends w) m (nOrderPosNext w).
Definition set_nOrderPosNext (p : Z) (w : CWallet) : CWallet :=
  mkWallet (mapWallet w) (mapTxSpends w) (wtxOrdered w) p.

(** ** External collaborators *)

Record CBlockIndex := mkBlockIndex { nHeight : Z; nBlockTime : Z }.

(** [isminetype] bits (script/ismine.h). *)
Definition ISMINE_NO : N := 0.
Definition ISMINE_WATCH_ONLY : N := 3.
Definition ISMINE_SPENDABLE : N := 4.
Definition ISMINE_ALL : N := 7.

Record Externals := mkExternals {
  (* ::IsMine(keystore, script) *)
  IsMine_script : CScript -> N;
  (* chain state: mapBlockIndex.find, chainActive.Contains / Height *)
  mapBlockIndex : uint256 -> option CBlockIndex;
  chainActive_Contains : uint256 -> bool;
  chainActive_Height : Z;
  CheckFinalTx : CTransaction -> bool;
  COINBASE_MATURITY : Z;
  (* mempool *)
  mempool_exists : uint256 -> bool;
  TransactionWithinChainLimit : uint256 -> N -> bool;
  (* InstantSend *)
  IsLockedInstantSendTransaction : uint256 -> bool;
  nInstantSendDepth : Z;
  (* what the argument-less GetDepthInMainChain() of wallet.h forwards to:
     [None] for the one-argument overload, [Some b] for the overload with
     enableIX = b *)
  GetDepthInMainChain_default : option bool;
  (* clock and database *)
  GetAdjustedTime : Z;
  WriteTx : CWalletTx -> bool;
  (* wallet configuration and constants of wallet.h *)
  bSpendZeroConfChange : bool;
  MIN_CHANGE : CAmount;
  MIN_FINAL_CHANGE : CAmount;
  MAX_MONEY : CAmount
}.

(** ** Ordered containers *)

(** [std::set<uint256>]: a strictly increasing list. *)
Fixpoint set_insert (x : uint256) (s : list uint256) : list uint256 :=
  match s with
  | [] => [x]
  | y :: s' =>
      if (x <? y)%N then x :: s
      else if (x =? y)%N then s
      else y :: set_insert x s'
  end.

Definition set_count (x : uint256) (s : list uint256) : bool :=
  existsb (N.eqb x) s.

Definition set_erase (x : uint256) (s : list uint256) : list uint256 :=
  List.filter (fun y => negb (x =? y)%N) s.

(** [std::multimap<COutPoint, uint256>] ([TxSpends]).  [insert] places the
    new entry after the entries with an equivalent key. *)
Fixpoint TxSpends_insert (e : COutPoint * uint256) (m : list (COutPoint * uint256))
  : list (COutPoint * uint256) :=
  match m with
  | [] => [e]
  | x :: m' =>
      if outpoint_ltb (fst e) (fst x) then e :: m
      else x :: TxSpends_insert e m'
  end.

Definition equal_range (k : COutPoint) (m : list (COutPoint * uint256))
  : list (COutPoint * uint256) :=
  List.filter (fun e => outpoint_eqb (fst e) k) m.

Fixpoint lower_bound (k : COutPoint) (m : list (COutPoint * uint256))
  : list (COutPoint * uint256) :=
  match m with
  | [] => []
  | x :: m' => if outpoint_ltb (fst x) k then lower_bound k m' else m
  end.

(** The loop [while (iter != end && iter->first.hash == now) ... iter++]:
    the spenders met from [iter] on, as long as the key's hash is [now]. *)
Fixpoint while_hash (now : uint256) (m : list (COutPoint * uint256)) : list uint256 :=
  match m with
  | [] => []
  | x :: m' =>
      if (op_hash (fst x) =? now)%N then snd x :: while_hash now m' else []
  end.

(** [std::multimap<int64_t, TxPair>] ([TxItems]). *)
Fixpoint TxItems_insert (e : Z * TxPair) (m : list (Z * TxPair)) : list (Z * TxPair) :=
  match m with
  | [] => [e]
  | x :: m' => if fst e <? fst x then e :: m else x :: TxItems_insert e m'
  end.

(** The entries of [mapWallet] in the order a range-for visits them. *)
Definition wallet_entries (m : gmap uint256 CWalletTx) : list (uint256 * CWalletTx) :=
  merge_sort (fun a b => (fst a <=? fst b)%N) (map_to_list m).

Definition sum_values (l : list CTxOut) : CAmount :=
  fold_right (fun o acc => nValue o + acc) 0 l.

Section Ledger.

Variable E : Externals.

(** ** Confirmation depth *)

(** [CMerkleTx::GetDepthInMainChain(pindexRet, enableIX)], lines 4402-4432. *)
Definition GetDepthInMainChain_IX (enableIX : bool) (wtx : CWalletTx) : Z :=
  let finish (nResult : Z) :=
    if enableIX && (nResult <? 6) && IsLockedInstantSendTransaction E (GetHash wtx)
    then nInstantSendDepth E + nResult else nResult in
  if hashUnset wtx then finish 0
  else match mapBlockIndex E (hashBlock wtx) with
       | None => finish 0
       | Some pindex =>
           if negb (chainActive_Contains E (hashBlock wtx)) then finish 0
           else
             let nResult := (if nIndex wtx =? -1 then -1 else 1)
                            * (chainActive_Height E - nHeight pindex + 1) in
             if (nResult =? 0) && negb (mempool_exists E (GetHash wtx)) then -1
             else finish nResult
       end.

(** [CMerkleTx::GetDepthInMainChain(pindexRet)], lines 4435-4452. *)
Definition GetDepthInMainChain_1 (wtx : CWalletTx) : Z :=
  if hashUnset wtx then 0
  else match mapBlockIndex E (hashBlock wtx) with
       | None => 0
       | Some pindex =>
           if negb (chainActive_Contains E (hashBlock wtx)) then 0
           else (if nIndex wtx =? -1 then -1 else 1)
                * (chainActive_Height E - nHeight pindex + 1)
       end.

(** The call [GetDepthInMainChain()] without arguments. *)
Definition GetDepthInMainChain (wtx : CWalletTx) : Z :=
  match GetDepthInMainChain_default E with
  | None => GetDepthInMainChain_1 wtx
  | Some enableIX => GetDepthInMainChain_IX enableIX wtx
  end.

Definition GetBlocksToMaturity (wtx : CWalletTx) : Z :=
  if negb (IsCoinBase wtx) then 0
  else Z.max 0 ((COINBASE_MATURITY E + 1) - GetDepthInMainChain wtx).

(** ** Ownership, debit and credit *)

Definition MoneyRange (v : CAmount) : bool := (0 <=? v) && (v <=? MAX_MONEY E).

Definition IsMine (txout : CTxOut) : N := IsMine_script E (scriptPubKey txout).

Definition flag_and (a b : N) : bool := negb (N.land a b =? 0)%N.

(** [CWallet::GetDebit(const CTxIn&, filter)], lines 1415-1429. *)
Definition GetDebit_txin (w : CWallet) (txin : CTxIn) (filter : N) : CAmount :=
  match mapWallet w !! op_hash (prevout txin) with
  | Some prev =>
      match vout (tx prev) !! N.to_nat (op_n (prevout txin)) with
      | Some o => if flag_and (IsMine o) filter then nValue o else 0
      | None => 0
      end
  | None => 0
  end.

(** [CWallet::GetDebit(const CTransaction&, filter)], lines 1485-1495. *)
Fixpoint GetDebit_loop (w : CWallet) (filter : N) (ins : list CTxIn) (nDebit : CAmount)
  : outcome CAmount :=
  match ins with
  | [] => Ret nDebit
  | txin :: rest =>
      let nDebit := nDebit + GetDebit_txin w txin filter in
      if negb (MoneyRange nDebit) then Throw
      else GetDebit_loop w filter rest nDebit
  end.

Definition GetDebit_tx (w : CWallet) (t : CTransaction) (filter : N) : outcome CAmount :=
  GetDebit_loop w filter (vin t) 0.

(** The amount [CWalletTx::GetDebit(filter)] returns, lines 1887-1916:
    a cached amount is returned as it is, whatever the wallet holds by
    now.  This is the result alone, for callers that hold the record by
    value; [Mutable.GetDebit] below is the member with its writes to the
    cache (lines 1899-1900 and 1910-1911) and returns this amount. *)
Definition GetDebit (w : CWallet) (wtx : CWalletTx) (filter : N) : outcome CAmount :=
  if decide (vin (tx wtx) = []) then Ret 0
  else
    d1 ← (if flag_and filter ISMINE_SPENDABLE then
            if fDebitCached (cache wtx) then Ret (nDebitCached (cache wtx))
            else GetDebit_tx w (tx wtx) ISMINE_SPENDABLE
          else Ret 0);
    d2 ← (if flag_and filter ISMINE_WATCH_ONLY then
            if fWatchDebitCached (cache wtx) then Ret (nWatchDebitCached (cache wtx))
            else GetDebit_tx w (tx wtx) ISMINE_WATCH_ONLY
          else Ret 0);
    Ret (d1 + d2).

(** Modelled from the spec: [CWalletTx::IsFromMe(filter)] is an inline
    member of wallet.h.  A record is self-originated when it debits the
    wallet, as [CWallet::IsFromMe] (line 1480) has it and as the comment
    at its use in [IsTrusted] says (using the record's cached debit).
    The result alone, as [GetDebit]. *)
Definition IsFromMe (w : CWallet) (wtx : CWalletTx) (filter : N) : outcome bool :=
  d ← GetDebit w wtx filter; Ret (0 <? d).

(** [CWallet::GetCredit(const CTxOut&, filter)], lines 1436-1441. *)
Definition GetCredit_txout (txout : CTxOut) (filter : N) : outcome CAmount :=
  if negb (MoneyRange (nValue txout)) then Throw
  else Ret (if flag_and (IsMine txout) filter then nValue txout else 0).

(** ** Spentness *)

(** [CWallet::IsSpent], lines 657-674. *)
Definition IsSpent (w : CWallet) (hash : uint256) (n : N) : bool :=
  existsb (fun e =>
             match mapWallet w !! snd e with
             | Some mit =>
                 let depth := GetDepthInMainChain mit in
                 (0 <? depth) || ((depth =? 0) && negb (isAbandoned mit))
             | None => false
             end)
          (equal_range (mkOutPoint hash n) (mapTxSpends w)).

(** The loop of [CWalletTx::GetAvailableCredit], lines 1978-1988, over
    the outputs from index [i] on. *)
Fixpoint GetAvailableCredit_loop (w : CWallet) (hashTx : uint256) (i : N)
         (outs : list CTxOut) (nCredit : CAmount) : outcome CAmount :=
  match outs with
  | [] => Ret nCredit
  | txout :: rest =>
      if negb (IsSpent w hashTx i) then
        c ← GetCredit_txout txout ISMINE_SPENDABLE;
        let nCredit := nCredit + c in
        if negb (MoneyRange nCredit) then Throw
        else GetAvailableCredit_loop w hashTx (N.succ i) rest nCredit
      else GetAvailableCredit_loop w hashTx (N.succ i) rest nCredit
  end.

(** ** Trust and balance *)

(** The loop over the inputs in [IsTrusted], lines 2070-2079. *)
Fixpoint IsTrusted_inputs (w : CWallet) (ins : list CTxIn) : outcome bool :=
  match ins with
  | [] => Ret true
  | txin :: rest =>
      match mapWallet w !! op_hash (prevout txin) with
      | None => Ret false
      | Some parent =>
          match vout (tx parent) !! N.to_nat (op_n (prevout txin)) with
          | None => Undefined
          | Some parentOut =>
              if negb (IsMine parentOut =? ISMINE_SPENDABLE)%N then Ret false
              else IsTrusted_inputs w rest
          end
      end
  end.

(** What [CWalletTx::IsTrusted] answers, lines 2052-2081; the result
    alone, as [GetDebit]. *)
Definition IsTrusted (w : CWallet) (wtx : CWalletTx) : outcome bool :=
  if negb (CheckFinalTx E (tx wtx)) then Ret false
  else
    let nDepth := GetDepthInMainChain wtx in
    if 1 <=? nDepth then Ret true
    else if nDepth <? 0 then Ret false
    else if negb (bSpendZeroConfChange E) then Ret false
    else
      fromMe ← IsFromMe w wtx ISMINE_ALL;
      if negb fromMe then Ret false
      else if negb (InMempool wtx) then Ret false
      else IsTrusted_inputs w (vin (tx wtx)).

(** Default of the [fUseCache] parameter of [GetAvailableCredit]
    (wallet.h): callers may use cached results. *)
Definition fUseCache_default : bool := true.

(** ** Conflicts *)

(** [CWallet::GetConflicts], lines 580-601. *)
Definition GetConflicts (w : CWallet) (txid : uint256) : list uint256 :=
  match mapWallet w !! txid with
  | None => []
  | Some wtx =>
      fold_left
        (fun result txin =>
           let range := equal_range (prevout txin) (mapTxSpends w) in
           if (length range <=? 1)%nat then result
           else fold_left (fun r e => set_insert (snd e) r) range result)
        (vin (tx wtx)) []
  end.

(** [CWalletTx::GetConflicts], lines 1875-1885: the caller-facing wrapper
    removes the record's own hash. *)
Definition CWalletTx_GetConflicts (w : CWallet) (wtx : CWalletTx) : list uint256 :=
  set_erase (GetHash wtx) (GetConflicts w (GetHash wtx)).

End Ledger.

(** ** The amount caches

    [GetDebit], [IsFromMe], [IsTrusted] and [GetAvailableCredit] are
    [const] members of [CWalletTx] that write the [mutable] caches of the
    record they are called on, and [GetBalance] calls them on the records
    of [mapWallet] themselves.  [Mutable] has these members with that
    effect: each returns its result and the record as the call leaves it.
    What a call has written before an exception leaves it is not
    followed. *)
Module Mutable.

Section Caches.

Variable E : Externals.

(** [CWalletTx::GetDebit(filter)], lines 1887-1916. *)
Definition GetDebit (w : CWallet) (wtx : CWalletTx) (filter : N)
  : outcome (CAmount * CWalletTx) :=
  if decide (vin (tx wtx) = []) then Ret (0, wtx)
  else
    '(d1, wtx) ←
      (if flag_and filter ISMINE_SPENDABLE then
         if fDebitCached (cache wtx) then Ret (nDebitCached (cache wtx), wtx)
         else
           d ← GetDebit_tx E w (tx wtx) ISMINE_SPENDABLE;
           Ret (d, set_cache (set_DebitCached d (cache wtx)) wtx)
       else Ret (0, wtx));
    '(d2, wtx) ←
      (if flag_and filter ISMINE_WATCH_ONLY then
         if fWatchDebitCached (cache wtx) then Ret (nWatchDebitCached (cache wtx), wtx)
         else
           d ← GetDebit_tx E w (tx wtx) ISMINE_WATCH_ONLY;
           Ret (d, set_cache (set_WatchDebitCached d (cache wtx)) wtx)
       else Ret (0, wtx));
    Ret (d1 + d2, wtx).

(** Modelled from the spec: [CWalletTx::IsFromMe(filter)] is an inline
    member of wallet.h.  A record is self-originated when it debits the
    wallet, as [CWallet::IsFromMe] (line 1480) has it and as the comment
    at its use in [IsTrusted] says (using the record's cached debit). *)
Definition IsFromMe (w : CWallet) (wtx : CWalletTx) (filter : N)
  : outcome (bool * CWalletTx) :=
  '(d, wtx) ← GetDebit w wtx filter; Ret (0 <? d, wtx).

(** [CWalletTx::GetAvailableCredit], lines 1965-1993; the record is bound
    to its wallet. *)
Definition GetAvailableCredit (w : CWallet) (wtx : CWalletTx) (fUseCache : bool)
  : outcome (CAmount * CWalletTx) :=
  if IsCoinBase wtx && (0 <? GetBlocksToMaturity E wtx) then Ret (0, wtx)
  else if fUseCache && fAvailableCreditCached (cache wtx)
       then Ret (nAvailableCreditCached (cache wtx), wtx)
       else
         nCredit ← GetAvailableCredit_loop E w (GetHash wtx) 0 (vout (tx wtx)) 0;
         Ret (nCredit, set_cache (set_AvailableCreditCached nCredit (cache wtx)) wtx).

(** [CWalletTx::IsTrusted], lines 2052-2081. *)
Definition IsTrusted (w : CWallet) (wtx : CWalletTx) : outcome (bool * CWalletTx) :=
  if negb (CheckFinalTx E (tx wtx)) then Ret (false, wtx)
  else
    let nDepth := GetDepthInMainChain E wtx in
    if 1 <=? nDepth then Ret (true, wtx)
    else if nDepth <? 0 then Ret (false, wtx)
    else if negb (bSpendZeroConfChange E) then Ret (false, wtx)
    else
      '(fromMe, wtx) ← IsFromMe w wtx ISMINE_ALL;
      if negb fromMe then Ret (false, wtx)
      else if negb (InMempool wtx) then Ret (false, wtx)
      else
        trusted ← IsTrusted_inputs E w (vin (tx wtx));
        Ret (trusted, wtx).

(** [CWallet::GetBalance], lines 2151-2165.  The loop visits the keys of
    [mapWallet] in order; [pcoin] points to the record in the map, so
    what [IsTrusted] and [GetAvailableCredit] write is in the wallet
    afterwards. *)
Fixpoint GetBalance_loop (keys : list uint256) (w : CWallet) (nTotal : CAmount)
  : outcome (CAmount * CWallet) :=
  match keys with
  | [] => Ret (nTotal, w)
  | hash :: rest =>
      match mapWallet w !! hash with
      | None => Undefined
      | Some pcoin =>
          '(trusted, pcoin) ← IsTrusted w pcoin;
          let w := set_mapWallet (<[hash := pcoin]> (mapWallet w)) w in
          if (trusted : bool) then
            '(nCredit, pcoin) ← GetAvailableCredit w pcoin fUseCache_default;
            let w := set_mapWallet (<[hash := pcoin]> (mapWallet w)) w in
            GetBalance_loop rest w (nTotal + nCredit)
          else GetBalance_loop rest w nTotal
      end
  end.

Definition GetBalance (w : CWallet) : outcome (CAmount * CWallet) :=
  GetBalance_loop (List.map fst (wallet_entries (mapWallet w))) w 0.

End Caches.

End Mutable.

Section LedgerUpdates.

Variable E : Externals.

(** The loop that marks the parents' caches dirty (lines 1232-1238 and
    1296-1301). *)
Definition MarkDirty_parents (ins : list CTxIn) (w : CWallet) : CWallet :=
  fold_left
    (fun w txin =>
       match mapWallet w !! op_hash (prevout txin) with
       | Some parent =>
           set_mapWallet (<[op_hash (prevout txin) := MarkDirty parent]> (mapWallet w)) w
       | None => w
       end)
    ins w.

(** The loop that queues the spenders that are not done yet. *)
Definition queue_spenders (spenders done todo : list uint256) : list uint256 :=
  fold_left (fun todo s => if set_count s done then todo else set_insert s todo)
            spenders todo.

(** ** MarkConflicted *)

(** The [while (!todo.empty())] loop of [MarkConflicted], lines 1271-1303. *)
Fixpoint MarkConflicted_loop (fuel : nat) (hashBlock' : uint256) (conflictconfirms : Z)
         (todo done : list uint256) (w : CWallet) : outcome CWallet :=
  match todo with
  | [] => Ret w
  | now :: _ =>
      match fuel with
      | O => OutOfFuel
      | S fuel' =>
          let todo := set_erase now todo in
          let done := set_insert now done in
          match mapWallet w !! now with
          | None => AssertFail
          | Some wtx =>
              let currentconfirm := GetDepthInMainChain E wtx in
              if conflictconfirms <? currentconfirm then
                let wtx := MarkDirty (set_hashBlock hashBlock' (set_nIndex (-1) wtx)) in
                let w := set_mapWallet (<[now := wtx]> (mapWallet w)) w in
                let todo := queue_spenders
                              (while_hash now (lower_bound (mkOutPoint now 0) (mapTxSpends w)))
                              done todo in
                let w := MarkDirty_parents (vin (tx wtx)) w in
                MarkConflicted_loop fuel' hashBlock' conflictconfirms todo done w
              else MarkConflicted_loop fuel' hashBlock' conflictconfirms todo done w
          end
      end
  end.

(** How deeply [hashBlock] conflicts with the best chain, lines 1249-1255. *)
Definition conflictconfirms_of (hashBlock' : uint256) : Z :=
  match mapBlockIndex E hashBlock' with
  | Some pindex =>
      if chainActive_Contains E hashBlock'
      then - (chainActive_Height E - nHeight pindex + 1)
      else 0
  | None => 0
  end.

(** [CWallet::MarkConflicted], lines 1245-1304. *)
Definition MarkConflicted (fuel : nat) (hashBlock' hashTx : uint256) (w : CWallet)
  : outcome CWallet :=
  let conflictconfirms := conflictconfirms_of hashBlock' in
  if 0 <=? conflictconfirms then Ret w
  else MarkConflicted_loop fuel hashBlock' conflictconfirms (set_insert hashTx []) [] w.

(** ** AbandonTransaction *)

(** The [while (!todo.empty())] loop of [AbandonTransaction], lines
    1203-1240.  The spenders are looked up from [hashTx], the transaction
    the call started from, and kept while their outpoint is one of [now]. *)
Fixpoint AbandonTransaction_loop (fuel : nat) (hashTx : uint256)
         (todo done : list uint256) (w : CWallet) : outcome CWallet :=
  match todo with
  | [] => Ret w
  | now :: _ =>
      match fuel with
      | O => OutOfFuel
      | S fuel' =>
          let todo := set_erase now todo in
          let done := set_insert now done in
          match mapWallet w !! now with
          | None => AssertFail
          | Some wtx =>
              let currentconfirm := GetDepthInMainChain E wtx in
              if 0 <? currentconfirm then AssertFail
              else if (currentconfirm =? 0) && negb (isAbandoned wtx) then
                if InMempool wtx then AssertFail
                else
                  let wtx := MarkDirty (setAbandoned (set_nIndex (-1) wtx)) in
                  let w := set_mapWallet (<[now := wtx]> (mapWallet w)) w in
                  let todo := queue_spenders
                                (while_hash now (lower_bound (mkOutPoint hashTx 0) (mapTxSpends w)))
                                done todo in
                  let w := MarkDirty_parents (vin (tx wtx)) w in
                  AbandonTransaction_loop fuel' hashTx todo done w
              else AbandonTransaction_loop fuel' hashTx todo done w
          end
      end
  end.

(** [CWallet::AbandonTransaction], lines 1184-1243: the returned flag and
    the wallet after the call. *)
Definition AbandonTransaction (fuel : nat) (hashTx : uint256) (w : CWallet)
  : outcome (bool * CWallet) :=
  match mapWallet w !! hashTx with
  | None => AssertFail
  | Some origtx =>
      if (0 <? GetDepthInMainChain E origtx) || InMempool origtx then Ret (false, w)
      else
        w' ← AbandonTransaction_loop fuel hashTx (set_insert hashTx []) [] w;
        Ret (true, w')
  end.

(** ** AddToWallet *)

(** [CWallet::IncOrderPosNext], lines 865-875. *)
Definition IncOrderPosNext (w : CWallet) : Z * CWallet :=
  (nOrderPosNext w, set_nOrderPosNext (nOrderPosNext w + 1) w).

(** The record a [TxPair] of [wtxOrdered] points to contributes its smart
    time, or its receive time when that is zero; an accounting entry its
    time. *)
Definition TxPair_time (w : CWallet) (p : TxPair) : outcome Z :=
  match p with
  | TxPair_wtx h =>
      match mapWallet w !! h with
      | Some pwtx => Ret (if nTimeSmart pwtx =? 0 then nTimeReceived pwtx else nTimeSmart pwtx)
      | None => Undefined
      end
  | TxPair_acentry t => Ret t
  end.

(** The reverse scan of [wtxOrdered] in [ComputeTimeSmart], lines
    4073-4095: the latest entry and the latest "now". *)
Fixpoint ComputeTimeSmart_scan (w : CWallet) (self : uint256) (latestTolerated latestNow : Z)
         (items : list (Z * TxPair)) : outcome (Z * Z) :=
  match items with
  | [] => Ret (0, latestNow)
  | it :: rest =>
      match snd it with
      | TxPair_wtx h =>
          if (h =? self)%N then ComputeTimeSmart_scan w self latestTolerated latestNow rest
          else
            nSmartTime ← TxPair_time w (snd it);
            if nSmartTime <=? latestTolerated
            then Ret (nSmartTime, if latestNow <? nSmartTime then nSmartTime else latestNow)
            else ComputeTimeSmart_scan w self latestTolerated latestNow rest
      | TxPair_acentry _ =>
          nSmartTime ← TxPair_time w (snd it);
          if nSmartTime <=? latestTolerated
          then Ret (nSmartTime, if latestNow <? nSmartTime then nSmartTime else latestNow)
          else ComputeTimeSmart_scan w self latestTolerated latestNow rest
      end
  end.

(** [CWallet::ComputeTimeSmart], lines 4062-4104. *)
Definition ComputeTimeSmart (w : CWallet) (wtx : CWalletTx) : outcome Z :=
  if negb (hashUnset wtx) then
    match mapBlockIndex E (hashBlock wtx) with
    | Some pindex =>
        let latestNow := nTimeReceived wtx in
        r ← ComputeTimeSmart_scan w (GetHash wtx) (latestNow + 300) latestNow
              (rev (wtxOrdered w));
        let blocktime := nBlockTime pindex in
        Ret (Z.max (fst r) (Z.min blocktime (snd r)))
    | None => Ret (nTimeReceived wtx)
    end
  else Ret (nTimeReceived wtx).

(** [CWalletTx::IsEquivalentTo], lines 2083-2090: the transactions are
    compared with their input scripts cleared.  [CTransaction] equality is
    equality of hashes; the hash is taken to be collision-free, so the
    stripped bodies are compared. *)
Definition strip_scriptSig (t : CTransaction) : list CTxIn * list CTxOut :=
  (List.map (fun txin => mkTxIn (prevout txin) [] (nSequence txin)) (vin t), vout t).

Definition IsEquivalentTo (a b : CWalletTx) : bool :=
  bool_decide (strip_scriptSig (tx a) = strip_scriptSig (tx b)).

(** A default-constructed [CWalletTx], which [mapWallet[hash]] inserts for
    a missing key. *)
Definition CWalletTx_default : CWalletTx :=
  mkWalletTx (mkTx 0%N [] [] false false false) 0%N (-1) [] [] 0 0 false EmptyString (-1)
             false
             (mkCache false 0 false 0 false 0 false 0 false 0 false 0 false 0 false 0 false 0).

Definition mapWallet_subscript (h : uint256) (w : CWallet) : CWalletTx * CWallet :=
  match mapWallet w !! h with
  | Some wtx => (wtx, w)
  | None => (CWalletTx_default, set_mapWallet (<[h := CWalletTx_default]> (mapWallet w)) w)
  end.

Definition INT_MAX : Z := 2147483647.

(** First loop of [SyncMetaData], lines 621-629: the spender with the
    smallest [nOrderPos]. *)
Fixpoint SyncMetaData_oldest (range : list (COutPoint * uint256)) (nMinOrderPos : Z)
         (copyFrom : option uint256) (w : CWallet) : option uint256 * CWallet :=
  match range with
  | [] => (copyFrom, w)
  | it :: rest =>
      let '(wtx, w) := mapWallet_subscript (snd it) w in
      if nOrderPos wtx <? nMinOrderPos
      then SyncMetaData_oldest rest (nOrderPos wtx) (Some (snd it)) w
      else SyncMetaData_oldest rest nMinOrderPos copyFrom w
  end.

(** Second loop of [SyncMetaData], lines 634-650. *)
Fixpoint SyncMetaData_copy (range : list (COutPoint * uint256)) (from : uint256) (w : CWallet)
  : CWallet :=
  match range with
  | [] => w
  | it :: rest =>
      let hash := snd it in
      let '(copyTo, w) := mapWallet_subscript hash w in
      if (hash =? from)%N then SyncMetaData_copy rest from w
      else
        let '(copyFrom, w) := mapWallet_subscript from w in
        if negb (IsEquivalentTo copyFrom copyTo) then SyncMetaData_copy rest from w
        else
          let copyTo :=
            mkWalletTx (tx copyTo) (hashBlock copyTo) (nIndex copyTo)
                       (mapValue copyFrom) (vOrderForm copyFrom)
                       (nTimeReceived copyTo) (nTimeSmart copyFrom) (fFromMe copyFrom)
                       (strFromAccount copyFrom) (nOrderPos copyTo) (fInMempool copyTo)
                       (cache copyTo) in
          SyncMetaData_copy rest from
            (set_mapWallet (<[hash := copyTo]> (mapWallet w)) w)
  end.

(** [CWallet::SyncMetaData], lines 615-651. *)
Definition SyncMetaData (range : list (COutPoint * uint256)) (w : CWallet) : outcome CWallet :=
  let '(copyFrom, w) := SyncMetaData_oldest range INT_MAX None w in
  match copyFrom with
  | None => AssertFail
  | Some from => Ret (SyncMetaData_copy range from w)
  end.

(** [CWallet::AddToSpends(outpoint, wtxid)], lines 676-683. *)
Definition AddToSpends_outpoint (outpoint : COutPoint) (wtxid : uint256) (w : CWallet)
  : outcome CWallet :=
  let w := set_mapTxSpends (TxSpends_insert (outpoint, wtxid) (mapTxSpends w)) w in
  SyncMetaData (equal_range outpoint (mapTxSpends w)) w.

Fixpoint AddToSpends_loop (ins : list CTxIn) (wtxid : uint256) (w : CWallet)
  : outcome CWallet :=
  match ins with
  | [] => Ret w
  | txin :: rest =>
      w ← AddToSpends_outpoint (prevout txin) wtxid w;
      AddToSpends_loop rest wtxid w
  end.

(** [CWallet::AddToSpends(wtxid)], lines 686-695. *)
Definition AddToSpends (wtxid : uint256) (w : CWallet) : outcome CWallet :=
  match mapWallet w !! wtxid with
  | None => AssertFail
  | Some thisTx =>
      if IsCoinBase thisTx || tx_IsZerocoinSpend (tx thisTx) then Ret w
      else AddToSpends_loop (vin (tx thisTx)) wtxid w
  end.

(** The merge of an observed record into the stored one, lines 1012-1045:
    the stored record and whether it was updated. *)
Definition AddToWallet_merge (wtxIn wtx : CWalletTx) : CWalletTx * bool :=
  let '(wtx, fUpdated) :=
    if negb (hashUnset wtxIn) && negb (hashBlock wtxIn =? hashBlock wtx)%N
    then (set_hashBlock (hashBlock wtxIn) wtx, true) else (wtx, false) in
  let '(wtx, fUpdated) :=
    if (hashBlock wtxIn =? 0)%N && isAbandoned wtx
    then (set_hashBlock (hashBlock wtxIn) wtx, true) else (wtx, fUpdated) in
  let '(wtx, fUpdated) :=
    if negb (nIndex wtxIn =? -1) && negb (nIndex wtxIn =? nIndex wtx)
    then (set_nIndex (nIndex wtxIn) wtx, true) else (wtx, fUpdated) in
  let '(wtx, fUpdated) :=
    if fFromMe wtxIn && negb (eqb (fFromMe wtxIn) (fFromMe wtx))
    then (set_fFromMe (fFromMe wtxIn) wtx, true) else (wtx, fUpdated) in
  if tx_HasWitness (tx wtxIn) && negb (tx_HasWitness (tx wtx))
  then (set_tx (tx wtxIn) wtx, true) else (wtx, fUpdated).

(** [CWallet::AddToWallet], lines 989-1071: the returned flag and the
    wallet after the call.  The caches of the record are marked dirty at
    line 1056; [BindWallet] (line 1000), which marks them dirty before the
    merge as well, is left out, so that a call that fails at [WriteTx]
    returns the record with the cache flags it had.  [nTimeReceived] holds
    the time as [GetAdjustedTime] returns it, where the member is an
    [unsigned int]. *)
Definition AddToWallet (wtxIn : CWalletTx) (w : CWallet) : outcome (bool * CWallet) :=
  let hash := GetHash wtxIn in
  match mapWallet w !! hash with
  | None =>
      (* inserted new *)
      let wtx := set_nTimeReceived (GetAdjustedTime E) wtxIn in
      let '(pos, w) := IncOrderPosNext w in
      let wtx := set_nOrderPos pos wtx in
      let w := set_wtxOrdered (TxItems_insert (pos, TxPair_wtx hash) (wtxOrdered w)) w in
      let w := set_mapWallet (<[hash := wtx]> (mapWallet w)) w in
      ts ← ComputeTimeSmart w wtx;
      let wtx := set_nTimeSmart ts wtx in
      let w := set_mapWallet (<[hash := wtx]> (mapWallet w)) w in
      w ← AddToSpends hash w;
      match mapWallet w !! hash with
      | None => Undefined
      | Some wtx =>
          if negb (WriteTx E wtx) then Ret (false, w)
          else Ret (true, set_mapWallet (<[hash := MarkDirty wtx]> (mapWallet w)) w)
      end
  | Some wtx =>
      let '(wtx, fUpdated) := AddToWallet_merge wtxIn wtx in
      let w := set_mapWallet (<[hash := wtx]> (mapWallet w)) w in
      if fUpdated && negb (WriteTx E wtx) then Ret (false, w)
      else Ret (true, set_mapWallet (<[hash := MarkDirty wtx]> (mapWallet w)) w)
  end.

End LedgerUpdates.

(** ** Coin selection *)

(** [COutput]: a candidate produced by the candidate scan.  [out_tx] is
    the record the candidate points to. *)
Record COutput := mkOutput {
  out_tx : CWalletTx;
  out_i : N;
  nDepth : Z;
  fSpendable : bool;
  fSolvable : bool;
  fSafe : bool
}.

Record CInputCoin := mkInputCoin { outpoint : COutPoint; txout : CTxOut }.

(** Modelled from the spec: the constructor [CInputCoin(walletTx, i)] is
    declared in wallet.h.  An input coin is a candidate reduced to
    (outpoint, amount, script); an output index out of range is rejected
    with an exception. *)
Definition CInputCoin_of (pcoin : CWalletTx) (i : N) : outcome CInputCoin :=
  match vout (tx pcoin) !! N.to_nat i with
  | Some o => Ret (mkInputCoin (mkOutPoint (GetHash pcoin) i) o)
  | None => Throw
  end.

(** [std::set<CInputCoin>], ordered by outpoint. *)
Fixpoint coinset_insert (c : CInputCoin) (s : list CInputCoin) : list CInputCoin :=
  match s with
  | [] => [c]
  | y :: s' =>
      if outpoint_ltb (outpoint c) (outpoint y) then c :: s
      else if outpoint_eqb (outpoint c) (outpoint y) then s
      else y :: coinset_insert c s'
  end.

Definition coinset_count (c : CInputCoin) (s : list CInputCoin) : bool :=
  existsb (fun y => outpoint_eqb (outpoint c) (outpoint y)) s.

Definition coin_value (c : CInputCoin) : CAmount := nValue (txout c).

Definition sum_coins (l : list CInputCoin) : CAmount :=
  fold_right (fun c acc => coin_value c + acc) 0 l.

(** [std::iter_swap] on positions [i] and [j]. *)
Definition iter_swap {A} (i j : nat) (l : list A) : list A :=
  match l !! i, l !! j with
  | Some a, Some b => <[i := b]> (<[j := a]> l)
  | _, _ => l
  end.

(** [std::random_shuffle(first, last, GetRandInt)]: position [i] is
    swapped with a position drawn from [0, i]. *)
Fixpoint random_shuffle_from {A} (steps i : nat) (l : list A) (r : Rng) : list A * Rng :=
  match steps with
  | O => (l, r)
  | S steps' =>
      let '(j, r) := GetRandInt (N.of_nat (i + 1)) r in
      random_shuffle_from steps' (S i) (if decide (i = N.to_nat j) then l
                                        else iter_swap i (N.to_nat j) l) r
  end.

Definition random_shuffle {A} (l : list A) (r : Rng) : list A * Rng :=
  random_shuffle_from (length l - 1) 1 l r.

(** [std::sort] with [CompareValueOnly], then [std::reverse]: the coins by
    decreasing value.  [std::sort] leaves the order of coins of equal
    value open; they are taken in the order of a stable sort. *)
Definition sort_descending (vValue : list CInputCoin) : list CInputCoin :=
  rev (merge_sort (fun a b => coin_value a <=? coin_value b) vValue).

(** The state of one repetition of [ApproximateBestSubset]. *)
Record ABS := mkABS {
  vfIncluded : list bool;
  nTotal : CAmount;
  fReachedTarget : bool;
  vfBest : list bool;
  nBest : CAmount;
  abs_rng : Rng
}.

(** The body of the innermost loop, lines 2532-2547. *)
Definition ABS_step (nPass : nat) (nTargetValue : CAmount) (i : nat) (v : CAmount)
           (s : ABS) : ABS :=
  let '(take, r) :=
    if decide (nPass = 0%nat) then randbool (abs_rng s)
    else (negb (default false (vfIncluded s !! i)), abs_rng s) in
  if take then
    let nTotal := nTotal s + v in
    let vfIncluded := <[i := true]> (vfIncluded s) in
    if nTargetValue <=? nTotal then
      let '(nBest, vfBest) :=
        if nTotal <? nBest s then (nTotal, vfIncluded) else (nBest s, vfBest s) in
      mkABS (<[i := false]> vfIncluded) (nTotal - v) true vfBest nBest r
    else mkABS vfIncluded nTotal (fReachedTarget s) (vfBest s) (nBest s) r
  else mkABS (vfIncluded s) (nTotal s) (fReachedTarget s) (vfBest s) (nBest s) r.

(** [for (i = 0; i < vValue.size(); i++)]. *)
Fixpoint ABS_pass (nPass : nat) (nTargetValue : CAmount) (i : nat)
         (vValue : list CInputCoin) (s : ABS) : ABS :=
  match vValue with
  | [] => s
  | c :: rest =>
      ABS_pass nPass nTargetValue (S i) rest (ABS_step nPass nTargetValue i (coin_value c) s)
  end.

(** One repetition: [for (nPass = 0; nPass < 2 && !fReachedTarget; nPass++)]. *)
Definition ABS_rep (nTargetValue : CAmount) (vValue : list CInputCoin)
           (vfBest : list bool) (nBest : CAmount) (r : Rng) : ABS :=
  let s := mkABS (replicate (length vValue) false) 0 false vfBest nBest r in
  let s := ABS_pass 0 nTargetValue 0 vValue s in
  if fReachedTarget s then s else ABS_pass 1 nTargetValue 0 vValue s.

(** [for (nRep = 0; nRep < iterations && nBest != nTargetValue; nRep++)]. *)
Fixpoint ABS_reps (iterations : nat) (nTargetValue : CAmount) (vValue : list CInputCoin)
         (best : list bool * CAmount) (r : Rng) : list bool * CAmount * Rng :=
  match iterations with
  | O => (best, r)
  | S iterations' =>
      if snd best =? nTargetValue then (best, r)
      else
        let s := ABS_rep nTargetValue vValue (fst best) (snd best) r in
        ABS_reps iterations' nTargetValue vValue (vfBest s, nBest s) (abs_rng s)
  end.

(** [ApproximateBestSubset], lines 2507-2551, with the default of 1000
    iterations: the best subset, its total and the random source left. *)
Definition ApproximateBestSubset (vValue : list CInputCoin) (nTotalLower nTargetValue : CAmount)
           (r : Rng) : list bool * CAmount * Rng :=
  ABS_reps 1000 nTargetValue vValue (replicate (length vValue) true, nTotalLower) r.

(** The coins of [vValue] flagged in [vfBest], lines 2638-2643. *)
Fixpoint insert_best (vValue : list CInputCoin) (vfBest : list bool)
         (setCoinsRet : list CInputCoin) (nValueRet : CAmount)
  : list CInputCoin * CAmount :=
  match vValue, vfBest with
  | c :: vs, b :: bs =>
      if (b : bool) then insert_best vs bs (coinset_insert c setCoinsRet) (nValueRet + coin_value c)
      else insert_best vs bs setCoinsRet nValueRet
  | _, _ => (setCoinsRet, nValueRet)
  end.

Fixpoint insert_all (vValue : list CInputCoin) (setCoinsRet : list CInputCoin)
         (nValueRet : CAmount) : list CInputCoin * CAmount :=
  match vValue with
  | [] => (setCoinsRet, nValueRet)
  | c :: vs => insert_all vs (coinset_insert c setCoinsRet) (nValueRet + coin_value c)
  end.

(** What the scan of the candidates leaves: either an exact match, or the
    coins below target + MIN_CHANGE with their total and the lowest coin
    above. *)
Inductive ScanResult :=
| ExactMatch (coin : CInputCoin)
| Scanned (coinLowestLarger : option CInputCoin) (vValue : list CInputCoin)
          (nTotalLower : CAmount).

Section Selection.

Variable E : Externals.

(** The loop over [vCoins], lines 2566-2598. *)
Fixpoint SelectCoinsMinConf_scan (w : CWallet) (nTargetValue : CAmount)
         (nConfMine nConfTheirs : Z) (nMaxAncestors : N) (vCoins : list COutput)
         (coinLowestLarger : option CInputCoin) (vValue : list CInputCoin)
         (nTotalLower : CAmount) : outcome ScanResult :=
  match vCoins with
  | [] => Ret (Scanned coinLowestLarger vValue nTotalLower)
  | output :: rest =>
      let continue := SelectCoinsMinConf_scan w nTargetValue nConfMine nConfTheirs
                        nMaxAncestors rest in
      if negb (fSpendable output) then continue coinLowestLarger vValue nTotalLower
      else
        let pcoin := out_tx output in
        fromMe ← IsFromMe E w pcoin ISMINE_ALL;
        if nDepth output <? (if (fromMe : bool) then nConfMine else nConfTheirs)
        then continue coinLowestLarger vValue nTotalLower
        else if negb (TransactionWithinChainLimit E (GetHash pcoin) nMaxAncestors)
        then continue coinLowestLarger vValue nTotalLower
        else
          coin ← CInputCoin_of pcoin (out_i output);
          if coin_value coin =? nTargetValue then Ret (ExactMatch coin)
          else if coin_value coin <? nTargetValue + MIN_CHANGE E
          then continue coinLowestLarger (vValue ++ [coin]) (nTotalLower + coin_value coin)
          else
            match coinLowestLarger with
            | Some lowest =>
                if coin_value coin <? coin_value lowest
                then continue (Some coin) vValue nTotalLower
                else continue coinLowestLarger vValue nTotalLower
            | None => continue (Some coin) vValue nTotalLower
            end
  end.

(** [CWallet::SelectCoinsMinConf], lines 2553-2657.  [setCoinsRet] and
    [nValueRet] are in-out parameters: the values at entry are arguments;
    the result is the returned flag, [setCoinsRet], [nValueRet] and the
    random source left. *)
Definition SelectCoinsMinConf (w : CWallet) (nTargetValue : CAmount)
           (nConfMine nConfTheirs : Z) (nMaxAncestors : N) (vCoins : list COutput)
           (setCoinsRet : list CInputCoin) (nValueRet : CAmount)
           (r : Rng) : outcome (bool * list CInputCoin * CAmount * Rng) :=
  (* setCoinsRet.clear(); nValueRet = 0; *)
  let setCoinsRet : list CInputCoin := [] in
  let nValueRet := 0 in
  let '(vCoins, r) := random_shuffle vCoins r in
  scan ← SelectCoinsMinConf_scan w nTargetValue nConfMine nConfTheirs nMaxAncestors
            vCoins None [] 0;
  match scan with
  | ExactMatch coin =>
      Ret (true, coinset_insert coin setCoinsRet, nValueRet + coin_value coin, r)
  | Scanned coinLowestLarger vValue nTotalLower =>
      if nTotalLower =? nTargetValue then
        let '(s, v) := insert_all vValue setCoinsRet nValueRet in
        Ret (true, s, v, r)
      else if nTotalLower <? nTargetValue then
        match coinLowestLarger with
        | None => Ret (false, setCoinsRet, nValueRet, r)
        | Some lowest =>
            Ret (true, coinset_insert lowest setCoinsRet, nValueRet + coin_value lowest, r)
        end
      else
        let vValue := sort_descending vValue in
        let '(vfBest, nBest, r) := ApproximateBestSubset vValue nTotalLower nTargetValue r in
        let '(vfBest, nBest, r) :=
          if negb (nBest =? nTargetValue) && (nTargetValue + MIN_CHANGE E <=? nTotalLower)
          then ApproximateBestSubset vValue nTotalLower (nTargetValue + MIN_CHANGE E) r
          else (vfBest, nBest, r) in
        let use_larger :=
          match coinLowestLarger with
          | Some lowest =>
              (negb (nBest =? nTargetValue) && (nBest <? nTargetValue + MIN_CHANGE E))
              || (coin_value lowest <=? nBest)
          | None => false
          end in
        match coinLowestLarger, use_larger with
        | Some lowest, true =>
            Ret (true, coinset_insert lowest setCoinsRet, nValueRet + coin_value lowest, r)
        | _, _ =>
            let '(s, v) := insert_best vValue vfBest setCoinsRet nValueRet in
            Ret (true, s, v, r)
        end
  end.

End Selection.

(** ** Coin control and the tiers of selection *)

#[global] Instance COutPoint_countable : Countable COutPoint.
Proof.
  refine (inj_countable' (fun o => (op_hash o, op_n o))
                         (fun p => mkOutPoint (fst p) (snd p)) _).
  intros [h n]; reflexivity.
Defined.

(** Modelled from the spec: [CCoinControl] is declared in
    wallet/coincontrol.h.  The spec: a manual-selection override set and an
    "allow mixing with automatic selection" flag; the change destination is
    kept as the script it resolves to ([None] for [CNoDestination]). *)
Record CCoinControl := mkCoinControl {
  destChange : option CScript;
  fAllowOtherInputs : bool;
  setSelected : gset COutPoint;
  signalRbf : bool
}.

Definition HasSelected (cc : CCoinControl) : bool :=
  bool_decide (setSelected cc ≠ ∅).

Definition ListSelected (cc : CCoinControl) : list COutPoint :=
  merge_sort (fun a b => negb (outpoint_ltb b a)) (elements (setSelected cc)).

Inductive AvailableCoinsType :=
| ALL_COINS
| ONLY_DENOMINATED
| ONLY_NOT40000IFMN
| ONLY_NONDENOMINATED_NOT40000IFMN.

#[global] Instance AvailableCoinsType_eq_dec : EqDecision AvailableCoinsType.
Proof. solve_decision. Defined.

Inductive FeeRateKind := dustRelayFee | minRelayTxFee | discard_rate.

(** The collaborators of coin selection and of the builder. *)
Record BuilderEnv := mkBuilderEnv {
  (* PrivateSend *)
  vecPrivateSendDenominations : list CAmount;
  GetInputPrivateSendRounds : COutPoint -> Z;
  nPrivateSendRounds : Z;
  (* -limitancestorcount / -limitdescendantcount, -walletrejectlongchains *)
  nMaxChainLength : N;
  fRejectLongChains : bool;
  (* default of the nCoinType parameter of SelectCoins (wallet.h) *)
  SelectCoins_nCoinType_default : AvailableCoinsType;
  (* policy: GetDustThreshold(txout, rate), CTxOut::IsDust() *)
  GetDustThreshold : CTxOut -> FeeRateKind -> CAmount;
  CTxOut_IsDust : CTxOut -> bool;
  (* fees and sizes *)
  GetMinimumFee : Z -> CAmount;
  minRelayTxFee_GetFee : Z -> CAmount;
  GetVirtualTransactionSize : list CTxIn -> list CTxOut -> Z;
  GetSerializeSize_txout : CTxOut -> Z;
  GetTransactionWeight : list CTxIn -> list CTxOut -> Z;
  MAX_STANDARD_TX_WEIGHT : Z;
  (* signer *)
  DummySignTx : list CTxIn -> list CInputCoin -> bool;
  ProduceSignature : list CTxIn -> list CTxOut -> list CInputCoin -> bool;
  (* key provider: the change script of the key reserved before the loop,
     and of the key reserved in a pass of the loop *)
  ReservedKey_prototype : option CScript;
  ReservedKey_in_pass : nat -> option CScript;
  (* mempool chain limits for the finished transaction *)
  CalculateMemPoolAncestors : list CTxIn -> list CTxOut -> bool
}.

Section SelectCoins.

Variable E : Externals.
Variable B : BuilderEnv.

(** First path of [SelectCoins], lines 2664-2680: every candidate is
    taken. *)
Fixpoint SelectCoins_preselected (nCoinType : AvailableCoinsType) (vCoins : list COutput)
         (setCoinsRet : list CInputCoin) (nValueRet : CAmount)
  : outcome (list CInputCoin * CAmount) :=
  match vCoins with
  | [] => Ret (setCoinsRet, nValueRet)
  | out :: rest =>
      if negb (fSpendable out) then SelectCoins_preselected nCoinType rest setCoinsRet nValueRet
      else if bool_decide (nCoinType = ONLY_DENOMINATED)
              && (GetInputPrivateSendRounds B (mkOutPoint (GetHash (out_tx out)) (out_i out))
                  <? nPrivateSendRounds B)
      then SelectCoins_preselected nCoinType rest setCoinsRet nValueRet
      else
        match vout (tx (out_tx out)) !! N.to_nat (out_i out) with
        | None => Undefined
        | Some o =>
            coin ← CInputCoin_of (out_tx out) (out_i out);
            SelectCoins_preselected nCoinType rest (coinset_insert coin setCoinsRet)
                                    (nValueRet + nValue o)
        end
  end.

(** Second path, lines 2683-2702: denominated coins, large to small. *)
Fixpoint SelectCoins_denom_inner (nDenom nTargetValue nSmallestDenom : CAmount)
         (vCoins : list COutput) (setCoinsRet : list CInputCoin) (nValueRet : CAmount)
  : outcome (list CInputCoin * CAmount) :=
  match vCoins with
  | [] => Ret (setCoinsRet, nValueRet)
  | out :: rest =>
      match vout (tx (out_tx out)) !! N.to_nat (out_i out) with
      | None => Undefined
      | Some o =>
          if (nValue o =? nDenom) && (nValueRet + nDenom <? nTargetValue + nSmallestDenom) then
            if GetInputPrivateSendRounds B (mkOutPoint (GetHash (out_tx out)) (out_i out))
               <? nPrivateSendRounds B
            then SelectCoins_denom_inner nDenom nTargetValue nSmallestDenom rest
                                         setCoinsRet nValueRet
            else
              coin ← CInputCoin_of (out_tx out) (out_i out);
              SelectCoins_denom_inner nDenom nTargetValue nSmallestDenom rest
                                      (coinset_insert coin setCoinsRet) (nValueRet + nDenom)
          else SelectCoins_denom_inner nDenom nTargetValue nSmallestDenom rest
                                       setCoinsRet nValueRet
      end
  end.

Fixpoint SelectCoins_denom (denoms : list CAmount) (nTargetValue nSmallestDenom : CAmount)
         (vCoins : list COutput) (setCoinsRet : list CInputCoin) (nValueRet : CAmount)
  : outcome (list CInputCoin * CAmount) :=
  match denoms with
  | [] => Ret (setCoinsRet, nValueRet)
  | nDenom :: rest =>
      '(s, v) ← SelectCoins_denom_inner nDenom nTargetValue nSmallestDenom vCoins
                                         setCoinsRet nValueRet;
      SelectCoins_denom rest nTargetValue nSmallestDenom vCoins s v
  end.

(** The preset inputs, lines 2711-2724: [None] when one of them is not a
    wallet output. *)
Fixpoint SelectCoins_presets (w : CWallet) (vPresetInputs : list COutPoint)
         (setPresetCoins : list CInputCoin) (nValueFromPresetInputs : CAmount)
  : outcome (option (list CInputCoin * CAmount)) :=
  match vPresetInputs with
  | [] => Ret (Some (setPresetCoins, nValueFromPresetInputs))
  | op :: rest =>
      match mapWallet w !! op_hash op with
      | Some pcoin =>
          match vout (tx pcoin) !! N.to_nat (op_n op) with
          | None => Ret None
          | Some o =>
              coin ← CInputCoin_of pcoin (op_n op);
              SelectCoins_presets w rest (coinset_insert coin setPresetCoins)
                                  (nValueFromPresetInputs + nValue o)
          end
      | None => Ret None
      end
  end.

(** Removal of the preset inputs from the candidates, lines 2727-2733. *)
Fixpoint remove_presets (setPresetCoins : list CInputCoin) (vCoins : list COutput)
  : outcome (list COutput) :=
  match vCoins with
  | [] => Ret []
  | it :: rest =>
      coin ← CInputCoin_of (out_tx it) (out_i it);
      rest' ← remove_presets setPresetCoins rest;
      Ret (if coinset_count coin setPresetCoins then rest' else it :: rest')
  end.

(** One tier of the disjunction of lines 2738-2745: it is evaluated only
    when the tiers before it failed. *)
Definition tier (enabled : bool) (w : CWallet) (nTargetValue : CAmount)
           (nConfMine nConfTheirs : Z) (nMaxAncestors : N) (vCoins : list COutput)
           (prev : bool * list CInputCoin * CAmount * Rng)
  : outcome (bool * list CInputCoin * CAmount * Rng) :=
  let '(res, s, v, r) := prev in
  if (res : bool) then Ret prev
  else if enabled
       then SelectCoinsMinConf E w nTargetValue nConfMine nConfTheirs nMaxAncestors vCoins
                               s v r
       else Ret prev.

Definition UINT64_MAX : N := 18446744073709551615%N.

(** [CWallet::SelectCoins], lines 2659-2754.  [setCoinsRet] and
    [nValueRet] are in-out parameters: the values at entry are arguments. *)
Definition SelectCoins (w : CWallet) (vAvailableCoins : list COutput) (nTargetValue : CAmount)
           (setCoinsRet : list CInputCoin) (nValueRet : CAmount)
           (coinControl : option CCoinControl) (nCoinType : AvailableCoinsType) (r : Rng)
  : outcome (bool * list CInputCoin * CAmount * Rng) :=
  let vCoins := vAvailableCoins in
  let hasSelected := match coinControl with Some cc => HasSelected cc | None => false end in
  if hasSelected
     && negb (match coinControl with Some cc => fAllowOtherInputs cc | None => false end)
  then
    '(s, v) ← SelectCoins_preselected nCoinType vCoins setCoinsRet nValueRet;
    Ret (nTargetValue <=? v, s, v, r)
  else if bool_decide (nCoinType = ONLY_DENOMINATED) then
    match last (vecPrivateSendDenominations B) with
    | None => Undefined
    | Some nSmallestDenom =>
        '(s, v) ← SelectCoins_denom (vecPrivateSendDenominations B) nTargetValue nSmallestDenom
                                     vCoins setCoinsRet nValueRet;
        Ret (nTargetValue <=? v, s, v, r)
    end
  else
    let vPresetInputs :=
      match coinControl with Some cc => ListSelected cc | None => [] end in
    presets ← SelectCoins_presets w vPresetInputs [] 0;
    match presets with
    | None => Ret (false, setCoinsRet, nValueRet, r)
    | Some (setPresetCoins, nValueFromPresetInputs) =>
        vCoins ← (if hasSelected then remove_presets setPresetCoins vCoins else Ret vCoins);
        let target := nTargetValue - nValueFromPresetInputs in
        let zc := bSpendZeroConfChange E in
        t0 ← Ret (nTargetValue <=? nValueFromPresetInputs, setCoinsRet, nValueRet, r);
        t1 ← tier true w target 1 6 0 vCoins t0;
        t2 ← tier true w target 1 1 0 vCoins t1;
        t3 ← tier zc w target 0 1 2 vCoins t2;
        t4 ← tier zc w target 0 1 (N.min 4 (nMaxChainLength B / 3)) vCoins t3;
        t5 ← tier zc w target 0 1 (nMaxChainLength B / 2) vCoins t4;
        t6 ← tier zc w target 0 1 (nMaxChainLength B) vCoins t5;
        t7 ← tier (zc && negb (fRejectLongChains B)) w target 0 1 UINT64_MAX vCoins t6;
        let '(res, s, v, r) := t7 in
        Ret (res, fold_left (fun s c => coinset_insert c s) setPresetCoins s,
             v + nValueFromPresetInputs, r)
    end.

End SelectCoins.

(** ** The transaction builder *)

Record CRecipient := mkRecipient {
  r_scriptPubKey : CScript;
  nAmount : CAmount;
  fSubtractFeeFromAmount : bool
}.

Record CMutableTransaction := mkMutableTx {
  m_vin : list CTxIn;
  m_vout : list CTxOut;
  nLockTime : Z
}.

Inductive FailReason :=
| AmountsNegative                (* "Transaction amounts must not be negative" *)
| NoRecipient                    (* "Transaction must have at least one recipient" *)
| KeypoolRanOut                  (* "Keypool ran out, please call keypoolrefill first" *)
| AmountTooSmallToPayFee         (* "The transaction amount is too small to pay the fee" *)
| AmountTooSmallAfterFee         (* "... too small to send after the fee has been deducted" *)
| AmountTooSmall                 (* "Transaction amount too small" *)
| InsufficientFunds              (* "Insufficient funds" *)
| ChangeIndexOutOfRange          (* "Change index out of range" *)
| SigningFailed                  (* "Signing transaction failed" *)
| TooLargeForFeePolicy           (* "Transaction too large for fee policy" *)
| FeeAndChangeCalculationFailed  (* "Transaction fee and change calculation failed" *)
| TransactionTooLarge            (* "Transaction too large" *)
| MempoolChainTooLong.           (* "Transaction has too long of a mempool chain" *)

(** What [CreateTransaction] hands back: on success the transaction,
    [nFeeRet], [nChangePosInOut] and the coins it spends. *)
Inductive BuildResult :=
| Built (txNew : CMutableTransaction) (nFeeRet : CAmount) (nChangePosInOut : Z)
        (setCoins : list CInputCoin)
| Failed (strFailReason : FailReason).

(** The variables that live across passes of the fee loop. *)
Record BuildState := mkBuildState {
  nFeeRet : CAmount;
  pick_new_inputs : bool;
  nValueIn : CAmount;
  setCoins : list CInputCoin;
  b_rng : Rng;
  nPass : nat
}.

(** What one pass of the loop ends in. *)
Inductive PassResult :=
| PassBreak (vin' : list CTxIn) (vout' : list CTxOut) (nFeeRet' : CAmount)
            (nChangePosInOut : Z) (setCoins' : list CInputCoin) (r : Rng)
| PassContinue (s : BuildState)
| PassFail (strFailReason : FailReason).

Definition SEQUENCE_FINAL : N := 4294967295%N.
Definition MAX_BIP125_RBF_SEQUENCE : N := 4294967293%N.
Definition LOCKTIME_THRESHOLD : Z := 500000000.

Definition set_nValue (v : CAmount) (o : CTxOut) : CTxOut := mkTxOut v (scriptPubKey o).

(** [txNew.vout.insert(begin + pos, newTxOut)]. *)
Definition vout_insert (pos : nat) (o : CTxOut) (l : list CTxOut) : list CTxOut :=
  take pos l ++ o :: drop pos l.

Section Builder.

Variable E : Externals.
Variable B : BuilderEnv.

(** Modelled from the spec: [IsDust(txout, rate)] is defined in
    policy/policy.cpp.  The spec: dust is an output value below the dust
    threshold for the fee rate. *)
Definition IsDust (o : CTxOut) (rate : FeeRateKind) : bool :=
  nValue o <? GetDustThreshold B o rate.

(** The sum of the requested amounts and the number of fee-paying
    recipients, lines 2837-2851; [None] for a negative amount. *)
Fixpoint sum_recipients (vecSend : list CRecipient) (nValue' : CAmount)
         (nSubtractFeeFromAmount : Z) : option (CAmount * Z) :=
  match vecSend with
  | [] => Some (nValue', nSubtractFeeFromAmount)
  | recipient :: rest =>
      if (nValue' <? 0) || (nAmount recipient <? 0) then None
      else sum_recipients rest (nValue' + nAmount recipient)
                          (if fSubtractFeeFromAmount recipient
                           then nSubtractFeeFromAmount + 1 else nSubtractFeeFromAmount)
  end.

(** The outputs to the payees, lines 2956-2986.  The assert of line 2963
    cannot fail: [nSubtractFeeFromAmount] counts the recipients that have
    the flag. *)
Fixpoint payee_outputs (vecSend : list CRecipient) (nFeeRet' : CAmount)
         (nSubtractFeeFromAmount : Z) (fFirst : bool) (vout' : list CTxOut)
  : list CTxOut + FailReason :=
  match vecSend with
  | [] => inl vout'
  | recipient :: rest =>
      let v := nAmount recipient in
      let '(v, fFirst) :=
        if fSubtractFeeFromAmount recipient then
          let v := v - Z.quot nFeeRet' nSubtractFeeFromAmount in
          if fFirst then (v - Z.rem nFeeRet' nSubtractFeeFromAmount, false) else (v, fFirst)
        else (v, fFirst) in
      let txout' := mkTxOut v (r_scriptPubKey recipient) in
      if IsDust txout' dustRelayFee then
        inr (if fSubtractFeeFromAmount recipient && (0 <? nFeeRet') then
               if v <? 0 then AmountTooSmallToPayFee else AmountTooSmallAfterFee
             else AmountTooSmall)
      else payee_outputs rest nFeeRet' nSubtractFeeFromAmount fFirst (vout' ++ [txout'])
  end.

(** Index of the first recipient that pays the fee, lines 3057-3059. *)
Fixpoint first_subtract (vecSend : list CRecipient) (i : nat) : option nat :=
  match vecSend with
  | [] => None
  | recipient :: rest =>
      if fSubtractFeeFromAmount recipient then Some i else first_subtract rest (S i)
  end.

(** The change of a pass, lines 3009-3091: the outputs, the fee and the
    change position after it. *)
Definition add_change (vecSend : list CRecipient) (coin_control : CCoinControl)
           (nCoinType : AvailableCoinsType) (nSubtractFeeFromAmount : Z)
           (nChange : CAmount) (vout' : list CTxOut) (nFeeRet' : CAmount)
           (nChangePosInOut : Z) (r : Rng) (pass : nat)
  : outcome (list CTxOut * CAmount * Z * Rng + FailReason) :=
  if 0 <? nChange then
    if bool_decide (nCoinType = ONLY_DENOMINATED) then
      Ret (inl (vout', nFeeRet' + nChange, nChangePosInOut, r))
    else
      match (match destChange coin_control with
             | Some s => Some s
             | None => ReservedKey_in_pass B pass
             end) with
      | None => Ret (inr KeypoolRanOut)
      | Some scriptChange =>
          let newTxOut := mkTxOut nChange scriptChange in
          (* raise dust change and deduct it from the first paying recipient *)
          raised ←
            (if (0 <? nSubtractFeeFromAmount) && CTxOut_IsDust B newTxOut then
               let nDust := GetDustThreshold B newTxOut minRelayTxFee - nValue newTxOut in
               let newTxOut := set_nValue (nValue newTxOut + nDust) newTxOut in
               match first_subtract vecSend 0 with
               | Some i =>
                   match vout' !! i with
                   | None => Undefined
                   | Some o =>
                       let o := set_nValue (nValue o - nDust) o in
                       if CTxOut_IsDust B o then Ret (inr AmountTooSmallAfterFee)
                       else Ret (inl (newTxOut, <[i := o]> vout'))
                   end
               | None => Ret (inl (newTxOut, vout'))
               end
             else Ret (inl (newTxOut, vout')));
          match raised with
          | inr reason => Ret (inr reason)
          | inl (newTxOut, vout') =>
              if CTxOut_IsDust B newTxOut then
                Ret (inl (vout', nFeeRet' + nChange, -1, r))
              else if nChangePosInOut =? -1 then
                let '(pos, r) := GetRandInt (N.of_nat (length vout' + 1)) r in
                Ret (inl (vout_insert (N.to_nat pos) newTxOut vout', nFeeRet',
                          Z.of_N pos, r))
              else if Z.of_nat (length vout') <? nChangePosInOut mod 2 ^ 32 then
                Ret (inr ChangeIndexOutOfRange)
              else
                Ret (inl (vout_insert (Z.to_nat nChangePosInOut) newTxOut vout', nFeeRet',
                          nChangePosInOut, r))
          end
      end
  else Ret (inl (vout', nFeeRet', nChangePosInOut, r)).

(** [change_position->nValue op= d] on [txNew.vout.begin() + nChangePosInOut]. *)
Definition adjust_change (nChangePosInOut : Z) (d : CAmount) (vout' : list CTxOut)
  : outcome (list CTxOut) :=
  if nChangePosInOut <? 0 then Undefined
  else match vout' !! Z.to_nat nChangePosInOut with
       | None => Undefined
       | Some o => Ret (<[Z.to_nat nChangePosInOut := set_nValue (nValue o + d) o]> vout')
       end.

(** One pass of the [while (true)] loop, lines 2944-3193. *)
Definition CreateTransaction_pass (w : CWallet) (vecSend : list CRecipient)
           (coin_control : CCoinControl) (nCoinType : AvailableCoinsType)
           (vAvailableCoins : list COutput) (nValue' : CAmount)
           (nSubtractFeeFromAmount : Z) (nChangePosRequest : Z)
           (change_prototype_txout : CTxOut) (s : BuildState) : outcome PassResult :=
  let nChangePosInOut := nChangePosRequest in
  let nValueToSelect :=
    if nSubtractFeeFromAmount =? 0 then nValue' + nFeeRet s else nValue' in
  match payee_outputs vecSend (nFeeRet s) nSubtractFeeFromAmount true [] with
  | inr reason => Ret (PassFail reason)
  | inl vout' =>
      (* choose coins to use *)
      sel ← (if pick_new_inputs s then
               SelectCoins E B w vAvailableCoins nValueToSelect [] 0 (Some coin_control)
                           (SelectCoins_nCoinType_default B) (b_rng s)
             else Ret (true, setCoins s, nValueIn s, b_rng s));
      let '(ok, setCoins', nValueIn', r) := sel in
      if negb ok then Ret (PassFail InsufficientFunds)
      else
        let nChange := nValueIn' - nValueToSelect in
        chg ← add_change vecSend coin_control nCoinType nSubtractFeeFromAmount nChange
                vout' (nFeeRet s) nChangePosInOut r (nPass s);
        match chg with
        | inr reason => Ret (PassFail reason)
        | inl (vout', nFeeRet', nChangePosInOut, r) =>
            (* fill vin *)
            let nSequence' :=
              if signalRbf coin_control then MAX_BIP125_RBF_SEQUENCE
              else (SEQUENCE_FINAL - 1)%N in
            let vin' := List.map (fun coin => mkTxIn (outpoint coin) [] nSequence') setCoins' in
            if negb (DummySignTx B vin' setCoins') then Ret (PassFail SigningFailed)
            else
              (* nBytes is an unsigned int *)
              let nBytes := GetVirtualTransactionSize B vin' vout' mod 2 ^ 32 in
              let nFeeNeeded := GetMinimumFee B nBytes in
              if nFeeNeeded <? minRelayTxFee_GetFee B nBytes
              then Ret (PassFail TooLargeForFeePolicy)
              else
                let next (fee : CAmount) (pick : bool) :=
                  PassContinue (mkBuildState fee pick nValueIn' setCoins' r (S (nPass s))) in
                if nFeeNeeded <=? nFeeRet' then
                  let tx_size_with_change :=
                    (nBytes + GetSerializeSize_txout B change_prototype_txout + 2) mod 2 ^ 32 in
                  let fee_needed_with_change := GetMinimumFee B tx_size_with_change in
                  let minimum_value_for_change :=
                    GetDustThreshold B change_prototype_txout discard_rate in
                  if (nChangePosInOut =? -1) && (nSubtractFeeFromAmount =? 0)
                     && pick_new_inputs s
                     && (fee_needed_with_change + minimum_value_for_change <=? nFeeRet')
                  then Ret (next fee_needed_with_change false)
                  else if (nFeeNeeded <? nFeeRet') && negb (nChangePosInOut =? -1)
                          && (nSubtractFeeFromAmount =? 0)
                  then
                    let extraFeePaid := nFeeRet' - nFeeNeeded in
                    vout' ← adjust_change nChangePosInOut extraFeePaid vout';
                    Ret (PassBreak vin' vout' (nFeeRet' - extraFeePaid) nChangePosInOut
                                   setCoins' r)
                  else Ret (PassBreak vin' vout' nFeeRet' nChangePosInOut setCoins' r)
                else if negb (pick_new_inputs s)
                then Ret (PassFail FeeAndChangeCalculationFailed)
                else
                  let additionalFeeNeeded := nFeeNeeded - nFeeRet' in
                  reduce ←
                    (if negb (nChangePosInOut =? -1) && (nSubtractFeeFromAmount =? 0) then
                       if nChangePosInOut <? 0 then Undefined
                       else match vout' !! Z.to_nat nChangePosInOut with
                            | None => Undefined
                            | Some o =>
                                if MIN_FINAL_CHANGE E + additionalFeeNeeded <=? nValue o
                                then vout' ← adjust_change nChangePosInOut
                                                 (- additionalFeeNeeded) vout';
                                     Ret (Some vout')
                                else Ret None
                            end
                     else Ret None);
                  match reduce with
                  | Some vout' =>
                      Ret (PassBreak vin' vout' (nFeeRet' + additionalFeeNeeded)
                                     nChangePosInOut setCoins' r)
                  | None =>
                      Ret (next nFeeNeeded
                                (if 0 <? nSubtractFeeFromAmount then false
                                 else pick_new_inputs s))
                  end
        end
  end.

(** The [while (true)] loop. *)
Fixpoint CreateTransaction_loop (fuel : nat) (w : CWallet) (vecSend : list CRecipient)
         (coin_control : CCoinControl) (nCoinType : AvailableCoinsType)
         (vAvailableCoins : list COutput) (nValue' : CAmount)
         (nSubtractFeeFromAmount : Z) (nChangePosRequest : Z)
         (change_prototype_txout : CTxOut) (s : BuildState) : outcome PassResult :=
  match fuel with
  | O => OutOfFuel
  | S fuel' =>
      p ← CreateTransaction_pass w vecSend coin_control nCoinType vAvailableCoins nValue'
            nSubtractFeeFromAmount nChangePosRequest change_prototype_txout s;
      match p with
      | PassContinue s' =>
          CreateTransaction_loop fuel' w vecSend coin_control nCoinType vAvailableCoins
            nValue' nSubtractFeeFromAmount nChangePosRequest change_prototype_txout s'
      | _ => Ret p
      end
  end.

(** [CWallet::CreateTransaction], lines 2834-3255.  [vAvailableCoins] is
    the result of the candidate scan [AvailableCoins]; [nChangePosInOut]
    is the change position the caller asks for ([-1] for a random one). *)
Definition CreateTransaction (fuel : nat) (w : CWallet) (vecSend : list CRecipient)
           (nChangePosInOut : Z) (coin_control : CCoinControl) (sign : bool)
           (nCoinType : AvailableCoinsType) (vAvailableCoins : list COutput) (r : Rng)
  : outcome BuildResult :=
  let nChangePosRequest := nChangePosInOut in
  match sum_recipients vecSend 0 0 with
  | None => Ret (Failed AmountsNegative)
  | Some (nValue', nSubtractFeeFromAmount) =>
      if decide (vecSend = []) then Ret (Failed NoRecipient)
      else
        (* discourage fee sniping; nLockTime is a uint32_t and the height
           an int *)
        let nLockTime' := chainActive_Height E mod 2 ^ 32 in
        let '(x, r) := GetRandInt 10 r in
        let '(nLockTime', r) :=
          if (x =? 0)%N then
            let '(y, r) := GetRandInt 100 r in
            (Z.max 0 (chainActive_Height E - Z.of_N y), r)
          else (nLockTime', r) in
        if (chainActive_Height E mod 2 ^ 32 <? nLockTime')
           || (LOCKTIME_THRESHOLD <=? nLockTime')
        then AssertFail
        else
          match (match destChange coin_control with
                 | Some s => Some s
                 | None => ReservedKey_prototype B
                 end) with
          | None => Ret (Failed KeypoolRanOut)
          | Some scriptChange =>
              let change_prototype_txout := mkTxOut 0 scriptChange in
              p ← CreateTransaction_loop fuel w vecSend coin_control nCoinType
                    vAvailableCoins nValue' nSubtractFeeFromAmount nChangePosRequest
                    change_prototype_txout (mkBuildState 0 true 0 [] r 0);
              match p with
              | PassFail reason => Ret (Failed reason)
              | PassContinue _ => OutOfFuel
              | PassBreak vin' vout' nFeeRet' nChangePosInOut setCoins' r =>
                  if sign && negb (ProduceSignature B vin' vout' setCoins')
                  then Ret (Failed SigningFailed)
                  else if MAX_STANDARD_TX_WEIGHT B <=? GetTransactionWeight B vin' vout'
                  then Ret (Failed TransactionTooLarge)
                  else if fRejectLongChains B && negb (CalculateMemPoolAncestors B vin' vout')
                  then Ret (Failed MempoolChainTooLong)
                  else Ret (Built (mkMutableTx vin' vout' nLockTime') nFeeRet'
                                  nChangePosInOut setCoins')
              end
          end
  end.

End Builder.

(** ** Fixtures for the examples *)

Definition cache0 : AmountCache :=
  mkCache false 0 false 0 false 0 false 0 false 0 false 0 false 0 false 0 false 0.

(** A chain of height 10 whose block [100] sits at height 5 and block
    [101] at height 8; every script is the wallet's own. *)
Definition E0 : Externals :=
  mkExternals
    (fun _ => ISMINE_SPENDABLE)
    (fun h => if (h =? 100)%N then Some (mkBlockIndex 5 1000)
              else if (h =? 101)%N then Some (mkBlockIndex 8 1600) else None)
    (fun h => (h =? 100)%N || (h =? 101)%N)
    10
    (fun _ => true)
    100
    (fun _ => false)
    (fun _ _ => true)
    (fun _ => false)
    5
    (Some true)
    2000
    (fun _ => true)
    true
    1000000
    500000
    2100000000000000.

Definition mk_wtx (h : uint256) (ins : list CTxIn) (outs : list CTxOut)
           (hb : uint256) (idx : Z) (inpool : bool) : CWalletTx :=
  mkWalletTx (mkTx h ins outs false false false) hb idx [] [] 0 0 false EmptyString 0
             inpool cache0.

(** A confirmed candidate of value [v], output 0 of transaction [h]. *)
Definition coin (h : uint256) (v : CAmount) : COutput :=
  mkOutput (mk_wtx h [] [mkTxOut v []] 100%N 0 false) 0 6 true true true.

Definition input_coin (h : uint256) (v : CAmount) : CInputCoin :=
  mkInputCoin (mkOutPoint h 0) (mkTxOut v []).

Definition wallet0 : CWallet := mkWallet ∅ [] [] 0.

(** ** Specification-side definitions for coin selection *)

Section SelectionSpec.

Variable E : Externals.

(** Step 2 of the selector: a candidate passes the filter of the policy
    (spendable, deep enough for its origin, within the ancestor limit). *)
Definition candidate_of (w : CWallet) (nConfMine nConfTheirs : Z) (nMaxAncestors : N)
           (output : COutput) : outcome (option CInputCoin) :=
  if negb (fSpendable output) then Ret None
  else
    fromMe ← IsFromMe E w (out_tx output) ISMINE_ALL;
    if nDepth output <? (if (fromMe : bool) then nConfMine else nConfTheirs) then Ret None
    else if negb (TransactionWithinChainLimit E (GetHash (out_tx output)) nMaxAncestors)
    then Ret None
    else coin ← CInputCoin_of (out_tx output) (out_i output); Ret (Some coin).

Definition filter_candidates (w : CWallet) (nConfMine nConfTheirs : Z) (nMaxAncestors : N)
           (vCoins : list COutput) : list CInputCoin :=
  omap (fun output =>
          match candidate_of w nConfMine nConfTheirs nMaxAncestors output with
          | Ret x => x
          | _ => None
          end) vCoins.

(** The filter raises no exception on any candidate. *)
Definition filter_returns (w : CWallet) (nConfMine nConfTheirs : Z) (nMaxAncestors : N)
           (vCoins : list COutput) : Prop :=
  Forall (fun output =>
            exists x, candidate_of w nConfMine nConfTheirs nMaxAncestors output = Ret x)
         vCoins.

End SelectionSpec.

(** The coins below target + MIN_CHANGE and the coins above. *)
Definition below (bound : CAmount) (cands : list CInputCoin) : list CInputCoin :=
  List.filter (fun c => coin_value c <? bound) cands.

Definition above (bound : CAmount) (cands : list CInputCoin) : list CInputCoin :=
  List.filter (fun c => negb (coin_value c <? bound)) cands.

(** The update of [coinLowestLarger], line 2594. *)
Definition pick_lower (low : option CInputCoin) (c : CInputCoin) : option CInputCoin :=
  match low with
  | Some lowest => if coin_value c <? coin_value lowest then Some c else low
  | None => Some c
  end.

Definition out_outpoint (o : COutput) : COutPoint :=
  mkOutPoint (GetHash (out_tx o)) (out_i o).

Arguments mk_wtx h%_N ins outs hb%_N idx%_Z inpool.
Arguments coin h%_N v%_Z.
Arguments input_coin h%_N v%_Z.

(** The coins of [vValue] whose flag is set. *)
Fixpoint selected (vValue : list CInputCoin) (vf : list bool) : list CInputCoin :=
  match vValue, vf with
  | c :: vs, b :: bs => if (b : bool) then c :: selected vs bs else selected vs bs
  | _, _ => []
  end.

(** What every state of the subset search satisfies: the running total is
    the total of the included coins, and the best total is the total of
    the best subset and reaches the target. *)
Definition ABS_inv (vValue : list CInputCoin) (nTargetValue : CAmount) (s : ABS) : Prop :=
  length (vfIncluded s) = length vValue /\
  nTotal s = sum_coins (selected vValue (vfIncluded s)) /\
  length (vfBest s) = length vValue /\
  nBest s = sum_coins (selected vValue (vfBest s)) /\
  nTargetValue <= nBest s.

Arguments TransactionWithinChainLimit e _%_N _%_N.
Arguments mempool_exists e _%_N.
Arguments mapBlockIndex e _%_N.
Arguments chainActive_Contains e _%_N.

(** The draws of one repetition of the subset search over the coins
    20, 10, 5 (in this order) reach 15 exactly when the coin 20 is left
    out by the first pass, or the coins 10 and 5 are both taken. *)
Definition good_draws (b0 b1 b2 : bool) : bool := negb b0 || (b1 && b2).

Definition next_bit (bits : list bool) : bool * list bool :=
  match bits with
  | [] => (false, [])
  | b :: bits' => (b, bits')
  end.

(** Whether one of [reps] repetitions, each of which draws three bits,
    has good draws. *)
Fixpoint finds_exact (reps : nat) (bits : list bool) : bool :=
  match reps with
  | O => false
  | S reps' =>
      let '(b0, bits) := next_bit bits in
      let '(b1, bits) := next_bit bits in
      let '(b2, bits) := next_bit bits in
      good_draws b0 b1 b2 || finds_exact reps' bits
  end.

(** A tape of draws on which every repetition takes the coin 20 and
    leaves 10 and 5. *)
Definition unlucky_bits : list bool := concat (replicate 1000 [true; false; false]).

(** ** Fixtures for the ledger examples *)

Definition txin_of (h : uint256) (n : N) : CTxIn := mkTxIn (mkOutPoint h n) [] 0.
Arguments txin_of h%_N n%_N.

(** Transactions [1] and [2] both spend output 0 of transaction [9]. *)
Definition wallet_conflict : CWallet :=
  mkWallet
    (<[1%N := mk_wtx 1 [txin_of 9 0] [mkTxOut 40 []] 0 (-1) false]>
       (<[2%N := mk_wtx 2 [txin_of 9 0] [mkTxOut 40 []] 0 (-1) false]> ∅))
    [(mkOutPoint 9%N 0%N, 1%N); (mkOutPoint 9%N 0%N, 2%N)]
    [(0, TxPair_wtx 1%N); (1, TxPair_wtx 2%N)]
    2.

(** The amounts held in the caches, without the validity flags. *)
Definition cached_amounts (c : AmountCache) : list CAmount :=
  [nDebitCached c; nCreditCached c; nImmatureCreditCached c; nAvailableCreditCached c;
   nWatchDebitCached c; nWatchCreditCached c; nImmatureWatchCreditCached c;
   nAvailableWatchCreditCached c; nChangeCached c].

(** The spenders of an outpoint known to the spend index. *)
Definition spender_of (w : CWallet) (o : COutPoint) (h : uint256) : Prop :=
  In (o, h) (mapTxSpends w).

(** Transaction [3] is confirmed in block [100]; transaction [4] is
    unconfirmed and in the mempool and spends it. *)
Definition wallet_confirmed : CWallet :=
  mkWallet
    (<[3%N := mk_wtx 3 [] [mkTxOut 70 []] 100 2 false]>
       (<[4%N := mk_wtx 4 [txin_of 3 0] [mkTxOut 60 []] 0 (-1) true]> ∅))
    [(mkOutPoint 3%N 0%N, 4%N)]
    [(0, TxPair_wtx 3%N); (1, TxPair_wtx 4%N)]
    2.

(** A third spender of output 0 of transaction [9], made by the wallet
    itself. *)
Definition wtx_third_spender : CWalletTx :=
  set_fFromMe true (mk_wtx 5 [txin_of 9 0] [mkTxOut 40 []] 0 (-1) false).

(** ** Specification-side definitions for the balance view *)

Definition sum_amounts (l : list CAmount) : CAmount := fold_right Z.add 0 l.

Section TrustSpec.

Variable E : Externals.

(** Every input spends an output of a tracked transaction that the wallet
    owns. *)
Definition inputs_self_originated (w : CWallet) (wtx : CWalletTx) : Prop :=
  forall txin, In txin (vin (tx wtx)) ->
    exists parent parentOut,
      mapWallet w !! op_hash (prevout txin) = Some parent /\
      vout (tx parent) !! N.to_nat (op_n (prevout txin)) = Some parentOut /\
      IsMine E parentOut = ISMINE_SPENDABLE.

(** The claim's words: every ancestor, recursively, is self-originated and
    in the mempool. *)
#[warnings="-register-all"]
Inductive ancestors_trusted (w : CWallet) : CWalletTx -> Prop :=
| ancestors_trusted_intro wtx :
    (forall txin, In txin (vin (tx wtx)) ->
       exists parent,
         mapWallet w !! op_hash (prevout txin) = Some parent /\
         IsFromMe E w parent ISMINE_ALL = Ret true /\
         InMempool parent = true /\
         ancestors_trusted w parent) ->
    ancestors_trusted w wtx.

(** The trust predicate as the claim words it. *)
Definition spec_trusted (w : CWallet) (wtx : CWalletTx) : Prop :=
  CheckFinalTx E (tx wtx) = true /\
  (1 <= GetDepthInMainChain E wtx \/
   (GetDepthInMainChain E wtx = 0 /\
    inputs_self_originated w wtx /\
    InMempool wtx = true /\
    ancestors_trusted w wtx)).

End TrustSpec.

(** Transaction [6] pays the wallet from a foreign input and is
    unconfirmed; transaction [7], made by the wallet, spends it; both are
    in the mempool. *)
Definition wtx_foreign_parent : CWalletTx :=
  mk_wtx 6 [txin_of 50 0] [mkTxOut 70 []] 0 (-1) true.

Definition wtx_zero_conf_child : CWalletTx :=
  mk_wtx 7 [txin_of 6 0] [mkTxOut 60 []] 0 (-1) true.

Definition wallet_zero_conf : CWallet :=
  mkWallet
    (<[6%N := wtx_foreign_parent]> (<[7%N := wtx_zero_conf_child]> ∅))
    [(mkOutPoint 6%N 0%N, 7%N); (mkOutPoint 50%N 0%N, 6%N)]
    [(0, TxPair_wtx 6%N); (1, TxPair_wtx 7%N)]
    2.

(** ** Specification-side definitions for conflict propagation *)

(** [y] spends an output of [x], according to the spend index. *)
Definition spends (w : CWallet) (x y : uint256) : Prop :=
  exists n, In (mkOutPoint x n, y) (mapTxSpends w).

(** The spend index is a multimap: its entries are in key order. *)
Definition TxSpends_sorted (m : list (COutPoint * uint256)) : Prop :=
  StronglySorted (fun a b => outpoint_ltb (fst b) (fst a) = false) m.

(** Every spender of the spend index is a record of [mapWallet]. *)
Definition spenders_tracked (w : CWallet) : Prop :=
  forall o h, In (o, h) (mapTxSpends w) -> is_Some (mapWallet w !! h).

(** The record is marked as conflicted with the block. *)
Definition marked_conflicted (hashBlock' : uint256) (wtx : CWalletTx) : Prop :=
  nIndex wtx = -1 /\ hashBlock wtx = hashBlock'.

(** The fields of a record that its confirmation state is read from. *)
Definition same_chain_state (a b : CWalletTx) : Prop :=
  tx a = tx b /\ hashBlock a = hashBlock b /\ nIndex a = nIndex b.

(** The claim's words: [z] spends an output of [a], or of a spender of
    [a], and so on. *)
Inductive descends (w : CWallet) (a : uint256) : uint256 -> Prop :=
| descends_self : descends w a a
| descends_spender y z : descends w a y -> spends w y z -> descends w a z.

Section ConflictSpec.

Variable E : Externals.

(** The record of [x] is less conflicted than a block that conflicts
    [conflictconfirms] deep. *)
Definition less_conflicted (w : CWallet) (conflictconfirms : Z) (x : uint256) : Prop :=
  exists wtx, mapWallet w !! x = Some wtx /\ conflictconfirms < GetDepthInMainChain E wtx.

(** [z] is reached from [a] along spends of transactions that are less
    conflicted than the block. *)
Inductive reaches (w : CWallet) (conflictconfirms : Z) (a : uint256) : uint256 -> Prop :=
| reaches_self : reaches w conflictconfirms a a
| reaches_spender y z :
    reaches w conflictconfirms a y ->
    less_conflicted w conflictconfirms y ->
    spends w y z ->
    reaches w conflictconfirms a z.

End ConflictSpec.

(** Transaction [12] spends [11] and is spent by [13]; [12] is already
    conflicted with block [100], six blocks deep; [11] and [13] are
    unconfirmed. *)
Definition wallet_chain : CWallet :=
  mkWallet
    (<[11%N := mk_wtx 11 [txin_of 50 0] [mkTxOut 70 []] 0 (-1) false]>
       (<[12%N := mk_wtx 12 [txin_of 11 0] [mkTxOut 60 []] 100 (-1) false]>
          (<[13%N := mk_wtx 13 [txin_of 12 0] [mkTxOut 50 []] 0 (-1) false]> ∅)))
    [(mkOutPoint 11%N 0%N, 12%N); (mkOutPoint 12%N 0%N, 13%N); (mkOutPoint 50%N 0%N, 11%N)]
    [(0, TxPair_wtx 11%N); (1, TxPair_wtx 12%N); (2, TxPair_wtx 13%N)]
    3.

(** Transactions [21] and [22] spend each other (a cycle of the spend
    index), and [23] spends [22]; all are unconfirmed. *)
Definition wallet_cycle : CWallet :=
  mkWallet
    (<[21%N := mk_wtx 21 [txin_of 22 0] [mkTxOut 70 []] 0 (-1) false]>
       (<[22%N := mk_wtx 22 [txin_of 21 0] [mkTxOut 60 []] 0 (-1) false]>
          (<[23%N := mk_wtx 23 [txin_of 22 1] [mkTxOut 50 []] 0 (-1) false]> ∅)))
    [(mkOutPoint 21%N 0%N, 22%N); (mkOutPoint 22%N 0%N, 21%N); (mkOutPoint 22%N 1%N, 23%N)]
    [(0, TxPair_wtx 21%N); (1, TxPair_wtx 22%N); (2, TxPair_wtx 23%N)]
    3.

Arguments MarkConflicted E fuel%_nat hashBlock'%_N hashTx%_N w.
Arguments AbandonTransaction E fuel%_nat hashTx%_N w.
Arguments GetConflicts w txid%_N.
Arguments conflictconfirms_of E hashBlock'%_N.

(** What the wallet keeps of a record while conflicts propagate: the
    record exists on both sides or on neither, with the same transaction,
    block reference and position. *)
Definition same_record (a b : option CWalletTx) : Prop :=
  match a, b with
  | Some x, Some y => same_chain_state x y
  | None, None => True
  | _, _ => False
  end.

Section ConflictLoopSpec.

Variables (E : Externals) (hb : uint256) (cc : Z) (a : uint256) (w0 : CWallet).

(** The transactions the traversal can ever visit. *)
Definition visitable : gset uint256 :=
  list_to_set (a :: List.map snd (mapTxSpends w0)).

(** The invariant of the [while (!todo.empty())] loop of
    [MarkConflicted], started from [a] on the wallet [w0]. *)
Record MarkConflicted_inv (todo done : list uint256) (w : CWallet) : Prop := {
  inv_spends : mapTxSpends w = mapTxSpends w0;
  inv_order : wtxOrdered w = wtxOrdered w0 /\ nOrderPosNext w = nOrderPosNext w0;
  inv_unmarked : forall x,
      ~ (In x done /\ less_conflicted E w0 cc x) ->
      same_record (mapWallet w !! x) (mapWallet w0 !! x);
  inv_marked : forall x wtx0,
      In x done -> mapWallet w0 !! x = Some wtx0 -> cc < GetDepthInMainChain E wtx0 ->
      exists wtx, mapWallet w !! x = Some wtx /\ marked_conflicted hb wtx /\ tx wtx = tx wtx0;
  inv_disjoint : forall x, In x todo -> ~ In x done;
  inv_closed : forall x y,
      In x done -> less_conflicted E w0 cc x -> spends w0 x y -> In y done \/ In y todo;
  inv_reach : forall x, In x done \/ In x todo -> reaches E w0 cc a x;
  inv_start : In a done \/ In a todo
}.

End ConflictLoopSpec.

(** ** Specification-side definitions for the builder *)

(** Every record of [mapWallet] is stored under the hash of its
    transaction. *)
Definition wallet_consistent (w : CWallet) : Prop :=
  forall h wtx, mapWallet w !! h = Some wtx -> GetHash wtx = h.


(** What a successful tier of [SelectCoins] hands back: the value of the
    coins it chose, at least the target, taken among the candidates. *)
Definition tier_good (target : CAmount) (vCoins : list COutput)
           (t : bool * list CInputCoin * CAmount * Rng) : Prop :=
  let '(res, s, v, _) := t in
  res = true ->
  v = sum_coins s /\ target <= v /\
  forall o, In o (List.map outpoint s) -> In o (List.map out_outpoint vCoins).

(** Every coin of [s] is the output of a candidate whose value is one of
    the denominations [D]. *)
Definition denominated_from (vCoins : list COutput) (D : list CAmount)
           (s : list CInputCoin) : Prop :=
  forall c, In c s ->
    exists out o, In out vCoins /\ out_outpoint out = outpoint c /\
                  vout (tx (out_tx out)) !! N.to_nat (out_i out) = Some o /\
                  In (nValue o) D.


(** The sum of the requested amounts and the number of recipients that
    pay the fee. *)
Definition total_amount (vecSend : list CRecipient) : CAmount :=
  fold_right (fun recipient acc => nAmount recipient + acc) 0 vecSend.

Definition count_subtract (vecSend : list CRecipient) : Z :=
  fold_right (fun recipient acc => if fSubtractFeeFromAmount recipient then acc + 1 else acc)
             0 vecSend.

(** What the fee loop keeps between passes once it stops picking new
    inputs: [nValueIn] is the value of [setCoins] and covers the amount
    the next pass asks for. *)
Definition BuildInv (nValue' : CAmount) (nSubtractFeeFromAmount : Z) (s : BuildState) : Prop :=
  pick_new_inputs s = false ->
  nValueIn s = sum_coins (setCoins s) /\
  (if nSubtractFeeFromAmount =? 0 then nValue' + nFeeRet s else nValue') <= nValueIn s.


(** ** Builder fixtures *)

(** A policy with a dust threshold of 546 at every rate, a fee of 10 per
    virtual byte and a relay fee of 1 per byte; the signer always signs and
    the key pool never runs out. *)
Definition B0 : BuilderEnv :=
  mkBuilderEnv
    [1000000010; 100000001; 10000000; 1000000]
    (fun _ => 0)
    2
    25
    false
    ALL_COINS
    (fun _ _ => 546)
    (fun o => nValue o <? 546)
    (fun nBytes => 10 * nBytes)
    (fun nBytes => nBytes)
    (fun vin' vout' => 10 + 148 * Z.of_nat (length vin') + 34 * Z.of_nat (length vout'))
    (fun _ => 34)
    (fun vin' vout' => 4 * (10 + 148 * Z.of_nat (length vin') + 34 * Z.of_nat (length vout')))
    400000
    (fun _ _ => true)
    (fun _ _ _ => true)
    (Some [1%N])
    (fun _ => Some [2%N])
    (fun _ _ => true).

(** No coin control: change goes to a key of the pool, no input is
    preselected. *)
Definition coin_control0 : CCoinControl := mkCoinControl None false ∅ false.

Definition rng0 : Rng := mkRng [3%N; 1%N; 1%N; 1%N] [].


(** The output a recipient that does not pay the fee is sent. *)
Definition payee_txout (recipient : CRecipient) : CTxOut :=
  mkTxOut (nAmount recipient) (r_scriptPubKey recipient).

(** The script the change of a pass is sent to, lines 3021-3044. *)
Definition change_script (B : BuilderEnv) (coin_control : CCoinControl) (pass : nat)
  : option CScript :=
  match destChange coin_control with
  | Some s => Some s
  | None => ReservedKey_in_pass B pass
  end.


(** What a pass leaves out of the outputs and of the fee, lines
    3054-3076.  When a recipient pays the fee, a change that
    [CTxOut::IsDust] rejects is moved to the dust threshold at the relay
    fee rate and the difference [nDust] is taken from the output of that
    recipient; when [CTxOut::IsDust] rejects the change again, no change
    output is made and [nChange], the change as it was before, is added to
    the fee.  [nDust] is then in no output and not in the fee. *)
Definition unaccounted_raise (B : BuilderEnv) (coin_control : CCoinControl)
           (nCoinType : AvailableCoinsType) (nSubtractFeeFromAmount : Z)
           (nChange : CAmount) (pass : nat) : CAmount :=
  if (0 <? nChange) && negb (bool_decide (nCoinType = ONLY_DENOMINATED))
     && (0 <? nSubtractFeeFromAmount)
  then match change_script B coin_control pass with
       | Some scriptChange =>
           let newTxOut := mkTxOut nChange scriptChange in
           let nDust := GetDustThreshold B newTxOut minRelayTxFee - nChange in
           if CTxOut_IsDust B newTxOut
              && CTxOut_IsDust B (mkTxOut (nChange + nDust) scriptChange)
           then nDust else 0
       | None => 0
       end
  else 0.

(** The account of a pass that starts in the state [s]: a pass that ends
    the loop has spent the value of its coins on the outputs, the fee and
    the raise it left out; a pass that is followed by another keeps
    [BuildInv]. *)
Definition pass_conserves (B : BuilderEnv) (coin_control : CCoinControl)
           (nCoinType : AvailableCoinsType) (nValue' : CAmount)
           (nSubtractFeeFromAmount : Z) (s : BuildState) (p : PassResult) : Prop :=
  match p with
  | PassBreak vin' vout' nFeeRet' _ setCoins' _ =>
      sum_coins setCoins'
      = sum_values vout' + nFeeRet'
        + unaccounted_raise B coin_control nCoinType nSubtractFeeFromAmount
            (sum_coins setCoins'
             - (if nSubtractFeeFromAmount =? 0 then nValue' + nFeeRet s else nValue'))
            (nPass s) /\
      List.map prevout vin' = List.map outpoint setCoins'
  | PassContinue s' => BuildInv nValue' nSubtractFeeFromAmount s'
  | PassFail _ => True
  end.



(** Three recipients, two of which pay the fee, and three candidates. *)
Definition send_shared : list CRecipient :=
  [mkRecipient [7%N] 30000000 false; mkRecipient [8%N] 20000000 true;
   mkRecipient [9%N] 10000000 true].

Definition coins_shared : list COutput :=
  [coin 1 50000000; coin 2 20000000; coin 3 5000000].

Definition tx_shared : CMutableTransaction :=
  mkMutableTx
    [mkTxIn (mkOutPoint 1%N 0%N) [] 4294967294%N; mkTxIn (mkOutPoint 2%N 0%N) [] 4294967294%N]
    [mkTxOut 10000000 [2%N]; mkTxOut 30000000 [7%N]; mkTxOut 19997790 [8%N];
     mkTxOut 9997790 [9%N]]
    10.

(** One recipient that pays the fee, and a candidate 100 above the
    amount. *)
Definition send_inclusive : list CRecipient := [mkRecipient [7%N] 50000000 true].

Definition tx_inclusive : CMutableTransaction :=
  mkMutableTx [mkTxIn (mkOutPoint 1%N 0%N) [] 4294967294%N]
              [mkTxOut 49997294 [7%N]; mkTxOut 546 [2%N]] 10.


(** One recipient that does not pay the fee, and a candidate 2500 above
    the amount. *)
Definition send_plain : list CRecipient := [mkRecipient [7%N] 50000000 false].

Definition tx_plain : CMutableTransaction :=
  mkMutableTx [mkTxIn (mkOutPoint 1%N 0%N) [] 4294967294%N] [mkTxOut 50000000 [7%N]] 10.


(** A coin of the same outpoint is in the set. *)
Definition coin_in (c : CInputCoin) (s : list CInputCoin) : Prop :=
  In (outpoint c) (List.map outpoint s).

(** The candidates 20, 10 and 5 in descending order. *)
Definition L15 : list CInputCoin := [input_coin 2 20; input_coin 1 10; input_coin 3 5].


(** * Further operations of the wallet *)

(** ** Queries on the ledger index *)

(** [CWallet::GetWalletTx], lines 226-233: the record, or a null pointer. *)
Definition GetWalletTx (w : CWallet) (hash : uint256) : option CWalletTx :=
  mapWallet w !! hash.

(** [CWallet::HasWalletSpend], lines 603-608. *)
Definition HasWalletSpend (w : CWallet) (txid : uint256) : bool :=
  match lower_bound (mkOutPoint txid 0) (mapTxSpends w) with
  | [] => false
  | iter :: _ => (op_hash (fst iter) =? txid)%N
  end.

(** [CWallet::TransactionCanBeAbandoned], lines 1177-1182. *)
Definition TransactionCanBeAbandoned (E : Externals) (w : CWallet) (hashTx : uint256) : bool :=
  match GetWalletTx w hashTx with
  | Some wtx =>
      negb (isAbandoned wtx) && (GetDepthInMainChain E wtx <=? 0) && negb (InMempool wtx)
  | None => false
  end.

Arguments HasWalletSpend w txid%_N.
Arguments TransactionCanBeAbandoned E w hashTx%_N.


(** ** Invariants of the ledger index *)

(** What an update keeps of a record: the record exists on both sides or
    on neither, with the same transaction and the same order position. *)
Definition record_kept (a b : option CWalletTx) : Prop :=
  match a, b with
  | Some x, Some y => tx y = tx x /\ nOrderPos y = nOrderPos x
  | None, None => True
  | _, _ => False
  end.

(** The spend index is in key order, its spenders are records of the
    wallet, and every record sits under the hash of its transaction. *)
Definition wallet_wf (w : CWallet) : Prop :=
  TxSpends_sorted (mapTxSpends w) /\ spenders_tracked w /\ wallet_consistent w.


(** Every position of [wtxOrdered] is below the next one to be given out. *)
Definition order_positions_fresh (w : CWallet) : Prop :=
  forall e, In e (wtxOrdered w) -> fst e < nOrderPosNext w.


(** ** Specification-side definitions for abandoning *)

(** [b] is [a] with other amount caches. *)
Definition same_but_caches (a b : CWalletTx) : Prop := b = set_cache (cache b) a.

(** What lines 1217-1218 make of a record. *)
Definition abandoned_of (wtx : CWalletTx) : CWalletTx := setAbandoned (set_nIndex (-1) wtx).

(** The test of line 1214. *)
Definition to_abandon (E : Externals) (wtx : CWalletTx) : bool :=
  (GetDepthInMainChain E wtx =? 0) && negb (isAbandoned wtx).

(** The asserts of lines 1212 and 1216 hold of the record of [s]. *)
Definition abandonable (E : Externals) (w : CWallet) (s : uint256) : Prop :=
  exists wtx, mapWallet w !! s = Some wtx /\
              GetDepthInMainChain E wtx <= 0 /\
              (to_abandon E wtx = true -> InMempool wtx = false).

(** What the record of [h] has become of the record it was in [w0]: it
    is abandoned if [h] is done and was to be abandoned, and is as it was
    otherwise, up to the caches. *)
Definition abandon_record (E : Externals) (w0 w : CWallet) (done : list uint256)
           (h : uint256) : Prop :=
  match mapWallet w0 !! h with
  | Some wtx =>
      exists wtx', mapWallet w !! h = Some wtx' /\
                   same_but_caches (if set_count h done && to_abandon E wtx
                                    then abandoned_of wtx else wtx) wtx'
  | None => mapWallet w !! h = None
  end.

(** What the loop of [AbandonTransaction] keeps once the transaction
    [hashTx] itself is done. *)
Record Abandon_inv (E : Externals) (hashTx : uint256) (w0 : CWallet)
       (todo done : list uint256) (w : CWallet) : Prop := {
  ab_spends : mapTxSpends w = mapTxSpends w0;
  ab_order : wtxOrdered w = wtxOrdered w0;
  ab_next : nOrderPosNext w = nOrderPosNext w0;
  ab_start : In hashTx done;
  ab_todo : forall x, In x todo -> spends w0 hashTx x /\ ~ In x done;
  ab_done : forall x, In x done -> x = hashTx \/ spends w0 hashTx x;
  ab_all : forall x, spends w0 hashTx x -> In x done \/ In x todo;
  ab_records : forall h, abandon_record E w0 w done h
}.


(** Transaction [32] spends [31] and is spent by [33]; none is confirmed
    or in the mempool. *)
Definition wallet_family : CWallet :=
  mkWallet
    (<[31%N := mk_wtx 31 [txin_of 50 0] [mkTxOut 70 []] 0 (-1) false]>
       (<[32%N := mk_wtx 32 [txin_of 31 0] [mkTxOut 60 []] 0 (-1) false]>
          (<[33%N := mk_wtx 33 [txin_of 32 0] [mkTxOut 50 []] 0 (-1) false]> ∅)))
    [(mkOutPoint 31%N 0%N, 32%N); (mkOutPoint 32%N 0%N, 33%N); (mkOutPoint 50%N 0%N, 31%N)]
    [(0, TxPair_wtx 31%N); (1, TxPair_wtx 32%N); (2, TxPair_wtx 33%N)]
    3.


(** ** Specification-side definitions for the presets of coin control *)

(** A preset outpoint that is no output of the wallet: its transaction is
    not a record, or the record has no output of that index (the two
    [return false] of lines 2719 and 2723). *)
Definition preset_missing (w : CWallet) (op : COutPoint) : Prop :=
  match mapWallet w !! op_hash op with
  | None => True
  | Some pcoin => (length (vout (tx pcoin)) <= N.to_nat (op_n op))%nat
  end.

(** The value of the output a candidate points to. *)
Definition out_value (out : COutput) : CAmount :=
  match vout (tx (out_tx out)) !! N.to_nat (out_i out) with
  | Some o => nValue o
  | None => 0
  end.

(** The value of the spendable candidates. *)
Definition spendable_total (vCoins : list COutput) : CAmount :=
  fold_right (fun out acc => if fSpendable out then out_value out + acc else acc) 0 vCoins.


(** A wallet holding transaction [1] with one output of value 10, and
    coin controls that preset that output, or an output of the unknown
    transaction [7]. *)
Definition wallet_preset : CWallet :=
  mkWallet (<[1%N := mk_wtx 1 [] [mkTxOut 10 []] 100 0 false]> ∅) [] [] 0.

Definition cc_preset : CCoinControl :=
  mkCoinControl None true {[ mkOutPoint 1%N 0%N ]} false.

Definition cc_unknown : CCoinControl :=
  mkCoinControl None true {[ mkOutPoint 7%N 0%N ]} false.

Definition cc_only_selected : CCoinControl :=
  mkCoinControl None false {[ mkOutPoint 1%N 0%N ]} false.


(** What marking transactions (conflicted or abandoned) keeps of a
    wallet: the spend index, the ordered list and its counter, the set of
    records, and the transaction and order position of every record. *)
Definition wallet_kept (w0 w : CWallet) : Prop :=
  mapTxSpends w = mapTxSpends w0 /\
  wtxOrdered w = wtxOrdered w0 /\
  nOrderPosNext w = nOrderPosNext w0 /\
  forall h, record_kept (mapWallet w0 !! h) (mapWallet w !! h).


(** ** Specification-side definitions for the built transaction *)

(** A [std::set<CInputCoin>] holds its coins in strictly increasing order
    of outpoint. *)
Definition coinset_sorted (s : list CInputCoin) : Prop :=
  StronglySorted (fun a b => outpoint_ltb (outpoint a) (outpoint b) = true) s.

(** The sequence number [CreateTransaction] gives every input, lines
    3103-3106. *)
Definition input_sequence (coin_control : CCoinControl) : N :=
  if signalRbf coin_control then MAX_BIP125_RBF_SEQUENCE else (SEQUENCE_FINAL - 1)%N.

(** The script the change of a pass is paid to: the change destination of
    the coin control, or a key reserved from the pool. *)
Definition change_script_of (B : BuilderEnv) (coin_control : CCoinControl) (script : CScript)
  : Prop :=
  match destChange coin_control with
  | Some s => script = s
  | None => exists pass, ReservedKey_in_pass B pass = Some script
  end.


(** A wallet whose only transaction, [41], is marked abandoned. *)
Definition wallet_abandoned : CWallet :=
  mkWallet (<[41%N := mk_wtx 41 [txin_of 50 0] [mkTxOut 70 []] ABANDON_HASH (-1) false]> ∅)
           [(mkOutPoint 50%N 0%N, 41%N)] [(0, TxPair_wtx 41%N)] 1.


(** * Transaction records

    [CTransactionRecord] keeps its output records in the vector [vout].
    [COutputRecord] is declared in wallet.h; the functions below read its
    members [n] (the output index, an integer) and [nFlags] only, so the
    type and the two members are parameters. *)

Section OutputRecords.

Variable COutputRecord : Type.
Variable rec_n : COutputRecord -> Z.
Variable rec_nFlags : COutputRecord -> N.
Variable ORF_CHANGE : N.

(** [CTransactionRecord::InsertOutput], lines 6077-6092: the returned
    number and [vout] after the call. *)
Fixpoint InsertOutput (r : COutputRecord) (vout : list COutputRecord)
  : Z * list COutputRecord :=
  match vout with
  | [] => (1, [r])                                   (* vout.push_back(r) *)
  | x :: rest =>
      if rec_n x =? rec_n r then (0, vout)           (* duplicate *)
      else if rec_n x <? rec_n r then
        let '(res, rest') := InsertOutput r rest in (res, x :: rest')
      else (1, r :: vout)                            (* vout.insert(begin + i, r) *)
  end.

(** [CTransactionRecord::EraseOutput], lines 6094-6105; the index is handed
    over as a [uint16_t] and is the integer it holds. *)
Fixpoint EraseOutput (n : Z) (vout : list COutputRecord) : bool * list COutputRecord :=
  match vout with
  | [] => (false, [])
  | x :: rest =>
      if negb (rec_n x =? n) then
        let '(res, rest') := EraseOutput n rest in (res, x :: rest')
      else (true, rest)
  end.

(** [CTransactionRecord::GetOutput], lines 6107-6131; [None] is the null
    pointer. *)
Fixpoint GetOutput (n : Z) (vout : list COutputRecord) : option COutputRecord :=
  match vout with
  | [] => None
  | r :: rest =>
      if n <? rec_n r then None
      else if rec_n r =? n then Some r
      else GetOutput n rest
  end.

(** [CTransactionRecord::GetChangeOutput], lines 6133-6141. *)
Fixpoint GetChangeOutput (vout : list COutputRecord) : option COutputRecord :=
  match vout with
  | [] => None
  | r :: rest =>
      if negb (N.land (rec_nFlags r) ORF_CHANGE =? 0)%N then Some r
      else GetChangeOutput rest
  end.

(** "vout is always in order by asc n" (the comment of [GetOutput]). *)
Definition records_sorted (vout : list COutputRecord) : Prop :=
  StronglySorted (fun a b => rec_n a < rec_n b) vout.

End OutputRecords.


(** * Ownership of a transaction *)

Section Ownership.

Variable E : Externals.

(** [CWallet::IsMine(const CTxIn&)], lines 1398-1411. *)
Definition IsMine_txin (w : CWallet) (txin : CTxIn) : N :=
  match mapWallet w !! op_hash (prevout txin) with
  | Some prev =>
      match vout (tx prev) !! N.to_nat (op_n (prevout txin)) with
      | Some o => IsMine E o
      | None => ISMINE_NO
      end
  | None => ISMINE_NO
  end.

(** [CWallet::IsMine(const CTransaction&)], lines 1472-1478. *)
Definition IsMine_tx (t : CTransaction) : bool :=
  existsb (fun txout => negb (IsMine E txout =? ISMINE_NO)%N) (vout t).

(** [CWallet::IsFromMe(const CTransaction&)], lines 1480-1483. *)
Definition IsFromMe_tx (w : CWallet) (t : CTransaction) : outcome bool :=
  d ← GetDebit_tx E w t ISMINE_ALL; Ret (0 <? d).

(** [CWallet::IsAllFromMe], lines 1497-1516. *)
Fixpoint IsAllFromMe_loop (w : CWallet) (filter : N) (ins : list CTxIn) : bool :=
  match ins with
  | [] => true
  | txin :: rest =>
      match mapWallet w !! op_hash (prevout txin) with
      | None => false                      (* any unknown inputs can't be from us *)
      | Some prev =>
          match vout (tx prev) !! N.to_nat (op_n (prevout txin)) with
          | None => false                  (* invalid input! *)
          | Some o =>
              if negb (flag_and (IsMine E o) filter) then false
              else IsAllFromMe_loop w filter rest
          end
      end
  end.

Definition IsAllFromMe (w : CWallet) (t : CTransaction) (filter : N) : bool :=
  IsAllFromMe_loop w filter (vin t).

(** [CWallet::GetCredit(const CTransaction&, filter)], lines 1518-1528. *)
Fixpoint GetCredit_loop (filter : N) (outs : list CTxOut) (nCredit : CAmount)
  : outcome CAmount :=
  match outs with
  | [] => Ret nCredit
  | txout :: rest =>
      c ← GetCredit_txout E txout filter;
      let nCredit := nCredit + c in
      if negb (MoneyRange E nCredit) then Throw
      else GetCredit_loop filter rest nCredit
  end.

Definition GetCredit_tx (t : CTransaction) (filter : N) : outcome CAmount :=
  GetCredit_loop filter (vout t) 0.

End Ownership.

(** The value of the output an input spends, when the wallet holds it. *)
Definition input_value (w : CWallet) (txin : CTxIn) : CAmount :=
  match mapWallet w !! op_hash (prevout txin) with
  | Some prev =>
      match vout (tx prev) !! N.to_nat (op_n (prevout txin)) with
      | Some o => nValue o
      | None => 0
      end
  | None => 0
  end.

Definition total_input_value (w : CWallet) (ins : list CTxIn) : CAmount :=
  fold_right (fun txin acc => input_value w txin + acc) 0 ins.

(** The outputs of [outs] that belong to the wallet under [filter]. *)
Definition credited (E : Externals) (filter : N) (outs : list CTxOut) : list CTxOut :=
  List.filter (fun txout => flag_and (IsMine E txout) filter) outs.

(** Every ownership bit of [f1] is one of [f2]. *)
Definition filter_within (f1 f2 : N) : Prop := N.land f1 f2 = f1.


(** * The candidate scan

    [AvailableCoins] reads more of the wallet than the ledger above
    holds; what it reads besides is collected here. *)

(** Modelled from the spec: [ISMINE_WATCH_SOLVABLE] is a bit of
    [isminetype] (script/ismine.h), the solvable half of the watch-only
    ownership of the spec. *)
Definition ISMINE_WATCH_SOLVABLE : N := 2.

Record ScanEnv := mkScanEnv {
  (* setLockedCoins *)
  setLockedCoins : gset COutPoint;
  (* fGhostNode and GHOSTNODE_COIN_REQUIRED * COIN *)
  fGhostNode : bool;
  GHOSTNODE_AMOUNT : CAmount;
  (* PRIVATESEND_COLLATERAL, a positive constant *)
  PRIVATESEND_COLLATERAL : CAmount;
  (* CTxOut::GetHash *)
  CTxOut_GetHash : CTxOut -> uint256;
  (* the member fAllowWatchOnly of the coin control handed in *)
  coinControl_fAllowWatchOnly : bool
}.

(** The values of [AvailableCoinsType]: those the selector reads, and the
    two only the scan reads. *)
Inductive CoinTypeFilter :=
| Filter_of (t : AvailableCoinsType)
| ONLY_40000
| ONLY_PRIVATESEND_COLLATERAL.

(** What the scan of the outputs of one transaction ends in: the list and
    the running total, and whether the function returned. *)
Definition ScanOutputs : Type := list COutput * CAmount * bool.

Section CandidateScan.

Variable E : Externals.
Variable B : BuilderEnv.
Variable S : ScanEnv.

(** [CWallet::IsLockedCoin], lines 3970-3976. *)
Definition IsLockedCoin (hash : uint256) (n : N) : bool :=
  bool_decide (mkOutPoint hash n ∈ setLockedCoins S).

(** [CWallet::IsDenominatedAmount], lines 8692-8697. *)
Definition IsDenominatedAmount (nInputAmount : CAmount) : bool :=
  existsb (fun d => nInputAmount =? d) (vecPrivateSendDenominations B).

(** [CWallet::IsCollateralAmount], lines 8735-8740. *)
Definition IsCollateralAmount (nInputAmount : CAmount) : bool :=
  (PRIVATESEND_COLLATERAL S * 2 <=? nInputAmount)
  && (nInputAmount <=? PRIVATESEND_COLLATERAL S * 4)
  && (Z.rem nInputAmount (PRIVATESEND_COLLATERAL S) =? 0).

(** The test of the coin type, lines 2371-2390; the [continue] on a
    collateral amount counts as not found. *)
Definition coin_type_found (nCoinType : CoinTypeFilter) (v : CAmount) : bool :=
  match nCoinType with
  | Filter_of ONLY_DENOMINATED => IsDenominatedAmount v
  | Filter_of ONLY_NOT40000IFMN => negb (fGhostNode S && (v =? GHOSTNODE_AMOUNT S))
  | Filter_of ONLY_NONDENOMINATED_NOT40000IFMN =>
      if IsCollateralAmount v then false
      else
        let found := negb (IsDenominatedAmount v) in
        if found && fGhostNode S then negb (v =? GHOSTNODE_AMOUNT S) else found
  | ONLY_40000 => v =? GHOSTNODE_AMOUNT S
  | ONLY_PRIVATESEND_COLLATERAL => IsCollateralAmount v
  | Filter_of ALL_COINS => true
  end.

(** The loop over the outputs of one transaction, lines 2369-2439.  With
    [ONLY_40000] the outpoint that is looked up is made of the hash of
    the output, not of the transaction. *)
Fixpoint AvailableCoins_outputs (w : CWallet) (coinControl : option CCoinControl)
         (nMinimumAmount nMaximumAmount nMinimumSumAmount : CAmount) (nMaximumCount : N)
         (nCoinType : CoinTypeFilter) (wtxid : uint256) (pcoin : CWalletTx) (nDepth' : Z)
         (safeTx : bool) (i : N) (outs : list CTxOut) (vCoins : list COutput)
         (nTotal : CAmount) : ScanOutputs :=
  match outs with
  | [] => (vCoins, nTotal, false)
  | txout :: rest =>
      let continue :=
        AvailableCoins_outputs w coinControl nMinimumAmount nMaximumAmount nMinimumSumAmount
          nMaximumCount nCoinType wtxid pcoin nDepth' safeTx (N.succ i) rest in
      if negb (coin_type_found nCoinType (nValue txout)) then continue vCoins nTotal
      else if (nValue txout <? nMinimumAmount) || (nMaximumAmount <? nValue txout)
      then continue vCoins nTotal
      else
        let hash :=
          match nCoinType with ONLY_40000 => CTxOut_GetHash S txout | _ => wtxid end in
        if match coinControl with
           | Some cc => HasSelected cc && negb (fAllowOtherInputs cc)
                        && negb (bool_decide (mkOutPoint hash i ∈ setSelected cc))
           | None => false
           end
        then continue vCoins nTotal
        else if IsLockedCoin hash i then continue vCoins nTotal
        else if IsSpent E w hash i then continue vCoins nTotal
        else
          let mine := IsMine E txout in
          if (mine =? ISMINE_NO)%N then continue vCoins nTotal
          else
            let fSpendableIn :=
              negb (N.land mine ISMINE_SPENDABLE =? ISMINE_NO)%N
              || (match coinControl with
                  | Some _ => coinControl_fAllowWatchOnly S
                  | None => false
                  end
                  && negb (N.land mine ISMINE_WATCH_SOLVABLE =? ISMINE_NO)%N) in
            let fSolvableIn :=
              negb (N.land mine (N.lor ISMINE_SPENDABLE ISMINE_WATCH_SOLVABLE)
                    =? ISMINE_NO)%N in
            let vCoins := vCoins ++ [mkOutput pcoin i nDepth' fSpendableIn fSolvableIn safeTx] in
            let sum_reached :=
              negb (nMinimumSumAmount =? MAX_MONEY E)
              && (nMinimumSumAmount <=? nTotal + nValue txout) in
            let nTotal :=
              if negb (nMinimumSumAmount =? MAX_MONEY E) then nTotal + nValue txout
              else nTotal in
            if sum_reached then (vCoins, nTotal, true)
            else if (0 <? nMaximumCount)%N && (nMaximumCount <=? N.of_nat (length vCoins))%N
            then (vCoins, nTotal, true)
            else continue vCoins nTotal
  end.

(** [mapValue.count(key)] of a record. *)
Definition mapValue_count (key : string) (wtx : CWalletTx) : bool :=
  existsb (fun kv => String.eqb (fst kv) key) (mapValue wtx).

(** The loop over [mapWallet], lines 2308-2440. *)
Fixpoint AvailableCoins_entries (w : CWallet) (fOnlySafe : bool)
         (coinControl : option CCoinControl)
         (nMinimumAmount nMaximumAmount nMinimumSumAmount : CAmount) (nMaximumCount : N)
         (nMinDepth nMaxDepth : Z) (nCoinType : CoinTypeFilter)
         (entries : list (uint256 * CWalletTx)) (vCoins : list COutput) (nTotal : CAmount)
  : outcome (list COutput) :=
  match entries with
  | [] => Ret vCoins
  | entry :: rest =>
      let wtxid := fst entry in
      let pcoin := snd entry in
      let continue :=
        AvailableCoins_entries w fOnlySafe coinControl nMinimumAmount nMaximumAmount
          nMinimumSumAmount nMaximumCount nMinDepth nMaxDepth nCoinType rest in
      if negb (CheckFinalTx E (tx pcoin)) then continue vCoins nTotal
      else if IsCoinBase pcoin && (0 <? GetBlocksToMaturity E pcoin)
      then continue vCoins nTotal
      else
        let nDepth' := GetDepthInMainChain_IX E false pcoin in
        if (nDepth' =? 0) && negb (InMempool pcoin) then continue vCoins nTotal
        else
          safeTx ← IsTrusted E w pcoin;
          let safeTx :=
            if (nDepth' =? 0) && mapValue_count "replaces_txid" pcoin then false
            else safeTx in
          let safeTx :=
            if (nDepth' =? 0) && mapValue_count "replaced_by_txid" pcoin then false
            else safeTx in
          if fOnlySafe && negb safeTx then continue vCoins nTotal
          else if (nDepth' <? nMinDepth) || (nMaxDepth <? nDepth') then continue vCoins nTotal
          else
            let '(vCoins, nTotal, returned) :=
              AvailableCoins_outputs w coinControl nMinimumAmount nMaximumAmount
                nMinimumSumAmount nMaximumCount nCoinType wtxid pcoin nDepth' safeTx 0
                (vout (tx pcoin)) vCoins nTotal in
            if (returned : bool) then Ret vCoins else continue vCoins nTotal
  end.

(** [CWallet::AvailableCoins], lines 2299-2442: [vCoins] after the call. *)
Definition AvailableCoins (w : CWallet) (fOnlySafe : bool) (coinControl : option CCoinControl)
           (nMinimumAmount nMaximumAmount nMinimumSumAmount : CAmount) (nMaximumCount : N)
           (nMinDepth nMaxDepth : Z) (nCoinType : CoinTypeFilter) : outcome (list COutput) :=
  AvailableCoins_entries w fOnlySafe coinControl nMinimumAmount nMaximumAmount
    nMinimumSumAmount nMaximumCount nMinDepth nMaxDepth nCoinType
    (wallet_entries (mapWallet w)) [] 0.

End CandidateScan.

(** What the scan promises of a candidate, for a coin type other than
    [ONLY_40000]: it is an output of a record of the wallet, within the
    bounds asked for, the wallet's, not locked and not spent. *)
Definition candidate_ok (E : Externals) (S : ScanEnv) (w : CWallet) (fOnlySafe : bool)
           (nMinimumAmount nMaximumAmount : CAmount) (nMinDepth nMaxDepth : Z)
           (out : COutput) : Prop :=
  mapWallet w !! GetHash (out_tx out) = Some (out_tx out) /\
  nMinDepth <= nDepth out <= nMaxDepth /\
  (fOnlySafe = true -> fSafe out = true) /\
  IsLockedCoin S (GetHash (out_tx out)) (out_i out) = false /\
  IsSpent E w (GetHash (out_tx out)) (out_i out) = false /\
  exists txout,
    vout (tx (out_tx out)) !! N.to_nat (out_i out) = Some txout /\
    IsMine E txout <> ISMINE_NO /\
    nMinimumAmount <= nValue txout <= nMaximumAmount.


(** A scan environment without locked coins. *)
Definition S0 : ScanEnv := mkScanEnv ∅ false 4000000000000 100000 (fun _ => 0%N) false.


(** ** Specification-side definitions for the spend index *)

(** Every entry of the spend index names an input of the record of its
    spender. *)
Definition index_sound (w : CWallet) : Prop :=
  forall o h, In (o, h) (mapTxSpends w) ->
    exists wtx, mapWallet w !! h = Some wtx /\ In o (List.map prevout (vin (tx wtx))).

(** The record [wtx], stored under [h], has each of its inputs in the
    spend index (as [AddToSpends] leaves it for a transaction that is
    neither a coinbase nor a zerocoin spend). *)
Definition inputs_indexed (w : CWallet) (h : uint256) (wtx : CWalletTx) : Prop :=
  forall txin, In txin (vin (tx wtx)) -> In (prevout txin, h) (mapTxSpends w).


(** * Notifications of the chain and of the mempool *)

(** [CMerkleTx::SetMerkleBranch], lines 4393-4400; the block index is
    reduced to its hash. *)
Definition SetMerkleBranch (hashBlock' : uint256) (posInBlock : Z) (wtx : CWalletTx)
  : CWalletTx :=
  set_nIndex posInBlock (set_hashBlock hashBlock' wtx).

Definition set_fInMempool (b : bool) (wtx : CWalletTx) : CWalletTx :=
  mkWalletTx (tx wtx) (hashBlock wtx) (nIndex wtx) (mapValue wtx) (vOrderForm wtx)
             (nTimeReceived wtx) (nTimeSmart wtx) (fFromMe wtx) (strFromAccount wtx)
             (nOrderPos wtx) b (cache wtx).

Section Notifications.

Variable E : Externals.

(** Lines 1141-1163 of [AddToWalletIfInvolvingMe] look the outputs up in
    the key pool, mark pool keys as used and top the pool up.  They act on
    the key pool and the database, which are no part of the ledger: the
    pool is a state of its own, and the step can end in an exception. *)
Variable KeyPool : Type.
Variable keypool_maintenance : CTransaction -> KeyPool -> outcome KeyPool.

(** The loop over [mapTxSpends.equal_range(txin.prevout)], lines
    1127-1133. *)
Fixpoint mark_conflicts_range (fuel : nat) (hashBlock' hashTx : uint256)
         (range : list (COutPoint * uint256)) (w : CWallet) : outcome CWallet :=
  match range with
  | [] => Ret w
  | e :: rest =>
      w ← (if negb (snd e =? hashTx)%N then MarkConflicted E fuel hashBlock' (snd e) w
           else Ret w);
      mark_conflicts_range fuel hashBlock' hashTx rest w
  end.

(** The loop over the inputs, lines 1125-1134. *)
Fixpoint mark_conflicts (fuel : nat) (hashBlock' hashTx : uint256) (ins : list CTxIn)
         (w : CWallet) : outcome CWallet :=
  match ins with
  | [] => Ret w
  | txin :: rest =>
      w ← mark_conflicts_range fuel hashBlock' hashTx
            (equal_range (prevout txin) (mapTxSpends w)) w;
      mark_conflicts fuel hashBlock' hashTx rest w
  end.

(** [CWallet::AddToWalletIfInvolvingMe], lines 1118-1175.  [pIndex] is the
    hash of the block index handed in, [None] for [nullptr];
    [CWalletTx wtx(this, ptx)] is a default record around the
    transaction. *)
Definition AddToWalletIfInvolvingMe (fuel : nat) (ptx : CTransaction)
           (pIndex : option uint256) (posInBlock : Z) (fUpdate : bool)
           (w : CWallet) (k : KeyPool) : outcome (bool * CWallet * KeyPool) :=
  w ← match pIndex with
      | Some hashBlock' => mark_conflicts fuel hashBlock' (tx_hash ptx) (vin ptx) w
      | None => Ret w
      end;
  let fExisted := bool_decide (is_Some (mapWallet w !! tx_hash ptx)) in
  if fExisted && negb fUpdate then Ret (false, w, k)
  else
    involved ← (if fExisted then Ret true
                else if IsMine_tx E ptx then Ret true
                     else IsFromMe_tx E w ptx);
    if (involved : bool) then
      k ← keypool_maintenance ptx k;
      let wtx := set_tx ptx CWalletTx_default in
      let wtx := match pIndex with
                 | Some hashBlock' => SetMerkleBranch hashBlock' posInBlock wtx
                 | None => wtx
                 end in
      '(b, w) ← AddToWallet E wtx w;
      Ret (b, w, k)
    else Ret (false, w, k).

(** [CWallet::SyncTransaction], lines 1306-1321. *)
Definition SyncTransaction (fuel : nat) (ptx : CTransaction) (pindex : option uint256)
           (posInBlock : Z) (w : CWallet) (k : KeyPool) : outcome (CWallet * KeyPool) :=
  '(involved, w, k) ← AddToWalletIfInvolvingMe fuel ptx pindex posInBlock true w k;
  if negb involved then Ret (w, k)                        (* Not one of ours *)
  else Ret (MarkDirty_parents (vin ptx) w, k).

(** [it->second.fInMempool = b] on the record of [hash], if there is
    one. *)
Definition set_InMempool_of (hash : uint256) (b : bool) (w : CWallet) : CWallet :=
  match mapWallet w !! hash with
  | Some wtx => set_mapWallet (<[hash := set_fInMempool b wtx]> (mapWallet w)) w
  | None => w
  end.

(** [CWallet::TransactionAddedToMempool], lines 1323-1331; the call
    [SyncTransaction(ptx)] leaves the block index to its default of
    wallet.h, the null pointer. *)
Definition TransactionAddedToMempool (fuel : nat) (ptx : CTransaction)
           (w : CWallet) (k : KeyPool) : outcome (CWallet * KeyPool) :=
  '(w, k) ← SyncTransaction fuel ptx None 0 w k;
  Ret (set_InMempool_of (tx_hash ptx) true w, k).

(** [CWallet::TransactionRemovedFromMempool], lines 1333-1339. *)
Definition TransactionRemovedFromMempool (ptx : CTransaction) (w : CWallet) : CWallet :=
  set_InMempool_of (tx_hash ptx) false w.

End Notifications.

(** What a notification keeps of the wallet: it only adds to the spend
    index and to the records. *)
Definition wallet_grows (w w' : CWallet) : Prop :=
  (forall e, In e (mapTxSpends w) -> In e (mapTxSpends w')) /\
  (forall h, is_Some (mapWallet w !! h) -> is_Some (mapWallet w' !! h)).


(** * Selection for mixing *)

Section SelectCoinsDark.

Variable E : Externals.
Variable B : BuilderEnv.
Variable S : ScanEnv.

(** [sort(vCoins.rbegin(), vCoins.rend(), CompareByPriority())]: the
    order [std::sort] leaves among candidates of equal priority is not
    specified, so the sort is a parameter. *)
Variable sort_by_priority : list COutput -> list COutput.

(** The loop over the sorted candidates, lines 8755-8774: the inputs
    picked (outpoint and [prevPubKey]) and their value. *)
Fixpoint SelectCoinsDark_loop (nValueMin nValueMax : CAmount)
         (nPrivateSendRoundsMin nPrivateSendRoundsMax : Z) (vCoins : list COutput)
         (vecTxInRet : list (COutPoint * CScript)) (nValueRet : CAmount)
  : outcome (list (COutPoint * CScript) * CAmount) :=
  match vCoins with
  | [] => Ret (vecTxInRet, nValueRet)
  | out :: rest =>
      let continue :=
        SelectCoinsDark_loop nValueMin nValueMax nPrivateSendRoundsMin
                             nPrivateSendRoundsMax rest in
      match vout (tx (out_tx out)) !! N.to_nat (out_i out) with
      | None => Undefined
      | Some o =>
          (* do not allow inputs less than 1/10th of minimum value *)
          if nValue o <? Z.quot nValueMin 10 then continue vecTxInRet nValueRet
          (* do not allow collaterals to be selected *)
          else if IsCollateralAmount S (nValue o) then continue vecTxInRet nValueRet
          else if fGhostNode S && (nValue o =? GHOSTNODE_AMOUNT S)
          then continue vecTxInRet nValueRet
          else if nValueRet + nValue o <=? nValueMax then
            let op := mkOutPoint (GetHash (out_tx out)) (out_i out) in
            let nRounds := GetInputPrivateSendRounds B op in
            if nPrivateSendRoundsMax <=? nRounds then continue vecTxInRet nValueRet
            else if nRounds <? nPrivateSendRoundsMin then continue vecTxInRet nValueRet
            else continue (vecTxInRet ++ [(op, scriptPubKey o)]) (nValueRet + nValue o)
          else continue vecTxInRet nValueRet
      end
  end.

(** [CWallet::SelectCoinsDark], lines 8742-8777: the returned flag,
    [vecTxInRet] and [nValueRet]. *)
Definition SelectCoinsDark (w : CWallet) (nValueMin nValueMax : CAmount)
           (nPrivateSendRoundsMin nPrivateSendRoundsMax : Z)
  : outcome (bool * list (COutPoint * CScript) * CAmount) :=
  vCoins ← AvailableCoins E B S w true None 0 (MAX_MONEY E) (MAX_MONEY E) 0 0 9999999
             (Filter_of (if nPrivateSendRoundsMin <? 0
                         then ONLY_NONDENOMINATED_NOT40000IFMN else ONLY_DENOMINATED));
  let vCoins := sort_by_priority vCoins in
  '(vecTxInRet, nValueRet) ← SelectCoinsDark_loop nValueMin nValueMax nPrivateSendRoundsMin
                                                   nPrivateSendRoundsMax vCoins [] 0;
  Ret (nValueMin <=? nValueRet, vecTxInRet, nValueRet).

End SelectCoinsDark.


(** The value of an outpoint of the wallet. *)
Definition outpoint_value (w : CWallet) (op : COutPoint) : CAmount :=
  match mapWallet w !! op_hash op with
  | Some pcoin =>
      match vout (tx pcoin) !! N.to_nat (op_n op) with
      | Some o => nValue o
      | None => 0
      end
  | None => 0
  end.

(** What [SelectCoinsDark] promises of an input it picks. *)
Definition mixing_input_ok (E : Externals) (B : BuilderEnv) (S : ScanEnv) (w : CWallet)
           (nValueMin : CAmount) (nPrivateSendRoundsMin nPrivateSendRoundsMax : Z)
           (input : COutPoint * CScript) : Prop :=
  exists pcoin txout,
    mapWallet w !! op_hash (fst input) = Some pcoin /\
    vout (tx pcoin) !! N.to_nat (op_n (fst input)) = Some txout /\
    snd input = scriptPubKey txout /\
    IsSpent E w (op_hash (fst input)) (op_n (fst input)) = false /\
    IsLockedCoin S (op_hash (fst input)) (op_n (fst input)) = false /\
    IsCollateralAmount S (nValue txout) = false /\
    Z.quot nValueMin 10 <= nValue txout /\
    nPrivateSendRoundsMin <= GetInputPrivateSendRounds B (fst input)
    < nPrivateSendRoundsMax.


(** ** Specification-side definitions for the conflicts a block brings *)

(** Between two states of the wallet, every record stays, with its
    confirmation state as it was or marked as conflicted with the block. *)
Definition marks_kept (hashBlock' : uint256) (w1 w2 : CWallet) : Prop :=
  forall x wx1, mapWallet w1 !! x = Some wx1 ->
    exists wx2, mapWallet w2 !! x = Some wx2 /\
                (marked_conflicted hashBlock' wx2 \/ same_chain_state wx2 wx1).

(** The record is marked as conflicted with the block, or is as [wtx0]
    was. *)
Definition marked_or_same (hashBlock' : uint256) (wtx0 : CWalletTx)
           (a : option CWalletTx) : Prop :=
  match a with
  | Some x => marked_conflicted hashBlock' x \/ same_chain_state x wtx0
  | None => False
  end.

(** The record is marked as conflicted with the block, or is as [wtx0]
    was, and [wtx0] was no less conflicted than the block makes it. *)
Definition conflict_settled (E : Externals) (hashBlock' : uint256) (wtx0 : CWalletTx)
           (a : option CWalletTx) : Prop :=
  match a with
  | Some x =>
      marked_conflicted hashBlock' x \/
      (same_chain_state x wtx0 /\
       GetDepthInMainChain E wtx0 <= conflictconfirms_of E hashBlock')
  | None => False
  end.

(** * The balance view

    What [IsTrusted] and [GetBalance] answer and what they leave in the
    caches, said without the getters of the code. *)

Section BalanceSpec.

Variable E : Externals.

(** The value of the outputs of the wallet that the inputs of [t] spend
    and that the wallet owns under [filter]. *)
Definition wallet_debit (w : CWallet) (filter : N) (t : CTransaction) : CAmount :=
  total_input_value w
    (List.filter (fun txin => flag_and (IsMine_txin E w txin) filter) (vin t)).

(** The debit a record reports under one ownership bit: the amount in its
    cache when the flag next to it is set, whatever the wallet holds by
    now, and what the wallet holds otherwise. *)
Definition reported_debit_spendable (w : CWallet) (wtx : CWalletTx) : CAmount :=
  if fDebitCached (cache wtx) then nDebitCached (cache wtx)
  else wallet_debit w ISMINE_SPENDABLE (tx wtx).

Definition reported_debit_watch_only (w : CWallet) (wtx : CWalletTx) : CAmount :=
  if fWatchDebitCached (cache wtx) then nWatchDebitCached (cache wtx)
  else wallet_debit w ISMINE_WATCH_ONLY (tx wtx).

Definition reported_debit (w : CWallet) (wtx : CWalletTx) : CAmount :=
  if decide (vin (tx wtx) = []) then 0
  else reported_debit_spendable w wtx + reported_debit_watch_only w wtx.

(** The trust predicate as the code has it. *)
Definition record_trusted (w : CWallet) (wtx : CWalletTx) : Prop :=
  CheckFinalTx E (tx wtx) = true /\
  (1 <= GetDepthInMainChain E wtx \/
   (GetDepthInMainChain E wtx = 0 /\
    bSpendZeroConfChange E = true /\
    0 < reported_debit w wtx /\
    InMempool wtx = true /\
    inputs_self_originated E w wtx)).

#[global] Instance inputs_self_originated_dec w wtx :
  Decision (inputs_self_originated E w wtx).
Proof.
  unfold inputs_self_originated. induction (vin (tx wtx)) as [|txin ins IH].
  - left. intros txin [].
  - destruct (mapWallet w !! op_hash (prevout txin)) as [parent|] eqn:Hp.
    2:{ right. intros H. destruct (H txin (or_introl eq_refl)) as (p & o & Hp' & _).
        congruence. }
    destruct (vout (tx parent) !! N.to_nat (op_n (prevout txin))) as [parentOut|] eqn:Ho.
    2:{ right. intros H. destruct (H txin (or_introl eq_refl)) as (p & o & Hp' & Ho' & _).
        congruence. }
    destruct (decide (IsMine E parentOut = ISMINE_SPENDABLE)) as [Hm|Hm].
    2:{ right. intros H. destruct (H txin (or_introl eq_refl)) as (p & o & Hp' & Ho' & Hm').
        congruence. }
    destruct IH as [IH|IH].
    + left. intros t [<-|Ht]; [eauto|auto].
    + right. intros H. apply IH. intros t Ht. apply H. right. exact Ht.
Defined.

#[global] Instance record_trusted_dec w wtx : Decision (record_trusted w wtx).
Proof. unfold record_trusted. apply _. Defined.

(** The record after [GetDebit] was asked for every kind of ownership:
    both debit caches hold what was reported. *)
Definition debit_cached (w : CWallet) (wtx : CWalletTx) : CWalletTx :=
  if decide (vin (tx wtx) = []) then wtx
  else set_cache (set_WatchDebitCached (reported_debit_watch_only w wtx)
                    (set_DebitCached (reported_debit_spendable w wtx) (cache wtx))) wtx.

(** The record after [IsTrusted]: the debit is asked for when the record
    is final and of depth 0 and unconfirmed change may be spent. *)
Definition trust_cached (w : CWallet) (wtx : CWalletTx) : CWalletTx :=
  if CheckFinalTx E (tx wtx) && (GetDepthInMainChain E wtx =? 0) && bSpendZeroConfChange E
  then debit_cached w wtx else wtx.

(** The outputs of the record that [IsSpent] does not find spent. *)
Definition unspent_outputs (w : CWallet) (wtx : CWalletTx) : list CTxOut :=
  omap (fun p : nat * CTxOut =>
          if IsSpent E w (GetHash wtx) (N.of_nat (fst p)) then None else Some (snd p))
       (imap pair (vout (tx wtx))).

(** The value of the unspent outputs of the record that the wallet can
    spend. *)
Definition wallet_credit (w : CWallet) (wtx : CWalletTx) : CAmount :=
  sum_values (credited E ISMINE_SPENDABLE (unspent_outputs w wtx)).

(** The available credit a record reports: nothing for a coinbase that is
    not mature, the amount in its cache when the flag next to it is set,
    and what the wallet holds otherwise. *)
Definition reported_credit (w : CWallet) (wtx : CWalletTx) : CAmount :=
  if IsCoinBase wtx && (0 <? GetBlocksToMaturity E wtx) then 0
  else if fAvailableCreditCached (cache wtx) then nAvailableCreditCached (cache wtx)
  else wallet_credit w wtx.

(** The record after [GetAvailableCredit]. *)
Definition credit_cached (w : CWallet) (wtx : CWalletTx) : CWalletTx :=
  if IsCoinBase wtx && (0 <? GetBlocksToMaturity E wtx) then wtx
  else set_cache (set_AvailableCreditCached (reported_credit w wtx) (cache wtx)) wtx.

(** The record after [GetBalance] has visited it. *)
Definition balance_cached (w : CWallet) (wtx : CWalletTx) : CWalletTx :=
  if bool_decide (record_trusted w wtx) then credit_cached w (trust_cached w wtx)
  else trust_cached w wtx.

(** No running total of the amounts that are read for the record leaves
    the money range, and no output is read that its transaction does not
    have: the outputs that the inputs spend are not negative and worth
    [MAX_MONEY] at most together, so are the outputs of the record, and a
    tracked transaction has the outputs that the inputs name. *)
Definition record_in_range (w : CWallet) (wtx : CWalletTx) : Prop :=
  (forall txin, In txin (vin (tx wtx)) -> 0 <= input_value w txin) /\
  total_input_value w (vin (tx wtx)) <= MAX_MONEY E /\
  (forall txout, In txout (vout (tx wtx)) -> 0 <= nValue txout) /\
  sum_values (vout (tx wtx)) <= MAX_MONEY E /\
  (forall txin parent,
      In txin (vin (tx wtx)) ->
      mapWallet w !! op_hash (prevout txin) = Some parent ->
      is_Some (vout (tx parent) !! N.to_nat (op_n (prevout txin)))).

Definition ledger_in_range (w : CWallet) : Prop :=
  forall hash wtx, mapWallet w !! hash = Some wtx -> record_in_range w wtx.

End BalanceSpec.

(** The wallet knows transaction [7] of [wallet_zero_conf] alone. *)
Definition wallet_child_only : CWallet :=
  mkWallet (<[7%N := wtx_zero_conf_child]> ∅) [(mkOutPoint 6%N 0%N, 7%N)]
           [(0, TxPair_wtx 7%N)] 1.


(** * Properties *)

(** ** The outcome monad *)

Lemma bind_Ret_inv {A B} (m : outcome A) (k : A -> outcome B) (b : B) :
  m ≫= k = Ret b -> exists a, m = Ret a /\ k a = Ret b.
Proof. destruct m; simpl; intros H; try discriminate; eauto. Qed.

Lemma bind_Ret_l {A B} (a : A) (k : A -> outcome B) : Ret a ≫= k = k a.
Proof. reflexivity. Qed.

(** ** Outpoints and ordered containers *)

Lemma outpoint_eqb_eq a b : outpoint_eqb a b = true <-> a = b.
Proof.
  destruct a as [h1 n1], b as [h2 n2]; unfold outpoint_eqb; simpl.
  rewrite andb_true_iff, !N.eqb_eq. split.
  - intros [-> ->]; reflexivity.
  - intros H; inversion H; auto.
Qed.

Lemma outpoint_eqb_refl a : outpoint_eqb a a = true.
Proof. apply outpoint_eqb_eq; reflexivity. Qed.

Lemma outpoint_eqb_neq a b : outpoint_eqb a b = false <-> a <> b.
Proof.
  rewrite <- outpoint_eqb_eq. destruct (outpoint_eqb a b); split; congruence.
Qed.

Lemma set_insert_In x y s : In y (set_insert x s) <-> y = x \/ In y s.
Proof.
  induction s as [|z s IH]; simpl.
  - intuition congruence.
  - destruct (N.ltb_spec x z); simpl; [intuition congruence|].
    destruct (N.eqb_spec x z); simpl.
    + subst. intuition congruence.
    + rewrite IH. intuition congruence.
Qed.

Lemma set_count_In x s : set_count x s = true <-> In x s.
Proof.
  unfold set_count. rewrite existsb_exists. split.
  - intros (y & Hy & Heq). apply N.eqb_eq in Heq. subst. exact Hy.
  - intros H. exists x. split; [exact H | apply N.eqb_refl].
Qed.

Lemma set_erase_In x y s : In y (set_erase x s) <-> In y s /\ y <> x.
Proof.
  unfold set_erase. rewrite List.filter_In, negb_true_iff, N.eqb_neq.
  intuition congruence.
Qed.

(** ** Sets of coins *)

Lemma coinset_insert_fresh c s :
  ~ coin_in c s -> Permutation (coinset_insert c s) (c :: s).
Proof.
  unfold coin_in. induction s as [|y s IH]; simpl; intros Hn.
  - reflexivity.
  - destruct (outpoint_ltb (outpoint c) (outpoint y)); [reflexivity|].
    destruct (outpoint_eqb (outpoint c) (outpoint y)) eqn:He.
    + apply outpoint_eqb_eq in He. exfalso. apply Hn. left. congruence.
    + rewrite IH by tauto. apply perm_swap.
Qed.

Lemma coinset_insert_outpoints c s o :
  In o (List.map outpoint (coinset_insert c s)) <-> o = outpoint c \/ In o (List.map outpoint s).
Proof.
  induction s as [|y s IH]; simpl.
  - intuition congruence.
  - destruct (outpoint_ltb (outpoint c) (outpoint y)); simpl; [intuition congruence|].
    destruct (outpoint_eqb (outpoint c) (outpoint y)) eqn:He; simpl.
    + apply outpoint_eqb_eq in He. rewrite He. intuition congruence.
    + rewrite IH. intuition congruence.
Qed.

Lemma sum_coins_Permutation l1 l2 : Permutation l1 l2 -> sum_coins l1 = sum_coins l2.
Proof.
  induction 1; simpl; try lia.
Qed.

Lemma sum_coins_app l1 l2 : sum_coins (l1 ++ l2) = sum_coins l1 + sum_coins l2.
Proof. induction l1; simpl; lia. Qed.

Lemma sum_coins_insert_fresh c s :
  ~ coin_in c s -> sum_coins (coinset_insert c s) = coin_value c + sum_coins s.
Proof.
  intros H. rewrite (sum_coins_Permutation _ _ (coinset_insert_fresh c s H)). reflexivity.
Qed.

(** ** The shuffle *)

Lemma iter_swap_Permutation {A} i j (l : list A) : Permutation (iter_swap i j l) l.
Proof.
  unfold iter_swap.
  destruct (l !! i) as [a|] eqn:Hi; [|reflexivity].
  destruct (l !! j) as [b|] eqn:Hj; [|reflexivity].
  apply (Permutation_insert_swap l j i b a); assumption.
Qed.

Lemma random_shuffle_from_Permutation {A} steps : forall i (l : list A) r,
  Permutation (fst (random_shuffle_from steps i l r)) l.
Proof.
  induction steps as [|steps IH]; intros i l r; simpl.
  - reflexivity.
  - destruct (GetRandInt (N.of_nat (i + 1)) r) as [j r'].
    rewrite IH. destruct (decide (i = N.to_nat j)); [reflexivity|].
    apply iter_swap_Permutation.
Qed.

Lemma random_shuffle_Permutation {A} (l : list A) r :
  Permutation (fst (random_shuffle l r)) l.
Proof. apply random_shuffle_from_Permutation. Qed.
Section ScanProps.

Variable E : Externals.
Variables (w : CWallet) (nTargetValue : CAmount) (nConfMine nConfTheirs : Z)
          (nMaxAncestors : N).

Local Abbreviation scan := (SelectCoinsMinConf_scan E w nTargetValue nConfMine nConfTheirs nMaxAncestors).
Local Abbreviation cand := (candidate_of E w nConfMine nConfTheirs nMaxAncestors).
Local Abbreviation cands := (filter_candidates E w nConfMine nConfTheirs nMaxAncestors).

Lemma filter_candidates_cons o l :
  cands (o :: l) =
  match cand o with Ret (Some c) => c :: cands l | _ => cands l end.
Proof.
  unfold filter_candidates. simpl.
  destruct (cand o) as [[c|]| | | |]; reflexivity.
Qed.

(** One step of the scan, in terms of the filter. *)
Lemma scan_cons o l low vValue total :
  scan (o :: l) low vValue total =
  x ← cand o;
  match x with
  | None => scan l low vValue total
  | Some coin =>
      if coin_value coin =? nTargetValue then Ret (ExactMatch coin)
      else if coin_value coin <? nTargetValue + MIN_CHANGE E
           then scan l low (vValue ++ [coin]) (total + coin_value coin)
           else scan l (pick_lower low coin) vValue total
  end.
Proof.
  simpl. unfold candidate_of.
  destruct (fSpendable o); simpl; [|reflexivity].
  destruct (IsFromMe E w (out_tx o) ISMINE_ALL) as [fromMe| | | |]; simpl; try reflexivity.
  destruct (nDepth o <? (if fromMe then nConfMine else nConfTheirs)); [reflexivity|].
  destruct (TransactionWithinChainLimit E (GetHash (out_tx o)) nMaxAncestors); simpl;
    [|reflexivity].
  destruct (CInputCoin_of (out_tx o) (out_i o)) as [coin| | | |]; simpl; try reflexivity.
  destruct (coin_value coin =? nTargetValue); [reflexivity|].
  destruct (coin_value coin <? nTargetValue + MIN_CHANGE E); [reflexivity|].
  unfold pick_lower. destruct low as [lowest|]; [|reflexivity].
  destruct (coin_value coin <? coin_value lowest); reflexivity.
Qed.

(** Without an exact match the scan visits every candidate. *)
Lemma scan_no_exact l : forall low vValue total,
  filter_returns E w nConfMine nConfTheirs nMaxAncestors l ->
  (forall c, In c (cands l) -> coin_value c <> nTargetValue) ->
  scan l low vValue total =
  Ret (Scanned (fold_left pick_lower (above (nTargetValue + MIN_CHANGE E) (cands l)) low)
               (vValue ++ below (nTargetValue + MIN_CHANGE E) (cands l))
               (total + sum_coins (below (nTargetValue + MIN_CHANGE E) (cands l)))).
Proof.
  induction l as [|o l IH]; intros low vValue total Hret Hne.
  - simpl. rewrite app_nil_r, Z.add_0_r. reflexivity.
  - rewrite scan_cons. inversion Hret as [|? ? [x Hx] Hret']; subst.
    rewrite filter_candidates_cons in *. rewrite Hx in *. simpl.
    destruct x as [coin|]; [|apply IH; assumption].
    assert (Hc : coin_value coin <> nTargetValue) by (apply Hne; left; reflexivity).
    apply Z.eqb_neq in Hc. rewrite Hc.
    unfold below, above. simpl.
    destruct (coin_value coin <? nTargetValue + MIN_CHANGE E); simpl.
    + rewrite IH; [|assumption|intros c Hin; apply Hne; right; exact Hin].
      unfold below, above. rewrite <- app_assoc. simpl.
      do 2 f_equal. lia.
    + apply IH; [assumption|intros c Hin; apply Hne; right; exact Hin].
Qed.

End ScanProps.

(** The lowest of the coins above the bound. *)
Lemma fold_pick_lower_None l : forall low,
  fold_left pick_lower l low = None -> l = [] /\ low = None.
Proof.
  induction l as [|c l IH]; simpl; intros low H; [auto|].
  apply IH in H. destruct H as [_ H].
  unfold pick_lower in H. destruct low as [lowest|]; [|discriminate].
  destruct (coin_value c <? coin_value lowest); discriminate.
Qed.

Lemma fold_pick_lower_Some l : forall low c,
  fold_left pick_lower l low = Some c ->
  (In c l \/ low = Some c) /\
  (forall c', In c' l \/ low = Some c' -> coin_value c <= coin_value c').
Proof.
  induction l as [|x l IH]; simpl; intros low c H.
  - subst. split; [auto|]. intros c' [[]|Hc']. inversion Hc'; lia.
  - apply IH in H. destruct H as [Hin Hmin]. split.
    + destruct Hin as [Hin|Hin]; [auto|].
      unfold pick_lower in Hin. destruct low as [lowest|].
      * destruct (coin_value x <? coin_value lowest); inversion Hin; subst; auto.
      * inversion Hin; subst; auto.
    + intros c' [[Hc'|Hc']|Hc'].
      * subst c'. unfold pick_lower in Hmin. destruct low as [lowest|].
        -- destruct (Z.ltb_spec (coin_value x) (coin_value lowest)).
           ++ apply Hmin. right. reflexivity.
           ++ specialize (Hmin lowest (or_intror eq_refl)). lia.
        -- apply Hmin. right. reflexivity.
      * apply Hmin. left. exact Hc'.
      * subst low. unfold pick_lower in Hmin.
        destruct (Z.ltb_spec (coin_value x) (coin_value c')).
        -- specialize (Hmin x (or_intror eq_refl)). lia.
        -- apply Hmin. right. reflexivity.
Qed.

Lemma sum_coins_nonneg l : Forall (fun c => 0 <= coin_value c) l -> 0 <= sum_coins l.
Proof. induction 1; simpl; lia. Qed.

Lemma sum_coins_In_le l c :
  Forall (fun c => 0 <= coin_value c) l -> In c l -> coin_value c <= sum_coins l.
Proof.
  induction 1 as [|x l Hx Hl IH]; simpl; intros Hin; [contradiction|].
  pose proof (sum_coins_nonneg l Hl).
  destruct Hin as [->|Hin]; [lia|]. specialize (IH Hin). lia.
Qed.

Lemma filter_candidates_Permutation E w m t a l1 l2 :
  Permutation l1 l2 ->
  Permutation (filter_candidates E w m t a l1) (filter_candidates E w m t a l2).
Proof. intros H. unfold filter_candidates. rewrite H. reflexivity. Qed.

Lemma filter_returns_Permutation E w m t a l1 l2 :
  Permutation l1 l2 -> filter_returns E w m t a l1 -> filter_returns E w m t a l2.
Proof. intros H. unfold filter_returns. rewrite H. auto. Qed.

Lemma below_Permutation b l1 l2 : Permutation l1 l2 -> Permutation (below b l1) (below b l2).
Proof.
  induction 1; unfold below in *; simpl.
  - reflexivity.
  - destruct (coin_value x <? b); [constructor|]; assumption.
  - destruct (coin_value x <? b), (coin_value y <? b); try reflexivity. apply perm_swap.
  - etransitivity; eassumption.
Qed.

Lemma below_In b l c : In c (below b l) <-> In c l /\ coin_value c < b.
Proof. unfold below. rewrite List.filter_In, Z.ltb_lt. reflexivity. Qed.

Lemma above_In b l c : In c (above b l) <-> In c l /\ b <= coin_value c.
Proof. unfold above. rewrite List.filter_In, negb_true_iff, Z.ltb_ge. reflexivity. Qed.

Lemma below_nonneg b l :
  Forall (fun c => 0 <= coin_value c) l -> Forall (fun c => 0 <= coin_value c) (below b l).
Proof.
  rewrite !List.Forall_forall. intros H c Hc. apply below_In in Hc. apply H. tauto.
Qed.

(** ** Selection at one tier *)

(** C10.  [SelectCoinsMinConf] clears [setCoinsRet] and [nValueRet] at
    entry: its result does not depend on what they held, and when it
    returns failure the selection handed back is empty and the value is
    zero. *)
Theorem SelectCoinsMinConf_failure_is_empty :
  forall E w nTargetValue nConfMine nConfTheirs nMaxAncestors vCoins setCoinsRet nValueRet r,
    SelectCoinsMinConf E w nTargetValue nConfMine nConfTheirs nMaxAncestors vCoins
                       setCoinsRet nValueRet r
    = SelectCoinsMinConf E w nTargetValue nConfMine nConfTheirs nMaxAncestors vCoins [] 0 r
    /\ forall s v r',
        SelectCoinsMinConf E w nTargetValue nConfMine nConfTheirs nMaxAncestors vCoins
                           setCoinsRet nValueRet r = Ret (false, s, v, r') ->
        s = [] /\ v = 0.
Proof.
  intros. split; [reflexivity|].
  intros s v r'. unfold SelectCoinsMinConf.
  destruct (random_shuffle vCoins r) as [vCoins' r1].
  intros H. apply bind_Ret_inv in H. destruct H as (scan & _ & H).
  destruct scan as [coin|low vValue total].
  - discriminate.
  - destruct (total =? nTargetValue).
    + destruct (insert_all vValue [] 0). discriminate.
    + destruct (total <? nTargetValue).
      * destruct low; inversion H; auto.
      * destruct (ApproximateBestSubset _ _ _ _) as [[vfBest nBest] r2].
        destruct (_ && _).
        -- destruct (ApproximateBestSubset _ _ _ _) as [[vfBest' nBest'] r3].
           destruct low as [lowest|].
           ++ destruct (_ || _); [discriminate|].
              destruct (insert_best _ _ _ _); discriminate.
           ++ destruct (insert_best _ _ _ _); discriminate.
        -- destruct low as [lowest|].
           ++ destruct (_ || _); [discriminate|].
              destruct (insert_best _ _ _ _); discriminate.
           ++ destruct (insert_best _ _ _ _); discriminate.
Qed.

Lemma SelectCoinsMinConf_failure_is_empty_witness :
  SelectCoinsMinConf E0 wallet0 10 1 6 0 [coin 1 1; coin 2 2] [input_coin 9 9] 9 (mkRng [] [])
  = Ret (false, [], 0, mkRng [] []) /\ ([] : list CInputCoin) = [] /\ 0 = 0.
Proof.
  split; [vm_compute; reflexivity|].
  apply (proj2 (SelectCoinsMinConf_failure_is_empty E0 wallet0 10 1 6 0 [coin 1 1; coin 2 2]
                  [input_coin 9 9] 9 (mkRng [] [])) [] 0 (mkRng [] [])).
  vm_compute; reflexivity.
Defined.

Section BelowTarget.

Variable E : Externals.
Variables (w : CWallet) (nTargetValue : CAmount) (nConfMine nConfTheirs : Z)
          (nMaxAncestors : N).

Local Abbreviation cands := (filter_candidates E w nConfMine nConfTheirs nMaxAncestors).

(** When no filtered candidate equals the target and the coins below
    target + MIN_CHANGE sum to less than the target, the tier returns the
    single lowest candidate above the target, or fails when there is
    none. *)
Lemma SelectCoinsMinConf_below_target vCoins setCoinsRet nValueRet r :
  0 <= MIN_CHANGE E ->
  filter_returns E w nConfMine nConfTheirs nMaxAncestors vCoins ->
  Forall (fun c => 0 <= coin_value c) (cands vCoins) ->
  (forall c, In c (cands vCoins) -> coin_value c <> nTargetValue) ->
  sum_coins (below (nTargetValue + MIN_CHANGE E) (cands vCoins)) < nTargetValue ->
  exists r',
    (exists c,
        In c (cands vCoins) /\ nTargetValue < coin_value c /\
        (forall c', In c' (cands vCoins) -> nTargetValue < coin_value c' ->
                    coin_value c <= coin_value c') /\
        SelectCoinsMinConf E w nTargetValue nConfMine nConfTheirs nMaxAncestors vCoins
                           setCoinsRet nValueRet r = Ret (true, [c], coin_value c, r'))
    \/ ((forall c, In c (cands vCoins) -> coin_value c < nTargetValue) /\
        SelectCoinsMinConf E w nTargetValue nConfMine nConfTheirs nMaxAncestors vCoins
                           setCoinsRet nValueRet r = Ret (false, [], 0, r')).
Proof.
  intros Hmc Hret Hnn Hne Hsum.
  unfold SelectCoinsMinConf.
  pose proof (random_shuffle_Permutation vCoins r) as Hperm.
  destruct (random_shuffle vCoins r) as [vCoins' r1]. simpl in Hperm.
  exists r1.
  assert (Hp : Permutation (cands vCoins') (cands vCoins))
    by (apply filter_candidates_Permutation; exact Hperm).
  assert (Hin : forall c, In c (cands vCoins') <-> In c (cands vCoins)).
  { intros c; split; apply Permutation_in; [exact Hp | symmetry; exact Hp]. }
  assert (Hnn' : Forall (fun c => 0 <= coin_value c) (cands vCoins'))
    by (rewrite Hp; exact Hnn).
  rewrite scan_no_exact;
    [| eapply filter_returns_Permutation; [symmetry; exact Hperm | exact Hret]
     | intros c Hc; apply Hne, Hin, Hc ].
  simpl.
  set (bound := nTargetValue + MIN_CHANGE E) in *.
  rewrite (sum_coins_Permutation _ _ (below_Permutation bound _ _ Hp)).
  assert (Hsmall : forall c, In c (cands vCoins') -> nTargetValue < coin_value c ->
                             bound <= coin_value c).
  { intros c Hc Hgt. destruct (Z.lt_ge_cases (coin_value c) bound) as [Hlt|]; [|assumption].
    exfalso.
    assert (In c (below bound (cands vCoins))) by (apply below_In; split; [apply Hin|]; auto).
    pose proof (sum_coins_In_le _ c (below_nonneg bound _ Hnn) H). lia. }
  replace (0 + sum_coins (below bound (cands vCoins)) =? nTargetValue) with false
    by (symmetry; apply Z.eqb_neq; lia).
  replace (0 + sum_coins (below bound (cands vCoins)) <? nTargetValue) with true
    by (symmetry; apply Z.ltb_lt; lia).
  destruct (fold_left pick_lower (above bound (cands vCoins')) None) as [c|] eqn:Hfold.
  - left. exists c. apply fold_pick_lower_Some in Hfold. destruct Hfold as [Hc Hmin].
    destruct Hc as [Hc|Hc]; [|discriminate]. apply above_In in Hc. destruct Hc as [Hc Hb].
    assert (coin_value c <> nTargetValue) by (apply Hne, Hin, Hc).
    split; [apply Hin, Hc|]. split; [unfold bound in Hb; lia|]. split.
    + intros c' Hc' Hgt. apply Hmin. left. apply above_In. split; [apply Hin, Hc'|].
      apply Hsmall; [apply Hin, Hc'|exact Hgt].
    + simpl. rewrite Z.add_0_l. reflexivity.
  - right. apply fold_pick_lower_None in Hfold. destruct Hfold as [Hab _].
    split; [|reflexivity].
    intros c Hc. assert (coin_value c <> nTargetValue) by (apply Hne, Hc).
    destruct (Z.lt_ge_cases (coin_value c) nTargetValue) as [|Hge]; [assumption|].
    exfalso. assert (Hgt : nTargetValue < coin_value c) by lia.
    apply Hin in Hc. pose proof (Hsmall c Hc Hgt) as Hb.
    assert (Habove : In c (above bound (cands vCoins'))) by (apply above_In; auto).
    rewrite Hab in Habove. exact Habove.
Qed.

End BelowTarget.

(** ** The subset search *)

Lemma selected_insert_true full : forall i inc c,
  full !! i = Some c -> inc !! i = Some false ->
  sum_coins (selected full (<[i := true]> inc)) = sum_coins (selected full inc) + coin_value c.
Proof.
  induction full as [|x full IH]; intros i inc c Hf Hi; [discriminate|].
  destruct inc as [|b inc]; [discriminate|].
  destruct i as [|i]; simpl in *.
  - inversion Hf; inversion Hi; subst. simpl. lia.
  - destruct b; simpl; rewrite (IH i inc c) by assumption; lia.
Qed.

Lemma selected_insert_false full : forall i inc c,
  full !! i = Some c -> inc !! i = Some true ->
  sum_coins (selected full (<[i := false]> inc)) = sum_coins (selected full inc) - coin_value c.
Proof.
  induction full as [|x full IH]; intros i inc c Hf Hi; [discriminate|].
  destruct inc as [|b inc]; [discriminate|].
  destruct i as [|i]; simpl in *.
  - inversion Hf; inversion Hi; subst. simpl. lia.
  - destruct b; simpl; rewrite (IH i inc c) by assumption; lia.
Qed.

Lemma selected_all full : selected full (replicate (length full) true) = full.
Proof. induction full; simpl; congruence. Qed.

Lemma selected_none full : selected full (replicate (length full) false) = [].
Proof. induction full; simpl; congruence. Qed.

Section SubsetSearch.

Variables (full : list CInputCoin) (nTargetValue : CAmount).

Lemma ABS_step_inv nPass i c s :
  full !! i = Some c ->
  (nPass = 0%nat -> vfIncluded s !! i = Some false) ->
  ABS_inv full nTargetValue s ->
  ABS_inv full nTargetValue (ABS_step nPass nTargetValue i (coin_value c) s)
  /\ forall j, j <> i ->
       vfIncluded (ABS_step nPass nTargetValue i (coin_value c) s) !! j = vfIncluded s !! j.
Proof.
  intros Hf H0 (Hlen & Htot & Hblen & Hbest & Hge).
  assert (Hi : (i < length (vfIncluded s))%nat)
    by (rewrite Hlen; eapply lookup_lt_Some; exact Hf).
  unfold ABS_step.
  assert (Htake : forall take r,
             (if decide (nPass = 0%nat) then randbool (abs_rng s)
              else (negb (default false (vfIncluded s !! i)), abs_rng s)) = (take, r) ->
             take = true -> vfIncluded s !! i = Some false).
  { intros take r Heq Ht. destruct (decide (nPass = 0%nat)); [auto|].
    inversion Heq; subst.
    destruct (lookup_lt_is_Some_2 _ _ Hi) as [b Hb]. rewrite Hb in *. simpl in *.
    destruct b; [discriminate|reflexivity]. }
  destruct (if decide (nPass = 0%nat) then _ else _) as [take r] eqn:Heq.
  specialize (Htake take r eq_refl).
  destruct take.
  - specialize (Htake eq_refl).
    pose proof (selected_insert_true full i (vfIncluded s) c Hf Htake) as Hins.
    destruct (Z.leb_spec nTargetValue (nTotal s + coin_value c)).
    + assert (Hback : sum_coins (selected full (<[i:=false]> (<[i:=true]> (vfIncluded s))))
                      = nTotal s).
      { rewrite (selected_insert_false full i _ c Hf).
        - rewrite Hins. lia.
        - apply list_lookup_insert_eq. exact Hi. }
      destruct (Z.ltb_spec (nTotal s + coin_value c) (nBest s)); simpl.
      * split.
        -- unfold ABS_inv; simpl. rewrite !length_insert, Hback, Hins.
           repeat split; auto; lia.
        -- intros j Hj. rewrite !list_lookup_insert_ne by auto. reflexivity.
      * split.
        -- unfold ABS_inv; simpl. rewrite !length_insert, Hback.
           repeat split; auto; lia.
        -- intros j Hj. rewrite !list_lookup_insert_ne by auto. reflexivity.
    + split.
      * unfold ABS_inv; simpl. rewrite !length_insert, Hins. repeat split; auto; lia.
      * intros j Hj. simpl. rewrite !list_lookup_insert_ne by auto. reflexivity.
  - split; [|reflexivity]. unfold ABS_inv; simpl. repeat split; auto.
Qed.

Lemma ABS_pass_inv nPass : forall rest i s,
  drop i full = rest ->
  (nPass = 0%nat -> forall j, (i <= j < length full)%nat -> vfIncluded s !! j = Some false) ->
  ABS_inv full nTargetValue s ->
  ABS_inv full nTargetValue (ABS_pass nPass nTargetValue i rest s).
Proof.
  induction rest as [|c rest IH]; intros i s Hdrop H0 Hinv; simpl; [exact Hinv|].
  assert (Hf : full !! i = Some c).
  { rewrite <- (Nat.add_0_r i), <- lookup_drop, Hdrop. reflexivity. }
  assert (Hi : (i < length full)%nat) by (eapply lookup_lt_Some; exact Hf).
  destruct (ABS_step_inv nPass i c s Hf) as [Hinv' Hother].
  { intros Hp. apply H0; [exact Hp|lia]. }
  { exact Hinv. }
  apply IH.
  - rewrite (drop_S _ _ _ Hf) in Hdrop. congruence.
  - intros Hp j Hj. rewrite Hother by lia. apply H0; [exact Hp|lia].
  - exact Hinv'.
Qed.

Lemma ABS_rep_inv vfBest' nBest' r :
  length vfBest' = length full ->
  nBest' = sum_coins (selected full vfBest') ->
  nTargetValue <= nBest' ->
  ABS_inv full nTargetValue (ABS_rep nTargetValue full vfBest' nBest' r).
Proof.
  intros Hlen Hbest Hge. unfold ABS_rep.
  set (s0 := mkABS _ _ _ _ _ _).
  assert (Hinv0 : ABS_inv full nTargetValue s0).
  { unfold ABS_inv, s0; simpl. rewrite length_replicate, selected_none.
    repeat split; auto. }
  assert (Hinv1 : ABS_inv full nTargetValue (ABS_pass 0 nTargetValue 0 full s0)).
  { apply ABS_pass_inv; auto.
    intros _ j Hj. unfold s0; simpl. apply lookup_replicate_2. lia. }
  destruct (fReachedTarget _); [exact Hinv1|].
  apply ABS_pass_inv; auto. intros Hp; discriminate.
Qed.

Lemma ABS_reps_inv iterations : forall best r,
  length (fst best) = length full ->
  snd best = sum_coins (selected full (fst best)) ->
  nTargetValue <= snd best ->
  let res := fst (ABS_reps iterations nTargetValue full best r) in
  length (fst res) = length full /\
  snd res = sum_coins (selected full (fst res)) /\
  nTargetValue <= snd res.
Proof.
  induction iterations as [|n IH]; intros best r Hlen Hbest Hge; simpl; [auto|].
  destruct (snd best =? nTargetValue); [simpl; auto|].
  destruct (ABS_rep_inv (fst best) (snd best) r Hlen Hbest Hge) as (_ & _ & Hl & Hb & Hg).
  apply IH; simpl; auto.
Qed.

End SubsetSearch.

Lemma ApproximateBestSubset_inv vValue nTotalLower nTargetValue r :
  nTotalLower = sum_coins vValue ->
  nTargetValue <= nTotalLower ->
  let res := fst (ApproximateBestSubset vValue nTotalLower nTargetValue r) in
  length (fst res) = length vValue /\
  snd res = sum_coins (selected vValue (fst res)) /\
  nTargetValue <= snd res.
Proof.
  intros Hsum Hge. unfold ApproximateBestSubset.
  apply ABS_reps_inv; simpl.
  - apply length_replicate.
  - rewrite selected_all. exact Hsum.
  - exact Hge.
Qed.

(** ** Examples of selection at one tier *)

Lemma candidate_of_coin E w h v :
  candidate_of E w 1 6 0 (coin h v)
  = Ret (if TransactionWithinChainLimit E h 0 then Some (input_coin h v) else None).
Proof.
  unfold candidate_of. cbn.
  destruct (TransactionWithinChainLimit E h 0); reflexivity.
Qed.

(** Candidates {100}, target 10: the tier returns {100}, whatever the
    minimal change and the random draws. *)
Lemma SelectCoinsMinConf_100_target_10 E w setCoinsRet nValueRet r :
  0 <= MIN_CHANGE E ->
  TransactionWithinChainLimit E 1 0 = true ->
  exists r',
    SelectCoinsMinConf E w 10 1 6 0 [coin 1 100] setCoinsRet nValueRet r
    = Ret (true, [input_coin 1 100], 100, r').
Proof.
  intros Hmc Hlim. unfold SelectCoinsMinConf.
  change (random_shuffle [coin 1 100] r) with ([coin 1 100], r).
  cbv beta iota. rewrite scan_cons, candidate_of_coin, Hlim.
  cbn [mbind outcome_bind]. change (coin_value (input_coin 1 100)) with 100.
  change (100 =? 10) with false. cbv iota.
  destruct (Z.ltb_spec 100 (10 + MIN_CHANGE E)) as [Hlt|Hge].
  - cbn [SelectCoinsMinConf_scan app mbind outcome_bind].
    change (0 + 100 =? 10) with false. change (0 + 100 <? 10) with false. cbv iota.
    change (sort_descending [input_coin 1 100]) with [input_coin 1 100].
    pose proof (ApproximateBestSubset_inv [input_coin 1 100] (0 + 100) 10 r eq_refl) as Hinv.
    destruct (ApproximateBestSubset [input_coin 1 100] (0 + 100) 10 r)
      as [[vfBest nBest] r1]. simpl in Hinv.
    destruct Hinv as (Hlen & Hbest & Hge); [lia|].
    destruct vfBest as [|b [|? ?]]; try discriminate.
    destruct b; simpl in Hbest; [|lia]. subst nBest.
    replace (10 + MIN_CHANGE E <=? 0 + 100) with false by (symmetry; apply Z.leb_gt; lia).
    exists r1. reflexivity.
  - cbn [SelectCoinsMinConf_scan mbind outcome_bind pick_lower].
    exists r. reflexivity.
Qed.

(** Candidates {1, 2}, target 10: the tier fails. *)
Lemma SelectCoinsMinConf_1_2_target_10 E w setCoinsRet nValueRet r :
  0 <= MIN_CHANGE E ->
  exists r',
    SelectCoinsMinConf E w 10 1 6 0 [coin 1 1; coin 2 2] setCoinsRet nValueRet r
    = Ret (false, [], 0, r').
Proof.
  intros Hmc.
  assert (Hsub : forall c, In c (filter_candidates E w 1 6 0 [coin 1 1; coin 2 2]) ->
                           c = input_coin 1 1 \/ c = input_coin 2 2).
  { intros c. unfold filter_candidates. cbn [omap list_omap].
    rewrite !candidate_of_coin.
    destruct (TransactionWithinChainLimit E 1 0), (TransactionWithinChainLimit E 2 0);
      simpl; intuition. }
  destruct (SelectCoinsMinConf_below_target E w 10 1 6 0 [coin 1 1; coin 2 2]
              setCoinsRet nValueRet r) as (r' & [(c & Hc & Hgt & _)|[_ Hres]]).
  - exact Hmc.
  - repeat constructor; rewrite candidate_of_coin; eauto.
  - apply List.Forall_forall. intros c Hc.
    destruct (Hsub c Hc) as [->| ->]; vm_compute; discriminate.
  - intros c Hc. destruct (Hsub c Hc) as [->| ->]; vm_compute; discriminate.
  - unfold filter_candidates. cbn [omap list_omap]. rewrite !candidate_of_coin.
    unfold below.
    destruct (TransactionWithinChainLimit E 1 0), (TransactionWithinChainLimit E 2 0);
      simpl;
      repeat match goal with
             | |- context [?a <? ?b] => destruct (Z.ltb_spec a b)
             end; simpl; unfold coin_value; simpl; lia.
  - exfalso. destruct (Hsub c Hc) as [->| ->]; vm_compute in Hgt; discriminate.
  - exists r'. exact Hres.
Qed.

(** C6.  At one tier, when no filtered candidate equals the target and the
    candidates below target + MIN_CHANGE sum to strictly less than the
    target, [SelectCoinsMinConf] returns the single smallest candidate
    larger than the target if there is one, and fails otherwise.  In
    particular it returns {100} for candidates {100} and target 10, and
    fails for candidates {1, 2} and target 10. *)
Theorem SelectCoinsMinConf_single_larger_or_fail :
  forall E w setCoinsRet nValueRet r,
    0 <= MIN_CHANGE E ->
    (forall nTargetValue nConfMine nConfTheirs nMaxAncestors vCoins,
        let cands := filter_candidates E w nConfMine nConfTheirs nMaxAncestors vCoins in
        filter_returns E w nConfMine nConfTheirs nMaxAncestors vCoins ->
        Forall (fun c => 0 <= coin_value c) cands ->
        (forall c, In c cands -> coin_value c <> nTargetValue) ->
        sum_coins (below (nTargetValue + MIN_CHANGE E) cands) < nTargetValue ->
        exists r',
          (exists c,
              In c cands /\ nTargetValue < coin_value c /\
              (forall c', In c' cands -> nTargetValue < coin_value c' ->
                          coin_value c <= coin_value c') /\
              SelectCoinsMinConf E w nTargetValue nConfMine nConfTheirs nMaxAncestors vCoins
                                 setCoinsRet nValueRet r = Ret (true, [c], coin_value c, r'))
          \/ ((forall c, In c cands -> coin_value c < nTargetValue) /\
              SelectCoinsMinConf E w nTargetValue nConfMine nConfTheirs nMaxAncestors vCoins
                                 setCoinsRet nValueRet r = Ret (false, [], 0, r')))
    /\ (TransactionWithinChainLimit E 1 0 = true ->
        exists r',
          SelectCoinsMinConf E w 10 1 6 0 [coin 1 100] setCoinsRet nValueRet r
          = Ret (true, [input_coin 1 100], 100, r'))
    /\ (exists r',
          SelectCoinsMinConf E w 10 1 6 0 [coin 1 1; coin 2 2] setCoinsRet nValueRet r
          = Ret (false, [], 0, r')).
Proof.
  intros E w setCoinsRet nValueRet r Hmc. split; [|split].
  - intros. apply SelectCoinsMinConf_below_target; assumption.
  - intros Hlim. apply SelectCoinsMinConf_100_target_10; assumption.
  - apply SelectCoinsMinConf_1_2_target_10; assumption.
Qed.

(** ** The exact-sum example: candidates {10, 20, 5}, target 15 *)

Lemma Permutation_three {A} (a b c : A) l :
  NoDup [a; b; c] -> Permutation l [a; b; c] ->
  l = [a; b; c] \/ l = [a; c; b] \/ l = [b; a; c] \/
  l = [b; c; a] \/ l = [c; a; b] \/ l = [c; b; a].
Proof.
  intros Hnd Hp.
  assert (Hnd' : NoDup l) by (rewrite Hp; exact Hnd).
  pose proof (Permutation_length Hp) as Hlen.
  destruct l as [|x [|y [|z [|? ?]]]]; try discriminate.
  assert (Hx : In x [a; b; c]) by (apply (Permutation_in _ Hp); simpl; auto).
  assert (Hy : In y [a; b; c]) by (apply (Permutation_in _ Hp); simpl; auto).
  assert (Hz : In z [a; b; c]) by (apply (Permutation_in _ Hp); simpl; auto).
  apply NoDup_cons in Hnd' as [Hxn Hnd']. apply NoDup_cons in Hnd' as [Hyn _].
  rewrite list_elem_of_In in Hxn. rewrite list_elem_of_In in Hyn.
  simpl in Hx, Hy, Hz, Hxn, Hyn.
  destruct Hx as [<-|[<-|[<-|[]]]], Hy as [<-|[<-|[<-|[]]]], Hz as [<-|[<-|[<-|[]]]];
    try (exfalso; tauto); auto 10.
Qed.

Lemma ABS_rep_20_10_5 vfBest' (nBest' : CAmount) r :
  (vfBest' = [true; true; true] /\ nBest' = 35) \/
  (vfBest' = [true; false; false] /\ nBest' = 20) ->
  let '(b0, bits) := next_bit (rng_bits r) in
  let '(b1, bits) := next_bit bits in
  let '(b2, bits) := next_bit bits in
  let s := ABS_rep 15 L15 vfBest' nBest' r in
  abs_rng s = mkRng (rng_ints r) bits /\
  vfBest s = (if good_draws b0 b1 b2 then [false; true; true] else [true; false; false]) /\
  nBest s = (if good_draws b0 b1 b2 then 15 else 20).
Proof.
  destruct r as [ints bits].
  intros [[-> ->]|[-> ->]];
    destruct bits as [|[] [|[] [|[] bits]]]; cbn; repeat split; reflexivity.
Qed.

Lemma ABS_reps_S n t v best r :
  ABS_reps (S n) t v best r =
  if snd best =? t then (best, r)
  else ABS_reps n t v (vfBest (ABS_rep t v (fst best) (snd best) r),
                       nBest (ABS_rep t v (fst best) (snd best) r))
                (abs_rng (ABS_rep t v (fst best) (snd best) r)).
Proof. reflexivity. Qed.

Lemma ABS_reps_20_10_5 n : forall vfBest' (nBest' : CAmount) r,
  (vfBest' = [true; true; true] /\ nBest' = 35) \/
  (vfBest' = [true; false; false] /\ nBest' = 20) ->
  exists r',
    ABS_reps (S n) 15 L15 (vfBest', nBest') r =
    (if finds_exact (S n) (rng_bits r) then ([false; true; true], 15)
     else ([true; false; false], 20), r').
Proof.
  induction n as [|n IH]; intros vfBest' nBest' r Hbest;
    pose proof (ABS_rep_20_10_5 vfBest' nBest' r Hbest) as Hrep;
    rewrite ABS_reps_S; cbn [fst snd];
    replace (nBest' =? 15) with false by (destruct Hbest as [[_ ->] | [_ ->]]; reflexivity);
    cbn [finds_exact];
    destruct (next_bit (rng_bits r)) as [b0 bits0];
    destruct (next_bit bits0) as [b1 bits1];
    destruct (next_bit bits1) as [b2 bits2];
    destruct Hrep as (Hrng & Hvf & Hnb);
    rewrite Hrng, Hvf, Hnb.
  - cbn [ABS_reps]. rewrite orb_false_r. eexists.
    destruct (good_draws b0 b1 b2); reflexivity.
  - destruct (good_draws b0 b1 b2).
    + eexists. reflexivity.
    + destruct (IH [true; false; false] 20 (mkRng (rng_ints r) bits2)) as [r' Heq]; [auto|].
      exists r'. rewrite Heq. reflexivity.
Qed.

Lemma ApproximateBestSubset_20_10_5 r :
  exists r',
    ApproximateBestSubset L15 35 15 r =
    (if finds_exact 1000 (rng_bits r) then ([false; true; true], 15)
     else ([true; false; false], 20), r').
Proof.
  unfold ApproximateBestSubset.
  apply (ABS_reps_20_10_5 999 (replicate (length L15) true) 35 r).
  left. split; reflexivity.
Qed.

Lemma random_shuffle_from_bits {A} steps : forall i (l : list A) r,
  rng_bits (snd (random_shuffle_from steps i l r)) = rng_bits r.
Proof.
  induction steps as [|steps IH]; intros i l r; simpl; [reflexivity|].
  unfold GetRandInt. destruct (rng_ints r) as [|x xs]; rewrite IH; reflexivity.
Qed.

Lemma random_shuffle_bits {A} (l : list A) r :
  rng_bits (snd (random_shuffle l r)) = rng_bits r.
Proof. apply random_shuffle_from_bits. Qed.

Lemma NoDup_coins_10_20_5 : NoDup [coin 1 10; coin 2 20; coin 3 5].
Proof.
  repeat (apply NoDup_cons_2 || apply NoDup_nil_2);
    rewrite list_elem_of_In; simpl; intuition discriminate.
Qed.

Lemma scan_coin_below E w t h v l low vValue total :
  TransactionWithinChainLimit E h 0 = true ->
  v <> t -> v < t + MIN_CHANGE E ->
  SelectCoinsMinConf_scan E w t 1 6 0 (coin h v :: l) low vValue total
  = SelectCoinsMinConf_scan E w t 1 6 0 l low (vValue ++ [input_coin h v]) (total + v).
Proof.
  intros Hlim Hne Hlt. rewrite scan_cons, candidate_of_coin, Hlim.
  cbn [mbind outcome_bind]. change (coin_value (input_coin h v)) with v.
  apply Z.eqb_neq in Hne. apply Z.ltb_lt in Hlt. rewrite Hne, Hlt. reflexivity.
Qed.

(** C7 (as the code has it).  For candidates {10, 20, 5} and target 15 the
    tier succeeds on every run.  It returns exactly {10, 5}, whose sum is
    the target, on the runs in which the draws of at least one of the
    1000 repetitions of the subset search leave out the coin 20 or take
    both 10 and 5; on the other runs it returns {20}.  The order in which
    the shuffle presents the candidates does not matter. *)
Theorem SelectCoinsMinConf_10_20_5_target_15 :
  forall E w setCoinsRet nValueRet r,
    20 < MIN_CHANGE E ->
    TransactionWithinChainLimit E 1 0 = true ->
    TransactionWithinChainLimit E 2 0 = true ->
    TransactionWithinChainLimit E 3 0 = true ->
    exists r',
      SelectCoinsMinConf E w 15 1 6 0 [coin 1 10; coin 2 20; coin 3 5]
                         setCoinsRet nValueRet r
      = Ret (if finds_exact 1000 (rng_bits r)
             then (true, [input_coin 1 10; input_coin 3 5], 15, r')
             else (true, [input_coin 2 20], 20, r')).
Proof.
  intros E w setCoinsRet nValueRet r Hmc H1 H2 H3.
  unfold SelectCoinsMinConf.
  pose proof (random_shuffle_Permutation [coin 1 10; coin 2 20; coin 3 5] r) as Hperm.
  pose proof (random_shuffle_bits [coin 1 10; coin 2 20; coin 3 5] r) as Hbits.
  destruct (random_shuffle [coin 1 10; coin 2 20; coin 3 5] r) as [vCoins' r1].
  simpl in Hperm, Hbits. rewrite <- Hbits.
  assert (Hno : (15 + MIN_CHANGE E <=? 35) = false) by (apply Z.leb_gt; lia).
  assert (Hscan : exists vValue,
             SelectCoinsMinConf_scan E w 15 1 6 0 vCoins' None [] 0
             = Ret (Scanned None vValue 35) /\ sort_descending vValue = L15).
  { apply (Permutation_three _ _ _ _ NoDup_coins_10_20_5) in Hperm.
    destruct Hperm as [->|[->|[->|[->|[->| ->]]]]];
      rewrite !scan_coin_below by (assumption || lia);
      eexists; (split; [reflexivity|vm_compute; reflexivity]). }
  destruct Hscan as (vValue & -> & Hsort).
  cbn [mbind outcome_bind]. change (35 =? 15) with false. change (35 <? 15) with false.
  cbv iota. rewrite Hsort.
  destruct (ApproximateBestSubset_20_10_5 r1) as [r2 Heq]. rewrite Heq.
  exists r2. destruct (finds_exact 1000 (rng_bits r1)).
  - reflexivity.
  - change (negb (20 =? 15)) with true. rewrite Hno. reflexivity.
Qed.

Lemma SelectCoinsMinConf_10_20_5_target_15_witness :
  20 < MIN_CHANGE E0 /\
  exists r',
    SelectCoinsMinConf E0 wallet0 15 1 6 0 [coin 1 10; coin 2 20; coin 3 5] [] 0
                       (mkRng [] [])
    = Ret (true, [input_coin 1 10; input_coin 3 5], 15, r').
Proof.
  split; [reflexivity|].
  destruct (SelectCoinsMinConf_10_20_5_target_15 E0 wallet0 [] 0 (mkRng [] [])
              eq_refl eq_refl eq_refl eq_refl) as [r' Hr].
  exists r'. exact Hr.
Defined.

(** C7, as stated, fails: on a run whose every repetition takes the coin
    20 and leaves 10 and 5, the selector returns {20}. *)
Lemma SelectCoinsMinConf_10_20_5_unlucky :
  ~ (forall r, exists r',
        SelectCoinsMinConf E0 wallet0 15 1 6 0 [coin 1 10; coin 2 20; coin 3 5] [] 0 r
        = Ret (true, [input_coin 1 10; input_coin 3 5], 15, r')).
Proof.
  intros H. destruct (H (mkRng [] unlucky_bits)) as [r' Hr].
  vm_compute in Hr. discriminate Hr.
Qed.

Lemma SelectCoinsMinConf_single_larger_or_fail_witness :
  0 <= MIN_CHANGE E0 /\
  (exists r' c,
      SelectCoinsMinConf E0 wallet0 10000000 1 6 0
        [coin 1 5000000; coin 2 30000000; coin 3 20000000] [] 0 (mkRng [] [])
      = Ret (true, [c], coin_value c, r') /\ 10000000 < coin_value c) /\
  (exists r',
      SelectCoinsMinConf E0 wallet0 10 1 6 0 [coin 1 100] [] 0 (mkRng [] [])
      = Ret (true, [input_coin 1 100], 100, r')) /\
  (exists r',
      SelectCoinsMinConf E0 wallet0 10 1 6 0 [coin 1 1; coin 2 2] [] 0 (mkRng [] [])
      = Ret (false, [], 0, r')).
Proof.
  assert (Hmc : 0 <= MIN_CHANGE E0) by (vm_compute; discriminate).
  split; [exact Hmc|].
  destruct (SelectCoinsMinConf_single_larger_or_fail E0 wallet0 [] 0 (mkRng [] []) Hmc)
    as (Hgen & H100 & H12).
  split; [|split; [apply H100; reflexivity | exact H12]].
  destruct (Hgen 10000000 1 6 0%N [coin 1 5000000; coin 2 30000000; coin 3 20000000])
    as (r' & [(c & _ & Hgt & _ & Hres)|[Hall _]]).
  - repeat constructor; eexists; vm_compute; reflexivity.
  - vm_compute. repeat constructor; discriminate.
  - vm_compute. intros c [<-|[<-|[<-|[]]]]; discriminate.
  - vm_compute. reflexivity.
  - exists r', c. split; assumption.
  - exfalso. specialize (Hall (input_coin 2 30000000)).
    assert (Hin : In (input_coin 2 30000000)
                     (filter_candidates E0 wallet0 1 6 0
                        [coin 1 5000000; coin 2 30000000; coin 3 20000000]))
      by (vm_compute; auto).
    specialize (Hall Hin). vm_compute in Hall. discriminate.
Defined.

(** ** Conflicts *)

Lemma equal_range_In k m e : In e (equal_range k m) <-> In e m /\ fst e = k.
Proof.
  unfold equal_range. rewrite List.filter_In, outpoint_eqb_eq. reflexivity.
Qed.

Lemma fold_set_insert_In (range : list (COutPoint * uint256)) : forall acc h,
  In h (fold_left (fun r e => set_insert (snd e) r) range acc)
  <-> In h acc \/ exists e, In e range /\ snd e = h.
Proof.
  induction range as [|x range IH]; simpl; intros acc h.
  - split; [auto|]. intros [H|(e & [] & _)]. exact H.
  - rewrite IH, set_insert_In. split.
    + intros [[->|H]|(e & He & Hs)]; eauto.
    + intros [H|(e & [->|He] & Hs)]; eauto.
Qed.

Lemma GetConflicts_fold_In w (ins : list CTxIn) : forall acc h,
  In h (fold_left
          (fun result txin =>
             let range := equal_range (prevout txin) (mapTxSpends w) in
             if (length range <=? 1)%nat then result
             else fold_left (fun r e => set_insert (snd e) r) range result)
          ins acc)
  <-> In h acc \/
      exists txin, In txin ins /\
                   (1 < length (equal_range (prevout txin) (mapTxSpends w)))%nat /\
                   spender_of w (prevout txin) h.
Proof.
  induction ins as [|txin ins IH]; simpl; intros acc h.
  - split; [auto|]. intros [H|(t & [] & _)]. exact H.
  - rewrite IH. clear IH. unfold spender_of.
    destruct (Nat.leb_spec (length (equal_range (prevout txin) (mapTxSpends w))) 1)
      as [Hle|Hgt].
    + split.
      * intros [H|(t & Ht & Hc & Hs)]; eauto 10.
      * intros [H|(t & [->|Ht] & Hc & Hs)]; eauto 10. lia.
    + rewrite fold_set_insert_In. split.
      * intros [[H|(e & He & Hs)]|(t & Ht & Hc & Hs)]; eauto 10.
        apply equal_range_In in He. destruct He as [He Hk]. destruct e as [k h']. simpl in *.
        subst. right. exists txin. auto.
      * intros [H|(t & [->|Ht] & Hc & Hs)]; eauto 10.
        left. right. exists (prevout t, h). split; [|reflexivity].
        apply equal_range_In. auto.
Qed.

(** C3 (as the code has it).  For a tracked transaction, [GetConflicts]
    returns the spenders of those of its inputs' outpoints that have more
    than one known spender: every known spender of such an outpoint, the
    queried transaction included when it is one of them.  The wrapper
    [CWalletTx::GetConflicts] removes the transaction's own hash; its
    result is the other spenders and never contains the hash. *)
Theorem GetConflicts_all_spenders_of_contended_inputs :
  forall w txid wtx,
    mapWallet w !! txid = Some wtx ->
    (forall h, In h (GetConflicts w txid) <->
               exists txin, In txin (vin (tx wtx)) /\
                            (1 < length (equal_range (prevout txin) (mapTxSpends w)))%nat /\
                            spender_of w (prevout txin) h) /\
    (GetHash wtx = txid ->
     ~ In txid (CWalletTx_GetConflicts w wtx) /\
     forall h, In h (CWalletTx_GetConflicts w wtx) <-> In h (GetConflicts w txid) /\ h <> txid).
Proof.
  intros w txid wtx Hw. split.
  - intros h. unfold GetConflicts. rewrite Hw, GetConflicts_fold_In. simpl.
    split; [intros [[]|H]; exact H | auto].
  - intros Hh. unfold CWalletTx_GetConflicts. rewrite Hh. split.
    + rewrite set_erase_In. tauto.
    + intros h. apply set_erase_In.
Qed.

Lemma GetConflicts_all_spenders_of_contended_inputs_witness :
  mapWallet wallet_conflict !! 1%N
  = Some (mk_wtx 1 [txin_of 9 0] [mkTxOut 40 []] 0 (-1) false) /\
  (In 2%N (GetConflicts wallet_conflict 1%N) /\ In 1%N (GetConflicts wallet_conflict 1%N)) /\
  ~ In 1%N (CWalletTx_GetConflicts wallet_conflict
              (mk_wtx 1 [txin_of 9 0] [mkTxOut 40 []] 0 (-1) false)).
Proof.
  assert (Hw : mapWallet wallet_conflict !! 1%N
               = Some (mk_wtx 1 [txin_of 9 0] [mkTxOut 40 []] 0 (-1) false))
    by (vm_compute; reflexivity).
  split; [exact Hw|].
  destruct (GetConflicts_all_spenders_of_contended_inputs wallet_conflict 1%N _ Hw)
    as [Hall Hwrap].
  split.
  - split; apply Hall; exists (txin_of 9 0); vm_compute; auto.
  - apply Hwrap. reflexivity.
Defined.

(** C3, as stated, fails: the two spenders of one outpoint are both
    returned, the queried transaction among them. *)
Lemma GetConflicts_contains_queried_tx :
  is_Some (mapWallet wallet_conflict !! 1%N) /\ In 1%N (GetConflicts wallet_conflict 1%N).
Proof.
  split; [vm_compute; eauto | vm_compute; auto].
Qed.

(** ** Abandoning a transaction *)

(** C5.  [AbandonTransaction] on a tracked transaction that is confirmed
    (depth > 0) or in the mempool returns [false], and the wallet after
    the call is the wallet before it: nothing of the records, of the
    insertion order or of the spend index has changed. *)
Theorem AbandonTransaction_refused_leaves_wallet :
  forall E fuel w hashTx origtx,
    mapWallet w !! hashTx = Some origtx ->
    0 < GetDepthInMainChain E origtx \/ InMempool origtx = true ->
    AbandonTransaction E fuel hashTx w = Ret (false, w).
Proof.
  intros E fuel w hashTx origtx Hw Hpre. unfold AbandonTransaction. rewrite Hw.
  destruct Hpre as [Hd|Hm].
  - apply Z.ltb_lt in Hd. rewrite Hd. reflexivity.
  - rewrite Hm, orb_true_r. reflexivity.
Qed.

Lemma AbandonTransaction_refused_leaves_wallet_witness :
  (0 < GetDepthInMainChain E0 (mk_wtx 3 [] [mkTxOut 70 []] 100 2 false) /\
   AbandonTransaction E0 5 3%N wallet_confirmed = Ret (false, wallet_confirmed)) /\
  (InMempool (mk_wtx 4 [txin_of 3 0] [mkTxOut 60 []] 0 (-1) true) = true /\
   AbandonTransaction E0 5 4%N wallet_confirmed = Ret (false, wallet_confirmed)).
Proof.
  split; split.
  - reflexivity.
  - apply (AbandonTransaction_refused_leaves_wallet E0 5 wallet_confirmed 3%N
             (mk_wtx 3 [] [mkTxOut 70 []] 100 2 false)).
    + vm_compute; reflexivity.
    + left. reflexivity.
  - reflexivity.
  - apply (AbandonTransaction_refused_leaves_wallet E0 5 wallet_confirmed 4%N
             (mk_wtx 4 [txin_of 3 0] [mkTxOut 60 []] 0 (-1) true)).
    + vm_compute; reflexivity.
    + right. reflexivity.
Defined.

(** ** Re-observing a transaction *)

Lemma MarkDirty_nOrderPos wtx : nOrderPos (MarkDirty wtx) = nOrderPos wtx.
Proof. reflexivity. Qed.

Lemma MarkDirty_cached_amounts wtx :
  cached_amounts (cache (MarkDirty wtx)) = cached_amounts (cache wtx).
Proof. reflexivity. Qed.

Lemma AddToWallet_merge_keeps wtxIn wtx :
  nOrderPos (fst (AddToWallet_merge wtxIn wtx)) = nOrderPos wtx /\
  cache (fst (AddToWallet_merge wtxIn wtx)) = cache wtx.
Proof.
  unfold AddToWallet_merge.
  repeat match goal with
         | |- context [if ?c then _ else _] => destruct c
         end; simpl; auto.
Qed.

(** After a call that returns, the transaction is in [mapWallet]. *)
Lemma AddToWallet_tracked E wtxIn w r1 w1 :
  AddToWallet E wtxIn w = Ret (r1, w1) -> is_Some (mapWallet w1 !! GetHash wtxIn).
Proof.
  unfold AddToWallet. destruct (mapWallet w !! GetHash wtxIn) as [wtx|] eqn:Hw.
  - destruct (AddToWallet_merge wtxIn wtx) as [wtx' fUpdated].
    destruct (fUpdated && negb (WriteTx E wtx')); intros H; inversion H; subst; simpl;
      rewrite lookup_insert_eq; eauto.
  - destruct (IncOrderPosNext w) as [pos w0].
    intros H. apply bind_Ret_inv in H. destruct H as (ts & _ & H).
    apply bind_Ret_inv in H. destruct H as (w' & _ & H).
    destruct (mapWallet w' !! GetHash wtxIn) as [wtx|] eqn:Hw'; [|discriminate].
    destruct (negb (WriteTx E wtx)); inversion H; subst; simpl.
    + rewrite Hw'. eauto.
    + rewrite lookup_insert_eq. eauto.
Qed.

(** A call on a tracked transaction touches neither the insertion order,
    nor the cached amounts, nor the spend index. *)
Lemma AddToWallet_existing E wtxIn w1 wtx :
  mapWallet w1 !! GetHash wtxIn = Some wtx ->
  exists r2 w2,
    AddToWallet E wtxIn w1 = Ret (r2, w2) /\
    mapTxSpends w2 = mapTxSpends w1 /\
    wtxOrdered w2 = wtxOrdered w1 /\
    nOrderPosNext w2 = nOrderPosNext w1 /\
    forall h,
      match mapWallet w1 !! h, mapWallet w2 !! h with
      | Some a, Some b =>
          nOrderPos b = nOrderPos a /\
          cached_amounts (cache b) = cached_amounts (cache a) /\
          (h <> GetHash wtxIn -> b = a)
      | None, None => True
      | _, _ => False
      end.
Proof.
  intros Hw. unfold AddToWallet. rewrite Hw.
  pose proof (AddToWallet_merge_keeps wtxIn wtx) as [Hpos Hcache].
  destruct (AddToWallet_merge wtxIn wtx) as [wtx' fUpdated]. simpl in Hpos, Hcache.
  destruct (fUpdated && negb (WriteTx E wtx')); do 2 eexists;
    (split; [reflexivity|]); simpl; repeat split; intros h;
    (destruct (decide (h = GetHash wtxIn)) as [->|Hne];
     [ rewrite Hw, lookup_insert_eq; simpl; rewrite ?Hcache; tauto
     | rewrite !lookup_insert_ne by (intros Heq; apply Hne; symmetry; exact Heq);
       destruct (mapWallet w1 !! h); auto ]).
Qed.

(** C9.  After a call of [AddToWallet] that returned, a second call with
    the same transaction returns and leaves the insertion order (the
    [nOrderPos] of every record, [wtxOrdered] and the next position), the
    cached amounts of every record and the spend index as the first call
    left them; the records of other transactions are untouched. *)
Theorem AddToWallet_twice :
  forall E wtxIn w r1 w1,
    AddToWallet E wtxIn w = Ret (r1, w1) ->
    exists r2 w2,
      AddToWallet E wtxIn w1 = Ret (r2, w2) /\
      mapTxSpends w2 = mapTxSpends w1 /\
      wtxOrdered w2 = wtxOrdered w1 /\
      nOrderPosNext w2 = nOrderPosNext w1 /\
      forall h,
        match mapWallet w1 !! h, mapWallet w2 !! h with
        | Some a, Some b =>
            nOrderPos b = nOrderPos a /\
            cached_amounts (cache b) = cached_amounts (cache a) /\
            (h <> GetHash wtxIn -> b = a)
        | None, None => True
        | _, _ => False
        end.
Proof.
  intros E wtxIn w r1 w1 H1.
  destruct (AddToWallet_tracked E wtxIn w r1 w1 H1) as [wtx Hw].
  exact (AddToWallet_existing E wtxIn w1 wtx Hw).
Qed.

Lemma AddToWallet_twice_witness :
  exists r1 w1,
    AddToWallet E0 wtx_third_spender wallet_conflict = Ret (r1, w1) /\
    exists r2 w2,
      AddToWallet E0 wtx_third_spender w1 = Ret (r2, w2) /\
      mapTxSpends w2 = mapTxSpends w1 /\
      wtxOrdered w2 = wtxOrdered w1 /\
      nOrderPosNext w2 = nOrderPosNext w1.
Proof.
  assert (H : exists p, AddToWallet E0 wtx_third_spender wallet_conflict = Ret p)
    by (vm_compute; eexists; reflexivity).
  destruct H as [[r1 w1] H1]. exists r1, w1. split; [exact H1|].
  destruct (AddToWallet_twice E0 wtx_third_spender wallet_conflict r1 w1 H1)
    as (r2 & w2 & H2 & Hs & Ho & Hn & _).
  exists r2, w2. auto.
Defined.

(** ** Trust and balance *)

Lemma IsTrusted_inputs_true E w ins :
  IsTrusted_inputs E w ins = Ret true <->
  forall txin, In txin ins ->
    exists parent parentOut,
      mapWallet w !! op_hash (prevout txin) = Some parent /\
      vout (tx parent) !! N.to_nat (op_n (prevout txin)) = Some parentOut /\
      IsMine E parentOut = ISMINE_SPENDABLE.
Proof.
  induction ins as [|txin ins IH]; simpl.
  - split; [intros _ ? []|reflexivity].
  - destruct (mapWallet w !! op_hash (prevout txin)) as [parent|] eqn:Hp.
    + destruct (vout (tx parent) !! N.to_nat (op_n (prevout txin))) as [parentOut|] eqn:Ho.
      * destruct (N.eqb_spec (IsMine E parentOut) ISMINE_SPENDABLE) as [Hm|Hm]; simpl.
        -- rewrite IH. split.
           ++ intros H t [<-|Ht]; [eauto|auto].
           ++ intros H t Ht. apply H. auto.
        -- split; [discriminate|]. intros H.
           destruct (H txin (or_introl eq_refl)) as (p & o & Hp' & Ho' & Hm').
           congruence.
      * split; [discriminate|]. intros H.
        destruct (H txin (or_introl eq_refl)) as (p & o & Hp' & Ho' & Hm'). congruence.
    + split; [discriminate|]. intros H.
      destruct (H txin (or_introl eq_refl)) as (p & o & Hp' & Ho' & Hm'). congruence.
Qed.

Lemma sum_amounts_cons c l : sum_amounts (c :: l) = c + sum_amounts l.
Proof. reflexivity. Qed.

Lemma wallet_entries_Permutation (m : gmap uint256 CWalletTx) :
  Permutation (wallet_entries m) (map_to_list m).
Proof. unfold wallet_entries. apply merge_sort_Permutation. Qed.

(** C2, as stated, fails: a zero-confirmation record of the wallet that
    spends an unconfirmed payment received from a foreign sender is
    trusted by the code, although its parent is not self-originated. *)
Lemma IsTrusted_ignores_ancestors :
  IsTrusted E0 wallet_zero_conf wtx_zero_conf_child = Ret true /\
  ~ spec_trusted E0 wallet_zero_conf wtx_zero_conf_child.
Proof.
  split; [vm_compute; reflexivity|].
  intros [_ [Hd|(_ & _ & _ & Hanc)]].
  - vm_compute in Hd. apply Hd. reflexivity.
  - inversion Hanc as [wtx Hins]; subst.
    destruct (Hins (txin_of 6 0) (or_introl eq_refl)) as (parent & Hp & Hfrom & _).
    vm_compute in Hp. inversion Hp; subst. vm_compute in Hfrom. discriminate.
Qed.

(** ** Conflict propagation *)

Lemma depth_ext E a b :
  same_chain_state a b -> GetDepthInMainChain E a = GetDepthInMainChain E b.
Proof.
  intros (Ht & Hh & Hi).
  unfold GetDepthInMainChain, GetDepthInMainChain_1, GetDepthInMainChain_IX,
    hashUnset, GetHash.
  rewrite Ht, Hh, Hi. reflexivity.
Qed.

Lemma same_record_refl a : same_record a a.
Proof. destruct a; simpl; unfold same_chain_state; auto. Qed.

Lemma same_record_trans a b c : same_record a b -> same_record b c -> same_record a c.
Proof.
  destruct a, b, c; simpl; unfold same_chain_state; try tauto.
  intuition congruence.
Qed.

Lemma MarkDirty_same_chain_state wtx : same_chain_state (MarkDirty wtx) wtx.
Proof. unfold same_chain_state; auto. Qed.

Lemma MarkDirty_parents_spec ins : forall w,
  mapTxSpends (MarkDirty_parents ins w) = mapTxSpends w /\
  wtxOrdered (MarkDirty_parents ins w) = wtxOrdered w /\
  nOrderPosNext (MarkDirty_parents ins w) = nOrderPosNext w /\
  forall x, same_record (mapWallet (MarkDirty_parents ins w) !! x) (mapWallet w !! x).
Proof.
  unfold MarkDirty_parents.
  induction ins as [|txin ins IH]; intros w; simpl.
  - repeat split. intros x. apply same_record_refl.
  - destruct (mapWallet w !! op_hash (prevout txin)) as [parent|] eqn:Hp.
    + destruct (IH (set_mapWallet
                      (<[op_hash (prevout txin) := MarkDirty parent]> (mapWallet w)) w))
        as (Hs & Ho & Hn & Hrec).
      rewrite Hs, Ho, Hn. repeat split. intros x.
      eapply same_record_trans; [apply Hrec|]. simpl.
      destruct (decide (x = op_hash (prevout txin))) as [->|Hne].
      * rewrite lookup_insert_eq, Hp. apply MarkDirty_same_chain_state.
      * rewrite lookup_insert_ne by congruence. apply same_record_refl.
    + apply IH.
Qed.

Lemma queue_spenders_In spenders done : forall todo y,
  In y (queue_spenders spenders done todo)
  <-> In y todo \/ (In y spenders /\ ~ In y done).
Proof.
  unfold queue_spenders.
  induction spenders as [|s spenders IH]; simpl; intros todo y.
  - tauto.
  - rewrite IH. destruct (set_count s done) eqn:Hc.
    + apply set_count_In in Hc. intuition (subst; tauto).
    + assert (Hn : ~ In s done) by (rewrite <- set_count_In, Hc; discriminate).
      rewrite set_insert_In. intuition (subst; tauto).
Qed.

(** In a key-ordered index the loop from [lower_bound] meets exactly the
    spenders of the outputs of [now]. *)
Lemma while_hash_ge now m :
  TxSpends_sorted m ->
  Forall (fun e => (now <= op_hash (fst e))%N) m ->
  forall y, In y (while_hash now m) <-> exists n, In (mkOutPoint now n, y) m.
Proof.
  induction 1 as [|x m Hm IH Hx]; intros Hge y; simpl.
  - split; [intros []|intros [? []]].
  - inversion Hge as [|? ? Hx0 Hge']; subst.
    destruct (N.eqb_spec (op_hash (fst x)) now) as [Heq|Hne]; simpl.
    + rewrite (IH Hge'). split.
      * intros [<-|[n Hn]]; [|eauto].
        exists (op_n (fst x)). left. destruct x as [[h n] s]. simpl in *. subst. reflexivity.
      * intros [n [->|Hn]]; [left; reflexivity|eauto].
    + split; [intros []|]. intros [n [->|Hn]]; [simpl in Hne; congruence|].
      exfalso. rewrite List.Forall_forall in Hx. specialize (Hx _ Hn). simpl in Hx.
      unfold outpoint_ltb in Hx. simpl in Hx.
      apply orb_false_elim in Hx as [Hx _]. apply N.ltb_ge in Hx. lia.
Qed.

Lemma while_hash_lower_bound now m :
  TxSpends_sorted m ->
  forall y, In y (while_hash now (lower_bound (mkOutPoint now 0) m))
            <-> exists n, In (mkOutPoint now n, y) m.
Proof.
  induction 1 as [|x m Hm IH Hx]; intros y; simpl.
  - split; [intros []|intros [? []]].
  - destruct (outpoint_ltb (fst x) (mkOutPoint now 0)) eqn:Hlt.
    + rewrite IH. unfold outpoint_ltb in Hlt. simpl in Hlt.
      assert (Hz : (op_n (fst x) <? 0)%N = false) by (apply N.ltb_ge; lia).
      rewrite Hz, andb_false_r, orb_false_r in Hlt. apply N.ltb_lt in Hlt.
      split; [intros [n Hn]; eauto|].
      intros [n [->|Hn]]; [simpl in Hlt; lia|eauto].
    + apply while_hash_ge.
      * constructor; assumption.
      * unfold outpoint_ltb in Hlt. simpl in Hlt.
        apply orb_false_elim in Hlt as [Hlt _]. apply N.ltb_ge in Hlt.
        constructor; [exact Hlt|].
        rewrite List.Forall_forall in Hx. apply List.Forall_forall. intros e He.
        specialize (Hx e He). unfold outpoint_ltb in Hx.
        apply orb_false_elim in Hx as [Hx _]. apply N.ltb_ge in Hx. lia.
Qed.

Lemma size_list_to_set_le (l : list uint256) :
  (size (list_to_set l : gset uint256) <= length l)%nat.
Proof.
  induction l as [|x l IH].
  - change (list_to_set [] : gset uint256) with (∅ : gset uint256).
    rewrite size_empty. simpl. lia.
  - change (list_to_set (x :: l) : gset uint256)
      with ({[x]} ∪ list_to_set l : gset uint256).
    rewrite size_union_alt, size_singleton.
    assert (Hsub : (list_to_set l ∖ {[x]} : gset uint256) ⊆ list_to_set l)
      by (intros y Hy; apply elem_of_difference in Hy; tauto).
    apply subseteq_size in Hsub. simpl. lia.
Qed.

Lemma MarkConflicted_loop_step E fuel hb cc now rest done w wtx :
  mapWallet w !! now = Some wtx ->
  MarkConflicted_loop E (S fuel) hb cc (now :: rest) done w =
  if cc <? GetDepthInMainChain E wtx then
    MarkConflicted_loop E fuel hb cc
      (queue_spenders (while_hash now (lower_bound (mkOutPoint now 0) (mapTxSpends w)))
                      (set_insert now done) (set_erase now (now :: rest)))
      (set_insert now done)
      (MarkDirty_parents (vin (tx wtx))
         (set_mapWallet
            (<[now := MarkDirty (set_hashBlock hb (set_nIndex (-1) wtx))]> (mapWallet w)) w))
  else MarkConflicted_loop E fuel hb cc (set_erase now (now :: rest)) (set_insert now done) w.
Proof. intros H. simpl. rewrite H. reflexivity. Qed.

Section MarkConflictedLoop.

Variables (E : Externals) (hb : uint256) (cc : Z) (a : uint256) (w0 : CWallet).
Hypothesis Hsorted : TxSpends_sorted (mapTxSpends w0).
Hypothesis Htracked : spenders_tracked w0.
Hypothesis Ha : is_Some (mapWallet w0 !! a).

Local Abbreviation visitable := (visitable a w0).
Local Abbreviation MarkConflicted_inv := (MarkConflicted_inv E hb cc a w0).

Lemma reaches_tracked x : reaches E w0 cc a x -> is_Some (mapWallet w0 !! x).
Proof.
  induction 1 as [|y z _ _ _ [n Hn]]; [exact Ha|]. eapply Htracked. exact Hn.
Qed.

Lemma reaches_visitable x : reaches E w0 cc a x -> x ∈ visitable.
Proof.
  unfold visitable. rewrite elem_of_list_to_set, list_elem_of_In.
  induction 1 as [|y z _ _ _ [n Hn]]; [left; reflexivity|].
  right. apply in_map_iff. exists (mkOutPoint y n, z). auto.
Qed.

Lemma visitable_size : (size visitable <= S (length (mapTxSpends w0)))%nat.
Proof.
  unfold visitable. rewrite <- (length_map snd (mapTxSpends w0)).
  change (S (length (List.map snd (mapTxSpends w0))))
    with (length (a :: List.map snd (mapTxSpends w0))).
  apply size_list_to_set_le.
Qed.

Lemma step_measure now done :
  now ∈ visitable -> ~ In now done ->
  (size (visitable ∖ list_to_set (set_insert now done))
   < size (visitable ∖ list_to_set done))%nat.
Proof.
  intros Hv Hn. apply subset_size. split.
  - intros x. rewrite !elem_of_difference, !elem_of_list_to_set, !list_elem_of_In,
      set_insert_In. tauto.
  - intros Hsub. specialize (Hsub now).
    rewrite !elem_of_difference, !elem_of_list_to_set, !list_elem_of_In, set_insert_In
      in Hsub.
    tauto.
Qed.

Lemma MarkConflicted_loop_correct fuel : forall todo done w,
  MarkConflicted_inv todo done w ->
  (size (visitable ∖ list_to_set done) <= fuel)%nat ->
  exists w' done',
    MarkConflicted_loop E fuel hb cc todo done w = Ret w' /\
    MarkConflicted_inv [] done' w'.
Proof.
  induction fuel as [|fuel IH]; intros todo done w Hinv Hsize.
  - destruct todo as [|now rest]; [simpl; eauto|].
    exfalso.
    assert (Hr : reaches E w0 cc a now) by (apply (inv_reach _ _ _ _ _ _ _ _ Hinv); right; left; auto).
    assert (Hn : ~ In now done) by (apply (inv_disjoint _ _ _ _ _ _ _ _ Hinv); left; auto).
    pose proof (step_measure now done (reaches_visitable _ Hr) Hn). lia.
  - destruct todo as [|now rest]; [simpl; eauto|].
    assert (Hr : reaches E w0 cc a now) by (apply (inv_reach _ _ _ _ _ _ _ _ Hinv); right; left; auto).
    assert (Hn : ~ In now done) by (apply (inv_disjoint _ _ _ _ _ _ _ _ Hinv); left; auto).
    destruct (reaches_tracked _ Hr) as [wtx0 Hw0].
    pose proof (inv_unmarked _ _ _ _ _ _ _ _ Hinv now (fun H => Hn (proj1 H))) as Hsame.
    rewrite Hw0 in Hsame.
    destruct (mapWallet w !! now) as [wtx|] eqn:Hw; [|contradiction].
    simpl in Hsame. pose proof (depth_ext E _ _ Hsame) as Hdepth.
    pose proof (step_measure now done (reaches_visitable _ Hr) Hn) as Hstep.
    rewrite (MarkConflicted_loop_step E fuel hb cc now rest done w wtx Hw).
    assert (Htodo1 : forall y, In y (set_erase now (now :: rest)) <-> In y rest /\ y <> now).
    { intros y. rewrite set_erase_In. simpl. intuition congruence. }
    assert (Hdone1 : forall y, In y (set_insert now done) <-> y = now \/ In y done)
      by (intros y; apply set_insert_In).
    destruct (Z.ltb_spec cc (GetDepthInMainChain E wtx)) as [Hlt|Hge].
    + (* the record is marked and its spenders are queued *)
      apply IH; [|lia].
      destruct (MarkDirty_parents_spec
                  (vin (tx wtx))
                  (set_mapWallet
                     (<[now := MarkDirty (set_hashBlock hb (set_nIndex (-1) wtx))]>
                        (mapWallet w)) w))
        as (Hs & Ho & Hp & Hrec).
      constructor.
      * rewrite Hs. simpl. apply (inv_spends _ _ _ _ _ _ _ _ Hinv).
      * rewrite Ho, Hp. simpl. apply (inv_order _ _ _ _ _ _ _ _ Hinv).
      * intros x Hx. eapply same_record_trans; [apply Hrec|]. simpl.
        destruct (decide (x = now)) as [->|Hne].
        -- exfalso. apply Hx. split; [apply Hdone1; auto|].
           exists wtx0. split; [exact Hw0|lia].
        -- rewrite lookup_insert_ne by congruence.
           apply (inv_unmarked _ _ _ _ _ _ _ _ Hinv). intros [Hd Hl]. apply Hx.
           split; [apply Hdone1; auto|exact Hl].
      * intros x wtx0' Hd Hx0 Hlt'.
        apply Hdone1 in Hd.
        destruct (decide (x = now)) as [->|Hne].
        -- specialize (Hrec now). simpl in Hrec. rewrite lookup_insert_eq in Hrec.
           destruct (mapWallet (MarkDirty_parents _ _) !! now) as [wtx'|]; [|contradiction].
           simpl in Hrec. destruct Hrec as (Ht & Hh & Hi). simpl in Ht, Hh, Hi.
           exists wtx'. split; [reflexivity|]. split; [split; assumption|].
           rewrite Ht. destruct Hsame as (Ht0 & _). congruence.
        -- destruct Hd as [Hd|Hd]; [contradiction|].
           destruct (inv_marked _ _ _ _ _ _ _ _ Hinv x wtx0' Hd Hx0 Hlt') as (wtx' & Hx & Hm & Ht).
           specialize (Hrec x). simpl in Hrec.
           rewrite lookup_insert_ne, Hx in Hrec by congruence.
           destruct (mapWallet (MarkDirty_parents _ _) !! x) as [wtx''|]; [|contradiction].
           simpl in Hrec. destruct Hrec as (Ht' & Hh' & Hi').
           exists wtx''. split; [reflexivity|]. destruct Hm as [Hm1 Hm2].
           split; [split; congruence|congruence].
      * intros x Hx. apply queue_spenders_In in Hx.
        rewrite Hdone1. destruct Hx as [Hx|[_ Hx]].
        -- apply Htodo1 in Hx. destruct Hx as [Hx Hne].
           intros [?|Hd]; [contradiction|].
           apply (inv_disjoint _ _ _ _ _ _ _ _ Hinv x); [right; exact Hx|exact Hd].
        -- intros Hd. apply Hx. apply Hdone1. exact Hd.
      * intros x y Hx Hl Hsp. rewrite Hdone1, queue_spenders_In, Htodo1, Hdone1.
        destruct (decide (y = now)) as [->|Hyn]; [auto|].
        apply Hdone1 in Hx. destruct Hx as [->|Hx].
        -- destruct (in_dec N.eq_dec y done) as [Hyd|Hyd]; [auto|].
           right. right. split; [|tauto]. simpl.
           rewrite (inv_spends _ _ _ _ _ _ _ _ Hinv).
           apply while_hash_lower_bound; [exact Hsorted|exact Hsp].
        -- destruct (inv_closed _ _ _ _ _ _ _ _ Hinv x y Hx Hl Hsp) as [Hy|[Hy|Hy]];
             [tauto | congruence | tauto].
      * intros x Hx. rewrite Hdone1, queue_spenders_In, Htodo1 in Hx.
        destruct Hx as [[->|Hx]|[[Hx _]|[Hx _]]]; auto.
        -- apply (inv_reach _ _ _ _ _ _ _ _ Hinv). auto.
        -- apply (inv_reach _ _ _ _ _ _ _ _ Hinv). right. right. exact Hx.
        -- simpl in Hx. rewrite (inv_spends _ _ _ _ _ _ _ _ Hinv) in Hx.
           apply (while_hash_lower_bound now _ Hsorted) in Hx.
           eapply reaches_spender; [exact Hr| |exact Hx].
           exists wtx0. split; [exact Hw0|lia].
      * rewrite Hdone1, queue_spenders_In, Htodo1.
        destruct (decide (a = now)) as [->|Hne]; [auto|].
        destruct (inv_start _ _ _ _ _ _ _ _ Hinv) as [Hd|[Hd|Hd]]; [tauto | congruence | tauto].
    + (* the record is at least as conflicted already: nothing changes *)
      apply IH; [|lia].
      constructor.
      * apply (inv_spends _ _ _ _ _ _ _ _ Hinv).
      * apply (inv_order _ _ _ _ _ _ _ _ Hinv).
      * intros x Hx. destruct (decide (x = now)) as [->|Hne].
        -- rewrite Hw, Hw0. exact Hsame.
        -- apply (inv_unmarked _ _ _ _ _ _ _ _ Hinv). intros [Hd Hl]. apply Hx.
           split; [apply Hdone1; auto|exact Hl].
      * intros x wtx0' Hd Hx0 Hlt'. apply Hdone1 in Hd. destruct Hd as [->|Hd].
        -- rewrite Hw0 in Hx0. inversion Hx0; subst. lia.
        -- apply (inv_marked _ _ _ _ _ _ _ _ Hinv x wtx0' Hd Hx0 Hlt').
      * intros x Hx. apply Htodo1 in Hx. destruct Hx as [Hx Hne]. rewrite Hdone1.
        intros [?|Hd]; [contradiction|].
        apply (inv_disjoint _ _ _ _ _ _ _ _ Hinv x); [right; exact Hx|exact Hd].
      * intros x y Hx Hl Hsp. rewrite Hdone1, Htodo1.
        destruct (decide (y = now)) as [->|Hyn]; [auto|].
        apply Hdone1 in Hx. destruct Hx as [->|Hx].
        -- exfalso. destruct Hl as (wtx0' & Hx0 & Hlt'). rewrite Hw0 in Hx0.
           inversion Hx0; subst. lia.
        -- destruct (inv_closed _ _ _ _ _ _ _ _ Hinv x y Hx Hl Hsp) as [Hy|[Hy|Hy]];
             [tauto | congruence | tauto].
      * intros x Hx. rewrite Hdone1, Htodo1 in Hx.
        destruct Hx as [[->|Hx]|[Hx _]]; auto.
        -- apply (inv_reach _ _ _ _ _ _ _ _ Hinv). auto.
        -- apply (inv_reach _ _ _ _ _ _ _ _ Hinv). right. right. exact Hx.
      * rewrite Hdone1, Htodo1.
        destruct (decide (a = now)) as [->|Hne]; [auto|].
        destruct (inv_start _ _ _ _ _ _ _ _ Hinv) as [Hd|[Hd|Hd]]; [tauto | congruence | tauto].
Qed.

End MarkConflictedLoop.

(** C4 (as the code has it).  [MarkConflicted] on a tracked transaction
    [a], with a block of the best chain that conflicts deeper than the
    state of [a], terminates within one pass per entry of the spend index
    (plus one), whether or not the spend graph has cycles.  It marks as
    conflicted with the block [a] and every transaction reached from [a]
    along spends of transactions that were themselves less conflicted than
    the block.  A spender that is already at least as deeply conflicted
    is left as it is, and so is what is reached only through it. *)
Theorem MarkConflicted_marks_reachable :
  forall E fuel hb a w wtxA,
    TxSpends_sorted (mapTxSpends w) ->
    spenders_tracked w ->
    mapWallet w !! a = Some wtxA ->
    conflictconfirms_of E hb < 0 ->
    conflictconfirms_of E hb < GetDepthInMainChain E wtxA ->
    (length (mapTxSpends w) < fuel)%nat ->
    exists w',
      MarkConflicted E fuel hb a w = Ret w' /\
      mapTxSpends w' = mapTxSpends w /\
      (exists wtx', mapWallet w' !! a = Some wtx' /\ marked_conflicted hb wtx') /\
      (forall z wtx,
          reaches E w (conflictconfirms_of E hb) a z ->
          mapWallet w !! z = Some wtx ->
          conflictconfirms_of E hb < GetDepthInMainChain E wtx ->
          exists wtx', mapWallet w' !! z = Some wtx' /\ marked_conflicted hb wtx' /\
                       tx wtx' = tx wtx) /\
      (forall z,
          ~ (reaches E w (conflictconfirms_of E hb) a z /\
             less_conflicted E w (conflictconfirms_of E hb) z) ->
          same_record (mapWallet w' !! z) (mapWallet w !! z)).
Proof.
  intros E fuel hb a w wtxA Hsorted Htracked Ha Hcc HA Hfuel.
  unfold MarkConflicted.
  replace (0 <=? conflictconfirms_of E hb) with false by (symmetry; apply Z.leb_gt; lia).
  set (cc := conflictconfirms_of E hb) in *.
  destruct (MarkConflicted_loop_correct E hb cc a w Hsorted Htracked (mk_is_Some _ _ Ha)
              fuel (set_insert a []) [] w) as (w' & done' & Hres & Hinv).
  - constructor.
    + reflexivity.
    + split; reflexivity.
    + intros x _. apply same_record_refl.
    + intros x wtx0 [].
    + intros x _ [].
    + intros x y [].
    + intros x [[]|[<-|[]]]. constructor.
    + right. left. reflexivity.
  - pose proof (visitable_size a w).
    assert (Hsub : (visitable a w ∖ list_to_set [] : gset uint256) ⊆ visitable a w)
      by (intros y Hy; apply elem_of_difference in Hy; tauto).
    apply subseteq_size in Hsub. lia.
  - exists w'. split; [exact Hres|].
    assert (Hdone : forall z, reaches E w cc a z -> In z done').
    { induction 1 as [|y z Hy IHy Hl Hsp].
      - destruct (inv_start _ _ _ _ _ _ _ _ Hinv) as [H|[]]. exact H.
      - destruct (inv_closed _ _ _ _ _ _ _ _ Hinv y z IHy Hl Hsp) as [H|[]]. exact H. }
    assert (Hmarked : forall z wtx,
               reaches E w cc a z -> mapWallet w !! z = Some wtx ->
               cc < GetDepthInMainChain E wtx ->
               exists wtx', mapWallet w' !! z = Some wtx' /\ marked_conflicted hb wtx' /\
                            tx wtx' = tx wtx).
    { intros z wtx Hr Hz Hlt.
      apply (inv_marked _ _ _ _ _ _ _ _ Hinv z wtx (Hdone z Hr) Hz Hlt). }
    split; [apply (inv_spends _ _ _ _ _ _ _ _ Hinv)|]. split; [|split].
    + destruct (Hmarked a wtxA (reaches_self _ _ _ _) Ha HA) as (wtx' & Hw' & Hm & _).
      eauto.
    + exact Hmarked.
    + intros z Hz. apply (inv_unmarked _ _ _ _ _ _ _ _ Hinv). intros [Hd Hl].
      apply Hz. split; [|exact Hl]. apply (inv_reach _ _ _ _ _ _ _ _ Hinv). auto.
Qed.

Lemma TxSpends_sorted_wallet_cycle : TxSpends_sorted (mapTxSpends wallet_cycle).
Proof. repeat constructor. Qed.

Lemma spenders_tracked_wallet_cycle : spenders_tracked wallet_cycle.
Proof.
  intros o h [H|[H|[H|[]]]]; inversion H; subst; vm_compute; eauto.
Qed.

Lemma MarkConflicted_marks_reachable_witness :
  exists w',
    MarkConflicted E0 4 101 21 wallet_cycle = Ret w' /\
    (exists wtx', mapWallet w' !! 21%N = Some wtx' /\ marked_conflicted 101%N wtx') /\
    (exists wtx', mapWallet w' !! 23%N = Some wtx' /\ marked_conflicted 101%N wtx').
Proof.
  destruct (MarkConflicted_marks_reachable E0 4 101%N 21%N wallet_cycle
              (mk_wtx 21 [txin_of 22 0] [mkTxOut 70 []] 0 (-1) false)
              TxSpends_sorted_wallet_cycle spenders_tracked_wallet_cycle)
    as (w' & Hres & _ & HA & Hmarked & _).
  - vm_compute; reflexivity.
  - vm_compute; reflexivity.
  - vm_compute; reflexivity.
  - vm_compute; lia.
  - exists w'. split; [exact Hres|]. split; [exact HA|].
    destruct (Hmarked 23%N (mk_wtx 23 [txin_of 22 1] [mkTxOut 50 []] 0 (-1) false))
      as (wtx' & Hw' & Hm & _).
    + apply (reaches_spender _ _ _ _ 22%N).
      * apply (reaches_spender _ _ _ _ 21%N).
        -- constructor.
        -- eexists. split; [vm_compute; reflexivity|vm_compute; reflexivity].
        -- exists 0%N. vm_compute; auto.
      * eexists. split; [vm_compute; reflexivity|vm_compute; reflexivity].
      * exists 1%N. vm_compute; auto.
    + vm_compute; reflexivity.
    + vm_compute; reflexivity.
    + eauto.
Defined.

(** C4, as stated, fails: transaction [13] spends [12], which spends [11];
    marking [11] conflicted with a block three deep stops at [12], which
    is conflicted six deep already, and leaves [13] unconfirmed and
    unmarked. *)
Lemma MarkConflicted_stops_at_deeper_conflict :
  conflictconfirms_of E0 101 < 0 /\
  conflictconfirms_of E0 101
  < GetDepthInMainChain E0 (mk_wtx 11 [txin_of 50 0] [mkTxOut 70 []] 0 (-1) false) /\
  descends wallet_chain 11%N 13%N /\
  exists w' wtx,
    MarkConflicted E0 5 101 11 wallet_chain = Ret w' /\
    mapWallet w' !! 13%N = Some wtx /\
    GetDepthInMainChain E0 wtx = 0 /\
    ~ marked_conflicted 101%N wtx.
Proof.
  split; [reflexivity|]. split; [reflexivity|]. split.
  - apply (descends_spender _ _ 12%N).
    + apply (descends_spender _ _ 11%N); [constructor|]. exists 0%N. vm_compute; auto.
    + exists 0%N. vm_compute; auto.
  - eexists. eexists. split; [vm_compute; reflexivity|].
    split; [vm_compute; reflexivity|]. split; [reflexivity|].
    intros [_ H]. discriminate H.
Qed.

(** ** Soundness of selection: the value returned is the value of the
    coins returned, and it covers the target *)

Lemma insert_all_sound l : forall s v s' v',
  List.NoDup (List.map outpoint l) ->
  (forall c, In c l -> ~ coin_in c s) ->
  insert_all l s v = (s', v') ->
  v' = v + sum_coins l /\
  sum_coins s' = sum_coins s + sum_coins l /\
  (forall o, In o (List.map outpoint s') <->
             In o (List.map outpoint s) \/ In o (List.map outpoint l)).
Proof.
  induction l as [|c l IH]; simpl; intros s v s' v' Hnd Hfresh H.
  - inversion H; subst. repeat split; try lia; tauto.
  - apply List.NoDup_cons_iff in Hnd as [Hc Hnd].
    apply IH in H; [|exact Hnd|].
    + destruct H as (Hv & Hs & Ho).
      rewrite sum_coins_insert_fresh in Hs by (apply Hfresh; auto).
      repeat split; try lia.
      * intros H. apply Ho in H. rewrite coinset_insert_outpoints in H.
        destruct H as [[->|H]|H]; auto.
      * intros H. apply Ho. rewrite coinset_insert_outpoints.
        destruct H as [H|[<-|H]]; auto.
    + intros c' Hc'. unfold coin_in. rewrite coinset_insert_outpoints.
      intros [Heq|Hin].
      * apply Hc. rewrite <- Heq. apply in_map. exact Hc'.
      * apply (Hfresh c'); [auto|exact Hin].
Qed.

Lemma insert_best_insert_all vValue : forall vf s v,
  insert_best vValue vf s v = insert_all (selected vValue vf) s v.
Proof.
  induction vValue as [|c vs IH]; intros [|b bs] s v; simpl; try reflexivity.
  destruct b; simpl; apply IH.
Qed.

Lemma selected_In l : forall vf c, In c (selected l vf) -> In c l.
Proof.
  induction l as [|x l IH]; intros [|b bs] c; simpl; try tauto.
  destruct b; simpl; intros H; [destruct H as [H|H]|]; eauto.
Qed.

Lemma selected_NoDup l : forall vf,
  List.NoDup (List.map outpoint l) -> List.NoDup (List.map outpoint (selected l vf)).
Proof.
  induction l as [|x l IH]; intros [|b bs] Hnd; simpl; try constructor.
  apply List.NoDup_cons_iff in Hnd as [Hx Hnd].
  destruct b; simpl; [|apply IH; exact Hnd].
  constructor; [|apply IH; exact Hnd].
  intros Hin. apply Hx. apply in_map_iff in Hin. destruct Hin as (c & Hc & Hin).
  apply in_map_iff. exists c. split; [exact Hc|]. eapply selected_In. exact Hin.
Qed.

Lemma sort_descending_Permutation l : Permutation (sort_descending l) l.
Proof.
  unfold sort_descending. rewrite <- Permutation_rev. apply merge_sort_Permutation.
Qed.

Lemma candidate_of_outpoint E w m t a o c :
  candidate_of E w m t a o = Ret (Some c) -> outpoint c = out_outpoint o.
Proof.
  unfold candidate_of. destruct (negb (fSpendable o)); [discriminate|].
  destruct (IsFromMe E w (out_tx o) ISMINE_ALL) as [fromMe| | | |]; simpl; try discriminate.
  destruct (nDepth o <? _); [discriminate|].
  destruct (negb _); [discriminate|].
  unfold CInputCoin_of. destruct (vout (tx (out_tx o)) !! N.to_nat (out_i o));
    simpl; [|discriminate].
  intros H. inversion H. reflexivity.
Qed.

Section ScanSound.

Variable E : Externals.
Variables (w : CWallet) (nTargetValue : CAmount) (nConfMine nConfTheirs : Z)
          (nMaxAncestors : N).

Local Abbreviation scan :=
  (SelectCoinsMinConf_scan E w nTargetValue nConfMine nConfTheirs nMaxAncestors).

Lemma scan_sound l : forall low vValue total res,
  List.NoDup (List.map out_outpoint l) ->
  scan l low vValue total = Ret res ->
  match res with
  | ExactMatch c =>
      coin_value c = nTargetValue /\ In (outpoint c) (List.map out_outpoint l)
  | Scanned low' vValue' total' =>
      exists small,
        vValue' = vValue ++ small /\
        total' = total + sum_coins small /\
        List.NoDup (List.map outpoint small) /\
        (forall c, In c small -> In (outpoint c) (List.map out_outpoint l)) /\
        (low' = low \/
         exists c, low' = Some c /\ nTargetValue + MIN_CHANGE E <= coin_value c /\
                   In (outpoint c) (List.map out_outpoint l))
  end.
Proof.
  induction l as [|o l IH]; intros low vValue total res Hnd H.
  - simpl in H. inversion H; subst. exists []. rewrite app_nil_r. simpl.
    split; [reflexivity|]. split; [lia|]. split; [constructor|].
    split; [intros c []|]. left. reflexivity.
  - rewrite scan_cons in H. apply bind_Ret_inv in H. destruct H as (x & Hx & H).
    simpl in Hnd. apply List.NoDup_cons_iff in Hnd as [Ho Hnd].
    assert (Hweak : forall res',
               match res' with
               | ExactMatch c =>
                   coin_value c = nTargetValue /\ In (outpoint c) (List.map out_outpoint l)
               | Scanned _ _ _ => True
               end ->
               match res' with
               | ExactMatch c =>
                   coin_value c = nTargetValue /\
                   In (outpoint c) (List.map out_outpoint (o :: l))
               | Scanned _ _ _ => True
               end).
    { intros [c| ? ? ?]; simpl; tauto. }
    destruct x as [coin|].
    + pose proof (candidate_of_outpoint _ _ _ _ _ _ _ Hx) as Hop.
      destruct (Z.eqb_spec (coin_value coin) nTargetValue) as [Heq|Hne].
      * inversion H; subst. simpl. auto.
      * destruct (Z.ltb_spec (coin_value coin) (nTargetValue + MIN_CHANGE E)) as [Hlt|Hge].
        -- apply IH in H; [|exact Hnd]. destruct res as [c|low' vValue' total'].
           ++ simpl. tauto.
           ++ destruct H as (small & Hv & Ht & Hsn & Hin & Hlow).
              exists (coin :: small). rewrite <- app_assoc in Hv. simpl in *.
              split; [exact Hv|]. split; [lia|]. split.
              ** constructor; [|exact Hsn]. intros Hc. apply Ho. rewrite <- Hop.
                 apply in_map_iff in Hc. destruct Hc as (c & Hc1 & Hc2).
                 rewrite <- Hc1. apply Hin. exact Hc2.
              ** split.
                 --- intros c [<-|Hc]; [left; auto|right; apply Hin; exact Hc].
                 --- destruct Hlow as [Hlow|(c & Hc1 & Hc2 & Hc3)]; [auto|].
                     right. exists c. auto.
        -- apply IH in H; [|exact Hnd]. destruct res as [c|low' vValue' total'].
           ++ simpl. tauto.
           ++ destruct H as (small & Hv & Ht & Hsn & Hin & Hlow).
              exists small. simpl. repeat split; auto.
              destruct Hlow as [Hlow|(c & Hc1 & Hc2 & Hc3)].
              ** subst low'. unfold pick_lower. destruct low as [lowest|].
                 --- destruct (coin_value coin <? coin_value lowest); [|auto].
                     right. exists coin. auto.
                 --- right. exists coin. auto.
              ** right. exists c. auto.
    + apply IH in H; [|exact Hnd]. destruct res as [c|low' vValue' total'].
      * simpl. tauto.
      * destruct H as (small & Hv & Ht & Hsn & Hin & Hlow).
        exists small. simpl. repeat split; auto.
        destruct Hlow as [Hlow|(c & Hc1 & Hc2 & Hc3)]; [auto|].
        right. exists c. auto.
Qed.

End ScanSound.

Lemma SelectCoinsMinConf_sound E w nTargetValue nConfMine nConfTheirs nMaxAncestors
      vCoins setCoinsRet nValueRet r s v r' :
  0 <= MIN_CHANGE E ->
  List.NoDup (List.map out_outpoint vCoins) ->
  SelectCoinsMinConf E w nTargetValue nConfMine nConfTheirs nMaxAncestors vCoins
                     setCoinsRet nValueRet r = Ret (true, s, v, r') ->
  v = sum_coins s /\ nTargetValue <= v /\
  forall o, In o (List.map outpoint s) -> In o (List.map out_outpoint vCoins).
Proof.
  intros Hmc Hnd. unfold SelectCoinsMinConf.
  pose proof (random_shuffle_Permutation vCoins r) as Hperm.
  destruct (random_shuffle vCoins r) as [vCoins' r1]. simpl in Hperm.
  assert (Hnd' : List.NoDup (List.map out_outpoint vCoins')).
  { eapply Permutation_NoDup; [|exact Hnd]. apply Permutation_map. symmetry. exact Hperm. }
  assert (Hback : forall o, In o (List.map out_outpoint vCoins') ->
                            In o (List.map out_outpoint vCoins)).
  { intros o. apply Permutation_in. apply Permutation_map. exact Hperm. }
  intros H. apply bind_Ret_inv in H. destruct H as (res & Hscan & H).
  apply scan_sound in Hscan; [|exact Hnd'].
  destruct res as [coin|low vValue total].
  - destruct Hscan as [Hv Hin]. inversion H; subst. simpl.
    repeat split; try lia. intros o [<-|[]]. auto.
  - destruct Hscan as (small & Hv & Ht & Hsn & Hin & Hlow). simpl in Hv. subst vValue.
    rewrite Z.add_0_l in Ht. subst total.
    assert (Hlowc : forall c, low = Some c ->
                              nTargetValue + MIN_CHANGE E <= coin_value c /\
                              In (outpoint c) (List.map out_outpoint vCoins)).
    { intros c Hc. destruct Hlow as [Hlow|(c' & Hc1 & Hc2 & Hc3)]; [congruence|].
      rewrite Hc in Hc1. inversion Hc1; subst. auto. }
    assert (Hall : forall l s0 v0,
               List.NoDup (List.map outpoint l) ->
               (forall c, In c l -> In (outpoint c) (List.map out_outpoint vCoins)) ->
               insert_all l [] 0 = (s0, v0) ->
               v0 = sum_coins s0 /\ v0 = sum_coins l /\
               forall o, In o (List.map outpoint s0) ->
                         In o (List.map out_outpoint vCoins)).
    { intros l s0 v0 Hl Hlin Hi. apply insert_all_sound in Hi; [|exact Hl|intros c _ []].
      destruct Hi as (Hv0 & Hs0 & Ho0). simpl in *. repeat split; try lia.
      intros o Ho. apply Ho0 in Ho. destruct Ho as [[]|Ho].
      apply in_map_iff in Ho. destruct Ho as (c & <- & Hc). apply Hlin. exact Hc. }
    destruct (Z.eqb_spec (sum_coins small) nTargetValue) as [Heq|Hne].
    + destruct (insert_all small [] 0) as [s0 v0] eqn:Hi. inversion H; subst.
      destruct (Hall small s v Hsn (fun c Hc => Hback _ (Hin c Hc)) Hi) as (H1 & H2 & H3).
      repeat split; auto. lia.
    + destruct (Z.ltb_spec (sum_coins small) nTargetValue) as [Hlt|Hge].
      * destruct low as [lowest|]; [|discriminate]. inversion H; subst.
        destruct (Hlowc lowest eq_refl) as [Hval Hlin]. simpl.
        repeat split; try lia. intros o [<-|[]]. exact Hlin.
      * pose proof (sort_descending_Permutation small) as Hsort.
        set (sorted := sort_descending small) in *.
        assert (Hsum : sum_coins sorted = sum_coins small)
          by (apply sum_coins_Permutation; exact Hsort).
        assert (Hsnd : List.NoDup (List.map outpoint sorted)).
        { eapply Permutation_NoDup; [|exact Hsn]. apply Permutation_map.
          symmetry. exact Hsort. }
        assert (Hsin : forall c, In c sorted ->
                                 In (outpoint c) (List.map out_outpoint vCoins)).
        { intros c Hc. apply Hback, Hin. eapply Permutation_in; [exact Hsort|exact Hc]. }
        assert (Hbestcase : forall vfBest s0 v0,
                   nTargetValue <= sum_coins (selected sorted vfBest) ->
                   insert_best sorted vfBest [] 0 = (s0, v0) ->
                   v0 = sum_coins s0 /\ nTargetValue <= v0 /\
                   forall o, In o (List.map outpoint s0) ->
                             In o (List.map out_outpoint vCoins)).
        { intros vfBest s0 v0 Hgeb Hi. rewrite insert_best_insert_all in Hi.
          destruct (Hall (selected sorted vfBest) s0 v0) as (H1 & H2 & H3); auto.
          - apply selected_NoDup. exact Hsnd.
          - intros c Hc. apply Hsin. eapply selected_In. exact Hc.
          - repeat split; auto. lia. }
        assert (Hlowcase : forall lowest,
                   low = Some lowest ->
                   coin_value lowest = sum_coins [lowest] /\
                   nTargetValue <= coin_value lowest /\
                   forall o, In o (List.map outpoint [lowest]) ->
                             In o (List.map out_outpoint vCoins)).
        { intros lowest Hl. destruct (Hlowc lowest Hl) as [Hval Hlin]. simpl.
          repeat split; try lia. intros o [<-|[]]. exact Hlin. }
        pose proof (ApproximateBestSubset_inv sorted (sum_coins small) nTargetValue r1
                      (eq_sym Hsum)) as Hinv1.
        destruct (ApproximateBestSubset sorted (sum_coins small) nTargetValue r1)
          as [[vfBest1 nBest1] r2]. simpl in Hinv1.
        destruct Hinv1 as (Hlen1 & Hbest1 & Hge1); [lia|].
        destruct (negb (nBest1 =? nTargetValue)
                  && (nTargetValue + MIN_CHANGE E <=? sum_coins small)) eqn:Hc.
        -- apply andb_true_iff in Hc as [_ Hc]. apply Z.leb_le in Hc.
           pose proof (ApproximateBestSubset_inv sorted (sum_coins small)
                         (nTargetValue + MIN_CHANGE E) r2 (eq_sym Hsum) Hc) as Hinv2.
           destruct (ApproximateBestSubset sorted (sum_coins small)
                       (nTargetValue + MIN_CHANGE E) r2) as [[vfBest2 nBest2] r3].
           simpl in Hinv2. destruct Hinv2 as (_ & Hb2 & Hg2).
           destruct low as [lowest|].
           ++ destruct (_ || _).
              ** inversion H; subst. rewrite Z.add_0_l. apply Hlowcase. reflexivity.
              ** destruct (insert_best sorted vfBest2 [] 0) as [s0 v0] eqn:Hi.
                 inversion H; subst. apply (Hbestcase vfBest2); [lia|exact Hi].
           ++ destruct (insert_best sorted vfBest2 [] 0) as [s0 v0] eqn:Hi.
              inversion H; subst. apply (Hbestcase vfBest2); [lia|exact Hi].
        -- destruct low as [lowest|].
           ++ destruct (_ || _).
              ** inversion H; subst. rewrite Z.add_0_l. apply Hlowcase. reflexivity.
              ** destruct (insert_best sorted vfBest1 [] 0) as [s0 v0] eqn:Hi.
                 inversion H; subst. apply (Hbestcase vfBest1); [lia|exact Hi].
           ++ destruct (insert_best sorted vfBest1 [] 0) as [s0 v0] eqn:Hi.
              inversion H; subst. apply (Hbestcase vfBest1); [lia|exact Hi].
Qed.

(** ** Soundness of [SelectCoins] *)

Lemma CInputCoin_of_inv pcoin i c :
  CInputCoin_of pcoin i = Ret c ->
  exists o, vout (tx pcoin) !! N.to_nat i = Some o /\
            c = mkInputCoin (mkOutPoint (GetHash pcoin) i) o.
Proof.
  unfold CInputCoin_of. destruct (vout (tx pcoin) !! N.to_nat i) as [o|]; [|discriminate].
  intros H. inversion H. eauto.
Qed.

Lemma SelectCoins_preselected_sound B nCoinType l : forall s0 v0 s v,
  List.NoDup (List.map out_outpoint l) ->
  (forall o, In o l -> ~ In (out_outpoint o) (List.map outpoint s0)) ->
  SelectCoins_preselected B nCoinType l s0 v0 = Ret (s, v) ->
  v - v0 = sum_coins s - sum_coins s0.
Proof.
  induction l as [|out l IH]; simpl; intros s0 v0 s v Hnd Hfresh H.
  - inversion H. lia.
  - apply List.NoDup_cons_iff in Hnd as [Ho Hnd].
    assert (Hskip : SelectCoins_preselected B nCoinType l s0 v0 = Ret (s, v) ->
                    v - v0 = sum_coins s - sum_coins s0).
    { intros H'. eapply IH; eauto. }
    destruct (negb (fSpendable out)); [auto|].
    destruct (_ && _); [auto|].
    destruct (vout (tx (out_tx out)) !! N.to_nat (out_i out)) as [o|] eqn:Hout;
      [|discriminate].
    apply bind_Ret_inv in H. destruct H as (coin & Hcoin & H).
    apply CInputCoin_of_inv in Hcoin. destruct Hcoin as (o' & Ho' & ->).
    rewrite Hout in Ho'. inversion Ho'; subst o'.
    apply IH in H; [| exact Hnd |].
    + rewrite sum_coins_insert_fresh in H.
      * unfold coin_value in H. simpl in H. lia.
      * unfold coin_in. simpl. apply Hfresh. left. reflexivity.
    + intros o2 Ho2. rewrite coinset_insert_outpoints. simpl.
      intros [Heq|Hin].
      * apply Ho. change (In (out_outpoint out) (List.map out_outpoint l)).
        unfold out_outpoint at 1. rewrite <- Heq. apply in_map. exact Ho2.
      * apply (Hfresh o2); [right; exact Ho2|exact Hin].
Qed.

Lemma SelectCoins_presets_sound w l : forall ps0 pv0 ps pv,
  wallet_consistent w ->
  List.NoDup l ->
  List.NoDup (List.map outpoint ps0) ->
  (forall op, In op l -> ~ In op (List.map outpoint ps0)) ->
  SelectCoins_presets w l ps0 pv0 = Ret (Some (ps, pv)) ->
  pv - pv0 = sum_coins ps - sum_coins ps0 /\
  List.NoDup (List.map outpoint ps) /\
  (forall op, In op (List.map outpoint ps) <-> In op (List.map outpoint ps0) \/ In op l).
Proof.
  induction l as [|op l IH]; simpl; intros ps0 pv0 ps pv Hcons Hnd Hnd0 Hfresh H.
  - inversion H; subst. repeat split; auto; try lia; tauto.
  - apply List.NoDup_cons_iff in Hnd as [Hop Hnd].
    destruct (mapWallet w !! op_hash op) as [pcoin|] eqn:Hw; [|discriminate].
    destruct (vout (tx pcoin) !! N.to_nat (op_n op)) as [o|] eqn:Hout; [|discriminate].
    apply bind_Ret_inv in H. destruct H as (coin & Hcoin & H).
    apply CInputCoin_of_inv in Hcoin. destruct Hcoin as (o' & Ho' & ->).
    rewrite Hout in Ho'. inversion Ho'; subst o'.
    rewrite (Hcons _ _ Hw) in H.
    assert (Hopeq : mkOutPoint (op_hash op) (op_n op) = op) by (destruct op; reflexivity).
    rewrite Hopeq in H.
    assert (Hf : ~ coin_in (mkInputCoin op o) ps0)
      by (unfold coin_in; simpl; apply Hfresh; auto).
    apply IH in H; auto.
    + destruct H as (Hv & Hn & Hiff).
      rewrite sum_coins_insert_fresh in Hv by exact Hf.
      unfold coin_value in Hv. simpl in Hv. split; [lia|]. split; [exact Hn|].
      intros op'. rewrite Hiff, coinset_insert_outpoints. simpl.
      split; intros [H|H]; auto; destruct H as [H|H]; auto.
    + eapply Permutation_NoDup;
        [apply Permutation_map; symmetry; apply (coinset_insert_fresh _ _ Hf)|].
      simpl. constructor; [|exact Hnd0]. apply Hfresh. auto.
    + intros op' Hop'. rewrite coinset_insert_outpoints. simpl.
      intros [Heq|Hin]; [subst; contradiction|].
      apply (Hfresh op'); auto.
Qed.

Lemma coinset_count_In c s : coinset_count c s = true <-> coin_in c s.
Proof.
  unfold coinset_count, coin_in. rewrite existsb_exists. split.
  - intros (y & Hy & Heq). apply outpoint_eqb_eq in Heq. rewrite Heq.
    apply in_map. exact Hy.
  - intros H. apply in_map_iff in H. destruct H as (y & Heq & Hy).
    exists y. split; [exact Hy|]. apply outpoint_eqb_eq. congruence.
Qed.

Lemma remove_presets_sound ps l : forall l',
  List.NoDup (List.map out_outpoint l) ->
  remove_presets ps l = Ret l' ->
  List.NoDup (List.map out_outpoint l') /\
  forall op, In op (List.map out_outpoint l') ->
             In op (List.map out_outpoint l) /\ ~ In op (List.map outpoint ps).
Proof.
  induction l as [|it l IH]; simpl; intros l' Hnd H.
  - inversion H; subst. split; [constructor|intros op []].
  - apply List.NoDup_cons_iff in Hnd as [Hit Hnd].
    apply bind_Ret_inv in H. destruct H as (coin & Hcoin & H).
    apply bind_Ret_inv in H. destruct H as (rest' & Hrest & H).
    apply CInputCoin_of_inv in Hcoin. destruct Hcoin as (o & Ho & ->).
    destruct (IH rest' Hnd Hrest) as [Hnd' Hsub].
    destruct (coinset_count _ ps) eqn:Hc; inversion H; subst.
    + split; [exact Hnd'|]. intros op Hop. destruct (Hsub op Hop). auto.
    + assert (Hn : ~ In (out_outpoint it) (List.map outpoint ps)).
      { intros Hin. assert (coinset_count
                              (mkInputCoin (mkOutPoint (GetHash (out_tx it)) (out_i it)) o)
                              ps = true) by (apply coinset_count_In; exact Hin).
        congruence. }
      simpl. split.
      * constructor; [|exact Hnd']. intros Hin. apply Hit. apply (Hsub _ Hin).
      * intros op [<-|Hop]; [auto|]. destruct (Hsub op Hop). auto.
Qed.

Lemma fold_coinset_insert_sound ps : forall s,
  List.NoDup (List.map outpoint ps) ->
  (forall c, In c ps -> ~ coin_in c s) ->
  sum_coins (fold_left (fun s c => coinset_insert c s) ps s) = sum_coins s + sum_coins ps.
Proof.
  induction ps as [|c ps IH]; simpl; intros s Hnd Hfresh; [lia|].
  apply List.NoDup_cons_iff in Hnd as [Hc Hnd].
  rewrite IH; [|exact Hnd|].
  - rewrite sum_coins_insert_fresh by (apply Hfresh; auto). lia.
  - intros c' Hc'. unfold coin_in. rewrite coinset_insert_outpoints.
    intros [Heq|Hin].
    + apply Hc. rewrite <- Heq. apply in_map. exact Hc'.
    + apply (Hfresh c'); auto.
Qed.

Lemma ListSelected_NoDup cc : List.NoDup (ListSelected cc).
Proof.
  unfold ListSelected. apply NoDup_ListNoDup.
  rewrite merge_sort_Permutation. apply NoDup_elements.
Qed.

Lemma ListSelected_empty cc : HasSelected cc = false -> ListSelected cc = [].
Proof.
  unfold HasSelected, ListSelected. intros H.
  apply bool_decide_eq_false in H.
  assert (Hempty : setSelected cc = ∅)
    by (destruct (decide (setSelected cc = ∅)); [assumption|contradiction]).
  rewrite Hempty, elements_empty. reflexivity.
Qed.

Section TierSound.

Variables (E : Externals) (w : CWallet) (target : CAmount) (vCoins : list COutput).
Hypothesis Hmc : 0 <= MIN_CHANGE E.
Hypothesis Hnd : List.NoDup (List.map out_outpoint vCoins).

Lemma tier_sound enabled nConfMine nConfTheirs nMaxAncestors prev t :
  tier_good target vCoins prev ->
  tier E enabled w target nConfMine nConfTheirs nMaxAncestors vCoins prev = Ret t ->
  tier_good target vCoins t.
Proof.
  destruct prev as [[[res s] v] r]. unfold tier. intros Hprev.
  destruct res; [intros H; inversion H; subst; exact Hprev|].
  destruct enabled; [|intros H; inversion H; subst; exact Hprev].
  destruct t as [[[res' s'] v'] r']. intros H. unfold tier_good.
  intros ->. eapply SelectCoinsMinConf_sound; eauto.
Qed.

End TierSound.

Lemma NoDup_map_inj {A B : Type} (f : A -> B) (l : list A) a b :
  List.NoDup (List.map f l) -> In a l -> In b l -> f a = f b -> a = b.
Proof.
  induction l as [|x l IH]; simpl; intros Hnd Ha Hb Hf; [contradiction|].
  apply List.NoDup_cons_iff in Hnd as [Hx Hnd].
  destruct Ha as [->|Ha], Hb as [->|Hb]; auto.
  - exfalso. apply Hx. rewrite Hf. apply in_map. exact Hb.
  - exfalso. apply Hx. rewrite <- Hf. apply in_map. exact Ha.
Qed.

Lemma In_coinset_insert c s x :
  In x (coinset_insert c s) -> x = c \/ In x s.
Proof.
  induction s as [|y s IH]; simpl.
  - intros [<-|[]]. left. reflexivity.
  - destruct (outpoint_ltb (outpoint c) (outpoint y)); simpl.
    { intros [<-|H]; [left; reflexivity|right; exact H]. }
    destruct (outpoint_eqb (outpoint c) (outpoint y)); simpl.
    { intros H; right; exact H. }
    intros [<-|H]; [right; left; reflexivity|].
    destruct (IH H) as [->|H']; [left; reflexivity|right; right; exact H'].
Qed.

Section DenominatedSound.

Variables (B : BuilderEnv) (vCoins : list COutput).
Hypothesis Hnd : List.NoDup (List.map out_outpoint vCoins).

Lemma SelectCoins_denom_inner_sound d T sm D l : forall s0 v0 s v,
  In d D ->
  List.NoDup (List.map out_outpoint l) ->
  incl l vCoins ->
  (forall out o, In out l -> vout (tx (out_tx out)) !! N.to_nat (out_i out) = Some o ->
                 nValue o = d -> ~ In (out_outpoint out) (List.map outpoint s0)) ->
  denominated_from vCoins D s0 ->
  SelectCoins_denom_inner B d T sm l s0 v0 = Ret (s, v) ->
  v - v0 = sum_coins s - sum_coins s0 /\ denominated_from vCoins D s.
Proof.
  induction l as [|out l IH]; simpl; intros s0 v0 s v Hd Hndl Hincl Hfresh Hinv H.
  - inversion H; subst. split; [lia|exact Hinv].
  - apply List.NoDup_cons_iff in Hndl as [Hout Hndl].
    assert (Hincl' : incl l vCoins) by (intros x Hx; apply Hincl; right; exact Hx).
    assert (Hskip : SelectCoins_denom_inner B d T sm l s0 v0 = Ret (s, v) ->
                    v - v0 = sum_coins s - sum_coins s0 /\ denominated_from vCoins D s).
    { intros H'. eapply IH; eauto. }
    destruct (vout (tx (out_tx out)) !! N.to_nat (out_i out)) as [o|] eqn:Hvout;
      [|discriminate].
    destruct ((nValue o =? d) && _) eqn:Hc; [|auto].
    destruct (_ <? nPrivateSendRounds B); [auto|].
    apply andb_true_iff in Hc. destruct Hc as [Hval _]. apply Z.eqb_eq in Hval.
    apply bind_Ret_inv in H. destruct H as (coin & Hcoin & H).
    apply CInputCoin_of_inv in Hcoin. destruct Hcoin as (o' & Ho' & ->).
    rewrite Hvout in Ho'. inversion Ho'; subst o'.
    assert (Hf : ~ coin_in (mkInputCoin (mkOutPoint (GetHash (out_tx out)) (out_i out)) o) s0).
    { unfold coin_in. simpl. apply (Hfresh out o); auto. }
    apply IH in H; auto.
    + destruct H as [Hv Hinv']. split; [|exact Hinv'].
      rewrite sum_coins_insert_fresh in Hv by exact Hf.
      unfold coin_value in Hv. simpl in Hv. lia.
    + intros out' o' Hin' Hvout' Hval'. rewrite coinset_insert_outpoints. simpl.
      intros [Heq|Hin].
      * apply Hout. change (In (out_outpoint out) (List.map out_outpoint l)).
        unfold out_outpoint at 1. rewrite <- Heq. apply in_map. exact Hin'.
      * apply (Hfresh out' o'); auto.
    + intros c Hc. apply In_coinset_insert in Hc. destruct Hc as [->|Hc]; [|auto].
      exists out, o. split; [apply Hincl; left; reflexivity|].
      split; [reflexivity|]. split; [exact Hvout|]. rewrite Hval. exact Hd.
Qed.

Lemma denominated_from_mono D D' s :
  incl D D' -> denominated_from vCoins D s -> denominated_from vCoins D' s.
Proof.
  intros Hincl H c Hc. destruct (H c Hc) as (out & o & H1 & H2 & H3 & H4).
  exists out, o. auto.
Qed.

Lemma SelectCoins_denom_sound T sm denoms : forall D s0 v0 s v,
  List.NoDup denoms ->
  (forall d, In d denoms -> ~ In d D) ->
  denominated_from vCoins D s0 ->
  SelectCoins_denom B denoms T sm vCoins s0 v0 = Ret (s, v) ->
  v - v0 = sum_coins s - sum_coins s0.
Proof.
  induction denoms as [|d denoms IH]; simpl; intros D s0 v0 s v Hndd Hnew Hinv H.
  - inversion H. lia.
  - apply List.NoDup_cons_iff in Hndd as [Hd Hndd].
    apply bind_Ret_inv in H. destruct H as ([s1 v1] & Hinner & H).
    apply (SelectCoins_denom_inner_sound d T sm (d :: D)) in Hinner.
    + destruct Hinner as [Hv1 Hinv1].
      apply (IH (d :: D)) in H; [lia|exact Hndd| |exact Hinv1].
      intros d' Hd' [<-|Hin]; [contradiction|]. apply (Hnew d'); auto.
    + left. reflexivity.
    + exact Hnd.
    + intros x Hx. exact Hx.
    + intros out o Hin Hvout Hval Hop.
      apply in_map_iff in Hop. destruct Hop as (c & Hc & Hcin).
      destruct (Hinv c Hcin) as (out' & o' & Hin' & Hop' & Hvout' & Hval').
      assert (out' = out).
      { apply (NoDup_map_inj out_outpoint vCoins); auto. congruence. }
      subst out'. rewrite Hvout in Hvout'. inversion Hvout'; subst o'.
      apply (Hnew d); [left; reflexivity|]. rewrite <- Hval. exact Hval'.
    + eapply denominated_from_mono; [|exact Hinv]. intros x Hx. right. exact Hx.
Qed.

End DenominatedSound.

Lemma SelectCoins_sound E B w vAvailableCoins nTargetValue coinControl nCoinType r s v r' :
  0 <= MIN_CHANGE E ->
  List.NoDup (List.map out_outpoint vAvailableCoins) ->
  wallet_consistent w ->
  List.NoDup (vecPrivateSendDenominations B) ->
  SelectCoins E B w vAvailableCoins nTargetValue [] 0 coinControl nCoinType r
  = Ret (true, s, v, r') ->
  v = sum_coins s /\ nTargetValue <= v.
Proof.
  intros Hmc Hnd Hcons Hden. unfold SelectCoins.
  set (hasSelected := match coinControl with Some cc => HasSelected cc | None => false end).
  destruct (hasSelected && negb _) eqn:Hpre.
  - (* every candidate is taken *)
    intros H. apply bind_Ret_inv in H. destruct H as ([s0 v0] & Hsel & H).
    inversion H; subst.
    apply SelectCoins_preselected_sound in Hsel; [|exact Hnd|intros o _ []].
    simpl in Hsel. split; [lia|]. apply Z.leb_le. assumption.
  - destruct (bool_decide (nCoinType = ONLY_DENOMINATED)).
    { destruct (last (vecPrivateSendDenominations B)) as [sm|]; [|discriminate].
      intros H. apply bind_Ret_inv in H. destruct H as ([s0 v0] & Hsel & H).
      inversion H; subst.
      apply (SelectCoins_denom_sound B vAvailableCoins Hnd _ _ _ []) in Hsel;
        [|exact Hden|intros d _ []|intros c []].
      simpl in Hsel. split; [lia|]. apply Z.leb_le. assumption. }
    intros H. apply bind_Ret_inv in H. destruct H as (presets & Hpresets & H).
    destruct presets as [[ps pv]|]; [|discriminate].
    apply SelectCoins_presets_sound in Hpresets;
      [ | exact Hcons
        | destruct coinControl; [apply ListSelected_NoDup|constructor]
        | constructor | intros op _ [] ].
    destruct Hpresets as (Hpv & Hpnd & Hpiff). simpl in Hpv.
    apply bind_Ret_inv in H. destruct H as (vCoins & HvCoins & H).
    assert (HvC : List.NoDup (List.map out_outpoint vCoins) /\
                  forall op, In op (List.map out_outpoint vCoins) ->
                             ~ In op (List.map outpoint ps)).
    { destruct hasSelected eqn:Hhas.
      - apply remove_presets_sound in HvCoins; [|exact Hnd].
        destruct HvCoins as [H1 H2]. split; [exact H1|]. intros op Hop. apply (H2 op Hop).
      - inversion HvCoins; subst. split; [exact Hnd|].
        intros op _ Hin. apply Hpiff in Hin. destruct Hin as [[]|Hin].
        destruct coinControl as [cc|]; [|exact Hin].
        subst hasSelected. rewrite (ListSelected_empty cc Hhas) in Hin. exact Hin. }
    destruct HvC as [HvCnd HvCdis].
    set (tg := tier_good (nTargetValue - pv) vCoins).
    apply bind_Ret_inv in H. destruct H as (t0 & Ht0 & H).
    assert (G0 : tg t0).
    { inversion Ht0; subst. unfold tg, tier_good. intros Hle. apply Z.leb_le in Hle.
      simpl. split; [reflexivity|]. split; [lia|]. intros o []. }
    apply bind_Ret_inv in H. destruct H as (t1 & Ht1 & H).
    pose proof (tier_sound E w _ vCoins Hmc HvCnd _ _ _ _ _ _ G0 Ht1) as G1.
    apply bind_Ret_inv in H. destruct H as (t2 & Ht2 & H).
    pose proof (tier_sound E w _ vCoins Hmc HvCnd _ _ _ _ _ _ G1 Ht2) as G2.
    apply bind_Ret_inv in H. destruct H as (t3 & Ht3 & H).
    pose proof (tier_sound E w _ vCoins Hmc HvCnd _ _ _ _ _ _ G2 Ht3) as G3.
    apply bind_Ret_inv in H. destruct H as (t4 & Ht4 & H).
    pose proof (tier_sound E w _ vCoins Hmc HvCnd _ _ _ _ _ _ G3 Ht4) as G4.
    apply bind_Ret_inv in H. destruct H as (t5 & Ht5 & H).
    pose proof (tier_sound E w _ vCoins Hmc HvCnd _ _ _ _ _ _ G4 Ht5) as G5.
    apply bind_Ret_inv in H. destruct H as (t6 & Ht6 & H).
    pose proof (tier_sound E w _ vCoins Hmc HvCnd _ _ _ _ _ _ G5 Ht6) as G6.
    apply bind_Ret_inv in H. destruct H as (t7 & Ht7 & H).
    pose proof (tier_sound E w _ vCoins Hmc HvCnd _ _ _ _ _ _ G6 Ht7) as G7.
    destruct t7 as [[[res7 s7] v7] r7]. inversion H; subst.
    destruct (G7 eq_refl) as (Hv7 & Hle7 & Hin7).
    rewrite fold_coinset_insert_sound.
    + split; lia.
    + exact Hpnd.
    + intros c Hc Hin. apply Hin7 in Hin. apply (HvCdis _ Hin).
      apply in_map. exact Hc.
Qed.

(** ** Conservation in [CreateTransaction] *)

Lemma sum_values_app l1 l2 : sum_values (l1 ++ l2) = sum_values l1 + sum_values l2.
Proof. induction l1 as [|o l1 IH]; simpl; [reflexivity|]. rewrite IH. lia. Qed.

Lemma sum_values_vout_insert pos o l :
  sum_values (vout_insert pos o l) = nValue o + sum_values l.
Proof.
  unfold vout_insert. rewrite sum_values_app. simpl.
  rewrite <- (take_drop pos l) at 3. rewrite sum_values_app. lia.
Qed.

Lemma sum_values_list_insert l : forall i o o0,
  l !! i = Some o0 ->
  sum_values (<[i := o]> l) = sum_values l - nValue o0 + nValue o.
Proof.
  induction l as [|x l IH]; intros [|i] o o0 H; try discriminate.
  - inversion H; subst. simpl. lia.
  - simpl in H. simpl. rewrite (IH _ _ _ H). lia.
Qed.

Lemma count_subtract_nonneg vecSend : 0 <= count_subtract vecSend.
Proof.
  induction vecSend as [|x l IH]; simpl; [lia|].
  destruct (fSubtractFeeFromAmount x); lia.
Qed.

Lemma sum_recipients_spec vecSend : forall v0 n0 v n,
  sum_recipients vecSend v0 n0 = Some (v, n) ->
  v = v0 + total_amount vecSend /\ n = n0 + count_subtract vecSend.
Proof.
  induction vecSend as [|x l IH]; simpl; intros v0 n0 v n H.
  - inversion H. lia.
  - destruct (_ || _); [discriminate|].
    apply IH in H. destruct (fSubtractFeeFromAmount x); lia.
Qed.

Lemma first_subtract_Some vecSend : forall i,
  0 < count_subtract vecSend -> first_subtract vecSend i <> None.
Proof.
  induction vecSend as [|x l IH]; simpl; intros i H; [lia|].
  destruct (fSubtractFeeFromAmount x); [discriminate|]. apply IH. exact H.
Qed.

Lemma payee_outputs_sum B vecSend fee nSub : forall fFirst vout0 vout',
  payee_outputs B vecSend fee nSub fFirst vout0 = inl vout' ->
  sum_values vout' =
  sum_values vout0 + total_amount vecSend - count_subtract vecSend * Z.quot fee nSub
  - (if fFirst && (0 <? count_subtract vecSend) then Z.rem fee nSub else 0).
Proof.
  induction vecSend as [|x l IH]; simpl; intros fFirst vout0 vout' H.
  - inversion H. rewrite andb_false_r. lia.
  - pose proof (count_subtract_nonneg l) as Hc.
    destruct (fSubtractFeeFromAmount x).
    + destruct fFirst; simpl in H.
      * destruct (IsDust B _ dustRelayFee); [discriminate|].
        apply IH in H. rewrite H, sum_values_app. simpl.
        replace (0 <? count_subtract l + 1) with true by (symmetry; apply Z.ltb_lt; lia).
        lia.
      * destruct (IsDust B _ dustRelayFee); [discriminate|].
        apply IH in H. rewrite H, sum_values_app. simpl. lia.
    + simpl in H. destruct (IsDust B _ dustRelayFee); [discriminate|].
      apply IH in H. rewrite H, sum_values_app. simpl. lia.
Qed.

Lemma payee_outputs_total B vecSend fee nSub vout' :
  nSub = count_subtract vecSend ->
  payee_outputs B vecSend fee nSub true [] = inl vout' ->
  sum_values vout' + fee =
  (if nSub =? 0 then total_amount vecSend + fee else total_amount vecSend).
Proof.
  intros Hn H. apply payee_outputs_sum in H. rewrite H. simpl. rewrite <- Hn.
  pose proof (count_subtract_nonneg vecSend) as Hc. rewrite <- Hn in Hc.
  destruct (nSub =? 0) eqn:Hz.
  - apply Z.eqb_eq in Hz. subst nSub. rewrite Hz. simpl. lia.
  - apply Z.eqb_neq in Hz.
    replace (0 <? nSub) with true by (symmetry; apply Z.ltb_lt; lia).
    pose proof (Z.quot_rem' fee nSub). lia.
Qed.

Lemma payee_outputs_plain B vecSend fee vout' :
  count_subtract vecSend = 0 ->
  payee_outputs B vecSend fee 0 true [] = inl vout' ->
  sum_values vout' = total_amount vecSend.
Proof.
  intros Hn H. pose proof (payee_outputs_total B vecSend fee 0 vout' (eq_sym Hn) H) as Ht.
  simpl in Ht. lia.
Qed.

Section BuilderSound.

Variables (E : Externals) (B : BuilderEnv).

Hypothesis threshold_nonneg : forall o, 0 <= GetDustThreshold B o discard_rate.
Hypothesis min_change_nonneg : 0 <= MIN_CHANGE E.
Hypothesis denominations_distinct : List.NoDup (vecPrivateSendDenominations B).

Lemma add_change_sound vecSend coin_control nCoinType nSub nChange vout0 fee pos r pass
      vout' fee' pos' r' :
  (0 < nSub -> 0 < count_subtract vecSend) ->
  0 <= nChange ->
  add_change B vecSend coin_control nCoinType nSub nChange vout0 fee pos r pass
  = Ret (inl (vout', fee', pos', r')) ->
  sum_values vout' + fee' + unaccounted_raise B coin_control nCoinType nSub nChange pass
  = sum_values vout0 + fee + nChange /\
  (pos' = -1 -> nSub = 0 -> vout' = vout0).
Proof.
  intros Hsub Hch. unfold add_change, unaccounted_raise, change_script.
  destruct (0 <? nChange) eqn:Hpos.
  2:{ intros H. inversion H; subst. apply Z.ltb_ge in Hpos. simpl. split; [lia|auto]. }
  destruct (bool_decide (nCoinType = ONLY_DENOMINATED)) eqn:Hden.
  { intros H. inversion H; subst. simpl. split; [lia|auto]. }
  destruct (match destChange coin_control with
            | Some s => Some s | None => ReservedKey_in_pass B pass end) as [script|];
    [|discriminate].
  simpl negb. rewrite !andb_true_l.
  set (nDust := GetDustThreshold B (mkTxOut nChange script) minRelayTxFee - nChange).
  intros H. apply bind_Ret_inv in H. destruct H as (raised & Hraised & H).
  destruct raised as [[newTxOut vout1]|reason]; [|discriminate].
  destruct (0 <? nSub) eqn:Hn.
  - apply Z.ltb_lt in Hn. simpl in Hraised.
    destruct (CTxOut_IsDust B (mkTxOut nChange script)) eqn:Hdust.
    + destruct (first_subtract vecSend 0) as [i|] eqn:Hfirst.
      2:{ exfalso. apply (first_subtract_Some vecSend 0 (Hsub Hn)). exact Hfirst. }
      destruct (vout0 !! i) as [o|] eqn:Ho; [|discriminate].
      destruct (CTxOut_IsDust B (set_nValue _ o)); [discriminate|].
      inversion Hraised; subst newTxOut vout1. clear Hraised.
      unfold set_nValue at 1 2 in H. cbn [nValue scriptPubKey] in H. fold nDust in H.
      rewrite andb_true_l.
      destruct (CTxOut_IsDust B (mkTxOut (nChange + nDust) script)) eqn:Hdust2.
      * inversion H; subst. rewrite (sum_values_list_insert _ _ _ _ Ho). simpl.
        split; [lia|]. intros _ Hz. lia.
      * destruct (pos =? -1) eqn:Hp.
        { destruct (GetRandInt _ r) as [p r1]. inversion H; subst.
          rewrite sum_values_vout_insert, (sum_values_list_insert _ _ _ _ Ho). simpl.
          split; [lia|]. intros _ Hz. lia. }
        destruct (_ <? pos mod 2 ^ 32); [discriminate|].
        inversion H; subst.
        rewrite sum_values_vout_insert, (sum_values_list_insert _ _ _ _ Ho). simpl.
        split; [lia|]. intros _ Hz. lia.
    + inversion Hraised; subst newTxOut vout1. clear Hraised. rewrite Hdust in H.
      simpl.
      destruct (pos =? -1) eqn:Hp.
      { destruct (GetRandInt _ r) as [p r1]. inversion H; subst.
        rewrite sum_values_vout_insert. simpl. split; [lia|]. intros _ Hz. lia. }
      destruct (_ <? pos mod 2 ^ 32); [discriminate|].
      inversion H; subst. rewrite sum_values_vout_insert. simpl.
      split; [lia|]. intros _ Hz. lia.
  - simpl in Hraised. inversion Hraised; subst newTxOut vout1. clear Hraised.
    cbv iota.
    destruct (CTxOut_IsDust B (mkTxOut nChange script)) eqn:Hdust.
    { inversion H; subst. split; [lia|auto]. }
    destruct (pos =? -1) eqn:Hp.
    { destruct (GetRandInt _ r) as [p r1]. inversion H; subst.
      rewrite sum_values_vout_insert. simpl. split; [lia|]. lia. }
    apply Z.eqb_neq in Hp.
    destruct (_ <? pos mod 2 ^ 32); [discriminate|].
    inversion H; subst. rewrite sum_values_vout_insert. simpl.
    split; [lia|]. intros; contradiction.
Qed.

Lemma adjust_change_sound pos d vout0 vout' :
  adjust_change pos d vout0 = Ret vout' ->
  sum_values vout' = sum_values vout0 + d.
Proof.
  unfold adjust_change. destruct (pos <? 0); [discriminate|].
  destruct (vout0 !! Z.to_nat pos) as [o|] eqn:Ho; [|discriminate].
  intros H. inversion H; subst. rewrite (sum_values_list_insert _ _ _ _ Ho). simpl. lia.
Qed.

Lemma map_prevout_vin (nSequence' : N) (coins : list CInputCoin) :
  List.map prevout (List.map (fun coin => mkTxIn (outpoint coin) [] nSequence') coins)
  = List.map outpoint coins.
Proof. rewrite List.map_map. reflexivity. Qed.

Lemma CreateTransaction_pass_sound w vecSend coin_control nCoinType vAvailableCoins
      nValue' nSub nChangePosRequest change_prototype_txout s p :
  wallet_consistent w ->
  List.NoDup (List.map out_outpoint vAvailableCoins) ->
  nValue' = total_amount vecSend ->
  nSub = count_subtract vecSend ->
  BuildInv nValue' nSub s ->
  CreateTransaction_pass E B w vecSend coin_control nCoinType vAvailableCoins nValue' nSub
                         nChangePosRequest change_prototype_txout s = Ret p ->
  pass_conserves B coin_control nCoinType nValue' nSub s p.
Proof.
  intros Hcons Hnd Hval Hsub Hinv. unfold CreateTransaction_pass.
  set (nValueToSelect := if nSub =? 0 then nValue' + nFeeRet s else nValue').
  destruct (payee_outputs B vecSend (nFeeRet s) nSub true []) as [vout0|reason] eqn:Hpay.
  2:{ intros H. inversion H. exact I. }
  pose proof (payee_outputs_total B vecSend (nFeeRet s) nSub vout0 Hsub Hpay) as Hpayee.
  rewrite <- Hval in Hpayee. fold nValueToSelect in Hpayee.
  intros H. apply bind_Ret_inv in H. destruct H as (sel & Hsel & H).
  destruct sel as [[[ok coins] vIn] r].
  destruct ok; simpl in H; [|inversion H; exact I].
  assert (HvIn : vIn = sum_coins coins /\ nValueToSelect <= vIn).
  { destruct (pick_new_inputs s) eqn:Hpick.
    - eapply SelectCoins_sound; eauto.
    - inversion Hsel; subst. apply (Hinv Hpick). }
  destruct HvIn as [HvIn Hle].
  apply bind_Ret_inv in H. destruct H as (chg & Hchg & H).
  destruct chg as [[[[vout1 fee1] pos1] r1]|reason]; [|inversion H; exact I].
  apply add_change_sound in Hchg; [| |lia].
  2:{ intros Hn. rewrite <- Hsub. exact Hn. }
  destruct Hchg as [Hsum Hsame].
  rewrite HvIn in Hsum.
  set (lost := unaccounted_raise B coin_control nCoinType nSub
                 (sum_coins coins - nValueToSelect) (nPass s)) in *.
  assert (Hbal : sum_values vout1 + fee1 + lost = vIn) by lia.
  assert (Hlost : nSub = 0 -> lost = 0).
  { intros Hz. subst lost. unfold unaccounted_raise. rewrite Hz.
    rewrite andb_false_r. reflexivity. }
  destruct (negb (DummySignTx B _ coins)); [inversion H; exact I|].
  destruct (GetMinimumFee B _ <? minRelayTxFee_GetFee B _); [inversion H; exact I|].
  set (nBytes := GetVirtualTransactionSize B _ vout1 mod _) in H.
  destruct (GetMinimumFee B nBytes <=? fee1) eqn:Henough.
  - (* enough fee *)
    destruct (_ && _ && _ && _) eqn:Hretry.
    + (* once more with a change output *)
      inversion H; subst p. simpl. unfold BuildInv. simpl. intros _.
      split; [exact HvIn|].
      apply andb_true_iff in Hretry. destruct Hretry as [Hretry Hfee].
      apply andb_true_iff in Hretry. destruct Hretry as [Hretry Hpick].
      apply andb_true_iff in Hretry. destruct Hretry as [Hp1 Hn0].
      apply Z.eqb_eq in Hp1. apply Z.eqb_eq in Hn0. apply Z.leb_le in Hfee.
      specialize (Hsame Hp1 Hn0). subst vout1. specialize (Hlost Hn0).
      rewrite Hn0. simpl.
      pose proof (threshold_nonneg change_prototype_txout) as Hth.
      subst nValueToSelect. rewrite Hn0 in Hpayee. simpl in Hpayee. lia.
    + destruct ((GetMinimumFee B nBytes <? fee1) && negb (pos1 =? -1) && (nSub =? 0)).
      * apply bind_Ret_inv in H. destruct H as (vout2 & Hadj & H).
        apply adjust_change_sound in Hadj. inversion H; subst p. simpl.
        fold nValueToSelect lost. split; [lia|apply map_prevout_vin].
      * inversion H; subst p. simpl. fold nValueToSelect lost.
        split; [lia|apply map_prevout_vin].
  - destruct (negb (pick_new_inputs s)) eqn:Hpick; [inversion H; exact I|].
    apply bind_Ret_inv in H. destruct H as (reduce & Hred & H).
    destruct reduce as [vout2|].
    + (* the change pays the missing fee *)
      assert (Hv2 : sum_values vout2 = sum_values vout1 - (GetMinimumFee B nBytes - fee1)).
      { destruct (_ && _); [|discriminate].
        destruct (pos1 <? 0); [discriminate|].
        destruct (vout1 !! Z.to_nat pos1) as [o|]; [|discriminate].
        destruct (_ <=? nValue o); [|discriminate].
        apply bind_Ret_inv in Hred. destruct Hred as (vout3 & Hadj & Hred).
        inversion Hred; subst. apply adjust_change_sound in Hadj. lia. }
      inversion H; subst p. simpl. fold nValueToSelect lost.
      split; [lia|apply map_prevout_vin].
    + inversion H; subst p. simpl. unfold BuildInv. simpl.
      destruct (0 <? nSub) eqn:Hn.
      * intros _. split; [exact HvIn|]. apply Z.ltb_lt in Hn.
        destruct (nSub =? 0) eqn:Hz; [apply Z.eqb_eq in Hz; lia|].
        exact Hle.
      * apply negb_false_iff in Hpick. rewrite Hpick. discriminate.
Qed.

End BuilderSound.

(** ** The result of a build is the break of its last pass *)

Lemma CreateTransaction_Built_inv E B fuel w vecSend nChangePosInOut coin_control sign
      nCoinType vAvailableCoins r txNew fee pos coins :
  CreateTransaction E B fuel w vecSend nChangePosInOut coin_control sign nCoinType
                    vAvailableCoins r = Ret (Built txNew fee pos coins) ->
  exists scriptChange r0 r',
    CreateTransaction_loop E B fuel w vecSend coin_control nCoinType vAvailableCoins
      (total_amount vecSend) (count_subtract vecSend) nChangePosInOut
      (mkTxOut 0 scriptChange) (mkBuildState 0 true 0 [] r0 0)
    = Ret (PassBreak (m_vin txNew) (m_vout txNew) fee pos coins r').
Proof.
  unfold CreateTransaction.
  destruct (sum_recipients vecSend 0 0) as [[v n]|] eqn:Hsum; [|discriminate].
  apply sum_recipients_spec in Hsum. destruct Hsum as [Hv Hn]. simpl in Hv, Hn. subst v n.
  destruct (decide (vecSend = [])); [discriminate|].
  destruct (GetRandInt 10 r) as [x r1].
  destruct (if (x =? 0)%N then _ else _) as [lock r2].
  destruct (_ || _); [discriminate|].
  destruct (match destChange coin_control with
            | Some s => Some s | None => ReservedKey_prototype B end) as [script|];
    [|discriminate].
  intros H. apply bind_Ret_inv in H. destruct H as (p & Hloop & H).
  destruct p as [vin' vout' fee' pos' coins' r'|s'|reason]; try discriminate.
  destruct (_ && negb (ProduceSignature B _ _ _)); [discriminate|].
  destruct (_ <=? _); [discriminate|].
  destruct (_ && negb (CalculateMemPoolAncestors B _ _)); [discriminate|].
  inversion H; subst. simpl. eauto.
Qed.

Section BuilderFinal.

Variables (E : Externals) (B : BuilderEnv).

Hypothesis threshold_nonneg : forall o, 0 <= GetDustThreshold B o discard_rate.
Hypothesis min_change_nonneg : 0 <= MIN_CHANGE E.
Hypothesis denominations_distinct : List.NoDup (vecPrivateSendDenominations B).

Lemma CreateTransaction_loop_final w vecSend coin_control nCoinType vAvailableCoins
      nValue' nSub nChangePosRequest change_prototype_txout fuel :
  forall s vin' vout' fee pos coins r',
  wallet_consistent w ->
  List.NoDup (List.map out_outpoint vAvailableCoins) ->
  nValue' = total_amount vecSend ->
  nSub = count_subtract vecSend ->
  BuildInv nValue' nSub s ->
  CreateTransaction_loop E B fuel w vecSend coin_control nCoinType vAvailableCoins nValue'
                         nSub nChangePosRequest change_prototype_txout s
  = Ret (PassBreak vin' vout' fee pos coins r') ->
  exists s', BuildInv nValue' nSub s' /\
    CreateTransaction_pass E B w vecSend coin_control nCoinType vAvailableCoins nValue' nSub
                           nChangePosRequest change_prototype_txout s'
    = Ret (PassBreak vin' vout' fee pos coins r').
Proof.
  induction fuel as [|fuel IH]; simpl;
    intros s vin' vout' fee pos coins r' Hcons Hnd Hval Hsub Hinv H; [discriminate|].
  apply bind_Ret_inv in H. destruct H as (p1 & Hpass & H).
  pose proof (CreateTransaction_pass_sound E B threshold_nonneg
                min_change_nonneg denominations_distinct
                _ _ _ _ _ _ _ _ _ _ _ Hcons Hnd Hval Hsub Hinv Hpass) as Hp1.
  destruct p1 as [vin1 vout1 fee1 pos1 coins1 r1|s1|reason].
  - inversion H; subst. exists s. auto.
  - eapply IH; eauto.
  - discriminate.
Qed.

End BuilderFinal.

Lemma count_subtract_zero x l :
  count_subtract (x :: l) = 0 ->
  fSubtractFeeFromAmount x = false /\ count_subtract l = 0.
Proof.
  simpl. pose proof (count_subtract_nonneg l).
  destruct (fSubtractFeeFromAmount x); intros; split; auto; lia.
Qed.

Lemma payee_outputs_plain_eq B vecSend fee nSub : forall fFirst vout0 vout',
  count_subtract vecSend = 0 ->
  payee_outputs B vecSend fee nSub fFirst vout0 = inl vout' ->
  vout' = vout0 ++ List.map payee_txout vecSend.
Proof.
  induction vecSend as [|x l IH]; intros fFirst vout0 vout' Hc H.
  - simpl in H. inversion H. simpl. rewrite app_nil_r. reflexivity.
  - apply count_subtract_zero in Hc. destruct Hc as [Hx Hl].
    simpl in H. rewrite Hx in H. simpl in H.
    destruct (IsDust B _ dustRelayFee); [discriminate|].
    apply (IH _ _ _ Hl) in H. rewrite H, <- app_assoc. reflexivity.
Qed.

(** Lines 3049-3091 with no recipient paying the fee: a dust change is
    added to the fee and no output is made. *)
Lemma add_change_dust B vecSend coin_control nCoinType nSub nChange vout0 fee pos r pass
      scriptChange :
  nSub <= 0 ->
  nCoinType <> ONLY_DENOMINATED ->
  0 < nChange ->
  change_script B coin_control pass = Some scriptChange ->
  CTxOut_IsDust B (mkTxOut nChange scriptChange) = true ->
  add_change B vecSend coin_control nCoinType nSub nChange vout0 fee pos r pass
  = Ret (inl (vout0, fee + nChange, -1, r)).
Proof.
  intros Hn Hden Hch Hscript Hdust. unfold add_change.
  replace (0 <? nChange) with true by (symmetry; apply Z.ltb_lt; exact Hch).
  rewrite bool_decide_eq_false_2 by exact Hden.
  unfold change_script in Hscript. rewrite Hscript.
  replace (0 <? nSub) with false by (symmetry; apply Z.ltb_ge; exact Hn).
  simpl. rewrite Hdust. reflexivity.
Qed.

(** Lines 3009-3091 when the change is given to the fee: with denominated
    coins every change is, otherwise a dust change is when no recipient
    pays the fee. *)
Lemma add_change_folds B vecSend coin_control nCoinType nSub nChange vout0 fee pos r pass :
  0 < nChange ->
  (nCoinType = ONLY_DENOMINATED /\ pos = -1) \/
  (nCoinType <> ONLY_DENOMINATED /\ nSub = 0 /\
   exists scriptChange, change_script B coin_control pass = Some scriptChange /\
                        CTxOut_IsDust B (mkTxOut nChange scriptChange) = true) ->
  add_change B vecSend coin_control nCoinType nSub nChange vout0 fee pos r pass
  = Ret (inl (vout0, fee + nChange, -1, r)).
Proof.
  intros Hch [[Hden Hp]|(Hden & Hn & script & Hscript & Hdust)].
  - unfold add_change.
    replace (0 <? nChange) with true by (symmetry; apply Z.ltb_lt; exact Hch).
    rewrite bool_decide_eq_true_2 by exact Hden. rewrite Hp. reflexivity.
  - subst nSub. apply (add_change_dust B vecSend coin_control nCoinType 0 nChange vout0 fee
                         pos r pass script); auto. lia.
Qed.

Lemma CreateTransaction_pass_folds_dust E B w vecSend coin_control nCoinType
      vAvailableCoins nValue' nSub nChangePosRequest change_prototype_txout s
      vin' vout' fee pos coins r' :
  0 <= MIN_CHANGE E ->
  List.NoDup (vecPrivateSendDenominations B) ->
  wallet_consistent w ->
  List.NoDup (List.map out_outpoint vAvailableCoins) ->
  BuildInv nValue' nSub s ->
  CreateTransaction_pass E B w vecSend coin_control nCoinType vAvailableCoins nValue' nSub
                         nChangePosRequest change_prototype_txout s
  = Ret (PassBreak vin' vout' fee pos coins r') ->
  let nChange := sum_coins coins - (if nSub =? 0 then nValue' + nFeeRet s else nValue') in
  0 < nChange ->
  (nCoinType = ONLY_DENOMINATED /\ nChangePosRequest = -1) \/
  (nCoinType <> ONLY_DENOMINATED /\ nSub = 0 /\
   exists scriptChange, change_script B coin_control (nPass s) = Some scriptChange /\
                        CTxOut_IsDust B (mkTxOut nChange scriptChange) = true) ->
  pos = -1 /\
  payee_outputs B vecSend (nFeeRet s) nSub true [] = inl vout' /\
  fee = nFeeRet s + nChange.
Proof.
  intros Hmc Hden Hcons Hnd Hinv H nChange Hpos Hcase.
  unfold CreateTransaction_pass in H.
  destruct (payee_outputs B vecSend (nFeeRet s) nSub true []) as [vout0|reason] eqn:Hpay;
    [|discriminate].
  apply bind_Ret_inv in H. destruct H as (sel & Hsel & H).
  destruct sel as [[[ok coins1] vIn] r]. destruct ok; simpl in H; [|discriminate].
  assert (HvIn : vIn = sum_coins coins1).
  { destruct (pick_new_inputs s) eqn:Hpick.
    - eapply SelectCoins_sound; eauto.
    - inversion Hsel; subst. apply (Hinv Hpick). }
  apply bind_Ret_inv in H. destruct H as (chg & Hchg & H).
  assert (Hcoins : coins1 = coins).
  { destruct chg as [[[[vout1 fee1] pos1] r1]|reason]; [|discriminate].
    destruct (negb (DummySignTx B _ coins1)); [discriminate|].
    destruct (GetMinimumFee B _ <? minRelayTxFee_GetFee B _); [discriminate|].
    repeat match type of H with
           | (if ?c then _ else _) = _ => destruct c
           | (_ ≫= _) = Ret _ =>
               let x := fresh "x" in let Hx := fresh "Hx" in
               apply bind_Ret_inv in H; destruct H as (x & Hx & H)
           | match ?c with Some _ => _ | None => _ end = _ => destruct c
           end; try discriminate; inversion H; reflexivity. }
  subst coins1 vIn. fold nChange in Hchg.
  rewrite (add_change_folds B vecSend coin_control nCoinType nSub nChange vout0 (nFeeRet s)
             nChangePosRequest r (nPass s) Hpos Hcase) in Hchg.
  inversion Hchg; subst chg. clear Hchg.
  destruct (negb (DummySignTx B _ coins)); [discriminate|].
  destruct (GetMinimumFee B _ <? minRelayTxFee_GetFee B _); [discriminate|].
  change (-1 =? -1) with true in H.
  rewrite !andb_false_r in H. simpl in H.
  destruct (GetMinimumFee B _ <=? _).
  - destruct (_ && _); [discriminate|]. inversion H; subst. auto.
  - destruct (negb (pick_new_inputs s)); discriminate.
Qed.

(** ** Conservation and dust folding *)


Lemma wallet_consistent_wallet0 : wallet_consistent wallet0.
Proof. intros h wtx H. simpl in H. rewrite lookup_empty in H. discriminate. Defined.

Lemma NoDup_denominations_B0 : List.NoDup (vecPrivateSendDenominations B0).
Proof. simpl. repeat constructor; simpl; intuition discriminate. Defined.




(** C8, as the code has it.  Take a successful build in which no
    recipient pays the fee, or which spends denominated coins only and was
    asked for no change position.  Its result is the break of a pass of
    the fee loop, and when the change of that pass (the value of the coins
    over the amount the pass asks for) is positive and, unless the coins
    are denominated, dust, no change output is made: the change position
    is [-1], the outputs are those of the recipients and the change is in
    the fee. *)
Theorem CreateTransaction_folds_dust_change E B fuel w vecSend nChangePosInOut coin_control
        sign nCoinType vAvailableCoins r txNew fee pos coins :
  (forall o, 0 <= GetDustThreshold B o discard_rate) ->
  0 <= MIN_CHANGE E ->
  List.NoDup (vecPrivateSendDenominations B) ->
  wallet_consistent w ->
  List.NoDup (List.map out_outpoint vAvailableCoins) ->
  (nCoinType = ONLY_DENOMINATED /\ nChangePosInOut = -1) \/
  (nCoinType <> ONLY_DENOMINATED /\ count_subtract vecSend = 0) ->
  CreateTransaction E B fuel w vecSend nChangePosInOut coin_control sign nCoinType
                    vAvailableCoins r = Ret (Built txNew fee pos coins) ->
  exists s scriptPrototype r',
    CreateTransaction_pass E B w vecSend coin_control nCoinType vAvailableCoins
                           (total_amount vecSend) (count_subtract vecSend) nChangePosInOut
                           (mkTxOut 0 scriptPrototype) s
    = Ret (PassBreak (m_vin txNew) (m_vout txNew) fee pos coins r') /\
    let nChange :=
      sum_coins coins
      - (if count_subtract vecSend =? 0 then total_amount vecSend + nFeeRet s
         else total_amount vecSend) in
    0 < nChange ->
    (nCoinType <> ONLY_DENOMINATED ->
     exists scriptChange,
       change_script B coin_control (nPass s) = Some scriptChange /\
       CTxOut_IsDust B (mkTxOut nChange scriptChange) = true) ->
    pos = -1 /\
    payee_outputs B vecSend (nFeeRet s) (count_subtract vecSend) true []
    = inl (m_vout txNew) /\
    (count_subtract vecSend = 0 -> m_vout txNew = List.map payee_txout vecSend) /\
    fee = nFeeRet s + nChange.
Proof.
  intros Hth Hmc Hden Hcons Hnd Hcase H.
  apply CreateTransaction_Built_inv in H. destruct H as (script & r0 & r' & Hloop).
  apply (CreateTransaction_loop_final E B Hth Hmc Hden) in Hloop; auto.
  - destruct Hloop as (s & Hinv & Hpass). exists s, script, r'. split; [exact Hpass|].
    intros nChange Hpos Hdust.
    destruct (CreateTransaction_pass_folds_dust E B _ _ _ _ _ _ _ _ _ _ _ _ _ _ _ _
                Hmc Hden Hcons Hnd Hinv Hpass Hpos) as (Hp & Hpay & Hfee).
    { destruct Hcase as [[Hd Hreq]|[Hd Hn]]; [left; auto|right].
      split; [exact Hd|]. split; [exact Hn|]. apply Hdust. exact Hd. }
    split; [exact Hp|]. split; [exact Hpay|]. split; [|exact Hfee].
    intros Hn. apply (payee_outputs_plain_eq B vecSend _ _ _ _ _ Hn) in Hpay. exact Hpay.
  - unfold BuildInv. simpl. discriminate.
Qed.

Lemma NoDup_coin_plain : List.NoDup (List.map out_outpoint [coin 1 50002500]).
Proof. simpl. repeat constructor; simpl; intuition discriminate. Defined.

Lemma CreateTransaction_folds_dust_change_witness :
  CreateTransaction E0 B0 10 wallet0 send_plain (-1) coin_control0 true ALL_COINS
                    [coin 1 50002500] rng0
  = Ret (Built tx_plain 2500 (-1) [input_coin 1 50002500]) /\
  exists s scriptPrototype r',
    CreateTransaction_pass E0 B0 wallet0 send_plain coin_control0 ALL_COINS
                           [coin 1 50002500] (total_amount send_plain)
                           (count_subtract send_plain) (-1)
                           (mkTxOut 0 scriptPrototype) s
    = Ret (PassBreak (m_vin tx_plain) (m_vout tx_plain) 2500 (-1)
                     [input_coin 1 50002500] r') /\
    let nChange :=
      sum_coins [input_coin 1 50002500]
      - (if count_subtract send_plain =? 0 then total_amount send_plain + nFeeRet s
         else total_amount send_plain) in
    0 < nChange ->
    (ALL_COINS <> ONLY_DENOMINATED ->
     exists scriptChange,
       change_script B0 coin_control0 (nPass s) = Some scriptChange /\
       CTxOut_IsDust B0 (mkTxOut nChange scriptChange) = true) ->
    -1 = -1 /\
    payee_outputs B0 send_plain (nFeeRet s) (count_subtract send_plain) true []
    = inl (m_vout tx_plain) /\
    (count_subtract send_plain = 0 -> m_vout tx_plain = List.map payee_txout send_plain) /\
    2500 = nFeeRet s + nChange.
Proof.
  assert (H : CreateTransaction E0 B0 10 wallet0 send_plain (-1) coin_control0 true
                ALL_COINS [coin 1 50002500] rng0
              = Ret (Built tx_plain 2500 (-1) [input_coin 1 50002500]))
    by (vm_compute; reflexivity).
  split; [exact H|].
  apply (CreateTransaction_folds_dust_change E0 B0 10 wallet0 send_plain (-1) coin_control0
           true ALL_COINS [coin 1 50002500] rng0 tx_plain 2500 (-1)
           [input_coin 1 50002500]).
  - intros o. simpl. lia.
  - simpl. lia.
  - exact NoDup_denominations_B0.
  - exact wallet_consistent_wallet0.
  - exact NoDup_coin_plain.
  - right. split; [discriminate|reflexivity].
  - exact H.
Defined.

(** C8 as the specification has it fails when a recipient pays the fee:
    the candidate is 100 above the amount, 100 is dust, and the build
    succeeds with a change output of 546, the dust threshold, taken from
    the recipient; the fee is that of the transaction's size and does not
    hold the surplus. *)
Lemma CreateTransaction_raises_dust_change :
  CreateTransaction E0 B0 10 wallet0 send_inclusive (-1) coin_control0 true ALL_COINS
                    [coin 1 50000100] rng0
  = Ret (Built tx_inclusive 2260 1 [input_coin 1 50000100]) /\
  sum_coins [input_coin 1 50000100] - total_amount send_inclusive = 100 /\
  CTxOut_IsDust B0 (mkTxOut 100 [2%N]) = true /\
  m_vout tx_inclusive !! 1%nat = Some (mkTxOut 546 [2%N]).
Proof. vm_compute. repeat split; reflexivity. Qed.

(** * Further properties *)

(** ** The spend index *)

Lemma outpoint_ltb_irrefl a : outpoint_ltb a a = false.
Proof.
  unfold outpoint_ltb. rewrite N.ltb_irrefl, N.eqb_refl, N.ltb_irrefl. reflexivity.
Qed.

Lemma outpoint_ltb_hash a b : outpoint_ltb a b = true -> (op_hash a <= op_hash b)%N.
Proof.
  unfold outpoint_ltb. intros H. apply orb_true_iff in H. destruct H as [H|H].
  - apply N.ltb_lt in H. lia.
  - apply andb_true_iff in H. destruct H as [H _]. apply N.eqb_eq in H. lia.
Qed.

Lemma outpoint_ltb_zero txid a :
  outpoint_ltb a (mkOutPoint txid 0) = false <-> (txid <= op_hash a)%N.
Proof.
  unfold outpoint_ltb. simpl. split.
  - intros H. apply orb_false_iff in H. destruct H as [H _].
    apply N.ltb_ge in H. exact H.
  - intros H. apply orb_false_iff. split; [apply N.ltb_ge; exact H|].
    apply andb_false_iff. right. apply N.ltb_ge. lia.
Qed.

Lemma lower_bound_zero_spec txid (m : list (COutPoint * uint256)) :
  TxSpends_sorted m ->
  match lower_bound (mkOutPoint txid 0) m with
  | [] => forall e, In e m -> (op_hash (fst e) < txid)%N
  | iter :: rest =>
      (txid <= op_hash (fst iter))%N /\
      (forall e, In e m -> (op_hash (fst e) < txid)%N \/ In e (iter :: rest)) /\
      (forall e, In e (iter :: rest) -> In e m /\ (op_hash (fst iter) <= op_hash (fst e))%N)
  end.
Proof.
  unfold TxSpends_sorted. induction 1 as [|x m Hm IH Hx]; simpl; [intros e []|].
  destruct (outpoint_ltb (fst x) (mkOutPoint txid 0)) eqn:Hlt.
  - assert (Hxlt : (op_hash (fst x) < txid)%N).
    { destruct (N.ltb_spec (op_hash (fst x)) txid) as [Hl|Hge]; [exact Hl|].
      apply outpoint_ltb_zero in Hge. congruence. }
    destruct (lower_bound (mkOutPoint txid 0) m) as [|iter rest].
    + intros e [<-|He]; auto.
    + destruct IH as (H1 & H2 & H3). split; [exact H1|]. split.
      * intros e [<-|He]; auto.
      * intros e He. destruct (H3 e He). auto.
  - apply outpoint_ltb_zero in Hlt. split; [exact Hlt|]. split.
    + intros e He. right. exact He.
    + intros e He. split; [exact He|]. destruct He as [<-|He]; [lia|].
      rewrite List.Forall_forall in Hx. specialize (Hx e He).
      destruct (N.leb_spec (op_hash (fst x)) (op_hash (fst e))) as [Hle|Hgt]; [exact Hle|].
      exfalso. assert (outpoint_ltb (fst e) (fst x) = true); [|congruence].
      unfold outpoint_ltb. apply orb_true_iff. left. apply N.ltb_lt. exact Hgt.
Qed.

Lemma HasWalletSpend_spec w txid :
  TxSpends_sorted (mapTxSpends w) ->
  HasWalletSpend w txid = true <-> exists n h, In (mkOutPoint txid n, h) (mapTxSpends w).
Proof.
  intros Hs. unfold HasWalletSpend.
  pose proof (lower_bound_zero_spec txid (mapTxSpends w) Hs) as Hlb.
  destruct (lower_bound (mkOutPoint txid 0) (mapTxSpends w)) as [|iter rest].
  - split; [discriminate|]. intros (n & h & Hin). specialize (Hlb _ Hin). simpl in Hlb. lia.
  - destruct Hlb as (Hge & Hall & Hsub). rewrite N.eqb_eq. split.
    + intros Heq. destruct iter as [[h0 n0] s0]. simpl in *. subst h0.
      exists n0, s0. apply (Hsub (mkOutPoint txid n0, s0)). left. reflexivity.
    + intros (n & h & Hin). destruct (Hall _ Hin) as [Hlt|Hin'].
      * simpl in Hlt. lia.
      * destruct (Hsub _ Hin') as [_ Hle]. simpl in Hle. lia.
Qed.

(** X1.  On a spend index in key order, [HasWalletSpend] answers whether
    the index holds a spender of some output of the transaction. *)
Theorem HasWalletSpend_iff_spent w txid :
  TxSpends_sorted (mapTxSpends w) ->
  HasWalletSpend w txid = true <-> exists n h, In (mkOutPoint txid n, h) (mapTxSpends w).
Proof. apply HasWalletSpend_spec. Qed.

Lemma TxSpends_sorted_wallet_conflict : TxSpends_sorted (mapTxSpends wallet_conflict).
Proof. repeat constructor. Defined.

Lemma HasWalletSpend_iff_spent_witness :
  exists n h, In (mkOutPoint 9%N n, h) (mapTxSpends wallet_conflict).
Proof.
  apply (HasWalletSpend_iff_spent wallet_conflict 9%N TxSpends_sorted_wallet_conflict).
  vm_compute. reflexivity.
Defined.

(** ** What [AddToWallet] keeps *)

Lemma record_kept_refl a : record_kept a a.
Proof. destruct a; simpl; auto. Qed.

Lemma record_kept_trans a b c : record_kept a b -> record_kept b c -> record_kept a c.
Proof.
  destruct a, b, c; simpl; try tauto. intros [H1 H2] [H3 H4]. split; congruence.
Qed.

Lemma TxSpends_insert_In e m x :
  In x (TxSpends_insert e m) <-> x = e \/ In x m.
Proof.
  induction m as [|y m IH]; simpl.
  - intuition congruence.
  - destruct (outpoint_ltb (fst e) (fst y)); simpl; [intuition congruence|].
    rewrite IH. intuition congruence.
Qed.

Lemma outpoint_ltb_trans a b c :
  outpoint_ltb a b = true -> outpoint_ltb b c = true -> outpoint_ltb a c = true.
Proof.
  unfold outpoint_ltb. intros H1 H2.
  apply orb_true_iff in H1. apply orb_true_iff in H2. apply orb_true_iff.
  rewrite !andb_true_iff, !N.ltb_lt, !N.eqb_eq in *.
  destruct H1 as [H1|[H1 H1']], H2 as [H2|[H2 H2']]; [left|left|left|right]; try lia.
Qed.

Lemma outpoint_ltb_total a b :
  outpoint_ltb a b = false -> outpoint_ltb b a = false -> a = b.
Proof.
  unfold outpoint_ltb. intros H1 H2.
  apply orb_false_iff in H1. apply orb_false_iff in H2.
  destruct H1 as [H1 H1'], H2 as [H2 H2'].
  apply N.ltb_ge in H1, H2. assert (Hh : op_hash a = op_hash b) by lia.
  rewrite Hh, N.eqb_refl in H1'. rewrite Hh, N.eqb_refl in H2'. simpl in *.
  apply N.ltb_ge in H1', H2'. destruct a, b; simpl in *. f_equal; lia.
Qed.

Lemma outpoint_ltb_false_trans a b c :
  outpoint_ltb b a = false -> outpoint_ltb c b = false -> outpoint_ltb c a = false.
Proof.
  intros H1 H2. destruct (outpoint_ltb c a) eqn:H3; [|reflexivity].
  destruct (outpoint_ltb a b) eqn:H4.
  - rewrite (outpoint_ltb_trans c a b H3 H4) in H2. discriminate.
  - assert (a = b) by (apply outpoint_ltb_total; assumption). subst. congruence.
Qed.

Lemma TxSpends_insert_sorted e m :
  TxSpends_sorted m -> TxSpends_sorted (TxSpends_insert e m).
Proof.
  unfold TxSpends_sorted. induction 1 as [|y m Hm IH Hy]; simpl.
  - constructor; constructor.
  - destruct (outpoint_ltb (fst e) (fst y)) eqn:Hlt.
    + constructor; [constructor; assumption|].
      constructor.
      * destruct (outpoint_ltb (fst y) (fst e)) eqn:Hr; [|reflexivity].
        pose proof (outpoint_ltb_trans _ _ _ Hlt Hr) as Hc.
        rewrite outpoint_ltb_irrefl in Hc. discriminate.
      * rewrite List.Forall_forall in *. intros x Hx. specialize (Hy x Hx).
        apply (outpoint_ltb_false_trans _ (fst y)); [|exact Hy].
        destruct (outpoint_ltb (fst y) (fst e)) eqn:Hr; [|reflexivity].
        pose proof (outpoint_ltb_trans _ _ _ Hlt Hr) as Hc.
        rewrite outpoint_ltb_irrefl in Hc. discriminate.
    + constructor; [exact IH|].
      rewrite List.Forall_forall in *. intros x Hx.
      apply TxSpends_insert_In in Hx. destruct Hx as [->|Hx]; [exact Hlt|auto].
Qed.

Lemma mapWallet_subscript_tracked h w wtx :
  mapWallet w !! h = Some wtx -> mapWallet_subscript h w = (wtx, w).
Proof. unfold mapWallet_subscript. intros ->. reflexivity. Qed.

Lemma SyncMetaData_oldest_tracked range : forall m c w,
  (forall e, In e range -> is_Some (mapWallet w !! snd e)) ->
  (forall h, c = Some h -> is_Some (mapWallet w !! h)) ->
  snd (SyncMetaData_oldest range m c w) = w /\
  forall h, fst (SyncMetaData_oldest range m c w) = Some h -> is_Some (mapWallet w !! h).
Proof.
  induction range as [|it range IH]; simpl; intros m c w Hr Hc; [auto|].
  destruct (Hr it (or_introl eq_refl)) as [wtx Hw].
  rewrite (mapWallet_subscript_tracked _ _ _ Hw).
  destruct (nOrderPos wtx <? m); apply IH; auto.
  intros h Hh. inversion Hh; subst. eauto.
Qed.

Lemma SyncMetaData_copy_kept range from : forall w,
  (forall e, In e range -> is_Some (mapWallet w !! snd e)) ->
  is_Some (mapWallet w !! from) ->
  let w' := SyncMetaData_copy range from w in
  mapTxSpends w' = mapTxSpends w /\ wtxOrdered w' = wtxOrdered w /\
  nOrderPosNext w' = nOrderPosNext w /\
  forall h, record_kept (mapWallet w !! h) (mapWallet w' !! h).
Proof.
  induction range as [|it range IH]; simpl; intros w Hr Hf.
  - repeat split; auto. intros h. apply record_kept_refl.
  - destruct (Hr it (or_introl eq_refl)) as [copyTo Hto].
    rewrite (mapWallet_subscript_tracked _ _ _ Hto).
    destruct (snd it =? from)%N; [apply IH; auto|].
    destruct Hf as [copyFrom Hfrom].
    rewrite (mapWallet_subscript_tracked _ _ _ Hfrom).
    destruct (negb (IsEquivalentTo copyFrom copyTo)); [apply IH; eauto|].
    set (w1 := set_mapWallet _ w).
    assert (Hk : forall h, record_kept (mapWallet w !! h) (mapWallet w1 !! h)).
    { intros h. unfold w1. simpl. destruct (decide (h = snd it)) as [->|Hne].
      - rewrite Hto, lookup_insert_eq. simpl. auto.
      - rewrite lookup_insert_ne by congruence. apply record_kept_refl. }
    assert (Hsome : forall h, is_Some (mapWallet w !! h) -> is_Some (mapWallet w1 !! h)).
    { intros h [x Hx]. specialize (Hk h). rewrite Hx in Hk.
      destruct (mapWallet w1 !! h); [eauto|contradiction]. }
    destruct (IH w1) as (H1 & H2 & H3 & H4); [auto|apply Hsome; eauto|].
    repeat split; auto.
    intros h. eapply record_kept_trans; [apply Hk|apply H4].
Qed.

Lemma SyncMetaData_kept range w w' :
  (forall e, In e range -> is_Some (mapWallet w !! snd e)) ->
  SyncMetaData range w = Ret w' ->
  mapTxSpends w' = mapTxSpends w /\ wtxOrdered w' = wtxOrdered w /\
  nOrderPosNext w' = nOrderPosNext w /\
  forall h, record_kept (mapWallet w !! h) (mapWallet w' !! h).
Proof.
  intros Hr. unfold SyncMetaData.
  destruct (SyncMetaData_oldest_tracked range INT_MAX None w Hr) as [Hw Hc];
    [discriminate|].
  destruct (SyncMetaData_oldest range INT_MAX None w) as [copyFrom w1]. simpl in *.
  subst w1. destruct copyFrom as [from|]; [|discriminate].
  intros H. inversion H; subst. apply SyncMetaData_copy_kept; auto.
Qed.

Lemma record_kept_is_Some a b : record_kept a b -> is_Some a -> is_Some b.
Proof.
  destruct a, b; simpl; try tauto; eauto.
Qed.

Lemma AddToSpends_loop_kept ins wtxid : forall w w',
  spenders_tracked w ->
  is_Some (mapWallet w !! wtxid) ->
  AddToSpends_loop ins wtxid w = Ret w' ->
  (forall e, In e (mapTxSpends w') <->
             In e (mapTxSpends w) \/ exists txin, In txin ins /\ e = (prevout txin, wtxid)) /\
  (TxSpends_sorted (mapTxSpends w) -> TxSpends_sorted (mapTxSpends w')) /\
  wtxOrdered w' = wtxOrdered w /\ nOrderPosNext w' = nOrderPosNext w /\
  forall h, record_kept (mapWallet w !! h) (mapWallet w' !! h).
Proof.
  induction ins as [|txin ins IH]; simpl; intros w w' Ht Hid H.
  - inversion H; subst. repeat split; auto.
    + intros [He|(t & [] & _)]. exact He.
    + intros h. apply record_kept_refl.
  - apply bind_Ret_inv in H. destruct H as (w1 & Hstep & H).
    unfold AddToSpends_outpoint in Hstep.
    set (w0 := set_mapTxSpends (TxSpends_insert (prevout txin, wtxid) (mapTxSpends w)) w)
      in Hstep.
    assert (Ht0 : forall o h, In (o, h) (mapTxSpends w0) -> is_Some (mapWallet w0 !! h)).
    { intros o h Hin. unfold w0 in *. simpl in *. apply TxSpends_insert_In in Hin.
      destruct Hin as [Heq|Hin]; [inversion Heq; subst; exact Hid|eapply Ht; eauto]. }
    apply SyncMetaData_kept in Hstep.
    2:{ intros [o h] He. apply equal_range_In in He. destruct He as [He _].
        simpl. eapply Ht0. exact He. }
    destruct Hstep as (Hs1 & Ho1 & Hn1 & Hk1).
    assert (Ht1 : spenders_tracked w1).
    { intros o h Hin. rewrite Hs1 in Hin.
      eapply record_kept_is_Some; [apply Hk1|]. eapply Ht0. exact Hin. }
    assert (Hid1 : is_Some (mapWallet w1 !! wtxid))
      by (eapply record_kept_is_Some; [apply Hk1|exact Hid]).
    destruct (IH w1 w' Ht1 Hid1 H) as (He & Hsorted & Ho & Hn & Hk).
    split; [|split; [|split; [|split]]].
    + intros e. rewrite He, Hs1. unfold w0. simpl. rewrite TxSpends_insert_In. split.
      * intros [[->|Hin]|(t & Ht' & ->)]; eauto.
      * intros [Hin|(t & [<-|Ht'] & ->)]; eauto.
    + intros Hs. apply Hsorted. rewrite Hs1. unfold w0. simpl.
      apply TxSpends_insert_sorted. exact Hs.
    + rewrite Ho, Ho1. reflexivity.
    + rewrite Hn, Hn1. reflexivity.
    + intros h. eapply record_kept_trans; [apply Hk1|apply Hk].
Qed.

Lemma TxItems_insert_In e m x : In x (TxItems_insert e m) <-> x = e \/ In x m.
Proof.
  induction m as [|y m IH]; simpl.
  - intuition congruence.
  - destruct (fst e <? fst y); simpl; [intuition congruence|].
    rewrite IH. intuition congruence.
Qed.

(** What a first insertion does, lines 1001-1008 and 1047-1053. *)
Lemma AddToWallet_new E wtxIn w b w' :
  mapWallet w !! GetHash wtxIn = None ->
  spenders_tracked w ->
  AddToWallet E wtxIn w = Ret (b, w') ->
  (exists wtx', mapWallet w' !! GetHash wtxIn = Some wtx' /\
                tx wtx' = tx wtxIn /\ nOrderPos wtx' = nOrderPosNext w) /\
  nOrderPosNext w' = nOrderPosNext w + 1 /\
  wtxOrdered w' = TxItems_insert (nOrderPosNext w, TxPair_wtx (GetHash wtxIn)) (wtxOrdered w) /\
  (forall e, In e (mapTxSpends w') <->
             In e (mapTxSpends w) \/
             (IsCoinBase wtxIn || tx_IsZerocoinSpend (tx wtxIn) = false /\
              exists txin, In txin (vin (tx wtxIn)) /\ e = (prevout txin, GetHash wtxIn))) /\
  (TxSpends_sorted (mapTxSpends w) -> TxSpends_sorted (mapTxSpends w')) /\
  forall h, h <> GetHash wtxIn -> record_kept (mapWallet w !! h) (mapWallet w' !! h).
Proof.
  intros Hnone Ht. unfold AddToWallet. rewrite Hnone. simpl.
  set (hash := GetHash wtxIn) in *.
  set (wtx1 := set_nOrderPos (nOrderPosNext w) (set_nTimeReceived (GetAdjustedTime E) wtxIn)).
  intros H. apply bind_Ret_inv in H. destruct H as (ts & _ & H).
  apply bind_Ret_inv in H. destruct H as (w3 & Hspends & H).
  set (w2 := set_mapWallet _ _) in Hspends.
  assert (Hw2 : mapWallet w2 !! hash = Some (set_nTimeSmart ts wtx1)).
  { unfold w2. simpl. apply lookup_insert_eq. }
  assert (Hk2 : forall h, h <> hash -> mapWallet w2 !! h = mapWallet w !! h).
  { intros h Hne. unfold w2. simpl. rewrite !lookup_insert_ne by congruence. reflexivity. }
  assert (Ht2 : spenders_tracked w2).
  { intros o h Hin. destruct (decide (h = hash)) as [->|Hne]; [rewrite Hw2; eauto|].
    rewrite Hk2 by exact Hne. apply (Ht o h). exact Hin. }
  assert (Hres : (forall e, In e (mapTxSpends w3) <->
                    In e (mapTxSpends w) \/
                    (IsCoinBase wtxIn || tx_IsZerocoinSpend (tx wtxIn) = false /\
                     exists txin, In txin (vin (tx wtxIn)) /\ e = (prevout txin, hash))) /\
                 (TxSpends_sorted (mapTxSpends w) -> TxSpends_sorted (mapTxSpends w3)) /\
                 wtxOrdered w3 = wtxOrdered w2 /\ nOrderPosNext w3 = nOrderPosNext w2 /\
                 forall h, record_kept (mapWallet w2 !! h) (mapWallet w3 !! h)).
  { unfold AddToSpends in Hspends. rewrite Hw2 in Hspends.
    change (IsCoinBase (set_nTimeSmart ts wtx1)) with (IsCoinBase wtxIn) in Hspends.
    change (tx (set_nTimeSmart ts wtx1)) with (tx wtxIn) in Hspends.
    destruct (IsCoinBase wtxIn || tx_IsZerocoinSpend (tx wtxIn)) eqn:Hcb.
    - inversion Hspends; subst w3. repeat split; auto.
      + intros [He|[Hc _]]; [exact He|discriminate].
      + intros h. apply record_kept_refl.
    - apply AddToSpends_loop_kept in Hspends; [|exact Ht2|rewrite Hw2; eauto].
      destruct Hspends as (He & Hs & Ho & Hn & Hk). repeat split; auto.
      + intros Hin. apply He in Hin. destruct Hin as [Hin|Hin]; auto.
      + intros Hin. apply He. destruct Hin as [Hin|[_ Hin]]; auto. }
  destruct Hres as (He & Hs & Ho & Hn & Hk).
  pose proof (Hk hash) as Hkh. rewrite Hw2 in Hkh.
  destruct (mapWallet w3 !! hash) as [wtx3|] eqn:Hw3; [|contradiction].
  simpl in Hkh. destruct Hkh as [Htx Hpos].
  assert (Hfin : forall wf,
             mapTxSpends wf = mapTxSpends w3 -> wtxOrdered wf = wtxOrdered w3 ->
             nOrderPosNext wf = nOrderPosNext w3 ->
             (exists x, mapWallet wf !! hash = Some x /\ tx x = tx wtx3 /\
                        nOrderPos x = nOrderPos wtx3) ->
             (forall h, h <> hash -> mapWallet wf !! h = mapWallet w3 !! h) ->
             (exists wtx', mapWallet wf !! hash = Some wtx' /\
                           tx wtx' = tx wtxIn /\ nOrderPos wtx' = nOrderPosNext w) /\
             nOrderPosNext wf = nOrderPosNext w + 1 /\
             wtxOrdered wf = TxItems_insert (nOrderPosNext w, TxPair_wtx hash) (wtxOrdered w) /\
             (forall e, In e (mapTxSpends wf) <->
                        In e (mapTxSpends w) \/
                        (IsCoinBase wtxIn || tx_IsZerocoinSpend (tx wtxIn) = false /\
                         exists txin, In txin (vin (tx wtxIn)) /\ e = (prevout txin, hash))) /\
             (TxSpends_sorted (mapTxSpends w) -> TxSpends_sorted (mapTxSpends wf)) /\
             forall h, h <> hash -> record_kept (mapWallet w !! h) (mapWallet wf !! h)).
  { intros wf H1 H2 H3 (x & Hx1 & Hx2 & Hx3) H5. split; [|split; [|split; [|split; [|split]]]].
    - exists x. split; [exact Hx1|]. split; congruence.
    - rewrite H3, Hn. reflexivity.
    - rewrite H2, Ho. reflexivity.
    - intros e. rewrite H1. apply He.
    - rewrite H1. exact Hs.
    - intros h Hne. rewrite (H5 h Hne), <- (Hk2 h Hne). apply Hk. }
  destruct (negb (WriteTx E wtx3)); inversion H; subst; apply Hfin; auto.
  - eauto.
  - simpl. exists (MarkDirty wtx3). rewrite lookup_insert_eq. auto.
  - intros h Hne. simpl. rewrite lookup_insert_ne by congruence. reflexivity.
Qed.

(** What an update of a tracked transaction does, lines 1010-1053. *)
Lemma AddToWallet_update E wtxIn w wtx b w' :
  mapWallet w !! GetHash wtxIn = Some wtx ->
  AddToWallet E wtxIn w = Ret (b, w') ->
  mapTxSpends w' = mapTxSpends w /\ wtxOrdered w' = wtxOrdered w /\
  nOrderPosNext w' = nOrderPosNext w /\
  (exists wtx', mapWallet w' !! GetHash wtxIn = Some wtx' /\
                (tx wtx' = tx wtx \/ tx wtx' = tx wtxIn) /\ nOrderPos wtx' = nOrderPos wtx) /\
  forall h, h <> GetHash wtxIn -> mapWallet w' !! h = mapWallet w !! h.
Proof.
  intros Hw. unfold AddToWallet. rewrite Hw.
  assert (Hm : (tx (fst (AddToWallet_merge wtxIn wtx)) = tx wtx \/
                tx (fst (AddToWallet_merge wtxIn wtx)) = tx wtxIn) /\
               nOrderPos (fst (AddToWallet_merge wtxIn wtx)) = nOrderPos wtx).
  { unfold AddToWallet_merge.
    repeat match goal with |- context [if ?c then _ else _] => destruct c end;
      simpl; auto. }
  destruct (AddToWallet_merge wtxIn wtx) as [wtx1 fUpdated]. simpl in Hm.
  destruct Hm as [Htx Hpos].
  destruct (fUpdated && negb (WriteTx E wtx1)); intros H; inversion H; subst; simpl;
    repeat split; auto.
  - exists wtx1. rewrite lookup_insert_eq. auto.
  - intros h Hne. rewrite lookup_insert_ne by congruence. reflexivity.
  - exists (MarkDirty wtx1). rewrite lookup_insert_eq. auto.
  - intros h Hne. rewrite !lookup_insert_ne by congruence. reflexivity.
Qed.

(** [AddToWallet] keeps the ledger index well-formed. *)
Lemma AddToWallet_wf E wtxIn w b w' :
  wallet_wf w ->
  AddToWallet E wtxIn w = Ret (b, w') ->
  wallet_wf w'.
Proof.
  intros (Hs & Ht & Hc) H.
  destruct (mapWallet w !! GetHash wtxIn) as [wtx|] eqn:Hw.
  - destruct (AddToWallet_update E wtxIn w wtx b w' Hw H)
      as (H1 & _ & _ & (wtx' & Hw' & Htx & _) & Hother).
    split; [rewrite H1; exact Hs|]. split.
    + intros o h Hin. rewrite H1 in Hin.
      destruct (decide (h = GetHash wtxIn)) as [->|Hne]; [rewrite Hw'; eauto|].
      rewrite (Hother h Hne). eapply Ht. exact Hin.
    + intros h x Hx. destruct (decide (h = GetHash wtxIn)) as [->|Hne].
      * rewrite Hw' in Hx. inversion Hx; subst x. unfold GetHash at 1.
        destruct Htx as [-> | ->]; [apply (Hc _ _ Hw)|reflexivity].
      * rewrite (Hother h Hne) in Hx. apply (Hc _ _ Hx).
  - destruct (AddToWallet_new E wtxIn w b w' Hw Ht H)
      as ((wtx' & Hw' & Htx & _) & _ & _ & He & Hsorted & Hk).
    assert (Hsome : forall h, is_Some (mapWallet w !! h) -> is_Some (mapWallet w' !! h)).
    { intros h Hh. destruct (decide (h = GetHash wtxIn)) as [->|Hne]; [rewrite Hw'; eauto|].
      eapply record_kept_is_Some; [apply (Hk h Hne)|exact Hh]. }
    split; [apply Hsorted; exact Hs|]. split.
    + intros o h Hin. apply He in Hin. destruct Hin as [Hin|[_ (t & _ & Heq)]].
      * apply Hsome. eapply Ht. exact Hin.
      * inversion Heq; subst. rewrite Hw'. eauto.
    + intros h x Hx. destruct (decide (h = GetHash wtxIn)) as [->|Hne].
      * rewrite Hw' in Hx. inversion Hx; subst x. unfold GetHash. rewrite Htx. reflexivity.
      * specialize (Hk h Hne). rewrite Hx in Hk.
        destruct (mapWallet w !! h) as [y|] eqn:Hy; [|contradiction].
        simpl in Hk. destruct Hk as [Hk _]. unfold GetHash. rewrite Hk. apply (Hc _ _ Hy).
Qed.

(** X2.  [AddToWallet] keeps the ledger index well-formed: after a call
    that returned, the spend index is still in key order, each of its
    spenders is still a record of the wallet, and every record still sits
    under the hash of its transaction. *)
Theorem AddToWallet_keeps_wallet_wf E wtxIn w b w' :
  wallet_wf w ->
  AddToWallet E wtxIn w = Ret (b, w') ->
  wallet_wf w'.
Proof.
  intros Hwf H. exact (AddToWallet_wf E wtxIn w b w' Hwf H).
Qed.

Ltac solve_lookup :=
  repeat match goal with
         | H : (<[_ := _]> _) !! _ = Some _ |- _ =>
             apply lookup_insert_Some in H; destruct H as [[<- <-]|[_ H]]
         | H : ∅ !! _ = Some _ |- _ => rewrite lookup_empty in H; discriminate H
         end.

Lemma wallet_wf_wallet_conflict : wallet_wf wallet_conflict.
Proof.
  split; [repeat constructor|]. split.
  - intros o h Hin. simpl in Hin.
    destruct Hin as [Hin|[Hin|[]]]; inversion Hin; subst; vm_compute; eauto.
  - intros h x Hx. unfold wallet_conflict in Hx. simpl in Hx. solve_lookup; reflexivity.
Defined.

Lemma AddToWallet_keeps_wallet_wf_witness :
  exists b w', AddToWallet E0 wtx_third_spender wallet_conflict = Ret (b, w') /\ wallet_wf w'.
Proof.
  destruct (AddToWallet E0 wtx_third_spender wallet_conflict) as [[b w']| | | |] eqn:H;
    try (vm_compute in H; discriminate H).
  exists b, w'. split; [reflexivity|].
  apply (AddToWallet_keeps_wallet_wf E0 wtx_third_spender wallet_conflict b w').
  - exact wallet_wf_wallet_conflict.
  - exact H.
Defined.

(** X3.  The first [AddToWallet] of a transaction stores it at the next
    order position, which it uses up, and indexes its inputs: unless the
    transaction is a coinbase or a zerocoin spend, it is afterwards a known
    spender of each outpoint it spends, and each transaction it spends
    from has a wallet spend.  The entries the spend index and the order
    had are kept, and every position stays below the next one. *)
Theorem AddToWallet_indexes_new_transaction E wtxIn w b w' :
  mapWallet w !! GetHash wtxIn = None ->
  wallet_wf w ->
  order_positions_fresh w ->
  AddToWallet E wtxIn w = Ret (b, w') ->
  (exists wtx', mapWallet w' !! GetHash wtxIn = Some wtx' /\
                tx wtx' = tx wtxIn /\ nOrderPos wtx' = nOrderPosNext w) /\
  nOrderPosNext w' = nOrderPosNext w + 1 /\
  In (nOrderPosNext w, TxPair_wtx (GetHash wtxIn)) (wtxOrdered w') /\
  (forall e, In e (wtxOrdered w) -> In e (wtxOrdered w')) /\
  order_positions_fresh w' /\
  (forall e, In e (mapTxSpends w) -> In e (mapTxSpends w')) /\
  (IsCoinBase wtxIn || tx_IsZerocoinSpend (tx wtxIn) = false ->
   forall txin, In txin (vin (tx wtxIn)) ->
     spender_of w' (prevout txin) (GetHash wtxIn) /\
     HasWalletSpend w' (op_hash (prevout txin)) = true).
Proof.
  intros Hnone (Hs & Ht & Hc) Hfresh H.
  destruct (AddToWallet_new E wtxIn w b w' Hnone Ht H)
    as (Hrec & Hnext & Hord & He & Hsorted & Hk).
  split; [exact Hrec|]. split; [exact Hnext|]. rewrite Hord. split; [|split; [|split; [|split]]].
  - apply TxItems_insert_In. left. reflexivity.
  - intros e Hin. apply TxItems_insert_In. right. exact Hin.
  - intros e Hin. rewrite Hord in Hin. apply TxItems_insert_In in Hin. rewrite Hnext.
    destruct Hin as [->|Hin]; [simpl; lia|]. specialize (Hfresh e Hin). lia.
  - intros e Hin. apply He. left. exact Hin.
  - intros Hcb txin Hin.
    assert (Hsp : In (prevout txin, GetHash wtxIn) (mapTxSpends w')).
    { apply He. right. split; [exact Hcb|]. exists txin. auto. }
    split; [exact Hsp|]. apply HasWalletSpend_spec; [apply Hsorted; exact Hs|].
    exists (op_n (prevout txin)), (GetHash wtxIn).
    destruct (prevout txin) as [h n]. exact Hsp.
Qed.

Lemma AddToWallet_indexes_new_transaction_witness :
  exists b w',
    AddToWallet E0 wtx_third_spender wallet_conflict = Ret (b, w') /\
    nOrderPosNext w' = 3 /\
    spender_of w' (mkOutPoint 9%N 0%N) 5%N /\
    HasWalletSpend w' 9 = true.
Proof.
  destruct (AddToWallet E0 wtx_third_spender wallet_conflict) as [[b w']| | | |] eqn:H;
    try (vm_compute in H; discriminate H).
  exists b, w'. split; [reflexivity|].
  destruct (AddToWallet_indexes_new_transaction E0 wtx_third_spender wallet_conflict b w')
    as (_ & Hn & _ & _ & _ & _ & Hsp).
  - vm_compute. reflexivity.
  - exact wallet_wf_wallet_conflict.
  - intros e Hin. simpl in Hin. destruct Hin as [<-|[<-|[]]]; simpl; lia.
  - exact H.
  - split; [exact Hn|]. apply (Hsp eq_refl (txin_of 9 0)). left. reflexivity.
Defined.

(** ** Abandoning a transaction that can be abandoned *)

Lemma same_but_caches_refl a : same_but_caches a a.
Proof. unfold same_but_caches. destruct a; reflexivity. Qed.

Lemma same_but_caches_trans a b c :
  same_but_caches a b -> same_but_caches b c -> same_but_caches a c.
Proof.
  unfold same_but_caches. intros H1 H2. rewrite H2, H1. destruct a; reflexivity.
Qed.

Lemma same_but_caches_MarkDirty a : same_but_caches a (MarkDirty a).
Proof. unfold same_but_caches, MarkDirty. destruct a; reflexivity. Qed.

Lemma same_but_caches_chain_state a b : same_but_caches a b -> same_chain_state b a.
Proof. unfold same_but_caches, same_chain_state. intros ->. auto. Qed.

Lemma same_but_caches_fields a b :
  same_but_caches a b ->
  tx b = tx a /\ hashBlock b = hashBlock a /\ nIndex b = nIndex a /\
  nOrderPos b = nOrderPos a /\ fInMempool b = fInMempool a.
Proof. unfold same_but_caches. intros ->. simpl. auto. Qed.

Lemma same_but_caches_to_abandon E a b :
  same_but_caches a b -> to_abandon E b = to_abandon E a.
Proof.
  intros H. unfold to_abandon, isAbandoned.
  rewrite (depth_ext E b a (same_but_caches_chain_state a b H)).
  destruct (same_but_caches_fields a b H) as (_ & -> & _). reflexivity.
Qed.

(** The records after the parents' caches were marked dirty. *)
Lemma MarkDirty_parents_caches ins : forall w h,
  match mapWallet w !! h with
  | Some x => exists x', mapWallet (MarkDirty_parents ins w) !! h = Some x' /\
                         same_but_caches x x'
  | None => mapWallet (MarkDirty_parents ins w) !! h = None
  end.
Proof.
  unfold MarkDirty_parents.
  induction ins as [|txin ins IH]; intros w h; simpl.
  - destruct (mapWallet w !! h) as [x|] eqn:Hx; [|reflexivity].
    exists x. split; [reflexivity|apply same_but_caches_refl].
  - destruct (mapWallet w !! op_hash (prevout txin)) as [parent|] eqn:Hp; [|apply IH].
    specialize (IH (set_mapWallet
                      (<[op_hash (prevout txin) := MarkDirty parent]> (mapWallet w)) w) h).
    simpl in IH. destruct (decide (h = op_hash (prevout txin))) as [->|Hne].
    + rewrite lookup_insert_eq in IH. rewrite Hp.
      destruct IH as (x' & Hx' & Hs). exists x'. split; [exact Hx'|].
      eapply same_but_caches_trans; [apply same_but_caches_MarkDirty|exact Hs].
    + rewrite lookup_insert_ne in IH by congruence. exact IH.
Qed.

Lemma while_hash_other hashTx now m :
  TxSpends_sorted m ->
  now <> hashTx ->
  (exists n s, In (mkOutPoint hashTx n, s) m) ->
  while_hash now (lower_bound (mkOutPoint hashTx 0) m) = [].
Proof.
  intros Hs Hne (n & s & Hin).
  pose proof (lower_bound_zero_spec hashTx m Hs) as Hlb.
  destruct (lower_bound (mkOutPoint hashTx 0) m) as [|iter rest]; [reflexivity|].
  destruct Hlb as (Hge & Hall & Hsub). simpl.
  destruct (N.eqb_spec (op_hash (fst iter)) now) as [Heq|]; [|reflexivity].
  exfalso. destruct (Hall _ Hin) as [Hlt|Hin'].
  - simpl in Hlt. lia.
  - destruct (Hsub _ Hin') as [_ Hle]. simpl in Hle. lia.
Qed.

Lemma set_erase_head_length now rest :
  (length (set_erase now (now :: rest)) <= length rest)%nat.
Proof.
  unfold set_erase. simpl. rewrite N.eqb_refl. simpl. apply List.filter_length_le.
Qed.

Lemma set_insert_length x s : (length (set_insert x s) <= S (length s))%nat.
Proof.
  induction s as [|y s IH]; simpl; [lia|].
  destruct (x <? y)%N; simpl; [lia|]. destruct (x =? y)%N; simpl; lia.
Qed.

Lemma queue_spenders_length spenders done : forall todo,
  (length (queue_spenders spenders done todo) <= length spenders + length todo)%nat.
Proof.
  unfold queue_spenders. induction spenders as [|s sp IH]; simpl; intros todo; [lia|].
  destruct (set_count s done).
  - specialize (IH todo). lia.
  - specialize (IH (set_insert s todo)). pose proof (set_insert_length s todo). lia.
Qed.

Lemma lower_bound_length k m : (length (lower_bound k m) <= length m)%nat.
Proof.
  induction m as [|x m IH]; simpl; [lia|]. destruct (outpoint_ltb (fst x) k); simpl; lia.
Qed.

Lemma while_hash_length now m : (length (while_hash now m) <= length m)%nat.
Proof.
  induction m as [|x m IH]; simpl; [lia|]. destruct (op_hash (fst x) =? now)%N; simpl; lia.
Qed.

Lemma AbandonTransaction_loop_step E fuel hashTx now rest done w wtx :
  mapWallet w !! now = Some wtx ->
  AbandonTransaction_loop E (S fuel) hashTx (now :: rest) done w =
  if 0 <? GetDepthInMainChain E wtx then AssertFail
  else if to_abandon E wtx then
    if InMempool wtx then AssertFail
    else
      AbandonTransaction_loop E fuel hashTx
        (queue_spenders (while_hash now (lower_bound (mkOutPoint hashTx 0) (mapTxSpends w)))
                        (set_insert now done) (set_erase now (now :: rest)))
        (set_insert now done)
        (MarkDirty_parents (vin (tx wtx))
           (set_mapWallet (<[now := MarkDirty (abandoned_of wtx)]> (mapWallet w)) w))
  else AbandonTransaction_loop E fuel hashTx (set_erase now (now :: rest))
                               (set_insert now done) w.
Proof. intros H. simpl. rewrite H. reflexivity. Qed.

Lemma set_count_insert h x s :
  set_count h (set_insert x s) = true <-> h = x \/ set_count h s = true.
Proof. rewrite !set_count_In, set_insert_In. tauto. Qed.

Lemma same_but_caches_abandoned_of a b :
  same_but_caches a b -> same_but_caches (abandoned_of a) (abandoned_of b).
Proof. unfold same_but_caches. intros ->. destruct a; reflexivity. Qed.

(** The records after [now] was visited. *)
Lemma abandon_record_visit E w0 w done now wtx0 wtxk (mark : bool) w' :
  (forall h, abandon_record E w0 w done h) ->
  ~ In now done ->
  mapWallet w0 !! now = Some wtx0 ->
  mapWallet w !! now = Some wtxk ->
  mark = to_abandon E wtx0 ->
  w' = (if mark
        then MarkDirty_parents (vin (tx wtxk))
               (set_mapWallet (<[now := MarkDirty (abandoned_of wtxk)]> (mapWallet w)) w)
        else w) ->
  forall h, abandon_record E w0 w' (set_insert now done) h.
Proof.
  intros Hrec Hnd H0 Hk Hmark Hw' h. specialize (Hrec h). unfold abandon_record in *.
  assert (Hcount : set_count now done = false).
  { destruct (set_count now done) eqn:Hc; [|reflexivity].
    apply set_count_In in Hc. contradiction. }
  destruct (decide (h = now)) as [->|Hne].
  - rewrite H0 in *. rewrite Hk, Hcount in Hrec. simpl in Hrec.
    destruct Hrec as (x & Hx & Hs). inversion Hx; subst x.
    assert (Hin : set_count now (set_insert now done) = true)
      by (apply set_count_insert; left; reflexivity).
    rewrite Hin. simpl. rewrite <- Hmark. destruct mark; subst w'.
    + pose proof (MarkDirty_parents_caches (vin (tx wtxk))
                    (set_mapWallet (<[now := MarkDirty (abandoned_of wtxk)]> (mapWallet w)) w)
                    now) as Hp.
      simpl in Hp. rewrite lookup_insert_eq in Hp. destruct Hp as (x' & Hx' & Hs').
      exists x'. split; [exact Hx'|].
      eapply same_but_caches_trans; [apply same_but_caches_abandoned_of; exact Hs|].
      eapply same_but_caches_trans; [apply same_but_caches_MarkDirty|exact Hs'].
    + exists wtxk. auto.
  - assert (Hc : set_count h (set_insert now done) = set_count h done).
    { destruct (set_count h done) eqn:Hd.
      - apply set_count_insert. right. exact Hd.
      - destruct (set_count h (set_insert now done)) eqn:Hi; [|reflexivity].
        apply set_count_insert in Hi. destruct Hi; congruence. }
    rewrite Hc. destruct mark; subst w'; [|exact Hrec].
    pose proof (MarkDirty_parents_caches (vin (tx wtxk))
                  (set_mapWallet (<[now := MarkDirty (abandoned_of wtxk)]> (mapWallet w)) w)
                  h) as Hp.
    simpl in Hp. rewrite lookup_insert_ne in Hp by congruence.
    destruct (mapWallet w0 !! h) as [y|].
    + destruct Hrec as (y' & Hy' & Hs). rewrite Hy' in Hp.
      destruct Hp as (y'' & Hy'' & Hs'). exists y''. split; [exact Hy''|].
      eapply same_but_caches_trans; eauto.
    + rewrite Hrec in Hp. exact Hp.
Qed.

Section AbandonLoop.

Variables (E : Externals) (hashTx : uint256) (w0 : CWallet).
Hypothesis Hsorted : TxSpends_sorted (mapTxSpends w0).
Hypothesis Hable : forall x, spends w0 hashTx x -> x <> hashTx -> abandonable E w0 x.

Lemma AbandonTransaction_loop_rest fuel : forall todo done w,
  (length todo <= fuel)%nat ->
  Abandon_inv E hashTx w0 todo done w ->
  exists w' done',
    AbandonTransaction_loop E fuel hashTx todo done w = Ret w' /\
    Abandon_inv E hashTx w0 [] done' w'.
Proof.
  induction fuel as [|fuel IH]; intros todo done w Hlen Hinv.
  - destruct todo; [|simpl in Hlen; lia]. exists w, done. split; [reflexivity|exact Hinv].
  - destruct todo as [|now rest]; [exists w, done; split; [reflexivity|exact Hinv]|].
    destruct (ab_todo _ _ _ _ _ _ Hinv now (or_introl eq_refl)) as [Hsp Hnd].
    assert (Hne : now <> hashTx).
    { intros ->. apply Hnd. apply (ab_start _ _ _ _ _ _ Hinv). }
    destruct (Hable now Hsp Hne) as (wtx0 & Hw0 & Hdepth & Hpool).
    pose proof (ab_records _ _ _ _ _ _ Hinv now) as Hrec. unfold abandon_record in Hrec.
    rewrite Hw0 in Hrec.
    assert (Hcount : set_count now done = false).
    { destruct (set_count now done) eqn:Hc; [|reflexivity].
      apply set_count_In in Hc. contradiction. }
    rewrite Hcount in Hrec. simpl in Hrec. destruct Hrec as (wtxk & Hk & Hs).
    rewrite (AbandonTransaction_loop_step E fuel hashTx now rest done w wtxk Hk).
    rewrite (depth_ext E wtxk wtx0 (same_but_caches_chain_state _ _ Hs)).
    replace (0 <? GetDepthInMainChain E wtx0) with false by (symmetry; apply Z.ltb_ge; lia).
    rewrite (same_but_caches_to_abandon E wtx0 wtxk Hs).
    assert (Hpoolk : to_abandon E wtx0 = true -> InMempool wtxk = false).
    { intros Ht. unfold InMempool.
      destruct (same_but_caches_fields _ _ Hs) as (_ & _ & _ & _ & ->). apply Hpool, Ht. }
    assert (Hqueue : while_hash now (lower_bound (mkOutPoint hashTx 0) (mapTxSpends w)) = []).
    { rewrite (ab_spends _ _ _ _ _ _ Hinv). apply while_hash_other; auto.
      destruct Hsp as [n Hn]. eauto. }
    set (todo' := set_erase now (now :: rest)).
    assert (Hlen' : (length todo' <= fuel)%nat).
    { pose proof (set_erase_head_length now rest). simpl in Hlen. unfold todo'. lia. }
    assert (Hnext : forall w',
               w' = (if to_abandon E wtx0
                     then MarkDirty_parents (vin (tx wtxk))
                            (set_mapWallet
                               (<[now := MarkDirty (abandoned_of wtxk)]> (mapWallet w)) w)
                     else w) ->
               Abandon_inv E hashTx w0 todo' (set_insert now done) w').
    { intros w' Hw'.
      assert (Hidx : mapTxSpends w' = mapTxSpends w /\ wtxOrdered w' = wtxOrdered w /\
                     nOrderPosNext w' = nOrderPosNext w).
      { subst w'. destruct (to_abandon E wtx0); [|auto].
        destruct (MarkDirty_parents_spec (vin (tx wtxk))
                    (set_mapWallet (<[now := MarkDirty (abandoned_of wtxk)]> (mapWallet w)) w))
          as (H1 & H2 & H3 & _). auto. }
      destruct Hidx as (H1 & H2 & H3).
      constructor.
      - rewrite H1. apply (ab_spends _ _ _ _ _ _ Hinv).
      - rewrite H2. apply (ab_order _ _ _ _ _ _ Hinv).
      - rewrite H3. apply (ab_next _ _ _ _ _ _ Hinv).
      - apply set_insert_In. right. apply (ab_start _ _ _ _ _ _ Hinv).
      - intros x Hx. unfold todo' in Hx. apply set_erase_In in Hx. destruct Hx as [Hx Hxn].
        destruct (ab_todo _ _ _ _ _ _ Hinv x Hx) as [Hxs Hxd]. split; [exact Hxs|].
        rewrite set_insert_In. intros [->|Hd]; [apply Hxn; reflexivity|contradiction].
      - intros x Hx. apply set_insert_In in Hx. destruct Hx as [->|Hx]; [right; exact Hsp|].
        apply (ab_done _ _ _ _ _ _ Hinv x Hx).
      - intros x Hx. destruct (decide (x = now)) as [->|Hxn].
        + left. apply set_insert_In. left. reflexivity.
        + destruct (ab_all _ _ _ _ _ _ Hinv x Hx) as [Hd|Ht].
          * left. apply set_insert_In. right. exact Hd.
          * right. unfold todo'. apply set_erase_In. split; [exact Ht|exact Hxn].
      - eapply abandon_record_visit; eauto. apply (ab_records _ _ _ _ _ _ Hinv). }
    destruct (to_abandon E wtx0) eqn:Hta.
    + rewrite (Hpoolk eq_refl), Hqueue.
      change (queue_spenders [] (set_insert now done) (set_erase now (now :: rest)))
        with todo'.
      apply IH; [exact Hlen'|]. apply Hnext. reflexivity.
    + apply IH; [exact Hlen'|]. apply Hnext. reflexivity.
Qed.

End AbandonLoop.

Lemma AbandonTransaction_loop_done E fuel hashTx done w :
  AbandonTransaction_loop E fuel hashTx [] done w = Ret w.
Proof. destruct fuel; reflexivity. Qed.

Lemma AbandonTransaction_spec E fuel w hashTx origtx :
  TxSpends_sorted (mapTxSpends w) ->
  mapWallet w !! hashTx = Some origtx ->
  to_abandon E origtx = true ->
  InMempool origtx = false ->
  (forall x, spends w hashTx x -> x <> hashTx -> abandonable E w x) ->
  (length (mapTxSpends w) < fuel)%nat ->
  exists w' done,
    AbandonTransaction E fuel hashTx w = Ret (true, w') /\
    Abandon_inv E hashTx w [] done w'.
Proof.
  intros Hsorted Hw Hta Hpool Hable Hfuel.
  assert (Hd : GetDepthInMainChain E origtx = 0).
  { unfold to_abandon in Hta. apply andb_true_iff in Hta. destruct Hta as [Hta _].
    apply Z.eqb_eq. exact Hta. }
  unfold AbandonTransaction. rewrite Hw, Hd, Hpool. simpl.
  destruct fuel as [|fuel]; [lia|].
  assert (Herase : set_erase hashTx [hashTx] = []).
  { unfold set_erase. simpl. rewrite N.eqb_refl. reflexivity. }
  change (set_insert hashTx []) with [hashTx].
  rewrite (AbandonTransaction_loop_step E fuel hashTx hashTx [] [] w origtx Hw).
  rewrite Hd, Hta, Hpool, Herase.
  change (set_insert hashTx []) with [hashTx].
  change (0 <? 0) with false. cbv iota.
  set (sp := while_hash hashTx (lower_bound (mkOutPoint hashTx 0) (mapTxSpends w))).
  set (w1 := MarkDirty_parents _ _).
  set (todo1 := queue_spenders sp [hashTx] []).
  assert (Hinv1 : Abandon_inv E hashTx w todo1 [hashTx] w1).
  { destruct (MarkDirty_parents_spec (vin (tx origtx))
                (set_mapWallet (<[hashTx := MarkDirty (abandoned_of origtx)]> (mapWallet w)) w))
      as (H1 & H2 & H3 & _).
    constructor.
    - exact H1.
    - exact H2.
    - exact H3.
    - left. reflexivity.
    - intros x Hx. unfold todo1 in Hx. apply queue_spenders_In in Hx.
      destruct Hx as [[]|[Hx Hnd]]. split; [|exact Hnd].
      unfold sp in Hx. apply (while_hash_lower_bound hashTx _ Hsorted) in Hx. exact Hx.
    - intros x [<-|[]]. left. reflexivity.
    - intros x Hx. destruct (decide (x = hashTx)) as [->|Hne]; [left; left; reflexivity|].
      right. unfold todo1. apply queue_spenders_In. right. split.
      + unfold sp. apply (while_hash_lower_bound hashTx _ Hsorted). exact Hx.
      + intros [Heq|[]]. apply Hne. symmetry. exact Heq.
    - apply (abandon_record_visit E w w [] hashTx origtx origtx (to_abandon E origtx));
        auto.
      + intros h. unfold abandon_record. destruct (mapWallet w !! h) as [x|] eqn:Hx; [|reflexivity].
        exists x. split; [reflexivity|]. simpl. apply same_but_caches_refl.
      + rewrite Hta. reflexivity. }
  assert (Hlen : (length todo1 <= fuel)%nat).
  { pose proof (queue_spenders_length sp [hashTx] []) as Hq.
    pose proof (while_hash_length hashTx (lower_bound (mkOutPoint hashTx 0) (mapTxSpends w))).
    pose proof (lower_bound_length (mkOutPoint hashTx 0) (mapTxSpends w)).
    unfold todo1, sp in *. simpl in Hq. lia. }
  destruct (AbandonTransaction_loop_rest E hashTx w Hsorted Hable fuel todo1 [hashTx] w1
              Hlen Hinv1) as (w' & done' & Hloop & Hinv').
  rewrite Hloop. simpl. eauto.
Qed.

(** X4.  [AbandonTransaction] on a tracked transaction that is unconfirmed,
    not abandoned and not in the mempool returns true within one pass per
    entry of the spend index (plus one), when the asserts on its spenders
    hold.  It leaves the spend index and the order as they are and removes
    no record; the transaction, and each unconfirmed, not abandoned
    spender of one of its outputs, is marked abandoned with position -1;
    every other record, the spenders of those spenders among them, is as
    it was, up to its amount caches. *)
Theorem AbandonTransaction_abandons_with_spenders E fuel w hashTx origtx :
  TxSpends_sorted (mapTxSpends w) ->
  mapWallet w !! hashTx = Some origtx ->
  to_abandon E origtx = true ->
  InMempool origtx = false ->
  (forall x, spends w hashTx x -> x <> hashTx -> abandonable E w x) ->
  (length (mapTxSpends w) < fuel)%nat ->
  exists w',
    AbandonTransaction E fuel hashTx w = Ret (true, w') /\
    mapTxSpends w' = mapTxSpends w /\ wtxOrdered w' = wtxOrdered w /\
    nOrderPosNext w' = nOrderPosNext w /\
    forall h,
      match mapWallet w !! h with
      | Some wtx =>
          exists wtx',
            mapWallet w' !! h = Some wtx' /\
            (h = hashTx \/ spends w hashTx h ->
             same_but_caches (if to_abandon E wtx then abandoned_of wtx else wtx) wtx') /\
            (~ (h = hashTx \/ spends w hashTx h) -> same_but_caches wtx wtx')
      | None => mapWallet w' !! h = None
      end.
Proof.
  intros Hsorted Hw Hta Hpool Hable Hfuel.
  destruct (AbandonTransaction_spec E fuel w hashTx origtx Hsorted Hw Hta Hpool Hable Hfuel)
    as (w' & done & Hres & Hinv).
  exists w'. split; [exact Hres|].
  split; [apply (ab_spends _ _ _ _ _ _ Hinv)|].
  split; [apply (ab_order _ _ _ _ _ _ Hinv)|].
  split; [apply (ab_next _ _ _ _ _ _ Hinv)|].
  intros h. pose proof (ab_records _ _ _ _ _ _ Hinv h) as Hrec. unfold abandon_record in Hrec.
  destruct (mapWallet w !! h) as [wtx|]; [|exact Hrec].
  destruct Hrec as (wtx' & Hw' & Hs). exists wtx'. split; [exact Hw'|].
  destruct (set_count h done) eqn:Hc; simpl in Hs.
  - split; [intros _; exact Hs|]. intros Hn. exfalso. apply Hn.
    apply set_count_In in Hc. apply (ab_done _ _ _ _ _ _ Hinv h Hc).
  - assert (Hnd : ~ In h done) by (rewrite <- set_count_In, Hc; discriminate).
    split; [|intros _; exact Hs]. intros [->|Hsp].
    + exfalso. apply Hnd. apply (ab_start _ _ _ _ _ _ Hinv).
    + exfalso. destruct (ab_all _ _ _ _ _ _ Hinv h Hsp) as [Hd|[]]. contradiction.
Qed.

Lemma TxSpends_sorted_wallet_family : TxSpends_sorted (mapTxSpends wallet_family).
Proof. repeat constructor. Defined.

Lemma abandonable_wallet_family x :
  spends wallet_family 31%N x -> x <> 31%N -> abandonable E0 wallet_family x.
Proof.
  intros [n Hn] _. simpl in Hn.
  destruct Hn as [Hn|[Hn|[Hn|[]]]]; inversion Hn; subst.
  eexists. split; [vm_compute; reflexivity|]. split; [vm_compute; discriminate|].
  intros _. reflexivity.
Defined.

Lemma AbandonTransaction_abandons_with_spenders_witness :
  exists w',
    AbandonTransaction E0 5 31%N wallet_family = Ret (true, w') /\
    mapTxSpends w' = mapTxSpends wallet_family /\
    exists wtx', mapWallet w' !! 32%N = Some wtx' /\
                 isAbandoned wtx' = true /\ nIndex wtx' = -1.
Proof.
  destruct (AbandonTransaction_abandons_with_spenders E0 5 wallet_family 31%N
              (mk_wtx 31 [txin_of 50 0] [mkTxOut 70 []] 0 (-1) false))
    as (w' & Hres & Hsp & _ & _ & Hrec).
  - exact TxSpends_sorted_wallet_family.
  - vm_compute. reflexivity.
  - vm_compute. reflexivity.
  - reflexivity.
  - exact abandonable_wallet_family.
  - simpl. lia.
  - exists w'. split; [exact Hres|]. split; [exact Hsp|].
    specialize (Hrec 32%N).
    change (mapWallet wallet_family !! 32%N)
      with (Some (mk_wtx 32 [txin_of 31 0] [mkTxOut 60 []] 0 (-1) false)) in Hrec.
    destruct Hrec as (wtx' & Hw' & Hmark & _). exists wtx'. split; [exact Hw'|].
    assert (Hs : same_but_caches
                   (abandoned_of (mk_wtx 32 [txin_of 31 0] [mkTxOut 60 []] 0 (-1) false))
                   wtx').
    { apply Hmark. right. exists 0%N. left. reflexivity. }
    destruct (same_but_caches_fields _ _ Hs) as (_ & Hb & Hi & _).
    unfold isAbandoned. rewrite Hb, Hi. split; reflexivity.
Defined.

(** ** What [TransactionCanBeAbandoned] promises *)

Lemma AbandonTransaction_conflicted E fuel w hashTx origtx :
  mapWallet w !! hashTx = Some origtx ->
  GetDepthInMainChain E origtx < 0 ->
  InMempool origtx = false ->
  (0 < fuel)%nat ->
  AbandonTransaction E fuel hashTx w = Ret (true, w).
Proof.
  intros Hw Hd Hpool Hfuel. unfold AbandonTransaction. rewrite Hw, Hpool.
  assert (H0 : (0 <? GetDepthInMainChain E origtx) = false) by (apply Z.ltb_ge; lia).
  rewrite H0. cbn [orb].
  destruct fuel as [|fuel]; [lia|].
  change (set_insert hashTx []) with [hashTx].
  rewrite (AbandonTransaction_loop_step E fuel hashTx hashTx [] [] w origtx Hw).
  rewrite H0. unfold to_abandon.
  assert (H1 : (GetDepthInMainChain E origtx =? 0) = false) by (apply Z.eqb_neq; lia).
  rewrite H1. cbn [andb].
  assert (Herase : set_erase hashTx [hashTx] = []).
  { unfold set_erase. simpl. rewrite N.eqb_refl. reflexivity. }
  rewrite Herase, AbandonTransaction_loop_done. reflexivity.
Qed.

(** X5.  When [TransactionCanBeAbandoned] answers true, [AbandonTransaction]
    is not refused: it returns true (the asserts on the spenders holding).
    For a conflicted transaction (negative depth) the wallet is returned as
    it was, so that [TransactionCanBeAbandoned] still answers true; for an
    unconfirmed one (depth 0) it answers false afterwards. *)
Theorem TransactionCanBeAbandoned_then_AbandonTransaction E fuel w hashTx :
  TxSpends_sorted (mapTxSpends w) ->
  TransactionCanBeAbandoned E w hashTx = true ->
  (forall x, spends w hashTx x -> x <> hashTx -> abandonable E w x) ->
  (length (mapTxSpends w) < fuel)%nat ->
  exists origtx w',
    mapWallet w !! hashTx = Some origtx /\
    AbandonTransaction E fuel hashTx w = Ret (true, w') /\
    (GetDepthInMainChain E origtx < 0 -> w' = w) /\
    (GetDepthInMainChain E origtx = 0 ->
     TransactionCanBeAbandoned E w' hashTx = false).
Proof.
  intros Hsorted Hcan Hable Hfuel.
  unfold TransactionCanBeAbandoned, GetWalletTx in Hcan.
  destruct (mapWallet w !! hashTx) as [origtx|] eqn:Hw; [|discriminate].
  apply andb_true_iff in Hcan. destruct Hcan as [Hcan Hpool].
  apply andb_true_iff in Hcan. destruct Hcan as [Hab Hd].
  apply negb_true_iff in Hpool, Hab. apply Z.leb_le in Hd.
  exists origtx.
  destruct (Z.eq_dec (GetDepthInMainChain E origtx) 0) as [H0|Hn].
  - assert (Hta : to_abandon E origtx = true).
    { unfold to_abandon. rewrite H0, Hab. reflexivity. }
    destruct (AbandonTransaction_spec E fuel w hashTx origtx Hsorted Hw Hta Hpool Hable Hfuel)
      as (w' & done & Hres & Hinv).
    exists w'. split; [reflexivity|]. split; [exact Hres|]. split; [lia|].
    intros _.
    pose proof (ab_records _ _ _ _ _ _ Hinv hashTx) as Hrec. unfold abandon_record in Hrec.
    rewrite Hw in Hrec. destruct Hrec as (wtx' & Hw' & Hs).
    assert (Hc : set_count hashTx done = true).
    { apply set_count_In. apply (ab_start _ _ _ _ _ _ Hinv). }
    rewrite Hc, Hta in Hs. simpl in Hs.
    destruct (same_but_caches_fields _ _ Hs) as (_ & Hb & _).
    unfold TransactionCanBeAbandoned, GetWalletTx. rewrite Hw'.
    unfold isAbandoned. rewrite Hb. reflexivity.
  - exists w. split; [reflexivity|]. split.
    + apply (AbandonTransaction_conflicted E fuel w hashTx origtx Hw); [lia|exact Hpool|lia].
    + split; [reflexivity|]. intros H0. contradiction.
Qed.

Lemma TransactionCanBeAbandoned_then_AbandonTransaction_witness :
  exists origtx w',
    mapWallet wallet_family !! 31%N = Some origtx /\
    AbandonTransaction E0 5 31%N wallet_family = Ret (true, w') /\
    (GetDepthInMainChain E0 origtx < 0 -> w' = wallet_family) /\
    (GetDepthInMainChain E0 origtx = 0 ->
     TransactionCanBeAbandoned E0 w' 31%N = false).
Proof.
  apply (TransactionCanBeAbandoned_then_AbandonTransaction E0 5 wallet_family 31%N).
  - exact TxSpends_sorted_wallet_family.
  - vm_compute. reflexivity.
  - exact abandonable_wallet_family.
  - simpl. lia.
Defined.

(** * Further properties of coin selection *)

(** X6.  A successful [SelectCoinsMinConf] hands back coins of the
    candidate list whose values add up to the value it reports, and that
    value reaches the target. *)
Theorem SelectCoinsMinConf_success_covers_target E w nTargetValue nConfMine nConfTheirs
        nMaxAncestors vCoins setCoinsRet nValueRet r s v r' :
  0 <= MIN_CHANGE E ->
  List.NoDup (List.map out_outpoint vCoins) ->
  SelectCoinsMinConf E w nTargetValue nConfMine nConfTheirs nMaxAncestors vCoins
                     setCoinsRet nValueRet r = Ret (true, s, v, r') ->
  v = sum_coins s /\ nTargetValue <= v /\
  forall c, In c s -> In (outpoint c) (List.map out_outpoint vCoins).
Proof.
  intros Hmc Hnd H.
  destruct (SelectCoinsMinConf_sound E w nTargetValue nConfMine nConfTheirs nMaxAncestors
              vCoins setCoinsRet nValueRet r s v r' Hmc Hnd H) as (Hv & Ht & Hin).
  split; [exact Hv|]. split; [exact Ht|].
  intros c Hc. apply Hin. apply in_map. exact Hc.
Qed.

Lemma NoDup_outpoints_10_20_5 :
  List.NoDup (List.map out_outpoint [coin 1 10; coin 2 20; coin 3 5]).
Proof.
  repeat (apply List.NoDup_cons || apply List.NoDup_nil); simpl; intuition discriminate.
Defined.

Lemma SelectCoinsMinConf_success_covers_target_witness :
  exists s v r',
    SelectCoinsMinConf E0 wallet0 15 1 6 0 [coin 1 10; coin 2 20; coin 3 5] [] 0
                       (mkRng [] []) = Ret (true, s, v, r') /\
    v = sum_coins s /\ 15 <= v.
Proof.
  destruct (SelectCoinsMinConf E0 wallet0 15 1 6 0 [coin 1 10; coin 2 20; coin 3 5] [] 0
              (mkRng [] [])) as [[[[b s] v] r']| | | |] eqn:H;
    try (vm_compute in H; discriminate H).
  destruct b; [|vm_compute in H; discriminate H].
  exists s, v, r'. split; [reflexivity|].
  destruct (SelectCoinsMinConf_success_covers_target E0 wallet0 15 1 6 0%N
              [coin 1 10; coin 2 20; coin 3 5] [] 0 (mkRng [] []) s v r')
    as (Hv & Ht & _).
  - vm_compute. discriminate.
  - exact NoDup_outpoints_10_20_5.
  - exact H.
  - split; assumption.
Defined.

Section Funded.

Variable E : Externals.
Variables (w : CWallet) (nTargetValue : CAmount) (nConfMine nConfTheirs : Z)
          (nMaxAncestors : N).

Local Abbreviation scan := (SelectCoinsMinConf_scan E w nTargetValue nConfMine nConfTheirs nMaxAncestors).
Local Abbreviation cands := (filter_candidates E w nConfMine nConfTheirs nMaxAncestors).

Lemma pick_lower_Some low c : pick_lower low c <> None.
Proof.
  unfold pick_lower. destruct low as [lowest|]; [|discriminate].
  destruct (coin_value c <? coin_value lowest); discriminate.
Qed.

(** The scan returns on every list the filter returns on; when it leaves
    no coin above the bound, it has put every candidate in [vValue]. *)
Lemma scan_returns l : forall low vValue total,
  filter_returns E w nConfMine nConfTheirs nMaxAncestors l ->
  exists res,
    scan l low vValue total = Ret res /\
    match res with
    | ExactMatch _ => True
    | Scanned low' _ total' =>
        low' = None -> low = None /\ total' = total + sum_coins (cands l)
    end.
Proof.
  induction l as [|o l IH]; intros low vValue total Hret.
  - eexists. split; [reflexivity|]. simpl. intros ->. split; [reflexivity|].
    unfold sum_coins. simpl. lia.
  - rewrite scan_cons. inversion Hret as [|? ? [x Hx] Hret']; subst.
    rewrite filter_candidates_cons, Hx. simpl.
    destruct x as [coin|]; [|apply IH; exact Hret'].
    destruct (coin_value coin =? nTargetValue); [eexists; split; [reflexivity|exact I]|].
    destruct (coin_value coin <? nTargetValue + MIN_CHANGE E).
    + destruct (IH low (vValue ++ [coin]) (total + coin_value coin) Hret')
        as (res & Hres & Hspec).
      exists res. split; [exact Hres|]. destruct res as [c|low' vV' total']; [exact I|].
      intros Hn. destruct (Hspec Hn) as [Hl Ht]. split; [exact Hl|].
      rewrite Ht.
      change (sum_coins (coin :: cands l)) with (coin_value coin + sum_coins (cands l)).
      lia.
    + destruct (IH (pick_lower low coin) vValue total Hret') as (res & Hres & Hspec).
      exists res. split; [exact Hres|]. destruct res as [c|low' vV' total']; [exact I|].
      intros Hn. destruct (Hspec Hn) as [Hl _]. exfalso. exact (pick_lower_Some _ _ Hl).
Qed.

Lemma SelectCoinsMinConf_funded vCoins setCoinsRet nValueRet r :
  filter_returns E w nConfMine nConfTheirs nMaxAncestors vCoins ->
  nTargetValue <= sum_coins (cands vCoins) ->
  exists s v r',
    SelectCoinsMinConf E w nTargetValue nConfMine nConfTheirs nMaxAncestors vCoins
                       setCoinsRet nValueRet r = Ret (true, s, v, r').
Proof.
  intros Hret Hsum. unfold SelectCoinsMinConf.
  pose proof (random_shuffle_Permutation vCoins r) as Hperm.
  destruct (random_shuffle vCoins r) as [vCoins' r1]. simpl in Hperm.
  assert (Hret' : filter_returns E w nConfMine nConfTheirs nMaxAncestors vCoins').
  { eapply filter_returns_Permutation; [symmetry; exact Hperm|exact Hret]. }
  assert (Hsum' : sum_coins (cands vCoins') = sum_coins (cands vCoins)).
  { apply sum_coins_Permutation, filter_candidates_Permutation. exact Hperm. }
  destruct (scan_returns vCoins' None [] 0 Hret') as (res & Hres & Hspec).
  rewrite Hres. cbn [mbind outcome_bind].
  destruct res as [coin|low vValue total]; [eauto|].
  destruct (total =? nTargetValue).
  { destruct (insert_all vValue [] 0). eauto. }
  destruct (Z.ltb_spec total nTargetValue) as [Hlt|Hge].
  { destruct low as [lowest|]; [eauto|].
    destruct (Hspec eq_refl) as [_ Ht]. lia. }
  destruct (ApproximateBestSubset _ _ _ _) as [[vfBest nBest] r2].
  destruct (_ && _).
  - destruct (ApproximateBestSubset _ _ _ _) as [[vfBest' nBest'] r3].
    destruct low as [lowest|].
    + destruct (_ || _); [eauto|]. destruct (insert_best _ _ _ _). eauto.
    + destruct (insert_best _ _ _ _). eauto.
  - destruct low as [lowest|].
    + destruct (_ || _); [eauto|]. destruct (insert_best _ _ _ _). eauto.
    + destruct (insert_best _ _ _ _). eauto.
Qed.

End Funded.

(** X7.  [SelectCoinsMinConf] succeeds whenever the candidates that pass
    its filter (spendable, deep enough, within the ancestor limit) are
    worth the target together, the filter raising no exception. *)
Theorem SelectCoinsMinConf_succeeds_when_funded E w nTargetValue nConfMine nConfTheirs
        nMaxAncestors vCoins setCoinsRet nValueRet r :
  filter_returns E w nConfMine nConfTheirs nMaxAncestors vCoins ->
  nTargetValue <=
    sum_coins (filter_candidates E w nConfMine nConfTheirs nMaxAncestors vCoins) ->
  exists s v r',
    SelectCoinsMinConf E w nTargetValue nConfMine nConfTheirs nMaxAncestors vCoins
                       setCoinsRet nValueRet r = Ret (true, s, v, r').
Proof.
  intros Hret Hsum.
  destruct (SelectCoinsMinConf_funded E w nTargetValue nConfMine nConfTheirs nMaxAncestors
              vCoins setCoinsRet nValueRet r Hret Hsum) as (s & v & r' & H).
  exists s, v, r'. exact H.
Qed.

Lemma SelectCoinsMinConf_succeeds_when_funded_witness :
  exists s v r',
    SelectCoinsMinConf E0 wallet0 31 1 6 0 [coin 1 10; coin 2 20; coin 3 5] [] 0
                       (mkRng [] []) = Ret (true, s, v, r').
Proof.
  apply (SelectCoinsMinConf_succeeds_when_funded E0 wallet0 31 1 6 0%N
           [coin 1 10; coin 2 20; coin 3 5] [] 0 (mkRng [] [])).
  - repeat constructor; eexists; vm_compute; reflexivity.
  - vm_compute. discriminate.
Defined.

(** ** [SelectCoins] *)

(** X8.  A successful [SelectCoins], entered with an empty selection,
    reports the value of the coins it hands back, and that value reaches
    the target. *)
Theorem SelectCoins_success_covers_target E B w vAvailableCoins nTargetValue coinControl
        nCoinType r s v r' :
  0 <= MIN_CHANGE E ->
  List.NoDup (List.map out_outpoint vAvailableCoins) ->
  wallet_consistent w ->
  List.NoDup (vecPrivateSendDenominations B) ->
  SelectCoins E B w vAvailableCoins nTargetValue [] 0 coinControl nCoinType r
  = Ret (true, s, v, r') ->
  v = sum_coins s /\ nTargetValue <= v.
Proof.
  intros Hmc Hnd Hw HD H.
  exact (SelectCoins_sound E B w vAvailableCoins nTargetValue coinControl nCoinType
           r s v r' Hmc Hnd Hw HD H).
Qed.

Lemma wallet_consistent_wallet_preset : wallet_consistent wallet_preset.
Proof.
  intros h wtx H. unfold wallet_preset in H. simpl in H.
  apply lookup_insert_Some in H. destruct H as [[<- <-]|[_ H]]; [reflexivity|].
  rewrite lookup_empty in H. discriminate.
Defined.

Lemma SelectCoins_success_covers_target_witness :
  exists s v r',
    SelectCoins E0 B0 wallet_preset [coin 1 10; coin 2 20; coin 3 5] 12 [] 0
                (Some cc_preset) ALL_COINS (mkRng [] []) = Ret (true, s, v, r') /\
    v = sum_coins s /\ 12 <= v.
Proof.
  destruct (SelectCoins E0 B0 wallet_preset [coin 1 10; coin 2 20; coin 3 5] 12 [] 0
              (Some cc_preset) ALL_COINS (mkRng [] [])) as [[[[b s] v] r']| | | |] eqn:H;
    try (vm_compute in H; discriminate H).
  destruct b; [|vm_compute in H; discriminate H].
  exists s, v, r'. split; [reflexivity|].
  apply (SelectCoins_success_covers_target E0 B0 wallet_preset
           [coin 1 10; coin 2 20; coin 3 5] 12 (Some cc_preset) ALL_COINS (mkRng [] [])
           s v r').
  - vm_compute. discriminate.
  - exact NoDup_outpoints_10_20_5.
  - exact wallet_consistent_wallet_preset.
  - exact NoDup_denominations_B0.
  - exact H.
Defined.

Lemma In_ListSelected cc op : In op (ListSelected cc) <-> op ∈ setSelected cc.
Proof.
  unfold ListSelected. rewrite <- list_elem_of_In.
  rewrite merge_sort_Permutation. apply elem_of_elements.
Qed.

Lemma HasSelected_elem cc op : op ∈ setSelected cc -> HasSelected cc = true.
Proof.
  intros H. unfold HasSelected. apply bool_decide_eq_true_2. set_solver.
Qed.

Lemma SelectCoins_presets_missing w l : forall ps pv,
  (exists op, In op l /\ preset_missing w op) ->
  SelectCoins_presets w l ps pv = Ret None.
Proof.
  induction l as [|op l IH]; intros ps pv (x & Hx & Hmiss); [destruct Hx|].
  simpl. destruct (mapWallet w !! op_hash op) as [pcoin|] eqn:Hw; [|reflexivity].
  destruct (vout (tx pcoin) !! N.to_nat (op_n op)) as [o|] eqn:Ho; [|reflexivity].
  unfold CInputCoin_of. rewrite Ho. cbn [mbind outcome_bind].
  apply IH. exists x. split; [|exact Hmiss].
  destruct Hx as [<-|Hx]; [|exact Hx]. exfalso.
  unfold preset_missing in Hmiss. rewrite Hw in Hmiss.
  apply lookup_ge_None_2 in Hmiss. congruence.
Qed.

(** X9.  With preset inputs and other inputs allowed, [SelectCoins] fails
    as soon as one preset is no output of the wallet (unknown transaction
    or output index out of range), and leaves the selection and the value
    it was entered with as they are. *)
Theorem SelectCoins_missing_preset_fails E B w vAvailableCoins nTargetValue setCoinsRet
        nValueRet cc nCoinType r op :
  fAllowOtherInputs cc = true ->
  nCoinType <> ONLY_DENOMINATED ->
  op ∈ setSelected cc ->
  preset_missing w op ->
  SelectCoins E B w vAvailableCoins nTargetValue setCoinsRet nValueRet (Some cc) nCoinType r
  = Ret (false, setCoinsRet, nValueRet, r).
Proof.
  intros Hallow Hty Hop Hmiss. unfold SelectCoins.
  rewrite Hallow, andb_false_r.
  rewrite (bool_decide_eq_false_2 _ Hty).
  rewrite (SelectCoins_presets_missing w (ListSelected cc) [] 0).
  - reflexivity.
  - exists op. split; [apply In_ListSelected; exact Hop|exact Hmiss].
Qed.

Lemma SelectCoins_missing_preset_fails_witness :
  SelectCoins E0 B0 wallet_preset [coin 1 10; coin 2 20] 12 [input_coin 9 9] 9
              (Some cc_unknown) ALL_COINS (mkRng [] [])
  = Ret (false, [input_coin 9 9], 9, mkRng [] []).
Proof.
  apply (SelectCoins_missing_preset_fails E0 B0 wallet_preset [coin 1 10; coin 2 20] 12
           [input_coin 9 9] 9 cc_unknown ALL_COINS (mkRng [] []) (mkOutPoint 7%N 0%N)).
  - reflexivity.
  - discriminate.
  - unfold cc_unknown. simpl. set_solver.
  - vm_compute. exact I.
Defined.

Lemma fold_coinset_insert_outpoints ps : forall s o,
  In o (List.map outpoint (fold_left (fun s c => coinset_insert c s) ps s)) <->
  In o (List.map outpoint s) \/ In o (List.map outpoint ps).
Proof.
  induction ps as [|c ps IH]; intros s o; simpl; [tauto|].
  rewrite IH, coinset_insert_outpoints. intuition congruence.
Qed.

Lemma SelectCoins_presets_outpoints w l : forall ps0 pv0 ps pv,
  wallet_consistent w ->
  SelectCoins_presets w l ps0 pv0 = Ret (Some (ps, pv)) ->
  forall op, In op l -> In op (List.map outpoint ps).
Proof.
  induction l as [|x l IH]; intros ps0 pv0 ps pv Hw H op Hop; [destruct Hop|].
  simpl in H. destruct (mapWallet w !! op_hash x) as [pcoin|] eqn:Hx; [|discriminate].
  destruct (vout (tx pcoin) !! N.to_nat (op_n x)) as [o|] eqn:Ho; [|discriminate].
  unfold CInputCoin_of in H. rewrite Ho in H. cbn [mbind outcome_bind] in H.
  destruct Hop as [<-|Hop].
  - assert (Hkeep : forall l' a b ps' pv',
               SelectCoins_presets w l' a b = Ret (Some (ps', pv')) ->
               forall y, In y (List.map outpoint a) -> In y (List.map outpoint ps')).
    { induction l' as [|z l' IH']; intros a b ps' pv' H' y Hy.
      - inversion H'; subst. exact Hy.
      - simpl in H'. destruct (mapWallet w !! op_hash z) as [pz|]; [|discriminate].
        destruct (vout (tx pz) !! N.to_nat (op_n z)) as [oz|] eqn:Hoz; [|discriminate].
        unfold CInputCoin_of in H'. rewrite Hoz in H'. cbn [mbind outcome_bind] in H'.
        apply (IH' _ _ _ _ H'). apply coinset_insert_outpoints. right. exact Hy. }
    apply (Hkeep _ _ _ _ _ H). apply coinset_insert_outpoints. left.
    simpl. rewrite (Hw _ _ Hx). destruct x; reflexivity.
  - apply (IH _ _ _ _ Hw H). exact Hop.
Qed.

(** X10.  In the automatic path of [SelectCoins] (other inputs allowed,
    not denominated-only), a successful selection contains every preset
    input of the coin control. *)
Theorem SelectCoins_includes_presets E B w vAvailableCoins nTargetValue setCoinsRet
        nValueRet cc nCoinType r s v r' :
  wallet_consistent w ->
  fAllowOtherInputs cc = true ->
  nCoinType <> ONLY_DENOMINATED ->
  SelectCoins E B w vAvailableCoins nTargetValue setCoinsRet nValueRet (Some cc) nCoinType r
  = Ret (true, s, v, r') ->
  forall op, op ∈ setSelected cc -> In op (List.map outpoint s).
Proof.
  intros Hw Hallow Hty H op Hop. unfold SelectCoins in H.
  rewrite Hallow, andb_false_r in H.
  rewrite (bool_decide_eq_false_2 _ Hty) in H.
  apply bind_Ret_inv in H. destruct H as (presets & Hpre & H).
  destruct presets as [[ps pv]|]; [|discriminate].
  apply bind_Ret_inv in H. destruct H as (vCoins & _ & H).
  cbn [mbind outcome_bind] in H.
  repeat (apply bind_Ret_inv in H; destruct H as (? & _ & H)).
  match type of H with
  | context [match ?t with _ => _ end] => destruct t as [[[res s7] v7] r7]
  end.
  inversion H; subst.
  apply fold_coinset_insert_outpoints. right.
  apply (SelectCoins_presets_outpoints w (ListSelected cc) [] 0 ps pv Hw Hpre).
  apply In_ListSelected. exact Hop.
Qed.

Lemma SelectCoins_includes_presets_witness :
  exists s v r',
    SelectCoins E0 B0 wallet_preset [coin 1 10; coin 2 20; coin 3 5] 12 [] 0
                (Some cc_preset) ALL_COINS (mkRng [] []) = Ret (true, s, v, r') /\
    In (mkOutPoint 1%N 0%N) (List.map outpoint s).
Proof.
  destruct (SelectCoins E0 B0 wallet_preset [coin 1 10; coin 2 20; coin 3 5] 12 [] 0
              (Some cc_preset) ALL_COINS (mkRng [] [])) as [[[[b s] v] r']| | | |] eqn:H;
    try (vm_compute in H; discriminate H).
  destruct b; [|vm_compute in H; discriminate H].
  exists s, v, r'. split; [reflexivity|].
  apply (SelectCoins_includes_presets E0 B0 wallet_preset [coin 1 10; coin 2 20; coin 3 5]
           12 [] 0 cc_preset ALL_COINS (mkRng [] []) s v r').
  - exact wallet_consistent_wallet_preset.
  - reflexivity.
  - discriminate.
  - exact H.
  - unfold cc_preset. simpl. set_solver.
Defined.

Lemma SelectCoins_preselected_total B nCoinType l : forall s0 v0 s v,
  nCoinType <> ONLY_DENOMINATED ->
  SelectCoins_preselected B nCoinType l s0 v0 = Ret (s, v) ->
  v = v0 + spendable_total l /\
  forall op, In op (List.map outpoint s) <->
             In op (List.map outpoint s0) \/
             exists out, In out l /\ fSpendable out = true /\ out_outpoint out = op.
Proof.
  intros s0 v0 s v Hty. revert s0 v0.
  induction l as [|out l IH]; intros s0 v0 H; simpl in H.
  - inversion H; subst. split; [simpl; lia|]. intros op. split; [auto|].
    intros [Hop|(out & [] & _)]. exact Hop.
  - rewrite (bool_decide_eq_false_2 _ Hty) in H. cbn [andb] in H.
    unfold spendable_total. simpl. fold (spendable_total l).
    destruct (fSpendable out) eqn:Hsp; simpl in H.
    + unfold out_value.
      destruct (vout (tx (out_tx out)) !! N.to_nat (out_i out)) as [o|] eqn:Ho;
        [|discriminate].
      unfold CInputCoin_of in H. rewrite Ho in H. cbn [mbind outcome_bind] in H.
      apply IH in H. destruct H as [Hv Hin]. split; [lia|].
      intros op. rewrite Hin, coinset_insert_outpoints. simpl. split.
      * intros [[->|Hop]|(x & Hx & Hxs & Hxo)].
        -- right. exists out. split; [left; reflexivity|]. split; [exact Hsp|reflexivity].
        -- left. exact Hop.
        -- right. exists x. split; [right; exact Hx|]. split; assumption.
      * intros [Hop|(x & [<-|Hx] & Hxs & Hxo)].
        -- left. right. exact Hop.
        -- left. left. symmetry. exact Hxo.
        -- right. exists x. split; [exact Hx|]. split; assumption.
    + apply IH in H. destruct H as [Hv Hin]. split; [exact Hv|].
      intros op. rewrite Hin. split.
      * intros [Hop|(x & Hx & Hxs & Hxo)]; [left; exact Hop|].
        right. exists x. split; [right; exact Hx|]. split; assumption.
      * intros [Hop|(x & [<-|Hx] & Hxs & Hxo)]; [left; exact Hop|congruence|].
        right. exists x. split; [exact Hx|]. split; assumption.
Qed.

(** X11.  With preset inputs and no other input allowed (and not
    denominated-only), [SelectCoins] looks at no target while it selects:
    it adds every spendable candidate to the selection it was entered
    with, adds their values to the value it was entered with, draws no
    random number, and answers whether that value reaches the target. *)
Theorem SelectCoins_only_selected_takes_all E B w vAvailableCoins nTargetValue setCoinsRet
        nValueRet cc nCoinType r res s v r' :
  setSelected cc <> ∅ ->
  fAllowOtherInputs cc = false ->
  nCoinType <> ONLY_DENOMINATED ->
  SelectCoins E B w vAvailableCoins nTargetValue setCoinsRet nValueRet (Some cc) nCoinType r
  = Ret (res, s, v, r') ->
  r' = r /\
  v = nValueRet + spendable_total vAvailableCoins /\
  res = (nTargetValue <=? v) /\
  forall op, In op (List.map outpoint s) <->
             In op (List.map outpoint setCoinsRet) \/
             exists out, In out vAvailableCoins /\ fSpendable out = true /\
                         out_outpoint out = op.
Proof.
  intros Hsel Hallow Hty H. unfold SelectCoins in H.
  unfold HasSelected in H. rewrite (bool_decide_eq_true_2 _ Hsel), Hallow in H.
  cbn [andb negb] in H.
  apply bind_Ret_inv in H. destruct H as ([s1 v1] & Hpre & H).
  inversion H; subst.
  destruct (SelectCoins_preselected_total B nCoinType vAvailableCoins setCoinsRet nValueRet
              s v Hty Hpre) as [Hv Hin].
  split; [reflexivity|]. split; [exact Hv|]. split; [reflexivity|exact Hin].
Qed.

Lemma SelectCoins_only_selected_takes_all_witness :
  exists res s v r',
    SelectCoins E0 B0 wallet_preset [coin 1 10; coin 2 20; coin 3 5] 12 [] 0
                (Some cc_only_selected) ALL_COINS (mkRng [] []) = Ret (res, s, v, r') /\
    v = 0 + spendable_total [coin 1 10; coin 2 20; coin 3 5].
Proof.
  destruct (SelectCoins E0 B0 wallet_preset [coin 1 10; coin 2 20; coin 3 5] 12 [] 0
              (Some cc_only_selected) ALL_COINS (mkRng [] []))
    as [[[[b s] v] r']| | | |] eqn:H; try (vm_compute in H; discriminate H).
  exists b, s, v, r'. split; [reflexivity|].
  destruct (SelectCoins_only_selected_takes_all E0 B0 wallet_preset
              [coin 1 10; coin 2 20; coin 3 5] 12 [] 0 cc_only_selected ALL_COINS
              (mkRng [] []) b s v r') as (_ & Hv & _).
  - unfold cc_only_selected. simpl. set_solver.
  - reflexivity.
  - discriminate.
  - exact H.
  - exact Hv.
Defined.

(** * What marking keeps of the wallet *)

Lemma wallet_kept_refl w : wallet_kept w w.
Proof.
  repeat split. intros h. apply record_kept_refl.
Qed.

Lemma wallet_kept_trans a b c : wallet_kept a b -> wallet_kept b c -> wallet_kept a c.
Proof.
  intros (H1 & H2 & H3 & H4) (G1 & G2 & G3 & G4).
  split; [congruence|]. split; [congruence|]. split; [congruence|].
  intros h. eapply record_kept_trans; [apply H4|apply G4].
Qed.

Lemma wallet_kept_wf w w' : wallet_kept w w' -> wallet_wf w -> wallet_wf w'.
Proof.
  intros (H1 & _ & _ & H4) (Hs & Ht & Hc).
  split; [rewrite H1; exact Hs|]. split.
  - intros o h Hin. rewrite H1 in Hin. specialize (Ht o h Hin). specialize (H4 h).
    destruct Ht as [x Hx]. rewrite Hx in H4.
    destruct (mapWallet w' !! h) as [y|]; [eauto|destruct H4].
  - intros h wtx' Hw'. specialize (H4 h). rewrite Hw' in H4.
    destruct (mapWallet w !! h) as [x|] eqn:Hx; [|destruct H4].
    destruct H4 as [Htx _]. unfold GetHash. rewrite Htx. apply (Hc h x Hx).
Qed.

(** One marking step: the record of [now] replaced by one with the same
    transaction and position, then the parents' caches marked dirty. *)
Lemma mark_step_kept w now wtx wtx' ins :
  mapWallet w !! now = Some wtx ->
  tx wtx' = tx wtx -> nOrderPos wtx' = nOrderPos wtx ->
  wallet_kept w (MarkDirty_parents ins
                   (set_mapWallet (<[now := wtx']> (mapWallet w)) w)).
Proof.
  intros Hw Htx Hpos.
  set (wm := set_mapWallet (<[now := wtx']> (mapWallet w)) w).
  destruct (MarkDirty_parents_spec ins wm) as (H1 & H2 & H3 & _).
  split; [exact H1|]. split; [exact H2|]. split; [exact H3|].
  intros h. pose proof (MarkDirty_parents_caches ins wm h) as Hc.
  unfold wm in Hc at 1. simpl in Hc.
  destruct (decide (h = now)) as [->|Hne].
  - rewrite lookup_insert_eq in Hc. destruct Hc as (x' & -> & Hs). rewrite Hw.
    destruct (same_but_caches_fields _ _ Hs) as (Ht & _ & _ & Hp & _).
    simpl. split; congruence.
  - rewrite lookup_insert_ne in Hc by congruence.
    destruct (mapWallet w !! h) as [x|].
    + destruct Hc as (x' & -> & Hs).
      destruct (same_but_caches_fields _ _ Hs) as (Ht & _ & _ & Hp & _).
      simpl. split; congruence.
    + rewrite Hc. exact I.
Qed.

Lemma MarkConflicted_loop_kept E hb cc fuel : forall todo done w w',
  MarkConflicted_loop E fuel hb cc todo done w = Ret w' -> wallet_kept w w'.
Proof.
  induction fuel as [|fuel IH]; intros todo done w w' H.
  - destruct todo; [|discriminate]. inversion H; subst. apply wallet_kept_refl.
  - destruct todo as [|now rest]; [inversion H; subst; apply wallet_kept_refl|].
    simpl in H. destruct (mapWallet w !! now) as [wtx|] eqn:Hw; [|discriminate].
    destruct (cc <? GetDepthInMainChain E wtx).
    + apply IH in H. eapply wallet_kept_trans; [|exact H].
      apply (mark_step_kept w now wtx); [exact Hw|reflexivity|reflexivity].
    + apply IH in H. exact H.
Qed.

(** X12.  [MarkConflicted], whenever it returns, has added and removed no
    record, has left the spend index, the ordered list and its counter
    alone, and has kept the transaction and the order position of every
    record; a well-formed wallet stays well formed. *)
Theorem MarkConflicted_keeps_ledger E fuel hashBlock' hashTx w w' :
  MarkConflicted E fuel hashBlock' hashTx w = Ret w' ->
  wallet_kept w w' /\ (wallet_wf w -> wallet_wf w').
Proof.
  intros H.
  assert (Hk : wallet_kept w w').
  { unfold MarkConflicted in H.
    destruct (0 <=? conflictconfirms_of E hashBlock').
    - inversion H; subst. apply wallet_kept_refl.
    - apply MarkConflicted_loop_kept in H. exact H. }
  split; [exact Hk|]. apply wallet_kept_wf. exact Hk.
Qed.

Lemma MarkConflicted_keeps_ledger_witness :
  exists w',
    MarkConflicted E0 4 101 21 wallet_cycle = Ret w' /\
    mapTxSpends w' = mapTxSpends wallet_cycle.
Proof.
  destruct (MarkConflicted E0 4 101 21 wallet_cycle) as [w'| | | |] eqn:H;
    try (vm_compute in H; discriminate H).
  exists w'. split; [reflexivity|].
  destruct (MarkConflicted_keeps_ledger E0 4 101%N 21%N wallet_cycle w' H) as [(Hs & _) _].
  exact Hs.
Defined.

Lemma AbandonTransaction_loop_kept E hashTx fuel : forall todo done w w',
  AbandonTransaction_loop E fuel hashTx todo done w = Ret w' -> wallet_kept w w'.
Proof.
  induction fuel as [|fuel IH]; intros todo done w w' H.
  - destruct todo; [|discriminate]. inversion H; subst. apply wallet_kept_refl.
  - destruct todo as [|now rest]; [inversion H; subst; apply wallet_kept_refl|].
    simpl in H. destruct (mapWallet w !! now) as [wtx|] eqn:Hw; [|discriminate].
    destruct (0 <? GetDepthInMainChain E wtx); [discriminate|].
    destruct (_ && _).
    + destruct (InMempool wtx); [discriminate|].
      apply IH in H. eapply wallet_kept_trans; [|exact H].
      apply (mark_step_kept w now wtx); [exact Hw|reflexivity|reflexivity].
    + apply IH in H. exact H.
Qed.

(** X13.  [AbandonTransaction], whenever it returns (refusing or not), has
    added and removed no record, has left the spend index, the ordered
    list and its counter alone, and has kept the transaction and the order
    position of every record; a well-formed wallet stays well formed. *)
Theorem AbandonTransaction_keeps_ledger E fuel hashTx w b w' :
  AbandonTransaction E fuel hashTx w = Ret (b, w') ->
  wallet_kept w w' /\ (wallet_wf w -> wallet_wf w').
Proof.
  intros H.
  assert (Hk : wallet_kept w w').
  { unfold AbandonTransaction in H.
    destruct (mapWallet w !! hashTx) as [origtx|]; [|discriminate].
    destruct (_ || _).
    - inversion H; subst. apply wallet_kept_refl.
    - apply bind_Ret_inv in H. destruct H as (w1 & Hloop & H). inversion H; subst.
      apply AbandonTransaction_loop_kept in Hloop. exact Hloop. }
  split; [exact Hk|]. apply wallet_kept_wf. exact Hk.
Qed.

Lemma AbandonTransaction_keeps_ledger_witness :
  exists b w',
    AbandonTransaction E0 5 31%N wallet_family = Ret (b, w') /\
    mapTxSpends w' = mapTxSpends wallet_family.
Proof.
  destruct (AbandonTransaction E0 5 31%N wallet_family) as [[b w']| | | |] eqn:H;
    try (vm_compute in H; discriminate H).
  exists b, w'. split; [reflexivity|].
  destruct (AbandonTransaction_keeps_ledger E0 5 31%N wallet_family b w' H)
    as [(Hs & _) _].
  exact Hs.
Defined.

(** * Abandoning frees the inputs *)

Lemma GetDepthInMainChain_abandoned_of E wtx :
  IsLockedInstantSendTransaction E (GetHash wtx) = false ->
  GetDepthInMainChain E (abandoned_of wtx) = 0.
Proof.
  intros Hlock. unfold GetDepthInMainChain, GetDepthInMainChain_IX, GetDepthInMainChain_1.
  assert (Hu : hashUnset (abandoned_of wtx) = true).
  { unfold hashUnset, abandoned_of, setAbandoned. destruct wtx; reflexivity. }
  rewrite Hu.
  change (GetHash (abandoned_of wtx)) with (GetHash wtx). rewrite Hlock.
  destruct (GetDepthInMainChain_default E) as [enableIX|]; [|reflexivity].
  rewrite andb_false_r. reflexivity.
Qed.

Lemma IsSpent_true_inv E w hash n :
  IsSpent E w hash n = true ->
  exists h mit,
    In (mkOutPoint hash n, h) (mapTxSpends w) /\ mapWallet w !! h = Some mit /\
    ((0 <? GetDepthInMainChain E mit)
     || ((GetDepthInMainChain E mit =? 0) && negb (isAbandoned mit))) = true.
Proof.
  unfold IsSpent. intros H. apply existsb_exists in H. destruct H as ([o h] & Hin & H).
  apply equal_range_In in Hin. destruct Hin as [Hin Ho]. simpl in Ho. subst o.
  simpl in H. destruct (mapWallet w !! h) as [mit|] eqn:Hm; [|discriminate].
  exists h, mit. auto.
Qed.

(** X14.  Abandoning frees the inputs.  Let [hashTx] be tracked,
    unconfirmed, not abandoned, not in the mempool and not locked by
    InstantSend, and let it be the only spender the index holds for the
    outpoint [o]: before [AbandonTransaction] the wallet counts [o] as
    spent, after it [o] is not spent any more. *)
Theorem AbandonTransaction_frees_inputs E fuel w hashTx origtx o :
  TxSpends_sorted (mapTxSpends w) ->
  mapWallet w !! hashTx = Some origtx ->
  to_abandon E origtx = true ->
  InMempool origtx = false ->
  IsLockedInstantSendTransaction E (GetHash origtx) = false ->
  (forall x, spends w hashTx x -> x <> hashTx -> abandonable E w x) ->
  (length (mapTxSpends w) < fuel)%nat ->
  In (o, hashTx) (mapTxSpends w) ->
  (forall h, In (o, h) (mapTxSpends w) -> h = hashTx) ->
  IsSpent E w (op_hash o) (op_n o) = true /\
  exists w',
    AbandonTransaction E fuel hashTx w = Ret (true, w') /\
    IsSpent E w' (op_hash o) (op_n o) = false.
Proof.
  intros Hsorted Hw Hta Hpool Hlock Hable Hfuel Hin Honly.
  assert (Ho : mkOutPoint (op_hash o) (op_n o) = o) by (destruct o; reflexivity).
  split.
  - unfold IsSpent. apply existsb_exists. exists (o, hashTx). split.
    + apply equal_range_In. split; [exact Hin|]. simpl. symmetry. exact Ho.
    + simpl. rewrite Hw. unfold to_abandon in Hta.
      apply andb_true_iff in Hta. destruct Hta as [Hd Hab]. rewrite Hd, Hab.
      apply orb_true_r.
  - destruct (AbandonTransaction_spec E fuel w hashTx origtx Hsorted Hw Hta Hpool Hable Hfuel)
      as (w' & done & Hres & Hinv).
    exists w'. split; [exact Hres|].
    destruct (IsSpent E w' (op_hash o) (op_n o)) eqn:Hsp; [|reflexivity]. exfalso.
    apply IsSpent_true_inv in Hsp. destruct Hsp as (h & mit & Hh & Hm & Hc).
    rewrite Ho, (ab_spends _ _ _ _ _ _ Hinv) in Hh.
    apply Honly in Hh. subst h.
    pose proof (ab_records _ _ _ _ _ _ Hinv hashTx) as Hrec. unfold abandon_record in Hrec.
    rewrite Hw in Hrec. destruct Hrec as (wtx' & Hw' & Hs).
    assert (Hcnt : set_count hashTx done = true).
    { apply set_count_In. apply (ab_start _ _ _ _ _ _ Hinv). }
    rewrite Hcnt, Hta in Hs. simpl in Hs.
    rewrite Hw' in Hm. inversion Hm; subst mit.
    rewrite (depth_ext E wtx' (abandoned_of origtx)
               (same_but_caches_chain_state _ _ Hs)) in Hc.
    rewrite (GetDepthInMainChain_abandoned_of E origtx Hlock) in Hc.
    destruct (same_but_caches_fields _ _ Hs) as (_ & Hb & _).
    unfold isAbandoned in Hc. rewrite Hb in Hc. simpl in Hc. discriminate Hc.
Qed.

Lemma AbandonTransaction_frees_inputs_witness :
  IsSpent E0 wallet_family 50%N 0%N = true /\
  exists w',
    AbandonTransaction E0 5 31%N wallet_family = Ret (true, w') /\
    IsSpent E0 w' 50%N 0%N = false.
Proof.
  apply (AbandonTransaction_frees_inputs E0 5 wallet_family 31%N
           (mk_wtx 31 [txin_of 50 0] [mkTxOut 70 []] 0 (-1) false)
           (mkOutPoint 50%N 0%N)).
  - exact TxSpends_sorted_wallet_family.
  - vm_compute. reflexivity.
  - vm_compute. reflexivity.
  - reflexivity.
  - vm_compute. reflexivity.
  - exact abandonable_wallet_family.
  - simpl. lia.
  - simpl. auto.
  - intros h Hh. simpl in Hh.
    destruct Hh as [Hh|[Hh|[Hh|[]]]]; inversion Hh; reflexivity.
Defined.

(** * Further properties of the transaction builder *)

Lemma sum_recipients_negative vecSend : forall v n,
  (exists recipient, In recipient vecSend /\ nAmount recipient < 0) ->
  sum_recipients vecSend v n = None.
Proof.
  induction vecSend as [|x l IH]; intros v n (recipient & Hin & Hneg); [destruct Hin|].
  simpl. destruct (v <? 0); [reflexivity|]. simpl.
  destruct (Z.ltb_spec (nAmount x) 0) as [Hx|Hx]; [reflexivity|].
  apply IH. exists recipient. split; [|exact Hneg].
  destruct Hin as [->|Hin]; [lia|exact Hin].
Qed.

(** X15.  [CreateTransaction] refuses a list of recipients that holds a
    negative amount ("Transaction amounts must not be negative") and an
    empty list ("Transaction must have at least one recipient"), whatever
    the wallet, the candidates and the random draws. *)
Theorem CreateTransaction_rejects_bad_recipients E B fuel w vecSend nChangePosInOut
        coin_control sign nCoinType vAvailableCoins r :
  ((exists recipient, In recipient vecSend /\ nAmount recipient < 0) ->
   CreateTransaction E B fuel w vecSend nChangePosInOut coin_control sign nCoinType
                     vAvailableCoins r = Ret (Failed AmountsNegative)) /\
  (vecSend = [] ->
   CreateTransaction E B fuel w vecSend nChangePosInOut coin_control sign nCoinType
                     vAvailableCoins r = Ret (Failed NoRecipient)).
Proof.
  split.
  - intros Hneg. unfold CreateTransaction.
    rewrite (sum_recipients_negative vecSend 0 0 Hneg). reflexivity.
  - intros ->. reflexivity.
Qed.

(** The result of the fee loop is the result of one of its passes. *)
Lemma CreateTransaction_loop_last E B w vecSend coin_control nCoinType vAvailableCoins
      nValue' nSub nChangePosRequest change_prototype_txout (P : BuildState -> Prop) :
  (forall s s', P s ->
     CreateTransaction_pass E B w vecSend coin_control nCoinType vAvailableCoins nValue' nSub
                            nChangePosRequest change_prototype_txout s
     = Ret (PassContinue s') -> P s') ->
  forall fuel s p,
    P s ->
    CreateTransaction_loop E B fuel w vecSend coin_control nCoinType vAvailableCoins nValue'
                           nSub nChangePosRequest change_prototype_txout s = Ret p ->
    exists s', P s' /\
      CreateTransaction_pass E B w vecSend coin_control nCoinType vAvailableCoins nValue' nSub
                             nChangePosRequest change_prototype_txout s' = Ret p.
Proof.
  intros Hstep. induction fuel as [|fuel IH]; intros s p Hs H; [discriminate|].
  simpl in H. apply bind_Ret_inv in H. destruct H as (p1 & Hp1 & H).
  destruct p1 as [vin' vout' fee pos coins r'|s1|reason].
  - inversion H; subst. exists s. split; [exact Hs|exact Hp1].
  - apply (IH s1 p); [|exact H]. apply (Hstep s s1 Hs Hp1).
  - inversion H; subst. exists s. split; [exact Hs|exact Hp1].
Qed.

(** What [CreateTransaction] returns when it builds. *)
Lemma CreateTransaction_Built_pass E B fuel w vecSend nChangePosInOut coin_control sign
      nCoinType vAvailableCoins r txNew fee pos coins (P : BuildState -> Prop) :
  (forall scriptChange s s', P s ->
     CreateTransaction_pass E B w vecSend coin_control nCoinType vAvailableCoins
       (total_amount vecSend) (count_subtract vecSend) nChangePosInOut
       (mkTxOut 0 scriptChange) s = Ret (PassContinue s') -> P s') ->
  (forall r0, P (mkBuildState 0 true 0 [] r0 0)) ->
  CreateTransaction E B fuel w vecSend nChangePosInOut coin_control sign nCoinType
                    vAvailableCoins r = Ret (Built txNew fee pos coins) ->
  exists scriptChange s r',
    P s /\
    CreateTransaction_pass E B w vecSend coin_control nCoinType vAvailableCoins
      (total_amount vecSend) (count_subtract vecSend) nChangePosInOut
      (mkTxOut 0 scriptChange) s
    = Ret (PassBreak (m_vin txNew) (m_vout txNew) fee pos coins r').
Proof.
  intros Hstep Hinit H.
  destruct (CreateTransaction_Built_inv E B fuel w vecSend nChangePosInOut coin_control sign
              nCoinType vAvailableCoins r txNew fee pos coins H)
    as (scriptChange & r0 & r' & Hloop).
  destruct (CreateTransaction_loop_last E B w vecSend coin_control nCoinType vAvailableCoins
              (total_amount vecSend) (count_subtract vecSend) nChangePosInOut
              (mkTxOut 0 scriptChange) P (Hstep scriptChange) fuel _ _ (Hinit r0) Hloop)
    as (s & Hs & Hpass).
  exists scriptChange, s, r'. split; [exact Hs|exact Hpass].
Qed.

Lemma GetRandInt_lt nMax r : (0 < nMax)%N -> (fst (GetRandInt nMax r) < nMax)%N.
Proof.
  intros H. unfold GetRandInt. destruct (rng_ints r) as [|x xs]; simpl; [exact H|].
  apply N.mod_lt. lia.
Qed.

Lemma CreateTransaction_pass_vin E B w vecSend coin_control nCoinType vAvailableCoins
      nValue' nSub nChangePosRequest change_prototype_txout s vin' vout' fee pos coins r' :
  CreateTransaction_pass E B w vecSend coin_control nCoinType vAvailableCoins nValue' nSub
                         nChangePosRequest change_prototype_txout s
  = Ret (PassBreak vin' vout' fee pos coins r') ->
  vin' = List.map (fun coin => mkTxIn (outpoint coin) [] (input_sequence coin_control)) coins.
Proof.
  unfold CreateTransaction_pass. intros H.
  destruct (payee_outputs _ _ _ _ _) as [vout0|reason]; [|discriminate].
  apply bind_Ret_inv in H. destruct H as ([[[ok setCoins'] nValueIn'] r1] & _ & H).
  destruct ok; [|discriminate]. cbn [negb] in H.
  apply bind_Ret_inv in H. destruct H as (chg & _ & H).
  destruct chg as [[[[vout1 fee1] pos1] r2]|reason]; [|discriminate].
  fold (input_sequence coin_control) in H.
  destruct (DummySignTx B _ _); [|discriminate]. cbn [negb] in H.
  destruct (_ <? _); [discriminate|].
  destruct (_ <=? _).
  - destruct (_ && _ && _ && _); [discriminate|].
    destruct (_ && _ && _).
    + apply bind_Ret_inv in H. destruct H as (vout2 & _ & H). inversion H; reflexivity.
    + inversion H; reflexivity.
  - destruct (negb (pick_new_inputs s)); [discriminate|].
    apply bind_Ret_inv in H. destruct H as (reduce & _ & H).
    destruct reduce as [vout2|]; [|discriminate]. inversion H; reflexivity.
Qed.

Lemma CreateTransaction_rejects_bad_recipients_witness :
  CreateTransaction E0 B0 10 wallet0 [mkRecipient [7%N] 5 false; mkRecipient [8%N] (-1) false]
                    (-1) coin_control0 true ALL_COINS coins_shared rng0
  = Ret (Failed AmountsNegative).
Proof.
  apply (proj1 (CreateTransaction_rejects_bad_recipients E0 B0 10 wallet0
                  [mkRecipient [7%N] 5 false; mkRecipient [8%N] (-1) false]
                  (-1) coin_control0 true ALL_COINS coins_shared rng0)).
  exists (mkRecipient [8%N] (-1) false). split; [simpl; auto|simpl; lia].
Defined.

Lemma CreateTransaction_locktime E B fuel w vecSend nChangePosInOut coin_control sign
      nCoinType vAvailableCoins r txNew fee pos coins :
  CreateTransaction E B fuel w vecSend nChangePosInOut coin_control sign nCoinType
                    vAvailableCoins r = Ret (Built txNew fee pos coins) ->
  nLockTime txNew <= chainActive_Height E mod 2 ^ 32 /\
  nLockTime txNew < LOCKTIME_THRESHOLD /\
  (nLockTime txNew = chainActive_Height E mod 2 ^ 32 \/
   exists y, 0 <= y < 100 /\ nLockTime txNew = Z.max 0 (chainActive_Height E - y)).
Proof.
  unfold CreateTransaction.
  destruct (sum_recipients vecSend 0 0) as [[v n]|]; [|discriminate].
  destruct (decide (vecSend = [])); [discriminate|].
  destruct (GetRandInt 10 r) as [x r1].
  assert (Hlock : forall lock r2,
             (if (x =? 0)%N
              then let '(y, r) := GetRandInt 100 r1 in
                   (Z.max 0 (chainActive_Height E - Z.of_N y), r)
              else (chainActive_Height E mod 2 ^ 32, r1)) = (lock, r2) ->
             lock = chainActive_Height E mod 2 ^ 32 \/
             exists y, 0 <= y < 100 /\ lock = Z.max 0 (chainActive_Height E - y)).
  { intros lock r2 Hl. destruct (x =? 0)%N.
    - pose proof (GetRandInt_lt 100 r1 eq_refl) as Hy.
      destruct (GetRandInt 100 r1) as [y r3]. simpl in Hy. inversion Hl; subst.
      right. exists (Z.of_N y). split; [lia|reflexivity].
    - inversion Hl; subst. left. reflexivity. }
  destruct (if (x =? 0)%N then _ else _) as [lock r2].
  specialize (Hlock lock r2 eq_refl).
  destruct (Z.ltb_spec (chainActive_Height E mod 2 ^ 32) lock) as [Hgt|Hle];
    [discriminate|].
  destruct (Z.leb_spec LOCKTIME_THRESHOLD lock) as [Hth|Hth]; [discriminate|].
  cbn [orb].
  destruct (match destChange coin_control with
            | Some s => Some s | None => ReservedKey_prototype B end) as [script|];
    [|discriminate].
  intros H. apply bind_Ret_inv in H. destruct H as (p & Hloop & H).
  destruct p as [vin' vout' fee' pos' coins' r'|s'|reason]; try discriminate.
  destruct (_ && negb (ProduceSignature B _ _ _)); [discriminate|].
  destruct (_ <=? _); [discriminate|].
  destruct (_ && negb (CalculateMemPoolAncestors B _ _)); [discriminate|].
  inversion H; subst. simpl. auto.
Qed.

(** X16.  A transaction [CreateTransaction] builds is locked against fee
    sniping: its lock time is at most the height of the chain (as an
    unsigned 32-bit number) and below the threshold that would make it a
    time stamp; it is the height, or the height less a draw below 100 and
    not below zero.  Every input carries the same sequence number, the
    highest that signals replaceability when the coin control asks for
    it and the one below final otherwise; no input is final, so the lock
    time is in force. *)
Theorem CreateTransaction_locks_to_height E B fuel w vecSend nChangePosInOut coin_control
        sign nCoinType vAvailableCoins r txNew fee pos coins :
  CreateTransaction E B fuel w vecSend nChangePosInOut coin_control sign nCoinType
                    vAvailableCoins r = Ret (Built txNew fee pos coins) ->
  nLockTime txNew <= chainActive_Height E mod 2 ^ 32 /\
  nLockTime txNew < LOCKTIME_THRESHOLD /\
  (nLockTime txNew = chainActive_Height E mod 2 ^ 32 \/
   exists y, 0 <= y < 100 /\ nLockTime txNew = Z.max 0 (chainActive_Height E - y)) /\
  (forall txin, In txin (m_vin txNew) ->
     nSequence txin = input_sequence coin_control /\ (nSequence txin < SEQUENCE_FINAL)%N).
Proof.
  intros H.
  destruct (CreateTransaction_locktime E B fuel w vecSend nChangePosInOut coin_control sign
              nCoinType vAvailableCoins r txNew fee pos coins H) as (H1 & H2 & H3).
  split; [exact H1|]. split; [exact H2|]. split; [exact H3|].
  destruct (CreateTransaction_Built_pass E B fuel w vecSend nChangePosInOut coin_control sign
              nCoinType vAvailableCoins r txNew fee pos coins (fun _ => True))
    as (scriptChange & s & r' & _ & Hpass); [auto|auto|exact H|].
  apply CreateTransaction_pass_vin in Hpass.
  intros txin Hin. rewrite Hpass in Hin. apply in_map_iff in Hin.
  destruct Hin as (coin & <- & _). simpl. split; [reflexivity|].
  unfold input_sequence, MAX_BIP125_RBF_SEQUENCE, SEQUENCE_FINAL.
  destruct (signalRbf coin_control); lia.
Qed.

Lemma CreateTransaction_locks_to_height_witness :
  nLockTime tx_shared <= chainActive_Height E0 mod 2 ^ 32 /\
  nLockTime tx_shared < LOCKTIME_THRESHOLD.
Proof.
  destruct (CreateTransaction_locks_to_height E0 B0 10 wallet0 send_shared (-1) coin_control0
              true ALL_COINS coins_shared rng0 tx_shared 4420 0
              [input_coin 1 50000000; input_coin 2 20000000]) as (H1 & H2 & _).
  - vm_compute. reflexivity.
  - split; [exact H1|exact H2].
Defined.

Lemma map_script_insert (l : list CTxOut) : forall i o v,
  l !! i = Some o ->
  List.map scriptPubKey (<[i := set_nValue v o]> l) = List.map scriptPubKey l.
Proof.
  induction l as [|x l IH]; intros i o v H; [discriminate|].
  destruct i as [|i]; simpl in *.
  - inversion H; subst. reflexivity.
  - f_equal. apply (IH i o v H).
Qed.

Lemma adjust_change_scripts pos d vout' vout2 :
  adjust_change pos d vout' = Ret vout2 ->
  List.map scriptPubKey vout2 = List.map scriptPubKey vout'.
Proof.
  unfold adjust_change. destruct (pos <? 0); [discriminate|].
  destruct (vout' !! Z.to_nat pos) as [o|] eqn:Ho; [|discriminate].
  intros H. inversion H; subst. apply map_script_insert. exact Ho.
Qed.

Lemma CreateTransaction_pass_fee E B w vecSend coin_control nCoinType vAvailableCoins
      nValue' nSub nChangePosRequest change_prototype_txout s vin' vout' fee pos coins r' :
  CreateTransaction_pass E B w vecSend coin_control nCoinType vAvailableCoins nValue' nSub
                         nChangePosRequest change_prototype_txout s
  = Ret (PassBreak vin' vout' fee pos coins r') ->
  exists vout0,
    List.map scriptPubKey vout0 = List.map scriptPubKey vout' /\
    minRelayTxFee_GetFee B (GetVirtualTransactionSize B vin' vout0 mod 2 ^ 32)
    <= GetMinimumFee B (GetVirtualTransactionSize B vin' vout0 mod 2 ^ 32) /\
    GetMinimumFee B (GetVirtualTransactionSize B vin' vout0 mod 2 ^ 32) <= fee.
Proof.
  unfold CreateTransaction_pass. intros H.
  destruct (payee_outputs _ _ _ _ _) as [vout0|reason]; [|discriminate].
  apply bind_Ret_inv in H. destruct H as ([[[ok setCoins'] nValueIn'] r1] & _ & H).
  destruct ok; [|discriminate]. cbn [negb] in H.
  apply bind_Ret_inv in H. destruct H as (chg & _ & H).
  destruct chg as [[[[vout1 fee1] pos1] r2]|reason]; [|discriminate].
  set (vin1 := List.map _ setCoins') in H.
  destruct (DummySignTx B _ _); [|discriminate]. cbn [negb] in H.
  set (nBytes := GetVirtualTransactionSize B vin1 vout1 mod 2 ^ 32) in H.
  destruct (Z.ltb_spec (GetMinimumFee B nBytes) (minRelayTxFee_GetFee B nBytes))
    as [Hrel|Hrel]; [discriminate|].
  destruct (Z.leb_spec (GetMinimumFee B nBytes) fee1) as [Hle|Hgt].
  - destruct (_ && _ && _ && _); [discriminate|].
    destruct (_ && _ && _).
    + apply bind_Ret_inv in H. destruct H as (vout2 & Hadj & H). inversion H; subst.
      exists vout1. split; [symmetry; apply (adjust_change_scripts _ _ _ _ Hadj)|].
      fold nBytes. split; [exact Hrel|lia].
    + inversion H; subst. exists vout'. split; [reflexivity|].
      fold nBytes. split; [exact Hrel|exact Hle].
  - destruct (negb (pick_new_inputs s)); [discriminate|].
    apply bind_Ret_inv in H. destruct H as (reduce & Hred & H).
    destruct reduce as [vout2|]; [|discriminate]. inversion H; subst.
    exists vout1. split.
    + destruct (_ && _); [|discriminate].
      destruct (pos <? 0); [discriminate|].
      destruct (vout1 !! Z.to_nat pos) as [o|]; [|discriminate].
      destruct (_ <=? _); [|discriminate].
      apply bind_Ret_inv in Hred. destruct Hred as (vout3 & Hadj & Hred).
      inversion Hred; subst. symmetry. apply (adjust_change_scripts _ _ _ _ Hadj).
    + fold nBytes. split; [exact Hrel|lia].
Qed.

(** X17.  The fee [CreateTransaction] reports for a transaction it builds
    is at least the minimum fee for the size the transaction was measured
    at (with dummy signatures, before the last adjustment of the change
    amount, which changes no script), and that minimum is at least the
    relay fee for that size. *)
Theorem CreateTransaction_fee_covers_minimum E B fuel w vecSend nChangePosInOut coin_control
        sign nCoinType vAvailableCoins r txNew fee pos coins :
  CreateTransaction E B fuel w vecSend nChangePosInOut coin_control sign nCoinType
                    vAvailableCoins r = Ret (Built txNew fee pos coins) ->
  exists vout0,
    List.map scriptPubKey vout0 = List.map scriptPubKey (m_vout txNew) /\
    minRelayTxFee_GetFee B (GetVirtualTransactionSize B (m_vin txNew) vout0 mod 2 ^ 32)
    <= GetMinimumFee B (GetVirtualTransactionSize B (m_vin txNew) vout0 mod 2 ^ 32) /\
    GetMinimumFee B (GetVirtualTransactionSize B (m_vin txNew) vout0 mod 2 ^ 32) <= fee.
Proof.
  intros H.
  destruct (CreateTransaction_Built_pass E B fuel w vecSend nChangePosInOut coin_control sign
              nCoinType vAvailableCoins r txNew fee pos coins (fun _ => True))
    as (scriptChange & s & r' & _ & Hpass); [auto|auto|exact H|].
  apply CreateTransaction_pass_fee in Hpass. exact Hpass.
Qed.

Lemma CreateTransaction_fee_covers_minimum_witness :
  exists vout0,
    List.map scriptPubKey vout0 = List.map scriptPubKey (m_vout tx_shared) /\
    minRelayTxFee_GetFee B0 (GetVirtualTransactionSize B0 (m_vin tx_shared) vout0 mod 2 ^ 32)
    <= GetMinimumFee B0 (GetVirtualTransactionSize B0 (m_vin tx_shared) vout0 mod 2 ^ 32) /\
    GetMinimumFee B0 (GetVirtualTransactionSize B0 (m_vin tx_shared) vout0 mod 2 ^ 32)
    <= 4420.
Proof.
  apply (CreateTransaction_fee_covers_minimum E0 B0 10 wallet0 send_shared (-1) coin_control0
           true ALL_COINS coins_shared rng0 tx_shared 4420 0
           [input_coin 1 50000000; input_coin 2 20000000]).
  vm_compute. reflexivity.
Defined.

Lemma payee_outputs_scripts B vecSend fee n : forall fFirst acc vout',
  payee_outputs B vecSend fee n fFirst acc = inl vout' ->
  List.map scriptPubKey vout' =
  List.map scriptPubKey acc ++ List.map r_scriptPubKey vecSend.
Proof.
  induction vecSend as [|x l IH]; intros fFirst acc vout' H; simpl in H.
  - inversion H; subst. rewrite app_nil_r. reflexivity.
  - destruct (if fSubtractFeeFromAmount x then _ else _) as [v f1].
    destruct (IsDust B _ _); [discriminate|].
    apply IH in H. rewrite H, map_app, <- app_assoc. reflexivity.
Qed.

Lemma vout_insert_scripts p o l :
  List.map scriptPubKey (vout_insert p o l) =
  take p (List.map scriptPubKey l) ++ scriptPubKey o :: drop p (List.map scriptPubKey l).
Proof.
  unfold vout_insert. rewrite map_app. simpl.
  rewrite <- List.firstn_map, <- List.skipn_map. reflexivity.
Qed.

(** The scripts after the change of a pass: as before, or with the change
    script at the position handed back. *)
Lemma add_change_scripts B vecSend coin_control nCoinType nSub nChange vout' fee pos r pass
      vout1 fee1 pos1 r1 :
  add_change B vecSend coin_control nCoinType nSub nChange vout' fee pos r pass
  = Ret (inl (vout1, fee1, pos1, r1)) ->
  List.map scriptPubKey vout1 = List.map scriptPubKey vout' \/
  (pos1 <> -1 /\ pos1 mod 2 ^ 32 <= Z.of_nat (length vout') /\
   exists script,
     change_script_of B coin_control script /\
     List.map scriptPubKey vout1 =
     take (Z.to_nat pos1) (List.map scriptPubKey vout') ++
     script :: drop (Z.to_nat pos1) (List.map scriptPubKey vout')).
Proof.
  unfold add_change. intros H.
  destruct (0 <? nChange); [|inversion H; subst; left; reflexivity].
  destruct (bool_decide (nCoinType = ONLY_DENOMINATED));
    [inversion H; subst; left; reflexivity|].
  destruct (match destChange coin_control with
            | Some s => Some s | None => ReservedKey_in_pass B pass end)
    as [scriptChange|] eqn:Hscript; [|discriminate].
  assert (Hcs : change_script_of B coin_control scriptChange).
  { unfold change_script_of. destruct (destChange coin_control) as [s0|].
    - inversion Hscript; reflexivity.
    - exists pass. exact Hscript. }
  apply bind_Ret_inv in H. destruct H as (raised & Hraised & H).
  destruct raised as [[newTxOut vout2]|reason]; [|discriminate].
  assert (Hr : scriptPubKey newTxOut = scriptChange /\
               List.map scriptPubKey vout2 = List.map scriptPubKey vout').
  { destruct (_ && _).
    - destruct (first_subtract vecSend 0) as [i|].
      + destruct (vout' !! i) as [o|] eqn:Ho; [|discriminate].
        destruct (CTxOut_IsDust B _); [discriminate|].
        inversion Hraised; subst. split; [reflexivity|].
        apply map_script_insert. exact Ho.
      + inversion Hraised; subst. split; reflexivity.
    - inversion Hraised; subst. split; reflexivity. }
  destruct Hr as [Hnew Hvout2].
  assert (Hlen : length vout2 = length vout').
  { rewrite <- (length_map scriptPubKey vout2), Hvout2, length_map. reflexivity. }
  destruct (CTxOut_IsDust B newTxOut).
  { inversion H; subst. left. exact Hvout2. }
  destruct (Z.eqb_spec pos (-1)) as [Hpos|Hpos].
  - pose proof (GetRandInt_lt (N.of_nat (length vout2 + 1)) r ltac:(lia)) as Hp.
    destruct (GetRandInt (N.of_nat (length vout2 + 1)) r) as [p r2]. simpl in Hp.
    inversion H; subst. right. split; [lia|]. split.
    + pose proof (Z.mod_le (Z.of_N p) (2 ^ 32) ltac:(lia) ltac:(lia)). lia.
    + exists (scriptPubKey newTxOut). split; [exact Hcs|].
      rewrite vout_insert_scripts, Hvout2, <- Z_N_nat, N2Z.id. reflexivity.
  - destruct (Z.ltb_spec (Z.of_nat (length vout2)) (pos mod 2 ^ 32)) as [Hout|Hin];
      [discriminate|].
    inversion H; subst. right. split; [exact Hpos|]. split; [lia|].
    exists (scriptPubKey newTxOut). split; [exact Hcs|].
    rewrite vout_insert_scripts, Hvout2. reflexivity.
Qed.

Lemma CreateTransaction_pass_scripts E B w vecSend coin_control nCoinType vAvailableCoins
      nValue' nSub nChangePosRequest change_prototype_txout s vin' vout' fee pos coins r' :
  CreateTransaction_pass E B w vecSend coin_control nCoinType vAvailableCoins nValue' nSub
                         nChangePosRequest change_prototype_txout s
  = Ret (PassBreak vin' vout' fee pos coins r') ->
  List.map scriptPubKey vout' = List.map r_scriptPubKey vecSend \/
  (pos <> -1 /\ pos mod 2 ^ 32 <= Z.of_nat (length vecSend) /\
   exists script,
     change_script_of B coin_control script /\
     List.map scriptPubKey vout' =
     take (Z.to_nat pos) (List.map r_scriptPubKey vecSend) ++
     script :: drop (Z.to_nat pos) (List.map r_scriptPubKey vecSend)).
Proof.
  unfold CreateTransaction_pass. intros H.
  destruct (payee_outputs _ _ _ _ _) as [vout0|reason] eqn:Hpay; [|discriminate].
  apply payee_outputs_scripts in Hpay. simpl in Hpay.
  apply bind_Ret_inv in H. destruct H as ([[[ok setCoins'] nValueIn'] r1] & _ & H).
  destruct ok; [|discriminate]. cbn [negb] in H.
  apply bind_Ret_inv in H. destruct H as (chg & Hchg & H).
  destruct chg as [[[[vout1 fee1] pos1] r2]|reason]; [|discriminate].
  apply add_change_scripts in Hchg.
  assert (Hlen : length vout0 = length vecSend).
  { rewrite <- (length_map scriptPubKey vout0), Hpay, length_map. reflexivity. }
  rewrite Hpay, Hlen in Hchg.
  assert (Hfinal : pos = pos1 /\ List.map scriptPubKey vout' = List.map scriptPubKey vout1).
  { destruct (DummySignTx B _ _); [|discriminate]. cbn [negb] in H.
    destruct (_ <? _); [discriminate|].
    destruct (_ <=? _).
    - destruct (_ && _ && _ && _); [discriminate|].
      destruct (_ && _ && _).
      + apply bind_Ret_inv in H. destruct H as (vout2 & Hadj & H). inversion H; subst.
        split; [reflexivity|apply (adjust_change_scripts _ _ _ _ Hadj)].
      + inversion H; subst. split; reflexivity.
    - destruct (negb (pick_new_inputs s)); [discriminate|].
      apply bind_Ret_inv in H. destruct H as (reduce & Hred & H).
      destruct reduce as [vout2|]; [|discriminate]. inversion H; subst.
      split; [reflexivity|].
      destruct (_ && _); [|discriminate].
      destruct (pos <? 0); [discriminate|].
      destruct (vout1 !! Z.to_nat pos) as [o|]; [|discriminate].
      destruct (_ <=? _); [|discriminate].
      apply bind_Ret_inv in Hred. destruct Hred as (vout3 & Hadj & Hred).
      inversion Hred; subst. apply (adjust_change_scripts _ _ _ _ Hadj). }
  destruct Hfinal as [-> ->]. exact Hchg.
Qed.

(** X18.  A transaction [CreateTransaction] builds pays the recipients in
    the order they were given, each to its own script, and holds at most
    one more output: the change, at the position reported (which is then
    not -1 and, as an unsigned number, at most the number of recipients),
    paid to the change destination of the coin control or, without one, to
    a key reserved from the pool. *)
Theorem CreateTransaction_outputs_are_payees_and_change E B fuel w vecSend nChangePosInOut
        coin_control sign nCoinType vAvailableCoins r txNew fee pos coins :
  CreateTransaction E B fuel w vecSend nChangePosInOut coin_control sign nCoinType
                    vAvailableCoins r = Ret (Built txNew fee pos coins) ->
  List.map scriptPubKey (m_vout txNew) = List.map r_scriptPubKey vecSend \/
  (pos <> -1 /\ pos mod 2 ^ 32 <= Z.of_nat (length vecSend) /\
   exists script,
     change_script_of B coin_control script /\
     List.map scriptPubKey (m_vout txNew) =
     take (Z.to_nat pos) (List.map r_scriptPubKey vecSend) ++
     script :: drop (Z.to_nat pos) (List.map r_scriptPubKey vecSend)).
Proof.
  intros H.
  destruct (CreateTransaction_Built_pass E B fuel w vecSend nChangePosInOut coin_control sign
              nCoinType vAvailableCoins r txNew fee pos coins (fun _ => True))
    as (scriptChange & s & r' & _ & Hpass); [auto|auto|exact H|].
  apply CreateTransaction_pass_scripts in Hpass. exact Hpass.
Qed.

Lemma CreateTransaction_outputs_are_payees_and_change_witness :
  List.map scriptPubKey (m_vout tx_shared) = List.map r_scriptPubKey send_shared \/
  ((0 : Z) <> -1 /\ 0 mod 2 ^ 32 <= Z.of_nat (length send_shared) /\
   exists script,
     change_script_of B0 coin_control0 script /\
     List.map scriptPubKey (m_vout tx_shared) =
     take (Z.to_nat 0) (List.map r_scriptPubKey send_shared) ++
     script :: drop (Z.to_nat 0) (List.map r_scriptPubKey send_shared)).
Proof.
  apply (CreateTransaction_outputs_are_payees_and_change E0 B0 10 wallet0 send_shared (-1)
           coin_control0 true ALL_COINS coins_shared rng0 tx_shared 4420 0
           [input_coin 1 50000000; input_coin 2 20000000]).
  vm_compute. reflexivity.
Defined.

(** ** The inputs of a built transaction are distinct *)

Lemma coinset_sorted_nil : coinset_sorted [].
Proof. constructor. Qed.

Lemma coinset_insert_sorted c s : coinset_sorted s -> coinset_sorted (coinset_insert c s).
Proof.
  unfold coinset_sorted. induction s as [|y s IH]; intros Hs; simpl.
  - repeat constructor.
  - inversion Hs as [|? ? Hs' Hy]; subst.
    destruct (outpoint_ltb (outpoint c) (outpoint y)) eqn:Hlt.
    + constructor; [exact Hs|]. constructor; [exact Hlt|].
      rewrite List.Forall_forall in *. intros x Hx.
      apply (outpoint_ltb_trans _ _ _ Hlt (Hy x Hx)).
    + destruct (outpoint_eqb (outpoint c) (outpoint y)) eqn:Heq; [exact Hs|].
      constructor; [apply IH; exact Hs'|].
      rewrite List.Forall_forall in *. intros x Hx.
      apply In_coinset_insert in Hx. destruct Hx as [->|Hx]; [|apply Hy; exact Hx].
      destruct (outpoint_ltb (outpoint y) (outpoint c)) eqn:Hyc; [reflexivity|].
      pose proof (outpoint_ltb_total _ _ Hlt Hyc) as Heq'.
      rewrite Heq', outpoint_eqb_refl in Heq. discriminate.
Qed.

Lemma coinset_sorted_NoDup s : coinset_sorted s -> List.NoDup (List.map outpoint s).
Proof.
  unfold coinset_sorted. induction 1 as [|y s Hs IH Hy]; simpl; constructor; [|exact IH].
  intros Hin. apply in_map_iff in Hin. destruct Hin as (x & Hx & Hxin).
  rewrite List.Forall_forall in Hy. specialize (Hy x Hxin).
  rewrite Hx, outpoint_ltb_irrefl in Hy. discriminate.
Qed.

Lemma insert_all_sorted l : forall s v s' v',
  coinset_sorted s -> insert_all l s v = (s', v') -> coinset_sorted s'.
Proof.
  induction l as [|c l IH]; intros s v s' v' Hs H; simpl in H.
  - inversion H; subst. exact Hs.
  - apply (IH _ _ _ _ (coinset_insert_sorted c s Hs) H).
Qed.

Lemma fold_coinset_insert_sorted ps : forall s,
  coinset_sorted s -> coinset_sorted (fold_left (fun s c => coinset_insert c s) ps s).
Proof.
  induction ps as [|c ps IH]; intros s Hs; simpl; [exact Hs|].
  apply IH, coinset_insert_sorted, Hs.
Qed.

Lemma SelectCoinsMinConf_sorted E w nTargetValue nConfMine nConfTheirs nMaxAncestors vCoins
      setCoinsRet nValueRet r b s v r' :
  SelectCoinsMinConf E w nTargetValue nConfMine nConfTheirs nMaxAncestors vCoins
                     setCoinsRet nValueRet r = Ret (b, s, v, r') ->
  coinset_sorted s.
Proof.
  unfold SelectCoinsMinConf.
  destruct (random_shuffle vCoins r) as [vCoins' r1].
  intros H. apply bind_Ret_inv in H. destruct H as (scan & _ & H).
  assert (Hone : forall c, coinset_sorted (coinset_insert c [])).
  { intros c. apply coinset_insert_sorted, coinset_sorted_nil. }
  assert (Hbest : forall vValue vf s0 v0,
             insert_best vValue vf [] 0 = (s0, v0) -> coinset_sorted s0).
  { intros vValue vf s0 v0 Hb. rewrite insert_best_insert_all in Hb.
    apply (insert_all_sorted _ _ _ _ _ coinset_sorted_nil Hb). }
  destruct scan as [coin|low vValue total].
  - inversion H; subst. apply Hone.
  - destruct (total =? nTargetValue).
    + destruct (insert_all vValue [] 0) as [s0 v0] eqn:Hi. inversion H; subst.
      apply (insert_all_sorted _ _ _ _ _ coinset_sorted_nil Hi).
    + destruct (total <? nTargetValue).
      * destruct low; inversion H; subst; [apply Hone|apply coinset_sorted_nil].
      * destruct (ApproximateBestSubset _ _ _ _) as [[vfBest nBest] r2].
        destruct (_ && _).
        -- destruct (ApproximateBestSubset _ _ _ _) as [[vfBest' nBest'] r3].
           destruct low as [lowest|].
           ++ destruct (_ || _); [inversion H; subst; apply Hone|].
              destruct (insert_best _ _ _ _) as [s0 v0] eqn:Hi. inversion H; subst.
              apply (Hbest _ _ _ _ Hi).
           ++ destruct (insert_best _ _ _ _) as [s0 v0] eqn:Hi. inversion H; subst.
              apply (Hbest _ _ _ _ Hi).
        -- destruct low as [lowest|].
           ++ destruct (_ || _); [inversion H; subst; apply Hone|].
              destruct (insert_best _ _ _ _) as [s0 v0] eqn:Hi. inversion H; subst.
              apply (Hbest _ _ _ _ Hi).
           ++ destruct (insert_best _ _ _ _) as [s0 v0] eqn:Hi. inversion H; subst.
              apply (Hbest _ _ _ _ Hi).
Qed.

Lemma tier_sorted E enabled w target nConfMine nConfTheirs nMaxAncestors vCoins prev t :
  coinset_sorted (snd (fst (fst prev))) ->
  tier E enabled w target nConfMine nConfTheirs nMaxAncestors vCoins prev = Ret t ->
  coinset_sorted (snd (fst (fst t))).
Proof.
  unfold tier. destruct prev as [[[res s] v] r]. simpl. intros Hs H.
  destruct res; [inversion H; subst; exact Hs|].
  destruct enabled; [|inversion H; subst; exact Hs].
  destruct t as [[[b s'] v'] r']. simpl.
  apply (SelectCoinsMinConf_sorted _ _ _ _ _ _ _ _ _ _ _ _ _ _ H).
Qed.

Lemma SelectCoins_preselected_sorted B nCoinType l : forall s0 v0 s v,
  coinset_sorted s0 ->
  SelectCoins_preselected B nCoinType l s0 v0 = Ret (s, v) -> coinset_sorted s.
Proof.
  induction l as [|out l IH]; intros s0 v0 s v Hs H; simpl in H.
  - inversion H; subst. exact Hs.
  - destruct (negb (fSpendable out)); [apply (IH _ _ _ _ Hs H)|].
    destruct (_ && _); [apply (IH _ _ _ _ Hs H)|].
    destruct (vout (tx (out_tx out)) !! N.to_nat (out_i out)) as [o|]; [|discriminate].
    apply bind_Ret_inv in H. destruct H as (coin & _ & H).
    apply (IH _ _ _ _ (coinset_insert_sorted coin s0 Hs) H).
Qed.

Lemma SelectCoins_denom_inner_sorted B nDenom t sm l : forall s0 v0 s v,
  coinset_sorted s0 ->
  SelectCoins_denom_inner B nDenom t sm l s0 v0 = Ret (s, v) -> coinset_sorted s.
Proof.
  induction l as [|out l IH]; intros s0 v0 s v Hs H; simpl in H.
  - inversion H; subst. exact Hs.
  - destruct (vout (tx (out_tx out)) !! N.to_nat (out_i out)) as [o|]; [|discriminate].
    destruct (_ && _); [|apply (IH _ _ _ _ Hs H)].
    destruct (_ <? _); [apply (IH _ _ _ _ Hs H)|].
    apply bind_Ret_inv in H. destruct H as (coin & _ & H).
    apply (IH _ _ _ _ (coinset_insert_sorted coin s0 Hs) H).
Qed.

Lemma SelectCoins_denom_sorted B D t sm l : forall s0 v0 s v,
  coinset_sorted s0 ->
  SelectCoins_denom B D t sm l s0 v0 = Ret (s, v) -> coinset_sorted s.
Proof.
  induction D as [|d D IH]; intros s0 v0 s v Hs H; simpl in H.
  - inversion H; subst. exact Hs.
  - apply bind_Ret_inv in H. destruct H as ([s1 v1] & H1 & H).
    apply (IH _ _ _ _ (SelectCoins_denom_inner_sorted _ _ _ _ _ _ _ _ _ Hs H1) H).
Qed.

Lemma SelectCoins_sorted E B w vAvailableCoins nTargetValue setCoinsRet nValueRet
      coinControl nCoinType r b s v r' :
  coinset_sorted setCoinsRet ->
  SelectCoins E B w vAvailableCoins nTargetValue setCoinsRet nValueRet coinControl
              nCoinType r = Ret (b, s, v, r') ->
  coinset_sorted s.
Proof.
  intros Hs H. unfold SelectCoins in H.
  destruct (_ && _).
  { apply bind_Ret_inv in H. destruct H as ([s1 v1] & H1 & H). inversion H; subst.
    apply (SelectCoins_preselected_sorted _ _ _ _ _ _ _ Hs H1). }
  destruct (bool_decide (nCoinType = ONLY_DENOMINATED)).
  { destruct (last (vecPrivateSendDenominations B)) as [sm|]; [|discriminate].
    apply bind_Ret_inv in H. destruct H as ([s1 v1] & H1 & H). inversion H; subst.
    apply (SelectCoins_denom_sorted _ _ _ _ _ _ _ _ _ Hs H1). }
  apply bind_Ret_inv in H. destruct H as (presets & _ & H).
  destruct presets as [[ps pv]|]; [|inversion H; subst; exact Hs].
  apply bind_Ret_inv in H. destruct H as (vCoins & _ & H).
  cbn [mbind outcome_bind] in H.
  apply bind_Ret_inv in H. destruct H as (t1 & H1 & H). apply tier_sorted in H1; [|exact Hs].
  apply bind_Ret_inv in H. destruct H as (t2 & H2 & H). apply tier_sorted in H2; [|exact H1].
  apply bind_Ret_inv in H. destruct H as (t3 & H3 & H). apply tier_sorted in H3; [|exact H2].
  apply bind_Ret_inv in H. destruct H as (t4 & H4 & H). apply tier_sorted in H4; [|exact H3].
  apply bind_Ret_inv in H. destruct H as (t5 & H5 & H). apply tier_sorted in H5; [|exact H4].
  apply bind_Ret_inv in H. destruct H as (t6 & H6 & H). apply tier_sorted in H6; [|exact H5].
  apply bind_Ret_inv in H. destruct H as (t7 & H7 & H). apply tier_sorted in H7; [|exact H6].
  destruct t7 as [[[res s7] v7] r7]. simpl in H7. inversion H; subst.
  apply fold_coinset_insert_sorted. exact H7.
Qed.

Lemma CreateTransaction_pass_sorted E B w vecSend coin_control nCoinType vAvailableCoins
      nValue' nSub nChangePosRequest change_prototype_txout s p :
  coinset_sorted (setCoins s) ->
  CreateTransaction_pass E B w vecSend coin_control nCoinType vAvailableCoins nValue' nSub
                         nChangePosRequest change_prototype_txout s = Ret p ->
  match p with
  | PassBreak _ _ _ _ coins _ => coinset_sorted coins
  | PassContinue s' => coinset_sorted (setCoins s')
  | PassFail _ => True
  end.
Proof.
  unfold CreateTransaction_pass. intros Hs H.
  destruct (payee_outputs _ _ _ _ _) as [vout0|reason]; [|inversion H; subst; exact I].
  apply bind_Ret_inv in H. destruct H as ([[[ok setCoins'] nValueIn'] r1] & Hsel & H).
  assert (Hsorted : coinset_sorted setCoins').
  { destruct (pick_new_inputs s).
    - apply (SelectCoins_sorted _ _ _ _ _ _ _ _ _ _ _ _ _ _ coinset_sorted_nil Hsel).
    - inversion Hsel; subst. exact Hs. }
  destruct ok; [|inversion H; subst; exact I]. cbn [negb] in H.
  apply bind_Ret_inv in H. destruct H as (chg & _ & H).
  destruct chg as [[[[vout1 fee1] pos1] r2]|reason]; [|inversion H; subst; exact I].
  destruct (DummySignTx B _ _); [|inversion H; subst; exact I]. cbn [negb] in H.
  destruct (_ <? _); [inversion H; subst; exact I|].
  destruct (_ <=? _).
  - destruct (_ && _ && _ && _); [inversion H; subst; exact Hsorted|].
    destruct (_ && _ && _).
    + apply bind_Ret_inv in H. destruct H as (vout2 & _ & H). inversion H; subst.
      exact Hsorted.
    + inversion H; subst. exact Hsorted.
  - destruct (negb (pick_new_inputs s)); [inversion H; subst; exact I|].
    apply bind_Ret_inv in H. destruct H as (reduce & _ & H).
    destruct reduce as [vout2|]; inversion H; subst; exact Hsorted.
Qed.

(** X19.  A transaction [CreateTransaction] builds spends exactly the
    coins the call reports, in their order, and no outpoint twice. *)
Theorem CreateTransaction_inputs_distinct E B fuel w vecSend nChangePosInOut coin_control
        sign nCoinType vAvailableCoins r txNew fee pos coins :
  CreateTransaction E B fuel w vecSend nChangePosInOut coin_control sign nCoinType
                    vAvailableCoins r = Ret (Built txNew fee pos coins) ->
  List.map prevout (m_vin txNew) = List.map outpoint coins /\
  List.NoDup (List.map prevout (m_vin txNew)).
Proof.
  intros H.
  destruct (CreateTransaction_Built_pass E B fuel w vecSend nChangePosInOut coin_control sign
              nCoinType vAvailableCoins r txNew fee pos coins
              (fun s => coinset_sorted (setCoins s)))
    as (scriptChange & s & r' & Hs & Hpass).
  - intros scriptChange s s' Hs Hp.
    apply (CreateTransaction_pass_sorted _ _ _ _ _ _ _ _ _ _ _ _ _ Hs Hp).
  - intros r0. apply coinset_sorted_nil.
  - exact H.
  - pose proof (CreateTransaction_pass_sorted _ _ _ _ _ _ _ _ _ _ _ _ _ Hs Hpass) as Hc.
    simpl in Hc. apply CreateTransaction_pass_vin in Hpass.
    assert (Hmap : List.map prevout (m_vin txNew) = List.map outpoint coins).
    { rewrite Hpass, List.map_map. reflexivity. }
    split; [exact Hmap|]. rewrite Hmap. apply coinset_sorted_NoDup. exact Hc.
Qed.

Lemma CreateTransaction_inputs_distinct_witness :
  List.map prevout (m_vin tx_shared)
  = List.map outpoint [input_coin 1 50000000; input_coin 2 20000000] /\
  List.NoDup (List.map prevout (m_vin tx_shared)).
Proof.
  apply (CreateTransaction_inputs_distinct E0 B0 10 wallet0 send_shared (-1) coin_control0
           true ALL_COINS coins_shared rng0 tx_shared 4420 0
           [input_coin 1 50000000; input_coin 2 20000000]).
  vm_compute. reflexivity.
Defined.

(** * A further notification clears the abandoned state *)

Lemma AddToWallet_merge_hashBlock wtxIn wtx :
  hashBlock (fst (AddToWallet_merge wtxIn wtx)) =
  if negb (hashUnset wtxIn) && negb (hashBlock wtxIn =? hashBlock wtx)%N then hashBlock wtxIn
  else if (hashBlock wtxIn =? 0)%N && isAbandoned wtx then hashBlock wtxIn
       else hashBlock wtx.
Proof.
  unfold AddToWallet_merge.
  destruct (negb (hashUnset wtxIn) && negb (hashBlock wtxIn =? hashBlock wtx)%N) eqn:H1.
  - assert (H2 : ((hashBlock wtxIn =? 0)%N
                  && isAbandoned (set_hashBlock (hashBlock wtxIn) wtx)) = false).
    { apply andb_true_iff in H1. destruct H1 as [H1 _]. apply negb_true_iff in H1.
      unfold hashUnset in H1. apply orb_false_iff in H1. destruct H1 as [H1 _].
      rewrite H1. reflexivity. }
    rewrite H2.
    repeat match goal with
           | |- context [if ?c then _ else _] => destruct c
           end; reflexivity.
  - destruct ((hashBlock wtxIn =? 0)%N && isAbandoned wtx);
      repeat match goal with
             | |- context [if ?c then _ else _] => destruct c
             end; reflexivity.
Qed.

(** X20.  Any further notification of a transaction the wallet holds
    clears its abandoned state: when [AddToWallet] is handed a record that
    is not itself marked abandoned, the stored record is not abandoned
    afterwards (also when the write to the database fails), and it carries
    the block of the record handed in, if that has one. *)
Theorem AddToWallet_clears_abandoned E wtxIn w wtx b w' :
  mapWallet w !! GetHash wtxIn = Some wtx ->
  isAbandoned wtxIn = false ->
  AddToWallet E wtxIn w = Ret (b, w') ->
  exists wtx',
    mapWallet w' !! GetHash wtxIn = Some wtx' /\
    isAbandoned wtx' = false /\
    (hashBlock wtxIn <> 0%N -> hashBlock wtx' = hashBlock wtxIn).
Proof.
  intros Hw Hin H. unfold AddToWallet in H. rewrite Hw in H.
  pose proof (AddToWallet_merge_hashBlock wtxIn wtx) as Hhb.
  destruct (AddToWallet_merge wtxIn wtx) as [m fUpdated]. simpl in Hhb.
  assert (Hm : isAbandoned m = false /\ (hashBlock wtxIn <> 0%N -> hashBlock m = hashBlock wtxIn)).
  { unfold isAbandoned in *. rewrite Hhb. unfold hashUnset. rewrite Hin, orb_false_r.
    destruct (N.eqb_spec (hashBlock wtxIn) 0) as [H0|H0]; simpl.
    - destruct (hashBlock wtx =? ABANDON_HASH)%N eqn:Hab.
      + rewrite H0. split; [reflexivity|]. intros Hn. contradiction.
      + split; [exact Hab|]. intros Hn. contradiction.
    - destruct (N.eqb_spec (hashBlock wtxIn) (hashBlock wtx)) as [He|He]; simpl.
      + rewrite <- He. split; [exact Hin|]. intros _. reflexivity.
      + split; [exact Hin|]. intros _. reflexivity. }
  destruct Hm as [Hab Hblock].
  destruct (fUpdated && negb (WriteTx E m)); inversion H; subst; simpl.
  - exists m. rewrite lookup_insert_eq. split; [reflexivity|]. split; assumption.
  - exists (MarkDirty m). rewrite lookup_insert_eq. split; [reflexivity|].
    split; [exact Hab|exact Hblock].
Qed.

Lemma AddToWallet_clears_abandoned_witness :
  exists b w' wtx',
    AddToWallet E0 (mk_wtx 41 [txin_of 50 0] [mkTxOut 70 []] 0 (-1) false) wallet_abandoned
    = Ret (b, w') /\
    mapWallet w' !! 41%N = Some wtx' /\ isAbandoned wtx' = false.
Proof.
  destruct (AddToWallet E0 (mk_wtx 41 [txin_of 50 0] [mkTxOut 70 []] 0 (-1) false)
              wallet_abandoned) as [[b w']| | | |] eqn:H;
    try (vm_compute in H; discriminate H).
  destruct (AddToWallet_clears_abandoned E0
              (mk_wtx 41 [txin_of 50 0] [mkTxOut 70 []] 0 (-1) false) wallet_abandoned
              (mk_wtx 41 [txin_of 50 0] [mkTxOut 70 []] ABANDON_HASH (-1) false) b w')
    as (wtx' & Hw' & Hab & _).
  - vm_compute. reflexivity.
  - reflexivity.
  - exact H.
  - exists b, w', wtx'. split; [reflexivity|]. split; [exact Hw'|exact Hab].
Defined.

(** * Output records of a transaction record *)

Section OutputRecordProps.

Context {COutputRecord : Type} (rec_n : COutputRecord -> Z).

Local Abbreviation sorted := (records_sorted COutputRecord rec_n).
Local Abbreviation insert_output := (InsertOutput COutputRecord rec_n).
Local Abbreviation erase_output := (EraseOutput COutputRecord rec_n).
Local Abbreviation get_output := (GetOutput COutputRecord rec_n).

Lemma GetOutput_Some n vout r :
  get_output n vout = Some r -> In r vout /\ rec_n r = n.
Proof.
  induction vout as [|x rest IH]; simpl; [discriminate|].
  destruct (n <? rec_n x); [discriminate|].
  destruct (Z.eqb_spec (rec_n x) n) as [He|Hne].
  - intros H. inversion H; subst. auto.
  - intros H. apply IH in H. tauto.
Qed.

(** On a vector in ascending order, the early exit of [GetOutput] misses
    nothing. *)
Lemma GetOutput_sorted n vout r :
  sorted vout -> In r vout -> rec_n r = n -> get_output n vout = Some r.
Proof.
  induction vout as [|x rest IH]; intros Hs Hin Hn; [destruct Hin|].
  inversion Hs as [|? ? Hs' Hx]; subst. rewrite List.Forall_forall in Hx. simpl.
  destruct Hin as [->|Hin].
  - rewrite Z.ltb_irrefl, Z.eqb_refl. reflexivity.
  - specialize (Hx r Hin).
    assert (H1 : (rec_n r <? rec_n x) = false) by (apply Z.ltb_ge; lia).
    assert (H2 : (rec_n x =? rec_n r) = false) by (apply Z.eqb_neq; lia).
    rewrite H1, H2. apply IH; auto.
Qed.

Lemma GetOutput_None n vout :
  sorted vout -> (get_output n vout = None <-> forall r, In r vout -> rec_n r <> n).
Proof.
  intros Hs. split.
  - intros Hnone r Hin Hn. rewrite (GetOutput_sorted n vout r Hs Hin Hn) in Hnone.
    discriminate.
  - intros Hall. destruct (get_output n vout) as [r|] eqn:Hg; [|reflexivity].
    apply GetOutput_Some in Hg. destruct Hg as [Hin Hn]. exfalso. exact (Hall r Hin Hn).
Qed.

Lemma InsertOutput_In r vout res vout' :
  insert_output r vout = (res, vout') ->
  (forall x, In x vout' <-> (res = 1 /\ x = r) \/ In x vout) /\ (res = 0 \/ res = 1).
Proof.
  revert res vout'. induction vout as [|y rest IH]; intros res vout' H; simpl in H.
  - inversion H; subst. split; [|auto]. intros x. simpl. intuition.
  - destruct (rec_n y =? rec_n r).
    + inversion H; subst. split; [|auto]. intros x. intuition discriminate.
    + destruct (rec_n y <? rec_n r).
      * destruct (insert_output r rest) as [res1 rest1] eqn:Hi. inversion H; subst.
        destruct (IH _ _ eq_refl) as [Hin Hres]. split; [|exact Hres].
        intros x. simpl. rewrite Hin. tauto.
      * inversion H; subst. split; [|auto]. intros x. simpl. intuition.
Qed.

Lemma InsertOutput_keeps_sorted r vout res vout' :
  sorted vout -> insert_output r vout = (res, vout') ->
  sorted vout' /\
  (res = 0 -> vout' = vout /\ exists x, In x vout /\ rec_n x = rec_n r) /\
  (res = 1 -> forall x, In x vout -> rec_n x <> rec_n r).
Proof.
  revert res vout'. induction vout as [|y rest IH]; intros res vout' Hs H; simpl in H.
  - inversion H; subst. split; [repeat constructor|]. split; [discriminate|].
    intros _ x [].
  - inversion Hs as [|? ? Hs' Hy]; subst. rewrite List.Forall_forall in Hy.
    destruct (Z.eqb_spec (rec_n y) (rec_n r)) as [He|Hne].
    + inversion H; subst. split; [exact Hs|]. split; [|discriminate].
      intros _. split; [reflexivity|]. exists y. split; [left; reflexivity|exact He].
    + destruct (Z.ltb_spec (rec_n y) (rec_n r)) as [Hlt|Hge].
      * destruct (insert_output r rest) as [res1 rest1] eqn:Hi. inversion H; subst.
        destruct (IH _ _ Hs' eq_refl) as (Hs1 & H0 & H1).
        destruct (InsertOutput_In r rest res rest1 Hi) as [Hin _].
        split; [|split].
        -- constructor; [exact Hs1|]. rewrite List.Forall_forall. intros x Hx.
           apply Hin in Hx. destruct Hx as [[_ ->]|Hx]; [exact Hlt|apply Hy; exact Hx].
        -- intros Hres. destruct (H0 Hres) as (-> & x & Hx & Hxn).
           split; [reflexivity|]. exists x. split; [right; exact Hx|exact Hxn].
        -- intros Hres x [<-|Hx]; [exact Hne|apply (H1 Hres x Hx)].
      * inversion H; subst. split; [|split].
        -- constructor; [exact Hs|]. rewrite List.Forall_forall.
           intros x [<-|Hx]; [lia|]. specialize (Hy x Hx). lia.
        -- discriminate.
        -- intros _ x [<-|Hx]; [exact Hne|]. specialize (Hy x Hx). lia.
Qed.

End OutputRecordProps.

(** X21.  [CTransactionRecord::InsertOutput] keeps [vout] in ascending
    order of output index.  It returns 0 and changes nothing exactly when
    a record of that index is present; otherwise it returns 1, after
    which [GetOutput] finds the new record under its index and answers
    for every other index as before. *)
Theorem InsertOutput_then_GetOutput {COutputRecord : Type} (rec_n : COutputRecord -> Z)
        r vout res vout' :
  records_sorted COutputRecord rec_n vout ->
  InsertOutput COutputRecord rec_n r vout = (res, vout') ->
  records_sorted COutputRecord rec_n vout' /\
  (res = 0 /\ vout' = vout /\
   (exists x, GetOutput COutputRecord rec_n (rec_n r) vout = Some x)
   \/
   res = 1 /\ GetOutput COutputRecord rec_n (rec_n r) vout = None /\
   GetOutput COutputRecord rec_n (rec_n r) vout' = Some r /\
   forall n, n <> rec_n r ->
             GetOutput COutputRecord rec_n n vout' = GetOutput COutputRecord rec_n n vout).
Proof.
  intros Hs H.
  destruct (InsertOutput_keeps_sorted rec_n r vout res vout' Hs H) as (Hs' & H0 & H1).
  destruct (InsertOutput_In rec_n r vout res vout' H) as [Hin Hres].
  split; [exact Hs'|]. destruct Hres as [Hres|Hres].
  - left. destruct (H0 Hres) as (Hv & x & Hx & Hxn). split; [exact Hres|].
    split; [exact Hv|]. exists x. apply GetOutput_sorted; assumption.
  - right. split; [exact Hres|]. split; [|split].
    + apply GetOutput_None; [exact Hs|]. exact (H1 Hres).
    + apply GetOutput_sorted; [exact Hs'| |reflexivity]. apply Hin. left. auto.
    + intros n Hn.
      destruct (GetOutput COutputRecord rec_n n vout) as [x|] eqn:Hg.
      * apply GetOutput_Some in Hg. destruct Hg as [Hx Hxn].
        apply GetOutput_sorted; [exact Hs'| |exact Hxn]. apply Hin. right. exact Hx.
      * apply GetOutput_None; [exact Hs'|]. intros x Hx Hxn.
        apply Hin in Hx. destruct Hx as [[_ ->]|Hx]; [congruence|].
        apply (proj1 (GetOutput_None rec_n n vout Hs) Hg x Hx Hxn).
Qed.

Lemma InsertOutput_then_GetOutput_witness :
  GetOutput (Z * N) fst 2 (snd (InsertOutput (Z * N) fst (2, 7%N) [(1, 0%N); (3, 0%N)]))
  = Some (2, 7%N).
Proof.
  destruct (InsertOutput_then_GetOutput (fst : Z * N -> Z) (2, 7%N) [(1, 0%N); (3, 0%N)]
              1 [(1, 0%N); (2, 7%N); (3, 0%N)]) as [_ [(H & _)|(_ & _ & H & _)]].
  - repeat constructor.
  - reflexivity.
  - discriminate H.
  - exact H.
Defined.

Section EraseOutputProps.

Context {COutputRecord : Type} (rec_n : COutputRecord -> Z).

Local Abbreviation sorted := (records_sorted COutputRecord rec_n).
Local Abbreviation erase_output := (EraseOutput COutputRecord rec_n).

Lemma EraseOutput_spec n vout res vout' :
  sorted vout -> erase_output n vout = (res, vout') ->
  sorted vout' /\
  (forall x, In x vout' <-> In x vout /\ rec_n x <> n) /\
  (res = true <-> exists x, In x vout /\ rec_n x = n).
Proof.
  revert res vout'. induction vout as [|y rest IH]; intros res vout' Hs H; simpl in H.
  - inversion H; subst. split; [constructor|]. split.
    + intros x. simpl. tauto.
    + split; [discriminate|]. intros (x & [] & _).
  - inversion Hs as [|? ? Hs' Hy]; subst. rewrite List.Forall_forall in Hy.
    destruct (Z.eqb_spec (rec_n y) n) as [He|Hne]; simpl in H.
    + inversion H; subst. split; [exact Hs'|]. split.
      * intros x. simpl. split.
        -- intros Hx. split; [right; exact Hx|]. specialize (Hy x Hx). lia.
        -- intros [[<-|Hx] Hxn]; [congruence|exact Hx].
      * split; [|reflexivity]. intros _. exists y. split; [left; reflexivity|reflexivity].
    + destruct (erase_output n rest) as [res1 rest1] eqn:Hi. inversion H; subst.
      destruct (IH _ _ Hs' eq_refl) as (Hs1 & Hin & Hres). split; [|split].
      * constructor; [exact Hs1|]. rewrite List.Forall_forall. intros x Hx.
        apply Hin in Hx. apply Hy. tauto.
      * intros x. simpl. rewrite Hin. split.
        -- intros [<-|[Hx Hxn]]; [split; [left; reflexivity|exact Hne]|].
           split; [right; exact Hx|exact Hxn].
        -- intros [[<-|Hx] Hxn]; [left; reflexivity|right; split; assumption].
      * rewrite Hres. split.
        -- intros (x & Hx & Hxn). exists x. split; [right; exact Hx|exact Hxn].
        -- intros (x & [<-|Hx] & Hxn); [congruence|]. exists x. split; assumption.
Qed.

End EraseOutputProps.

(** X22.  On a vector in ascending order of output index,
    [CTransactionRecord::EraseOutput] answers whether [GetOutput] finds a
    record of that index; afterwards the vector is still in order,
    [GetOutput] finds none of that index, and it answers for every other
    index as before. *)
Theorem EraseOutput_then_GetOutput {COutputRecord : Type} (rec_n : COutputRecord -> Z)
        n vout res vout' :
  records_sorted COutputRecord rec_n vout ->
  EraseOutput COutputRecord rec_n n vout = (res, vout') ->
  records_sorted COutputRecord rec_n vout' /\
  (res = true <-> exists x, GetOutput COutputRecord rec_n n vout = Some x) /\
  GetOutput COutputRecord rec_n n vout' = None /\
  forall m, m <> n ->
            GetOutput COutputRecord rec_n m vout' = GetOutput COutputRecord rec_n m vout.
Proof.
  intros Hs H.
  destruct (EraseOutput_spec rec_n n vout res vout' Hs H) as (Hs' & Hin & Hres).
  split; [exact Hs'|]. split; [|split].
  - rewrite Hres. split.
    + intros (x & Hx & Hxn). exists x. apply GetOutput_sorted; assumption.
    + intros (x & Hx). apply GetOutput_Some in Hx. exists x. exact Hx.
  - apply GetOutput_None; [exact Hs'|]. intros x Hx. apply Hin in Hx. tauto.
  - intros m Hm.
    destruct (GetOutput COutputRecord rec_n m vout) as [x|] eqn:Hg.
    + apply GetOutput_Some in Hg. destruct Hg as [Hx Hxn].
      apply GetOutput_sorted; [exact Hs'| |exact Hxn]. apply Hin. split; [exact Hx|lia].
    + apply GetOutput_None; [exact Hs'|]. intros x Hx Hxn. apply Hin in Hx.
      apply (proj1 (GetOutput_None rec_n m vout Hs) Hg x (proj1 Hx) Hxn).
Qed.

Lemma EraseOutput_then_GetOutput_witness :
  GetOutput (Z * N) fst 2 (snd (EraseOutput (Z * N) fst 2 [(1, 0%N); (2, 7%N); (3, 0%N)]))
  = None.
Proof.
  destruct (EraseOutput_then_GetOutput (fst : Z * N -> Z) 2 [(1, 0%N); (2, 7%N); (3, 0%N)]
              true [(1, 0%N); (3, 0%N)]) as (_ & _ & H & _).
  - repeat constructor.
  - reflexivity.
  - exact H.
Defined.

(** * Ownership of a transaction *)

Lemma IsAllFromMe_loop_spec E w filter ins :
  IsAllFromMe_loop E w filter ins = true <->
  forall txin, In txin ins -> flag_and (IsMine_txin E w txin) filter = true.
Proof.
  induction ins as [|txin rest IH]; simpl.
  - split; [intros _ x []|reflexivity].
  - unfold IsMine_txin at 1.
    destruct (mapWallet w !! op_hash (prevout txin)) as [prev|] eqn:Hp.
    + destruct (vout (tx prev) !! N.to_nat (op_n (prevout txin))) as [o|] eqn:Ho.
      * destruct (flag_and (IsMine E o) filter) eqn:Hf; simpl.
        -- rewrite IH. split.
           ++ intros Hall x [<-|Hx]; [|apply Hall; exact Hx].
              unfold IsMine_txin. rewrite Hp, Ho. exact Hf.
           ++ intros Hall x Hx. apply Hall. right. exact Hx.
        -- split; [discriminate|]. intros Hall. specialize (Hall txin (or_introl eq_refl)).
           unfold IsMine_txin in Hall. rewrite Hp, Ho in Hall. congruence.
      * split; [discriminate|]. intros Hall. specialize (Hall txin (or_introl eq_refl)).
        unfold IsMine_txin in Hall. rewrite Hp, Ho in Hall. discriminate Hall.
    + split; [discriminate|]. intros Hall. specialize (Hall txin (or_introl eq_refl)).
      unfold IsMine_txin in Hall. rewrite Hp in Hall. discriminate Hall.
Qed.

Lemma GetDebit_loop_all_from_me E w filter ins : forall acc d,
  IsAllFromMe_loop E w filter ins = true ->
  GetDebit_loop E w filter ins acc = Ret d ->
  d = acc + total_input_value w ins.
Proof.
  induction ins as [|txin rest IH]; intros acc d Hall H; simpl in *.
  - inversion H; subst. lia.
  - assert (Hv : GetDebit_txin E w txin filter = input_value w txin).
    { unfold GetDebit_txin, input_value.
      destruct (mapWallet w !! op_hash (prevout txin)) as [prev|]; [|discriminate].
      destruct (vout (tx prev) !! N.to_nat (op_n (prevout txin))) as [o|]; [|discriminate].
      destruct (flag_and (IsMine E o) filter); [reflexivity|discriminate]. }
    assert (Hrest : IsAllFromMe_loop E w filter rest = true).
    { destruct (mapWallet w !! op_hash (prevout txin)) as [prev|]; [|discriminate].
      destruct (vout (tx prev) !! N.to_nat (op_n (prevout txin))) as [o|]; [|discriminate].
      destruct (flag_and (IsMine E o) filter); [exact Hall|discriminate]. }
    rewrite Hv in H. destruct (negb (MoneyRange E _)); [discriminate|].
    apply (IH _ _ Hrest) in H. lia.
Qed.

(** X23.  [IsAllFromMe] answers true exactly when [IsMine] of every input
    meets the filter; the debit [GetDebit] then returns for the
    transaction is the whole value of the outputs its inputs spend. *)
Theorem IsAllFromMe_debit_is_input_value E w t filter :
  (IsAllFromMe E w t filter = true <->
   forall txin, In txin (vin t) -> flag_and (IsMine_txin E w txin) filter = true) /\
  (IsAllFromMe E w t filter = true ->
   forall d, GetDebit_tx E w t filter = Ret d -> d = total_input_value w (vin t)).
Proof.
  split.
  - apply IsAllFromMe_loop_spec.
  - intros Hall d H. unfold GetDebit_tx in H.
    apply (GetDebit_loop_all_from_me E w filter (vin t) 0 d Hall) in H. lia.
Qed.

Lemma IsAllFromMe_debit_is_input_value_witness :
  GetDebit_tx E0 wallet_family (mkTx 32%N [txin_of 31 0] [mkTxOut 60 []] false false false)
              ISMINE_SPENDABLE = Ret 70 /\
  70 = total_input_value wallet_family [txin_of 31 0].
Proof.
  split; [vm_compute; reflexivity|].
  apply (proj2 (IsAllFromMe_debit_is_input_value E0 wallet_family
                  (mkTx 32%N [txin_of 31 0] [mkTxOut 60 []] false false false)
                  ISMINE_SPENDABLE)).
  - vm_compute. reflexivity.
  - vm_compute. reflexivity.
Defined.

Lemma flag_and_within a f1 f2 :
  filter_within f1 f2 -> flag_and a f1 = true -> flag_and a f2 = true.
Proof.
  unfold filter_within, flag_and. intros Hw H.
  apply negb_true_iff in H. apply N.eqb_neq in H.
  apply negb_true_iff. apply N.eqb_neq. intros H2. apply H.
  rewrite <- Hw, N.land_assoc, (N.land_comm a f1), <- N.land_assoc, H2.
  apply N.land_0_r.
Qed.

Lemma GetCredit_loop_spec E filter outs : forall acc c,
  GetCredit_loop E filter outs acc = Ret c ->
  c = acc + sum_values (credited E filter outs) /\
  Forall (fun o => 0 <= nValue o) outs.
Proof.
  induction outs as [|o rest IH]; intros acc c H; simpl in H.
  - inversion H; subst. split; [simpl; lia|constructor].
  - unfold GetCredit_txout in H.
    destruct (MoneyRange E (nValue o)) eqn:Hr; [|discriminate]. simpl in H.
    destruct (negb (MoneyRange E _)); [discriminate|].
    apply IH in H. destruct H as [Hc Hall].
    unfold MoneyRange in Hr. apply andb_true_iff in Hr. destruct Hr as [Hr _].
    apply Z.leb_le in Hr. split; [|constructor; assumption].
    unfold credited in *. simpl.
    destruct (flag_and (IsMine E o) filter); simpl; lia.
Qed.

Lemma sum_values_credited_mono E f1 f2 outs :
  filter_within f1 f2 ->
  Forall (fun o => 0 <= nValue o) outs ->
  0 <= sum_values (credited E f1 outs) <= sum_values (credited E f2 outs).
Proof.
  intros Hw Hall. induction Hall as [|o rest Ho Hall IH]; simpl; [lia|].
  unfold credited in *. simpl.
  destruct (flag_and (IsMine E o) f1) eqn:H1.
  - rewrite (flag_and_within _ _ _ Hw H1). simpl. lia.
  - destruct (flag_and (IsMine E o) f2); simpl; lia.
Qed.

(** X24.  The credit [GetCredit] returns for a transaction is the total of
    its outputs that are the wallet's under the filter, none of which is
    negative; a filter with fewer ownership bits gives no larger a
    credit. *)
Theorem GetCredit_tx_monotone E t f1 f2 c1 c2 :
  filter_within f1 f2 ->
  GetCredit_tx E t f1 = Ret c1 ->
  GetCredit_tx E t f2 = Ret c2 ->
  c1 = sum_values (credited E f1 (vout t)) /\
  c2 = sum_values (credited E f2 (vout t)) /\
  0 <= c1 <= c2.
Proof.
  intros Hw H1 H2. unfold GetCredit_tx in *.
  apply GetCredit_loop_spec in H1. apply GetCredit_loop_spec in H2.
  destruct H1 as [H1 Hall], H2 as [H2 _].
  pose proof (sum_values_credited_mono E f1 f2 (vout t) Hw Hall).
  split; [lia|]. split; lia.
Qed.

Lemma GetCredit_tx_monotone_witness :
  exists c1 c2,
    GetCredit_tx E0 (mkTx 32%N [txin_of 31 0] [mkTxOut 60 []; mkTxOut 5 []] false false false)
                 ISMINE_SPENDABLE = Ret c1 /\
    GetCredit_tx E0 (mkTx 32%N [txin_of 31 0] [mkTxOut 60 []; mkTxOut 5 []] false false false)
                 ISMINE_ALL = Ret c2 /\
    0 <= c1 <= c2.
Proof.
  exists 65, 65. split; [vm_compute; reflexivity|]. split; [vm_compute; reflexivity|].
  apply (GetCredit_tx_monotone E0
           (mkTx 32%N [txin_of 31 0] [mkTxOut 60 []; mkTxOut 5 []] false false false)
           ISMINE_SPENDABLE ISMINE_ALL 65 65).
  - reflexivity.
  - vm_compute. reflexivity.
  - vm_compute. reflexivity.
Defined.

(** * The candidate scan *)

Section CandidateScanProps.

Variables (E : Externals) (B : BuilderEnv) (S : ScanEnv) (w : CWallet).
Variables (fOnlySafe : bool) (coinControl : option CCoinControl).
Variables (nMinimumAmount nMaximumAmount nMinimumSumAmount : CAmount).
Variables (nMaximumCount : N) (nMinDepth nMaxDepth : Z) (nCoinType : CoinTypeFilter).

Hypothesis not_40000 : nCoinType <> ONLY_40000.

Local Abbreviation ok :=
  (candidate_ok E S w fOnlySafe nMinimumAmount nMaximumAmount nMinDepth nMaxDepth).

Lemma AvailableCoins_outputs_spec wtxid pcoin d safeTx :
  mapWallet w !! wtxid = Some pcoin ->
  GetHash pcoin = wtxid ->
  nMinDepth <= d <= nMaxDepth ->
  (fOnlySafe = true -> safeTx = true) ->
  forall outs i vCoins nTotal vCoins' nTotal' returned,
    (forall k, outs !! k = vout (tx pcoin) !! (N.to_nat i + k)%nat) ->
    AvailableCoins_outputs E B S w coinControl nMinimumAmount nMaximumAmount
      nMinimumSumAmount nMaximumCount nCoinType wtxid pcoin d safeTx i outs vCoins nTotal
    = (vCoins', nTotal', returned) ->
    exists new,
      vCoins' = vCoins ++ new /\
      Forall (fun out => ok out /\ out_tx out = pcoin /\ (i <= out_i out)%N) new /\
      List.NoDup (List.map out_i new).
Proof.
  intros Hw Hhash Hd Hsafe.
  induction outs as [|txout rest IH]; intros i vCoins nTotal vCoins' nTotal' returned Hk H;
    simpl in H.
  - inversion H; subst. exists []. rewrite app_nil_r. repeat constructor.
  - assert (Hrest : forall k, rest !! k = vout (tx pcoin) !! (N.to_nat (N.succ i) + k)%nat).
    { intros k. pose proof (Hk (Datatypes.S k)) as Hx. simpl in Hx. rewrite Hx.
      f_equal. lia. }
    assert (Hskip : forall vCoins' nTotal' returned,
               AvailableCoins_outputs E B S w coinControl nMinimumAmount nMaximumAmount
                 nMinimumSumAmount nMaximumCount nCoinType wtxid pcoin d safeTx (N.succ i)
                 rest vCoins nTotal = (vCoins', nTotal', returned) ->
               exists new,
                 vCoins' = vCoins ++ new /\
                 Forall (fun out => ok out /\ out_tx out = pcoin /\ (i <= out_i out)%N) new /\
                 List.NoDup (List.map out_i new)).
    { intros v' t' r' H'. destruct (IH _ _ _ _ _ _ Hrest H') as (new & Hv & Hall & Hnd).
      exists new. split; [exact Hv|]. split; [|exact Hnd].
      eapply Forall_impl; [exact Hall|]. simpl. intros out (H1 & H2 & H3).
      split; [exact H1|]. split; [exact H2|lia]. }
    destruct (negb (coin_type_found B S nCoinType (nValue txout))); [exact (Hskip _ _ _ H)|].
    destruct (Z.ltb_spec (nValue txout) nMinimumAmount) as [Hlo|Hlo];
      [exact (Hskip _ _ _ H)|].
    destruct (Z.ltb_spec nMaximumAmount (nValue txout)) as [Hhi|Hhi];
      [exact (Hskip _ _ _ H)|]. cbn [orb] in H.
    assert (Hh : match nCoinType with
                 | ONLY_40000 => CTxOut_GetHash S txout | _ => wtxid end = wtxid).
    { destruct nCoinType as [t| |]; try reflexivity. contradiction. }
    rewrite Hh in H.
    destruct (match coinControl with
              | Some cc => HasSelected cc && negb (fAllowOtherInputs cc)
                           && negb (bool_decide (mkOutPoint wtxid i ∈ setSelected cc))
              | None => false
              end); [exact (Hskip _ _ _ H)|].
    destruct (IsLockedCoin S wtxid i) eqn:Hlock; [exact (Hskip _ _ _ H)|].
    destruct (IsSpent E w wtxid i) eqn:Hspent; [exact (Hskip _ _ _ H)|].
    destruct (N.eqb_spec (IsMine E txout) ISMINE_NO) as [Hmine|Hmine]; [exact (Hskip _ _ _ H)|].
    set (out := mkOutput pcoin i d _ _ safeTx) in H.
    assert (Hout : ok out /\ out_tx out = pcoin /\ (i <= out_i out)%N).
    { split; [|split; [reflexivity|simpl; lia]].
      unfold candidate_ok, out. simpl. rewrite Hhash.
      split; [exact Hw|]. split; [exact Hd|]. split; [exact Hsafe|].
      split; [exact Hlock|]. split; [exact Hspent|].
      exists txout. split; [|split; [exact Hmine|lia]].
      pose proof (Hk 0%nat) as Hx. simpl in Hx. rewrite Nat.add_0_r in Hx.
      symmetry. exact Hx. }
    assert (Hone : exists new,
               vCoins ++ [out] = vCoins ++ new /\
               Forall (fun out => ok out /\ out_tx out = pcoin /\ (i <= out_i out)%N) new /\
               List.NoDup (List.map out_i new)).
    { exists [out]. split; [reflexivity|]. split; [constructor; [exact Hout|constructor]|].
      simpl. constructor; [intros []|constructor]. }
    destruct (_ && (nMinimumSumAmount <=? _));
      [injection H as Hv _ _; rewrite <- Hv; exact Hone|].
    destruct ((0 <? nMaximumCount)%N && _);
      [injection H as Hv _ _; rewrite <- Hv; exact Hone|].
    destruct (IH _ _ _ _ _ _ Hrest H) as (new & Hv & Hall & Hnd).
    exists (out :: new). split; [rewrite Hv, <- app_assoc; reflexivity|]. split.
    + constructor; [exact Hout|].
      eapply Forall_impl; [exact Hall|]. simpl. intros o (H1 & H2 & H3).
      split; [exact H1|]. split; [exact H2|lia].
    + simpl. constructor; [|exact Hnd]. intros Hin. apply in_map_iff in Hin.
      destruct Hin as (o & Ho & Hoin). rewrite List.Forall_forall in Hall.
      destruct (Hall o Hoin) as (_ & _ & Hge). simpl in Ho. lia.
Qed.

Lemma AvailableCoins_entries_spec :
  wallet_consistent w ->
  forall entries vCoins nTotal vCoins',
    List.NoDup (List.map fst entries) ->
    (forall e, In e entries -> mapWallet w !! fst e = Some (snd e)) ->
    AvailableCoins_entries E B S w fOnlySafe coinControl nMinimumAmount nMaximumAmount
      nMinimumSumAmount nMaximumCount nMinDepth nMaxDepth nCoinType entries vCoins nTotal
    = Ret vCoins' ->
    exists new,
      vCoins' = vCoins ++ new /\
      Forall (fun out => ok out /\ In (GetHash (out_tx out)) (List.map fst entries)) new /\
      List.NoDup (List.map out_outpoint new).
Proof.
  intros Hcons. induction entries as [|[wtxid pcoin] rest IH];
    intros vCoins nTotal vCoins' Hnd Hin H; simpl in H.
  - inversion H; subst. exists []. rewrite app_nil_r. repeat constructor.
  - inversion Hnd as [|? ? Hfresh Hnd']; subst.
    assert (Hw : mapWallet w !! wtxid = Some pcoin) by (apply (Hin (wtxid, pcoin)); left; auto).
    assert (Hin' : forall e, In e rest -> mapWallet w !! fst e = Some (snd e))
      by (intros e He; apply Hin; right; exact He).
    assert (Hskip : forall vCoins' ,
               AvailableCoins_entries E B S w fOnlySafe coinControl nMinimumAmount
                 nMaximumAmount nMinimumSumAmount nMaximumCount nMinDepth nMaxDepth
                 nCoinType rest vCoins nTotal = Ret vCoins' ->
               exists new,
                 vCoins' = vCoins ++ new /\
                 Forall (fun out => ok out /\
                                    In (GetHash (out_tx out)) (wtxid :: List.map fst rest))
                        new /\
                 List.NoDup (List.map out_outpoint new)).
    { intros v' H'. destruct (IH _ _ _ Hnd' Hin' H') as (new & Hv & Hall & Hn).
      exists new. split; [exact Hv|]. split; [|exact Hn].
      eapply Forall_impl; [exact Hall|]. simpl. intros out [H1 H2]. auto. }
    simpl. destruct (negb (CheckFinalTx E (tx pcoin))); [exact (Hskip _ H)|].
    destruct (IsCoinBase pcoin && _); [exact (Hskip _ H)|].
    set (d := GetDepthInMainChain_IX E false pcoin) in H.
    destruct ((d =? 0) && negb (InMempool pcoin)); [exact (Hskip _ H)|].
    apply bind_Ret_inv in H. destruct H as (safe0 & _ & H).
    set (safeTx := if (d =? 0) && mapValue_count "replaced_by_txid" pcoin then false
                   else if (d =? 0) && mapValue_count "replaces_txid" pcoin then false
                        else safe0) in H.
    destruct (fOnlySafe && negb safeTx) eqn:Hsafe; [exact (Hskip _ H)|].
    destruct (Z.ltb_spec d nMinDepth) as [Hlo|Hlo]; [exact (Hskip _ H)|].
    destruct (Z.ltb_spec nMaxDepth d) as [Hhi|Hhi]; [exact (Hskip _ H)|]. cbn [orb] in H.
    destruct (AvailableCoins_outputs E B S w coinControl nMinimumAmount nMaximumAmount
                nMinimumSumAmount nMaximumCount nCoinType wtxid pcoin d safeTx 0
                (vout (tx pcoin)) vCoins nTotal) as [[vCoins1 nTotal1] returned] eqn:Hout.
    apply (AvailableCoins_outputs_spec wtxid pcoin d safeTx Hw (Hcons _ _ Hw)) in Hout;
      [|lia| |intros k; reflexivity].
    2:{ intros ->. simpl in Hsafe. apply negb_false_iff in Hsafe. exact Hsafe. }
    destruct Hout as (new1 & Hv1 & Hall1 & Hnd1).
    assert (Hhead : Forall (fun out => ok out /\
                                       In (GetHash (out_tx out)) (wtxid :: List.map fst rest))
                           new1).
    { eapply Forall_impl; [exact Hall1|]. simpl. intros out (H1 & H2 & _).
      split; [exact H1|]. left. rewrite H2. symmetry. apply (Hcons _ _ Hw). }
    assert (Hnd1' : List.NoDup (List.map out_outpoint new1)).
    { clear -Hnd1 Hall1. induction new1 as [|x l IHl]; simpl; [constructor|].
      inversion Hnd1 as [|? ? Hx Hl]; subst. inversion Hall1 as [|? ? _ Hall]; subst.
      constructor; [|apply IHl; assumption].
      intros Hc. apply Hx. apply in_map_iff in Hc. destruct Hc as (y & Hy & Hyin).
      apply in_map_iff. exists y. split; [|exact Hyin].
      unfold out_outpoint in Hy. inversion Hy; reflexivity. }
    destruct returned.
    + inversion H; subst. exists new1. split; [reflexivity|]. split; assumption.
    + destruct (IH _ _ _ Hnd' Hin' H) as (new2 & Hv2 & Hall2 & Hnd2).
      exists (new1 ++ new2). split; [rewrite Hv2, Hv1, <- app_assoc; reflexivity|]. split.
      * apply Forall_app. split; [exact Hhead|].
        eapply Forall_impl; [exact Hall2|]. simpl. intros out [H1 H2]. auto.
      * rewrite map_app. apply NoDup_ListNoDup. apply NoDup_app.
        split; [apply NoDup_ListNoDup; exact Hnd1'|]. split;
          [|apply NoDup_ListNoDup; exact Hnd2].
        intros op Hop1 Hop2. apply list_elem_of_In in Hop1, Hop2.
        apply in_map_iff in Hop1, Hop2.
        destruct Hop1 as (o1 & Ho1 & Ho1in), Hop2 as (o2 & Ho2 & Ho2in).
        rewrite List.Forall_forall in Hall1, Hall2.
        destruct (Hall1 o1 Ho1in) as (_ & Htx1 & _).
        destruct (Hall2 o2 Ho2in) as (_ & Hk2).
        apply Hfresh.
        assert (Heq : GetHash (out_tx o2) = wtxid).
        { rewrite <- Ho2 in Ho1. apply (f_equal op_hash) in Ho1.
          change (GetHash (out_tx o1) = GetHash (out_tx o2)) in Ho1.
          rewrite <- Ho1, Htx1. apply (Hcons _ _ Hw). }
        rewrite Heq in Hk2. exact Hk2.
Qed.

End CandidateScanProps.

Lemma wallet_entries_keys (m : gmap uint256 CWalletTx) :
  List.NoDup (List.map fst (wallet_entries m)) /\
  forall e, In e (wallet_entries m) -> m !! fst e = Some (snd e).
Proof.
  pose proof (wallet_entries_Permutation m) as Hperm. split.
  - apply NoDup_ListNoDup.
    assert (Hmap : List.map fst (wallet_entries m) = (wallet_entries m).*1).
    { generalize (wallet_entries m). intros l.
      induction l as [|x l IH]; [reflexivity|]. simpl. rewrite IH. reflexivity. }
    rewrite Hmap, Hperm. apply NoDup_fst_map_to_list.
  - intros [k v] He. simpl. apply elem_of_map_to_list.
    rewrite <- Hperm. apply list_elem_of_In. exact He.
Qed.

(** X25.  For every coin type but [ONLY_40000], each candidate
    [AvailableCoins] lists is an output of a record of the wallet that is
    the wallet's, is neither locked nor spent, and lies within the amount
    and depth bounds asked for (and is safe when only safe ones were asked
    for); no outpoint is listed twice. *)
Theorem AvailableCoins_lists_unspent_once E B S w fOnlySafe coinControl nMinimumAmount
        nMaximumAmount nMinimumSumAmount nMaximumCount nMinDepth nMaxDepth nCoinType vCoins :
  wallet_consistent w ->
  nCoinType <> ONLY_40000 ->
  AvailableCoins E B S w fOnlySafe coinControl nMinimumAmount nMaximumAmount
                 nMinimumSumAmount nMaximumCount nMinDepth nMaxDepth nCoinType = Ret vCoins ->
  Forall (candidate_ok E S w fOnlySafe nMinimumAmount nMaximumAmount nMinDepth nMaxDepth)
         vCoins /\
  List.NoDup (List.map out_outpoint vCoins).
Proof.
  intros Hcons Hty H. unfold AvailableCoins in H.
  destruct (wallet_entries_keys (mapWallet w)) as [Hnd Hin].
  destruct (AvailableCoins_entries_spec E B S w fOnlySafe coinControl nMinimumAmount
              nMaximumAmount nMinimumSumAmount nMaximumCount nMinDepth nMaxDepth nCoinType
              Hty Hcons _ _ _ _ Hnd Hin H) as (new & Hv & Hall & Hn).
  simpl in Hv. subst vCoins. split; [|exact Hn].
  eapply Forall_impl; [exact Hall|]. simpl. intros out [Hok _]. exact Hok.
Qed.

Lemma AvailableCoins_lists_unspent_once_witness :
  exists vCoins,
    AvailableCoins E0 B0 S0 wallet_preset true None 0 (MAX_MONEY E0) (MAX_MONEY E0) 0 0
                   9999999 (Filter_of ALL_COINS) = Ret vCoins /\
    vCoins <> [] /\
    List.NoDup (List.map out_outpoint vCoins).
Proof.
  destruct (AvailableCoins E0 B0 S0 wallet_preset true None 0 (MAX_MONEY E0) (MAX_MONEY E0)
              0 0 9999999 (Filter_of ALL_COINS)) as [vCoins| | | |] eqn:H;
    try (vm_compute in H; discriminate H).
  exists vCoins. split; [reflexivity|]. split.
  - intros ->. vm_compute in H. discriminate H.
  - apply (AvailableCoins_lists_unspent_once E0 B0 S0 wallet_preset true None 0
             (MAX_MONEY E0) (MAX_MONEY E0) 0 0 9999999 (Filter_of ALL_COINS) vCoins).
    + exact wallet_consistent_wallet_preset.
    + discriminate.
    + exact H.
Defined.

(** * Conflicts are mutual *)

Lemma GetConflicts_In w txid wtx h :
  mapWallet w !! txid = Some wtx ->
  (In h (GetConflicts w txid) <->
   exists txin, In txin (vin (tx wtx)) /\
                (1 < length (equal_range (prevout txin) (mapTxSpends w)))%nat /\
                In (prevout txin, h) (mapTxSpends w)).
Proof.
  intros Hw. unfold GetConflicts. rewrite Hw, GetConflicts_fold_In. unfold spender_of.
  simpl. split; [intros [[]|H]; exact H|auto].
Qed.

(** X26.  Conflicts are mutual.  In a wallet whose spend index names only
    inputs of its spenders, if [GetConflicts] of the tracked transaction
    [a], whose inputs are in the index, lists [b], then [b] is tracked and
    [GetConflicts] of [b] lists [a]. *)
Theorem GetConflicts_symmetric w a wa b :
  index_sound w ->
  mapWallet w !! a = Some wa ->
  inputs_indexed w a wa ->
  In b (GetConflicts w a) ->
  is_Some (mapWallet w !! b) /\ In a (GetConflicts w b).
Proof.
  intros Hsound Ha Hidx Hb.
  apply (GetConflicts_In w a wa b Ha) in Hb. destruct Hb as (txin & Hin & Hcount & Hsp).
  destruct (Hsound _ _ Hsp) as (wb & Hwb & Ho).
  split; [eauto|].
  apply (GetConflicts_In w b wb a Hwb).
  apply in_map_iff in Ho. destruct Ho as (txin' & Heq & Hin').
  exists txin'. rewrite Heq. split; [exact Hin'|]. split; [exact Hcount|].
  apply Hidx. exact Hin.
Qed.

Lemma GetConflicts_symmetric_witness :
  In 2%N (GetConflicts wallet_conflict 1%N) /\
  is_Some (mapWallet wallet_conflict !! 2%N) /\ In 1%N (GetConflicts wallet_conflict 2%N).
Proof.
  assert (H : In 2%N (GetConflicts wallet_conflict 1%N)) by (vm_compute; auto).
  split; [exact H|].
  apply (GetConflicts_symmetric wallet_conflict 1%N
           (mk_wtx 1 [txin_of 9 0] [mkTxOut 40 []] 0 (-1) false) 2%N).
  - intros o h Hin. simpl in Hin. destruct Hin as [Hin|[Hin|[]]]; inversion Hin; subst.
    + eexists. split; [vm_compute; reflexivity|]. simpl. auto.
    + eexists. split; [vm_compute; reflexivity|]. simpl. auto.
  - vm_compute. reflexivity.
  - intros txin [<-|[]]. simpl. auto.
  - exact H.
Defined.

(** * Notifications keep the ledger *)

Lemma MarkConflicted_kept E fuel hashBlock' hashTx w w' :
  MarkConflicted E fuel hashBlock' hashTx w = Ret w' -> wallet_kept w w'.
Proof.
  unfold MarkConflicted. intros H.
  destruct (0 <=? conflictconfirms_of E hashBlock').
  - inversion H; subst. apply wallet_kept_refl.
  - apply MarkConflicted_loop_kept in H. exact H.
Qed.

Lemma MarkDirty_parents_kept ins w : wallet_kept w (MarkDirty_parents ins w).
Proof.
  destruct (MarkDirty_parents_spec ins w) as (H1 & H2 & H3 & _).
  split; [exact H1|]. split; [exact H2|]. split; [exact H3|].
  intros h. pose proof (MarkDirty_parents_caches ins w h) as Hc.
  destruct (mapWallet w !! h) as [x|].
  - destruct Hc as (x' & -> & Hs).
    destruct (same_but_caches_fields _ _ Hs) as (Ht & _ & _ & Hp & _).
    simpl. split; congruence.
  - rewrite Hc. exact I.
Qed.

Lemma set_InMempool_of_kept hash b w : wallet_kept w (set_InMempool_of hash b w).
Proof.
  unfold set_InMempool_of. destruct (mapWallet w !! hash) as [wtx|] eqn:Hw;
    [|apply wallet_kept_refl].
  repeat split. intros h. simpl. destruct (decide (h = hash)) as [->|Hne].
  - rewrite lookup_insert_eq, Hw. simpl. split; reflexivity.
  - rewrite lookup_insert_ne by congruence. apply record_kept_refl.
Qed.

Lemma wallet_kept_grows w w' : wallet_kept w w' -> wallet_grows w w'.
Proof.
  intros (H1 & _ & _ & H4). split.
  - intros e He. rewrite H1. exact He.
  - intros h Hh. eapply record_kept_is_Some; [apply H4|exact Hh].
Qed.

Lemma wallet_grows_trans a b c : wallet_grows a b -> wallet_grows b c -> wallet_grows a c.
Proof. intros [H1 H2] [G1 G2]. split; auto. Qed.

Lemma AddToWallet_grows E wtxIn w b w' :
  spenders_tracked w ->
  AddToWallet E wtxIn w = Ret (b, w') -> wallet_grows w w'.
Proof.
  intros Ht H. destruct (mapWallet w !! GetHash wtxIn) as [wtx|] eqn:Hw.
  - destruct (AddToWallet_update E wtxIn w wtx b w' Hw H)
      as (H1 & _ & _ & (wtx' & Hw' & _) & Hother).
    split; [intros e He; rewrite H1; exact He|].
    intros h Hh. destruct (decide (h = GetHash wtxIn)) as [->|Hne]; [rewrite Hw'; eauto|].
    rewrite (Hother h Hne). exact Hh.
  - destruct (AddToWallet_new E wtxIn w b w' Hw Ht H)
      as ((wtx' & Hw' & _) & _ & _ & He & _ & Hk).
    split; [intros e Hin; apply He; left; exact Hin|].
    intros h Hh. destruct (decide (h = GetHash wtxIn)) as [->|Hne]; [rewrite Hw'; eauto|].
    eapply record_kept_is_Some; [apply (Hk h Hne)|exact Hh].
Qed.

Section NotificationProps.

Variables (E : Externals) (KeyPool : Type).
Variable keypool_maintenance : CTransaction -> KeyPool -> outcome KeyPool.

Lemma mark_conflicts_range_kept fuel hb hashTx range : forall w w',
  mark_conflicts_range E fuel hb hashTx range w = Ret w' -> wallet_kept w w'.
Proof.
  induction range as [|e rest IH]; intros w w' H; simpl in H.
  - inversion H; subst. apply wallet_kept_refl.
  - apply bind_Ret_inv in H. destruct H as (w1 & H1 & H).
    apply IH in H. eapply wallet_kept_trans; [|exact H].
    destruct (negb (snd e =? hashTx)%N).
    + apply (MarkConflicted_kept _ _ _ _ _ _ H1).
    + inversion H1; subst. apply wallet_kept_refl.
Qed.

Lemma mark_conflicts_kept fuel hb hashTx ins : forall w w',
  mark_conflicts E fuel hb hashTx ins w = Ret w' -> wallet_kept w w'.
Proof.
  induction ins as [|txin rest IH]; intros w w' H; simpl in H.
  - inversion H; subst. apply wallet_kept_refl.
  - apply bind_Ret_inv in H. destruct H as (w1 & H1 & H).
    apply IH in H. eapply wallet_kept_trans; [|exact H].
    apply (mark_conflicts_range_kept _ _ _ _ _ _ H1).
Qed.

Lemma AddToWalletIfInvolvingMe_wf fuel ptx pIndex posInBlock fUpdate w k b w' k' :
  wallet_wf w ->
  AddToWalletIfInvolvingMe E KeyPool keypool_maintenance fuel ptx pIndex posInBlock fUpdate
                           w k = Ret (b, w', k') ->
  wallet_wf w' /\ wallet_grows w w'.
Proof.
  intros Hwf H. unfold AddToWalletIfInvolvingMe in H.
  apply bind_Ret_inv in H. destruct H as (w1 & H1 & H).
  assert (Hk1 : wallet_kept w w1).
  { destruct pIndex as [hb|].
    - apply (mark_conflicts_kept _ _ _ _ _ _ H1).
    - inversion H1; subst. apply wallet_kept_refl. }
  assert (Hwf1 : wallet_wf w1) by (apply (wallet_kept_wf w w1 Hk1 Hwf)).
  assert (Hg1 : wallet_grows w w1) by (apply wallet_kept_grows; exact Hk1).
  destruct (_ && negb fUpdate); [inversion H; subst; auto|].
  apply bind_Ret_inv in H. destruct H as (involved & _ & H).
  destruct involved; [|inversion H; subst; auto].
  apply bind_Ret_inv in H. destruct H as (k1 & _ & H).
  apply bind_Ret_inv in H. destruct H as ([b2 w2] & Hadd & H).
  inversion H; subst. split.
  - apply (AddToWallet_wf _ _ _ _ _ Hwf1 Hadd).
  - eapply wallet_grows_trans; [exact Hg1|].
    apply (AddToWallet_grows _ _ _ _ _ (proj1 (proj2 Hwf1)) Hadd).
Qed.

Lemma SyncTransaction_wf fuel ptx pindex posInBlock w k w' k' :
  wallet_wf w ->
  SyncTransaction E KeyPool keypool_maintenance fuel ptx pindex posInBlock w k
  = Ret (w', k') ->
  wallet_wf w' /\ wallet_grows w w'.
Proof.
  intros Hwf H. unfold SyncTransaction in H.
  apply bind_Ret_inv in H. destruct H as ([[involved w1] k1] & H1 & H).
  apply (AddToWalletIfInvolvingMe_wf _ _ _ _ _ _ _ _ _ _ Hwf) in H1.
  destruct H1 as [Hwf1 Hg1].
  destruct involved; simpl in H; inversion H; subst; [|auto].
  pose proof (MarkDirty_parents_kept (vin ptx) w1) as Hk. split.
  - apply (wallet_kept_wf _ _ Hk Hwf1).
  - eapply wallet_grows_trans; [exact Hg1|apply wallet_kept_grows; exact Hk].
Qed.

End NotificationProps.

(** X27.  The notifications keep the ledger.  [SyncTransaction] and
    [TransactionAddedToMempool], whenever they return, leave a well-formed
    wallet well formed (spend index in key order, spenders tracked,
    records under their hashes), drop no entry of the spend index and no
    record; after [TransactionAddedToMempool] the record of the
    transaction, if the wallet holds one, is flagged as in the mempool. *)
Theorem SyncTransaction_keeps_wallet_wf E (KeyPool : Type)
        (keypool_maintenance : CTransaction -> KeyPool -> outcome KeyPool)
        fuel ptx pindex posInBlock w k w' k' :
  wallet_wf w ->
  (SyncTransaction E KeyPool keypool_maintenance fuel ptx pindex posInBlock w k
   = Ret (w', k') ->
   wallet_wf w' /\ wallet_grows w w') /\
  (TransactionAddedToMempool E KeyPool keypool_maintenance fuel ptx w k = Ret (w', k') ->
   wallet_wf w' /\ wallet_grows w w' /\
   forall wtx', mapWallet w' !! tx_hash ptx = Some wtx' -> InMempool wtx' = true).
Proof.
  intros Hwf. split.
  - apply SyncTransaction_wf. exact Hwf.
  - intros H. unfold TransactionAddedToMempool in H.
    apply bind_Ret_inv in H. destruct H as ([w1 k1] & H1 & H).
    apply (SyncTransaction_wf _ _ _ _ _ _ _ _ _ _ _ Hwf) in H1. destruct H1 as [Hwf1 Hg1].
    inversion H; subst.
    pose proof (set_InMempool_of_kept (tx_hash ptx) true w1) as Hk.
    split; [apply (wallet_kept_wf _ _ Hk Hwf1)|]. split.
    + eapply wallet_grows_trans; [exact Hg1|apply wallet_kept_grows; exact Hk].
    + intros wtx' Hw'. unfold set_InMempool_of in Hw'.
      destruct (mapWallet w1 !! tx_hash ptx) as [x|] eqn:Hx.
      * simpl in Hw'. rewrite lookup_insert_eq in Hw'. inversion Hw'; reflexivity.
      * rewrite Hx in Hw'. discriminate.
Qed.

Lemma SyncTransaction_keeps_wallet_wf_witness :
  exists w' k',
    SyncTransaction E0 unit (fun _ k => Ret k) 5
                    (mkTx 5%N [txin_of 9 0] [mkTxOut 30 []] false false false)
                    (Some 100%N) 0 wallet_conflict tt = Ret (w', k') /\
    wallet_wf w' /\ wallet_grows wallet_conflict w'.
Proof.
  destruct (SyncTransaction E0 unit (fun _ k => Ret k) 5
              (mkTx 5%N [txin_of 9 0] [mkTxOut 30 []] false false false)
              (Some 100%N) 0 wallet_conflict tt) as [[w' k']| | | |] eqn:H;
    try (vm_compute in H; discriminate H).
  exists w', k'. split; [reflexivity|].
  apply (proj1 (SyncTransaction_keeps_wallet_wf E0 unit (fun _ k => Ret k) 5
                  (mkTx 5%N [txin_of 9 0] [mkTxOut 30 []] false false false)
                  (Some 100%N) 0 wallet_conflict tt w' k' wallet_wf_wallet_conflict)).
  exact H.
Defined.

(** * Selection for mixing *)

Section SelectCoinsDarkProps.

Variables (E : Externals) (B : BuilderEnv) (S : ScanEnv) (w : CWallet).
Variables (nValueMin nValueMax : CAmount) (rmin rmax : Z).

Local Abbreviation input_ok := (mixing_input_ok E B S w nValueMin rmin rmax).

Lemma SelectCoinsDark_loop_spec fOnlySafe a b c d vCoins : forall ins v ins' v',
  Forall (candidate_ok E S w fOnlySafe a b c d) vCoins ->
  SelectCoinsDark_loop B S nValueMin nValueMax rmin rmax vCoins ins v = Ret (ins', v') ->
  exists new,
    ins' = ins ++ new /\
    v' = v + fold_right (fun i acc => outpoint_value w (fst i) + acc) 0 new /\
    Forall input_ok new /\
    (forall op, In op (List.map fst new) -> In op (List.map out_outpoint vCoins)) /\
    (List.NoDup (List.map out_outpoint vCoins) -> List.NoDup (List.map fst new)) /\
    (new <> [] -> v' <= nValueMax).
Proof.
  induction vCoins as [|out rest IH]; intros ins v ins' v' Hall H; simpl in H.
  - inversion H; subst. exists []. rewrite app_nil_r. simpl.
    split; [reflexivity|]. split; [lia|]. split; [constructor|].
    split; [intros op []|]. split; [intros _; constructor|]. intros Hn. contradiction.
  - inversion Hall as [|? ? Hok Hall']; subst.
    assert (Hskip : forall ins' v',
               SelectCoinsDark_loop B S nValueMin nValueMax rmin rmax rest ins v
               = Ret (ins', v') ->
               exists new,
                 ins' = ins ++ new /\
                 v' = v + fold_right (fun i acc => outpoint_value w (fst i) + acc) 0 new /\
                 Forall input_ok new /\
                 (forall op, In op (List.map fst new) ->
                             In op (List.map out_outpoint (out :: rest))) /\
                 (List.NoDup (List.map out_outpoint (out :: rest)) ->
                  List.NoDup (List.map fst new)) /\
                 (new <> [] -> v' <= nValueMax)).
    { intros i' x' H'. destruct (IH _ _ _ _ Hall' H') as (new & H1 & H2 & H3 & H4 & H5 & H6).
      exists new. split; [exact H1|]. split; [exact H2|]. split; [exact H3|].
      split; [intros op Hop; right; apply H4; exact Hop|]. split; [|exact H6].
      intros Hnd. inversion Hnd; subst. apply H5. assumption. }
    destruct Hok as (Hw & _ & _ & Hlock & Hspent & txout & Ho & _ & _).
    rewrite Ho in H.
    destruct (Z.ltb_spec (nValue txout) (Z.quot nValueMin 10)) as [Hsmall|Hbig];
      [exact (Hskip _ _ H)|].
    destruct (IsCollateralAmount S (nValue txout)) eqn:Hcol; [exact (Hskip _ _ H)|].
    destruct (fGhostNode S && (nValue txout =? GHOSTNODE_AMOUNT S)); [exact (Hskip _ _ H)|].
    destruct (Z.leb_spec (v + nValue txout) nValueMax) as [Hfit|Hfit];
      [|exact (Hskip _ _ H)].
    set (op := mkOutPoint (GetHash (out_tx out)) (out_i out)) in *.
    destruct (Z.leb_spec rmax (GetInputPrivateSendRounds B op)) as [Hr1|Hr1];
      [exact (Hskip _ _ H)|].
    destruct (Z.ltb_spec (GetInputPrivateSendRounds B op) rmin) as [Hr2|Hr2];
      [exact (Hskip _ _ H)|].
    destruct (IH _ _ _ _ Hall' H) as (new & H1 & H2 & H3 & H4 & H5 & H6).
    assert (Hval : outpoint_value w op = nValue txout).
    { unfold outpoint_value, op. simpl. rewrite Hw, Ho. reflexivity. }
    exists ((op, scriptPubKey txout) :: new).
    split; [rewrite H1, <- app_assoc; reflexivity|].
    split; [simpl; rewrite Hval; lia|]. split; [|split; [|split]].
    + constructor; [|exact H3]. exists (out_tx out), txout. simpl.
      split; [exact Hw|]. split; [exact Ho|]. split; [reflexivity|].
      split; [exact Hspent|]. split; [exact Hlock|]. split; [exact Hcol|].
      split; [lia|]. fold op. lia.
    + intros x [<-|Hx]; [left; reflexivity|right; apply H4; exact Hx].
    + intros Hnd. inversion Hnd as [|? ? Hfresh Hnd']; subst. simpl.
      constructor; [|apply H5; exact Hnd']. intros Hin. apply Hfresh. apply H4. exact Hin.
    + intros _. destruct new as [|i new'].
      * simpl in H2. lia.
      * apply H6. discriminate.
Qed.

End SelectCoinsDarkProps.

(** X28.  [SelectCoinsDark] answers whether the value it picked reaches
    [nValueMin]; that value is the total of the inputs it hands back and,
    when it picked any, is at most [nValueMax].  Each input is an output
    of a record of the wallet, with its script as [prevPubKey], neither
    spent nor locked, no collateral amount, worth at least a tenth of
    [nValueMin], mixed for a number of rounds within the bounds asked
    for; no outpoint is handed back twice. *)
Theorem SelectCoinsDark_inputs_sound E B S (sort_by_priority : list COutput -> list COutput)
        w nValueMin nValueMax rmin rmax b ins v :
  wallet_consistent w ->
  (forall l, Permutation (sort_by_priority l) l) ->
  SelectCoinsDark E B S sort_by_priority w nValueMin nValueMax rmin rmax = Ret (b, ins, v) ->
  b = (nValueMin <=? v) /\
  v = fold_right (fun i acc => outpoint_value w (fst i) + acc) 0 ins /\
  (ins <> [] -> v <= nValueMax) /\
  Forall (mixing_input_ok E B S w nValueMin rmin rmax) ins /\
  List.NoDup (List.map fst ins).
Proof.
  intros Hcons Hsort H. unfold SelectCoinsDark in H.
  apply bind_Ret_inv in H. destruct H as (vCoins & Hscan & H).
  apply bind_Ret_inv in H. destruct H as ([ins1 v1] & Hloop & H). inversion H; subst.
  apply AvailableCoins_entries_spec in Hscan;
    [|discriminate|exact Hcons|apply wallet_entries_keys|apply wallet_entries_keys].
  destruct Hscan as (new & Hv & Hall & Hnd). simpl in Hv. subst vCoins.
  assert (Hall' : Forall (candidate_ok E S w true 0 (MAX_MONEY E) 0 9999999)
                         (sort_by_priority new)).
  { rewrite List.Forall_forall in *. intros out Hout.
    apply (Permutation_in _ (Hsort new)) in Hout. apply (Hall out Hout). }
  assert (Hnd' : List.NoDup (List.map out_outpoint (sort_by_priority new))).
  { eapply Permutation_NoDup; [|exact Hnd]. apply Permutation_map. symmetry. apply Hsort. }
  destruct (SelectCoinsDark_loop_spec E B S w nValueMin nValueMax rmin rmax true 0
              (MAX_MONEY E) 0 9999999 _ _ _ _ _ Hall' Hloop)
    as (picked & H1 & H2 & H3 & _ & H5 & H6).
  simpl in H1. subst ins.
  split; [reflexivity|]. split; [lia|]. split; [exact H6|]. split; [exact H3|].
  apply H5. exact Hnd'.
Qed.

Lemma SelectCoinsDark_inputs_sound_witness :
  SelectCoinsDark E0 B0 S0 (fun l => l) wallet_preset 5 100 (-1) 100
  = Ret (true, [(mkOutPoint 1%N 0%N, [])], 10) /\
  List.NoDup (List.map fst [(mkOutPoint 1%N 0%N, ([] : CScript))]).
Proof.
  assert (H : SelectCoinsDark E0 B0 S0 (fun l => l) wallet_preset 5 100 (-1) 100
              = Ret (true, [(mkOutPoint 1%N 0%N, [])], 10)) by (vm_compute; reflexivity).
  split; [exact H|].
  destruct (SelectCoinsDark_inputs_sound E0 B0 S0 (fun l => l) wallet_preset 5 100 (-1) 100
              true [(mkOutPoint 1%N 0%N, [])] 10) as (_ & _ & _ & _ & Hnd).
  - exact wallet_consistent_wallet_preset.
  - intros l. reflexivity.
  - exact H.
  - exact Hnd.
Defined.

(** X29.  [IsCollateralAmount] answers true exactly for twice, three
    times and four times the collateral (a positive constant). *)
Theorem IsCollateralAmount_multiples S nInputAmount :
  0 < PRIVATESEND_COLLATERAL S ->
  (IsCollateralAmount S nInputAmount = true <->
   nInputAmount = 2 * PRIVATESEND_COLLATERAL S \/
   nInputAmount = 3 * PRIVATESEND_COLLATERAL S \/
   nInputAmount = 4 * PRIVATESEND_COLLATERAL S).
Proof.
  intros Hpos. unfold IsCollateralAmount.
  set (C := PRIVATESEND_COLLATERAL S) in *.
  rewrite !andb_true_iff, !Z.leb_le, Z.eqb_eq. split.
  - intros [[H2 H4] Hrem].
    rewrite Z.rem_mod_nonneg in Hrem by lia.
    apply Z.mod_divide in Hrem; [|lia]. destruct Hrem as [q Hq].
    assert (2 <= q <= 4) by nia.
    assert (q = 2 \/ q = 3 \/ q = 4) as [->|[->| ->]] by lia; lia.
  - intros [->|[->| ->]]; (split; [split; lia|]);
      rewrite Z.rem_mod_nonneg by lia; apply Z.mod_divide; try lia;
        [exists 2|exists 3|exists 4]; reflexivity.
Qed.

Lemma IsCollateralAmount_multiples_witness :
  IsCollateralAmount S0 300000 = true <->
  300000 = 2 * PRIVATESEND_COLLATERAL S0 \/
  300000 = 3 * PRIVATESEND_COLLATERAL S0 \/
  300000 = 4 * PRIVATESEND_COLLATERAL S0.
Proof.
  apply (IsCollateralAmount_multiples S0 300000). reflexivity.
Defined.

(** * A block marks the wallet's conflicting spenders *)

Lemma marked_same hb a b :
  same_chain_state a b -> marked_conflicted hb b -> marked_conflicted hb a.
Proof. unfold same_chain_state, marked_conflicted. intros (_ & H1 & H2) [H3 H4]. split; congruence. Qed.

Lemma same_chain_state_trans a b c :
  same_chain_state a b -> same_chain_state b c -> same_chain_state a c.
Proof. unfold same_chain_state. intros (H1 & H2 & H3) (G1 & G2 & G3). repeat split; congruence. Qed.

Lemma marks_kept_refl hb w : marks_kept hb w w.
Proof. intros x wx Hx. exists wx. split; [exact Hx|]. right. unfold same_chain_state. auto. Qed.

Lemma marks_kept_trans hb a b c : marks_kept hb a b -> marks_kept hb b c -> marks_kept hb a c.
Proof.
  intros H1 H2 x wa Ha. destruct (H1 x wa Ha) as (wb & Hb & Hab).
  destruct (H2 x wb Hb) as (wc & Hc & Hbc). exists wc. split; [exact Hc|].
  destruct Hbc as [Hm|Hs]; [left; exact Hm|].
  destruct Hab as [Hm|Hs']; [left; apply (marked_same hb _ _ Hs Hm)|].
  right. apply (same_chain_state_trans _ _ _ Hs Hs').
Qed.

Lemma same_record_marks_kept hb w1 w2 :
  (forall h, same_record (mapWallet w2 !! h) (mapWallet w1 !! h)) -> marks_kept hb w1 w2.
Proof.
  intros H x wx Hx. specialize (H x). rewrite Hx in H.
  destruct (mapWallet w2 !! x) as [y|]; [|destruct H]. exists y. split; [reflexivity|].
  right. exact H.
Qed.

Lemma mark_step_marks hb w now wtx ins :
  mapWallet w !! now = Some wtx ->
  let w1 := MarkDirty_parents ins
              (set_mapWallet
                 (<[now := MarkDirty (set_hashBlock hb (set_nIndex (-1) wtx))]> (mapWallet w))
                 w) in
  marks_kept hb w w1 /\
  exists wx1, mapWallet w1 !! now = Some wx1 /\ marked_conflicted hb wx1.
Proof.
  intros Hw w1.
  set (wm := set_mapWallet _ w) in w1.
  destruct (MarkDirty_parents_spec ins wm) as (_ & _ & _ & Hrec).
  assert (Hnow : exists wx1, mapWallet w1 !! now = Some wx1 /\ marked_conflicted hb wx1).
  { specialize (Hrec now). unfold wm in Hrec at 2. simpl in Hrec.
    rewrite lookup_insert_eq in Hrec. fold w1 in Hrec.
    destruct (mapWallet w1 !! now) as [y|]; [|destruct Hrec]. exists y. split; [reflexivity|].
    apply (marked_same hb _ _ Hrec). split; reflexivity. }
  split; [|exact Hnow].
  intros x wx Hx. destruct (decide (x = now)) as [->|Hne].
  - destruct Hnow as (wx1 & Hw1 & Hm). exists wx1. split; [exact Hw1|]. left. exact Hm.
  - specialize (Hrec x). unfold wm in Hrec at 2. simpl in Hrec.
    rewrite lookup_insert_ne in Hrec by congruence. rewrite Hx in Hrec. fold w1 in Hrec.
    destruct (mapWallet w1 !! x) as [y|]; [|destruct Hrec]. exists y. split; [reflexivity|].
    right. exact Hrec.
Qed.

Lemma MarkConflicted_loop_marks E hb cc fuel : forall todo done w w',
  MarkConflicted_loop E fuel hb cc todo done w = Ret w' -> marks_kept hb w w'.
Proof.
  induction fuel as [|fuel IH]; intros todo done w w' H.
  - destruct todo; [|discriminate]. inversion H; subst. apply marks_kept_refl.
  - destruct todo as [|now rest]; [inversion H; subst; apply marks_kept_refl|].
    destruct (mapWallet w !! now) as [wtx|] eqn:Hw;
      [|simpl in H; rewrite Hw in H; discriminate].
    rewrite (MarkConflicted_loop_step E fuel hb cc now rest done w wtx Hw) in H.
    destruct (cc <? GetDepthInMainChain E wtx).
    + apply IH in H. eapply marks_kept_trans; [|exact H].
      apply (mark_step_marks hb w now wtx _ Hw).
    + apply IH in H. exact H.
Qed.

Lemma MarkConflicted_marks E fuel hb hashTx w w' :
  MarkConflicted E fuel hb hashTx w = Ret w' -> marks_kept hb w w'.
Proof.
  unfold MarkConflicted. intros H. destruct (0 <=? conflictconfirms_of E hb).
  - inversion H; subst. apply marks_kept_refl.
  - apply MarkConflicted_loop_marks in H. exact H.
Qed.

Lemma marks_kept_marked_or_same hb wtx0 h w1 w2 :
  marks_kept hb w1 w2 ->
  marked_or_same hb wtx0 (mapWallet w1 !! h) -> marked_or_same hb wtx0 (mapWallet w2 !! h).
Proof.
  intros Hk H. unfold marked_or_same in *.
  destruct (mapWallet w1 !! h) as [x|] eqn:Hx; [|destruct H].
  destruct (Hk h x Hx) as (y & -> & Hy).
  destruct Hy as [Hm|Hs]; [left; exact Hm|].
  destruct H as [Hm|Hs']; [left; apply (marked_same hb _ _ Hs Hm)|].
  right. apply (same_chain_state_trans _ _ _ Hs Hs').
Qed.

Lemma marks_kept_settled E hb wtx0 h w1 w2 :
  marks_kept hb w1 w2 ->
  conflict_settled E hb wtx0 (mapWallet w1 !! h) ->
  conflict_settled E hb wtx0 (mapWallet w2 !! h).
Proof.
  intros Hk H. unfold conflict_settled in *.
  destruct (mapWallet w1 !! h) as [x|] eqn:Hx; [|destruct H].
  destruct (Hk h x Hx) as (y & -> & Hy).
  destruct Hy as [Hm|Hs]; [left; exact Hm|].
  destruct H as [Hm|[Hs' Hd]]; [left; apply (marked_same hb _ _ Hs Hm)|].
  right. split; [apply (same_chain_state_trans _ _ _ Hs Hs')|exact Hd].
Qed.

(** [MarkConflicted] on [h] settles the record of [h]. *)
Lemma MarkConflicted_settles E fuel hb h wtx0 w w' :
  conflictconfirms_of E hb < 0 ->
  marked_or_same hb wtx0 (mapWallet w !! h) ->
  MarkConflicted E fuel hb h w = Ret w' ->
  conflict_settled E hb wtx0 (mapWallet w' !! h).
Proof.
  intros Hcc Hpre H. unfold MarkConflicted in H.
  destruct (Z.leb_spec 0 (conflictconfirms_of E hb)) as [Hge|_]; [lia|].
  change (set_insert h []) with [h] in H.
  unfold marked_or_same in Hpre.
  destruct (mapWallet w !! h) as [wx|] eqn:Hw; [|destruct Hpre].
  destruct fuel as [|fuel]; [discriminate|].
  rewrite (MarkConflicted_loop_step E fuel hb _ h [] [] w wx Hw) in H.
  destruct (Z.ltb_spec (conflictconfirms_of E hb) (GetDepthInMainChain E wx)) as [Hlt|Hle].
  - destruct (mark_step_marks hb w h wx (vin (tx wx)) Hw) as [_ (wx1 & Hw1 & Hm)].
    apply MarkConflicted_loop_marks in H.
    destruct (H h wx1 Hw1) as (y & Hy & Hy'). unfold conflict_settled. rewrite Hy.
    left. destruct Hy' as [Hm'|Hs]; [exact Hm'|apply (marked_same hb _ _ Hs Hm)].
  - apply MarkConflicted_loop_marks in H.
    destruct (H h wx Hw) as (y & Hy & Hy'). unfold conflict_settled. rewrite Hy.
    destruct Hy' as [Hm|Hs]; [left; exact Hm|].
    destruct Hpre as [Hm|Hs0]; [left; apply (marked_same hb _ _ Hs Hm)|].
    right. split; [apply (same_chain_state_trans _ _ _ Hs Hs0)|].
    rewrite <- (depth_ext E wx wtx0 Hs0). exact Hle.
Qed.

Lemma settled_marked_or_same E hb wtx0 a :
  conflict_settled E hb wtx0 a -> marked_or_same hb wtx0 a.
Proof. destruct a as [x|]; simpl; [|auto]. intros [H|[H _]]; auto. Qed.

Section ConflictMarks.

Variables (E : Externals) (fuel : nat) (hb hashTx h : uint256) (wtx0 : CWalletTx).
Hypothesis Hcc : conflictconfirms_of E hb < 0.
Hypothesis Hne : h <> hashTx.

Lemma mark_conflicts_range_settles range : forall w w',
  marked_or_same hb wtx0 (mapWallet w !! h) ->
  mark_conflicts_range E fuel hb hashTx range w = Ret w' ->
  marked_or_same hb wtx0 (mapWallet w' !! h) /\
  (conflict_settled E hb wtx0 (mapWallet w !! h) \/ (exists e, In e range /\ snd e = h) ->
   conflict_settled E hb wtx0 (mapWallet w' !! h)).
Proof.
  induction range as [|e rest IH]; intros w w' Hpre H; simpl in H.
  - inversion H; subst. split; [exact Hpre|]. intros [Hq|(e & [] & _)]. exact Hq.
  - apply bind_Ret_inv in H. destruct H as (w1 & H1 & H).
    assert (Hstep : marked_or_same hb wtx0 (mapWallet w1 !! h) /\
                    (conflict_settled E hb wtx0 (mapWallet w !! h) \/ snd e = h ->
                     conflict_settled E hb wtx0 (mapWallet w1 !! h))).
    { destruct (N.eqb_spec (snd e) hashTx) as [Heq|Hneq]; simpl in H1.
      - inversion H1; subst w1. split; [exact Hpre|].
        intros [Hq|Hh]; [exact Hq|]. exfalso. apply Hne. congruence.
      - pose proof (MarkConflicted_marks _ _ _ _ _ _ H1) as Hk.
        split; [apply (marks_kept_marked_or_same _ _ _ _ _ Hk Hpre)|].
        intros [Hq|Hh]; [apply (marks_kept_settled _ _ _ _ _ _ Hk Hq)|].
        rewrite Hh in H1. apply (MarkConflicted_settles _ _ _ _ _ _ _ Hcc Hpre H1). }
    destruct Hstep as [Hpre1 Hq1].
    destruct (IH _ _ Hpre1 H) as [Hpre' Hq']. split; [exact Hpre'|].
    intros [Hq|(x & [<-|Hx] & Hxh)]; apply Hq'; eauto.
Qed.

Lemma mark_conflicts_settles ins : forall w w',
  marked_or_same hb wtx0 (mapWallet w !! h) ->
  mark_conflicts E fuel hb hashTx ins w = Ret w' ->
  marked_or_same hb wtx0 (mapWallet w' !! h) /\
  (conflict_settled E hb wtx0 (mapWallet w !! h) \/
   (exists txin, In txin ins /\ In (prevout txin, h) (mapTxSpends w)) ->
   conflict_settled E hb wtx0 (mapWallet w' !! h)).
Proof.
  induction ins as [|txin rest IH]; intros w w' Hpre H; simpl in H.
  - inversion H; subst. split; [exact Hpre|]. intros [Hq|(t & [] & _)]. exact Hq.
  - apply bind_Ret_inv in H. destruct H as (w1 & H1 & H).
    pose proof (mark_conflicts_range_kept E _ _ _ _ _ _ H1) as (Hsp & _).
    destruct (mark_conflicts_range_settles _ _ _ Hpre H1) as [Hpre1 Hq1].
    destruct (IH _ _ Hpre1 H) as [Hpre' Hq']. split; [exact Hpre'|].
    intros [Hq|(t & [<-|Ht] & Hin)]; apply Hq'.
    + left. apply Hq1. left. exact Hq.
    + left. apply Hq1. right. exists (prevout txin, h). split; [|reflexivity].
      apply equal_range_In. split; [exact Hin|reflexivity].
    + right. exists t. split; [exact Ht|]. rewrite Hsp. exact Hin.
Qed.

End ConflictMarks.

(** The records [AddToWallet] is not handed keep their confirmation
    state. *)
Lemma SyncMetaData_copy_same range from : forall w,
  (forall e, In e range -> is_Some (mapWallet w !! snd e)) ->
  is_Some (mapWallet w !! from) ->
  forall h, same_record (mapWallet (SyncMetaData_copy range from w) !! h) (mapWallet w !! h).
Proof.
  induction range as [|it range IH]; simpl; intros w Hr Hf h.
  - apply same_record_refl.
  - destruct (Hr it (or_introl eq_refl)) as [copyTo Hto].
    rewrite (mapWallet_subscript_tracked _ _ _ Hto).
    destruct (snd it =? from)%N; [apply IH; auto|].
    destruct Hf as [copyFrom Hfrom].
    rewrite (mapWallet_subscript_tracked _ _ _ Hfrom).
    destruct (negb (IsEquivalentTo copyFrom copyTo)); [apply IH; eauto|].
    set (w1 := set_mapWallet _ w).
    assert (Hk : forall x, same_record (mapWallet w1 !! x) (mapWallet w !! x)).
    { intros x. unfold w1. simpl. destruct (decide (x = snd it)) as [->|Hne].
      - rewrite Hto, lookup_insert_eq. simpl. unfold same_chain_state. auto.
      - rewrite lookup_insert_ne by congruence. apply same_record_refl. }
    assert (Hsome : forall x, is_Some (mapWallet w !! x) -> is_Some (mapWallet w1 !! x)).
    { intros x [y Hy]. specialize (Hk x). rewrite Hy in Hk.
      destruct (mapWallet w1 !! x); [eauto|destruct Hk]. }
    eapply same_record_trans; [|apply Hk]. apply IH; [auto|apply Hsome; eauto].
Qed.

Lemma SyncMetaData_same range w w' :
  (forall e, In e range -> is_Some (mapWallet w !! snd e)) ->
  SyncMetaData range w = Ret w' ->
  forall h, same_record (mapWallet w' !! h) (mapWallet w !! h).
Proof.
  intros Hr. unfold SyncMetaData.
  destruct (SyncMetaData_oldest_tracked range INT_MAX None w Hr) as [Hw Hc];
    [discriminate|].
  destruct (SyncMetaData_oldest range INT_MAX None w) as [copyFrom w1]. simpl in *.
  subst w1. destruct copyFrom as [from|]; [|discriminate].
  intros H. inversion H; subst. apply SyncMetaData_copy_same; auto.
Qed.

Lemma AddToSpends_loop_same ins wtxid : forall w w',
  spenders_tracked w ->
  is_Some (mapWallet w !! wtxid) ->
  AddToSpends_loop ins wtxid w = Ret w' ->
  forall h, same_record (mapWallet w' !! h) (mapWallet w !! h).
Proof.
  induction ins as [|txin ins IH]; simpl; intros w w' Ht Hid H h.
  - inversion H; subst. apply same_record_refl.
  - apply bind_Ret_inv in H. destruct H as (w1 & Hstep & H).
    unfold AddToSpends_outpoint in Hstep.
    set (w0 := set_mapTxSpends (TxSpends_insert (prevout txin, wtxid) (mapTxSpends w)) w)
      in Hstep.
    assert (Ht0 : forall o x, In (o, x) (mapTxSpends w0) -> is_Some (mapWallet w0 !! x)).
    { intros o x Hin. unfold w0 in *. simpl in *. apply TxSpends_insert_In in Hin.
      destruct Hin as [Heq|Hin]; [inversion Heq; subst; exact Hid|eapply Ht; eauto]. }
    assert (Hr0 : forall e, In e (equal_range (prevout txin) (mapTxSpends w0)) ->
                            is_Some (mapWallet w0 !! snd e)).
    { intros [o x] He. apply equal_range_In in He. destruct He as [He _].
      simpl. eapply Ht0. exact He. }
    pose proof (SyncMetaData_same _ _ _ Hr0 Hstep) as Hsame.
    apply SyncMetaData_kept in Hstep; [|exact Hr0].
    destruct Hstep as (Hs1 & _ & _ & Hk1).
    assert (Ht1 : spenders_tracked w1).
    { intros o x Hin. rewrite Hs1 in Hin.
      eapply record_kept_is_Some; [apply Hk1|]. eapply Ht0. exact Hin. }
    assert (Hid1 : is_Some (mapWallet w1 !! wtxid))
      by (eapply record_kept_is_Some; [apply Hk1|exact Hid]).
    eapply same_record_trans; [apply (IH w1 w' Ht1 Hid1 H)|]. apply Hsame.
Qed.

Lemma AddToWallet_others_same E wtxIn w b w' h :
  h <> GetHash wtxIn ->
  spenders_tracked w ->
  AddToWallet E wtxIn w = Ret (b, w') ->
  same_record (mapWallet w' !! h) (mapWallet w !! h).
Proof.
  intros Hne Ht H. destruct (mapWallet w !! GetHash wtxIn) as [wtx|] eqn:Hw.
  - destruct (AddToWallet_update E wtxIn w wtx b w' Hw H) as (_ & _ & _ & _ & Hother).
    rewrite (Hother h Hne). apply same_record_refl.
  - unfold AddToWallet in H. rewrite Hw in H. simpl in H.
    set (hash := GetHash wtxIn) in *.
    apply bind_Ret_inv in H. destruct H as (ts & _ & H).
    apply bind_Ret_inv in H. destruct H as (w3 & Hspends & H).
    set (w2 := set_mapWallet _ _) in Hspends.
    assert (Hw2 : is_Some (mapWallet w2 !! hash)).
    { unfold w2. simpl. rewrite lookup_insert_eq. eauto. }
    assert (Hk2 : forall x, x <> hash -> mapWallet w2 !! x = mapWallet w !! x).
    { intros x Hx. unfold w2. simpl. rewrite !lookup_insert_ne by congruence. reflexivity. }
    assert (Ht2 : spenders_tracked w2).
    { intros o x Hin. destruct (decide (x = hash)) as [->|Hx]; [exact Hw2|].
      rewrite Hk2 by exact Hx. apply (Ht o x). exact Hin. }
    assert (H23 : same_record (mapWallet w3 !! h) (mapWallet w2 !! h)).
    { unfold AddToSpends in Hspends.
      destruct (mapWallet w2 !! hash) as [thisTx|] eqn:Hthis; [|discriminate].
      destruct (_ || _).
      - inversion Hspends; subst. apply same_record_refl.
      - apply (AddToSpends_loop_same (vin (tx thisTx)) hash w2 w3 Ht2); [|exact Hspends].
        rewrite Hthis. eauto. }
    rewrite (Hk2 h Hne) in H23.
    destruct (mapWallet w3 !! hash) as [wtx3|]; [|discriminate].
    destruct (negb (WriteTx E wtx3)); inversion H; subst; simpl.
    + exact H23.
    + rewrite lookup_insert_ne by congruence. exact H23.
Qed.

(** X30.  A transaction of a block on the active chain conflicts the
    wallet's other spenders of its inputs.  Let the block conflict
    ([conflictconfirms] negative), and let the tracked transaction [h],
    not the transaction itself, be in the spend index for an input of the
    transaction: after [AddToWalletIfInvolvingMe], whatever it answers,
    the record of [h] is marked as conflicted with the block (index -1,
    the block's hash), unless it was no less conflicted before, in which
    case its confirmation state is as it was. *)
Theorem AddToWalletIfInvolvingMe_marks_conflicts E (KeyPool : Type)
        (keypool_maintenance : CTransaction -> KeyPool -> outcome KeyPool)
        fuel ptx hb posInBlock fUpdate w k b w' k' txin h wtx :
  spenders_tracked w ->
  conflictconfirms_of E hb < 0 ->
  In txin (vin ptx) ->
  In (prevout txin, h) (mapTxSpends w) ->
  h <> tx_hash ptx ->
  mapWallet w !! h = Some wtx ->
  AddToWalletIfInvolvingMe E KeyPool keypool_maintenance fuel ptx (Some hb) posInBlock
                           fUpdate w k = Ret (b, w', k') ->
  exists wtx',
    mapWallet w' !! h = Some wtx' /\
    (marked_conflicted hb wtx' \/
     (same_chain_state wtx' wtx /\
      GetDepthInMainChain E wtx <= conflictconfirms_of E hb)).
Proof.
  intros Ht Hcc Hin Hsp Hne Hw H. unfold AddToWalletIfInvolvingMe in H.
  apply bind_Ret_inv in H. destruct H as (w1 & H1 & H).
  assert (Hpre : marked_or_same hb wtx (mapWallet w !! h)).
  { rewrite Hw. right. unfold same_chain_state. auto. }
  destruct (mark_conflicts_settles E fuel hb (tx_hash ptx) h wtx Hcc Hne _ _ _ Hpre H1)
    as [_ Hq].
  assert (Hq1 : conflict_settled E hb wtx (mapWallet w1 !! h)).
  { apply Hq. right. exists txin. split; assumption. }
  assert (Hfin : forall w2, same_record (mapWallet w2 !! h) (mapWallet w1 !! h) ->
                            exists wtx',
                              mapWallet w2 !! h = Some wtx' /\
                              (marked_conflicted hb wtx' \/
                               (same_chain_state wtx' wtx /\
                                GetDepthInMainChain E wtx <= conflictconfirms_of E hb))).
  { intros w2 Hs. unfold conflict_settled in Hq1.
    destruct (mapWallet w1 !! h) as [x|]; [|destruct Hq1].
    destruct (mapWallet w2 !! h) as [y|]; [|destruct Hs]. exists y. split; [reflexivity|].
    simpl in Hs. destruct Hq1 as [Hm|[Hs1 Hd]].
    - left. apply (marked_same hb _ _ Hs Hm).
    - right. split; [apply (same_chain_state_trans _ _ _ Hs Hs1)|exact Hd]. }
  destruct (_ && negb fUpdate); [inversion H; subst; apply Hfin, same_record_refl|].
  apply bind_Ret_inv in H. destruct H as (involved & _ & H).
  destruct involved; [|inversion H; subst; apply Hfin, same_record_refl].
  apply bind_Ret_inv in H. destruct H as (k1 & _ & H).
  apply bind_Ret_inv in H. destruct H as ([b2 w2] & Hadd & H).
  inversion H; subst. apply Hfin.
  apply (AddToWallet_others_same E
           (SetMerkleBranch hb posInBlock (set_tx ptx CWalletTx_default)) w1 b w' h);
    [| |exact Hadd].
  - exact Hne.
  - pose proof (mark_conflicts_kept E _ _ _ _ _ _ H1) as Hk.
    intros o x Hx. destruct Hk as (Hs & _ & _ & Hrec). rewrite Hs in Hx.
    eapply record_kept_is_Some; [apply Hrec|]. apply (Ht o x Hx).
Qed.

Lemma AddToWalletIfInvolvingMe_marks_conflicts_witness :
  exists b w' k' wtx',
    AddToWalletIfInvolvingMe E0 unit (fun _ k => Ret k) 5
      (mkTx 5%N [txin_of 9 0] [mkTxOut 30 []] false false false)
      (Some 100%N) 0 true wallet_conflict tt = Ret (b, w', k') /\
    mapWallet w' !! 2%N = Some wtx' /\
    (marked_conflicted 100%N wtx' \/
     (same_chain_state wtx' (mk_wtx 2 [txin_of 9 0] [mkTxOut 40 []] 0 (-1) false) /\
      GetDepthInMainChain E0 (mk_wtx 2 [txin_of 9 0] [mkTxOut 40 []] 0 (-1) false)
      <= conflictconfirms_of E0 100%N)).
Proof.
  destruct (AddToWalletIfInvolvingMe E0 unit (fun _ k => Ret k) 5
              (mkTx 5%N [txin_of 9 0] [mkTxOut 30 []] false false false)
              (Some 100%N) 0 true wallet_conflict tt) as [[[b w'] k']| | | |] eqn:H;
    try (vm_compute in H; discriminate H).
  destruct (AddToWalletIfInvolvingMe_marks_conflicts E0 unit (fun _ k => Ret k) 5
              (mkTx 5%N [txin_of 9 0] [mkTxOut 30 []] false false false)
              100%N 0 true wallet_conflict tt b w' k' (txin_of 9 0) 2%N
              (mk_wtx 2 [txin_of 9 0] [mkTxOut 40 []] 0 (-1) false))
    as (wtx' & Hw' & Hres).
  - exact (proj1 (proj2 wallet_wf_wallet_conflict)).
  - vm_compute. reflexivity.
  - simpl. auto.
  - simpl. auto.
  - discriminate.
  - vm_compute. reflexivity.
  - exact H.
  - exists b, w', k', wtx'. split; [reflexivity|]. split; [exact Hw'|exact Hres].
Defined.

(** * The balance view *)

Lemma set_cache_same wtx : set_cache (cache wtx) wtx = wtx.
Proof. destruct wtx; reflexivity. Qed.

Lemma set_DebitCached_same c :
  fDebitCached c = true -> set_DebitCached (nDebitCached c) c = c.
Proof. destruct c; simpl; intros ->; reflexivity. Qed.

Lemma set_WatchDebitCached_same c :
  fWatchDebitCached c = true -> set_WatchDebitCached (nWatchDebitCached c) c = c.
Proof. destruct c; simpl; intros ->; reflexivity. Qed.

Lemma set_AvailableCreditCached_same c :
  fAvailableCreditCached c = true ->
  set_AvailableCreditCached (nAvailableCreditCached c) c = c.
Proof. destruct c; simpl; intros ->; reflexivity. Qed.

Lemma GetDebit_txin_owned E w txin filter :
  GetDebit_txin E w txin filter
  = if flag_and (IsMine_txin E w txin) filter then input_value w txin else 0.
Proof.
  unfold GetDebit_txin, IsMine_txin, input_value.
  destruct (mapWallet w !! op_hash (prevout txin)) as [prev|]; [|reflexivity].
  destruct (vout (tx prev) !! N.to_nat (op_n (prevout txin))) as [o|]; reflexivity.
Qed.

Lemma total_input_value_owned_le E w filter ins :
  (forall txin, In txin ins -> 0 <= input_value w txin) ->
  0 <= total_input_value w
         (List.filter (fun txin => flag_and (IsMine_txin E w txin) filter) ins)
  <= total_input_value w ins.
Proof.
  induction ins as [|txin ins IH]; simpl; intros Hpos; [lia|].
  assert (H0 : 0 <= input_value w txin) by (apply Hpos; left; reflexivity).
  assert (Hrest : forall t, In t ins -> 0 <= input_value w t) by (intros; apply Hpos; auto).
  specialize (IH Hrest).
  destruct (flag_and (IsMine_txin E w txin) filter); simpl; lia.
Qed.

Lemma GetDebit_loop_in_range E w filter ins : forall nDebit,
  (forall txin, In txin ins -> 0 <= input_value w txin) ->
  0 <= nDebit ->
  nDebit + total_input_value w ins <= MAX_MONEY E ->
  GetDebit_loop E w filter ins nDebit
  = Ret (nDebit + total_input_value w
                    (List.filter (fun txin => flag_and (IsMine_txin E w txin) filter) ins)).
Proof.
  induction ins as [|txin ins IH]; simpl; intros nDebit Hpos H0 Hmax.
  - f_equal. lia.
  - assert (Hv : 0 <= input_value w txin) by (apply Hpos; left; reflexivity).
    assert (Hrest : forall t, In t ins -> 0 <= input_value w t) by (intros; apply Hpos; auto).
    pose proof (total_input_value_owned_le E w filter ins Hrest) as Hle.
    rewrite GetDebit_txin_owned.
    destruct (flag_and (IsMine_txin E w txin) filter); simpl.
    + unfold MoneyRange.
      replace (0 <=? nDebit + input_value w txin) with true by (symmetry; apply Z.leb_le; lia).
      replace (nDebit + input_value w txin <=? MAX_MONEY E) with true
        by (symmetry; apply Z.leb_le; lia).
      simpl. rewrite IH by (auto; lia). f_equal. lia.
    + unfold MoneyRange.
      replace (0 <=? nDebit + 0) with true by (symmetry; apply Z.leb_le; lia).
      replace (nDebit + 0 <=? MAX_MONEY E) with true by (symmetry; apply Z.leb_le; lia).
      simpl. rewrite IH by (auto; lia). f_equal. lia.
Qed.

Lemma GetDebit_tx_in_range E w wtx filter :
  record_in_range E w wtx ->
  GetDebit_tx E w (tx wtx) filter = Ret (wallet_debit E w filter (tx wtx)).
Proof.
  intros (Hpos & Hmax & _). unfold GetDebit_tx, wallet_debit.
  rewrite GetDebit_loop_in_range by (auto; lia). f_equal.
Qed.

Lemma Mutable_GetDebit_all E w wtx :
  record_in_range E w wtx ->
  Mutable.GetDebit E w wtx ISMINE_ALL
  = Ret (reported_debit E w wtx, debit_cached E w wtx).
Proof.
  intros Hr. unfold Mutable.GetDebit, reported_debit, debit_cached.
  destruct (decide (vin (tx wtx) = [])); [reflexivity|].
  change (flag_and ISMINE_ALL ISMINE_SPENDABLE) with true.
  change (flag_and ISMINE_ALL ISMINE_WATCH_ONLY) with true. cbv iota.
  unfold reported_debit_spendable, reported_debit_watch_only.
  destruct (fDebitCached (cache wtx)) eqn:Hd; simpl.
  - destruct (fWatchDebitCached (cache wtx)) eqn:Hw; simpl.
    + rewrite set_DebitCached_same, set_WatchDebitCached_same, set_cache_same by assumption.
      reflexivity.
    + rewrite (GetDebit_tx_in_range E w wtx _ Hr). simpl.
      rewrite set_DebitCached_same by assumption. reflexivity.
  - rewrite (GetDebit_tx_in_range E w wtx _ Hr). simpl.
    destruct (fWatchDebitCached (cache wtx)) eqn:Hw; simpl.
    + destruct wtx as [t hb ni mv vo tr ts fm sa op im c]. destruct c. simpl in *.
      subst. reflexivity.
    + rewrite (GetDebit_tx_in_range E w wtx _ Hr). simpl.
      destruct wtx as [t hb ni mv vo tr ts fm sa op im c]. destruct c. reflexivity.
Qed.

Lemma IsTrusted_inputs_decides E w ins :
  (forall txin parent,
      In txin ins ->
      mapWallet w !! op_hash (prevout txin) = Some parent ->
      is_Some (vout (tx parent) !! N.to_nat (op_n (prevout txin)))) ->
  exists trusted, IsTrusted_inputs E w ins = Ret trusted.
Proof.
  induction ins as [|txin ins IH]; simpl; intros Hidx; [eauto|].
  destruct (mapWallet w !! op_hash (prevout txin)) as [parent|] eqn:Hp; [|eauto].
  destruct (Hidx txin parent (or_introl eq_refl) Hp) as [parentOut Ho]. rewrite Ho.
  destruct (negb (IsMine E parentOut =? ISMINE_SPENDABLE)%N); [eauto|].
  apply IH. intros t p Ht. apply Hidx. right. exact Ht.
Qed.

Lemma IsTrusted_inputs_in_range E w wtx :
  record_in_range E w wtx ->
  IsTrusted_inputs E w (vin (tx wtx))
  = Ret (bool_decide (inputs_self_originated E w wtx)).
Proof.
  intros (_ & _ & _ & _ & Hidx).
  destruct (IsTrusted_inputs_decides E w (vin (tx wtx)) Hidx) as [trusted Ht].
  rewrite Ht. f_equal. destruct trusted.
  - symmetry. apply bool_decide_eq_true_2. unfold inputs_self_originated.
    apply (proj1 (IsTrusted_inputs_true E w (vin (tx wtx))) Ht).
  - symmetry. apply bool_decide_eq_false_2. intros H.
    apply (proj2 (IsTrusted_inputs_true E w (vin (tx wtx)))) in H. congruence.
Qed.

Lemma Mutable_IsTrusted_in_range E w wtx :
  record_in_range E w wtx ->
  Mutable.IsTrusted E w wtx
  = Ret (bool_decide (record_trusted E w wtx), trust_cached E w wtx).
Proof.
  intros Hr. unfold Mutable.IsTrusted, trust_cached.
  destruct (CheckFinalTx E (tx wtx)) eqn:Hf; simpl.
  2:{ rewrite bool_decide_eq_false_2; [reflexivity|].
      unfold record_trusted. rewrite Hf. intros [? _]; discriminate. }
  destruct (Z.leb_spec 1 (GetDepthInMainChain E wtx)) as [Hd|Hd].
  { rewrite bool_decide_eq_true_2 by (unfold record_trusted; auto).
    replace (GetDepthInMainChain E wtx =? 0) with false by (symmetry; apply Z.eqb_neq; lia).
    reflexivity. }
  destruct (Z.ltb_spec (GetDepthInMainChain E wtx) 0) as [Hn|Hn].
  { rewrite bool_decide_eq_false_2
      by (unfold record_trusted; intros [_ [?|[? _]]]; lia).
    replace (GetDepthInMainChain E wtx =? 0) with false by (symmetry; apply Z.eqb_neq; lia).
    reflexivity. }
  assert (Hz : GetDepthInMainChain E wtx = 0) by lia.
  replace (GetDepthInMainChain E wtx =? 0) with true by (symmetry; apply Z.eqb_eq; exact Hz).
  destruct (bSpendZeroConfChange E) eqn:Hzc; simpl.
  2:{ rewrite bool_decide_eq_false_2; [reflexivity|].
      unfold record_trusted. rewrite Hzc.
      intros [_ [?|(_ & ? & _)]]; [lia|discriminate]. }
  unfold Mutable.IsFromMe. rewrite (Mutable_GetDebit_all E w wtx Hr). simpl.
  assert (Hin : InMempool (debit_cached E w wtx) = InMempool wtx).
  { unfold debit_cached. destruct (decide (vin (tx wtx) = [])); reflexivity. }
  assert (Htx : tx (debit_cached E w wtx) = tx wtx).
  { unfold debit_cached. destruct (decide (vin (tx wtx) = [])); reflexivity. }
  destruct (Z.ltb_spec 0 (reported_debit E w wtx)) as [Hdebit|Hdebit]; simpl.
  2:{ rewrite bool_decide_eq_false_2; [reflexivity|].
      unfold record_trusted. intros [_ [?|(_ & _ & ? & _)]]; lia. }
  rewrite Hin. destruct (InMempool wtx) eqn:Hpool; simpl.
  2:{ rewrite bool_decide_eq_false_2; [reflexivity|].
      unfold record_trusted. rewrite Hpool.
      intros [_ [?|(_ & _ & _ & ? & _)]]; [lia|discriminate]. }
  rewrite Htx, (IsTrusted_inputs_in_range E w wtx Hr). simpl. f_equal. f_equal.
  destruct (decide (inputs_self_originated E w wtx)) as [Hi|Hi].
  - rewrite !bool_decide_eq_true_2; auto.
    unfold record_trusted. split; [exact Hf|]. right. rewrite Hzc, Hpool. auto.
  - rewrite !bool_decide_eq_false_2; auto.
    unfold record_trusted. intros [_ [?|(_ & _ & _ & _ & ?)]]; [lia|auto].
Qed.

(** What the members return is what the result functions of the same
    names return. *)
Lemma Mutable_GetDebit_result E w wtx filter :
  Mutable.GetDebit E w wtx filter ≫= (fun p => Ret (fst p)) = GetDebit E w wtx filter.
Proof.
  unfold Mutable.GetDebit, GetDebit.
  destruct (decide (vin (tx wtx) = [])); [reflexivity|].
  destruct (flag_and filter ISMINE_SPENDABLE);
    [destruct (fDebitCached (cache wtx));
       [|destruct (GetDebit_tx E w (tx wtx) ISMINE_SPENDABLE)]|]; simpl; try reflexivity;
    (destruct (flag_and filter ISMINE_WATCH_ONLY);
       [destruct (fWatchDebitCached (cache wtx));
          [|destruct (GetDebit_tx E w (tx wtx) ISMINE_WATCH_ONLY)]|]; reflexivity).
Qed.

Lemma Mutable_IsFromMe_result E w wtx filter :
  Mutable.IsFromMe E w wtx filter ≫= (fun p => Ret (fst p)) = IsFromMe E w wtx filter.
Proof.
  unfold Mutable.IsFromMe, IsFromMe. rewrite <- Mutable_GetDebit_result.
  destruct (Mutable.GetDebit E w wtx filter) as [[d wtx']| | | |]; reflexivity.
Qed.

Lemma Mutable_GetDebit_tx E w wtx filter d wtx' :
  Mutable.GetDebit E w wtx filter = Ret (d, wtx') ->
  tx wtx' = tx wtx /\ InMempool wtx' = InMempool wtx.
Proof.
  unfold Mutable.GetDebit.
  destruct (decide (vin (tx wtx) = [])); [intros H; inversion H; auto|].
  intros H. apply bind_Ret_inv in H. destruct H as ([d1 w1] & H1 & H).
  apply bind_Ret_inv in H. destruct H as ([d2 w2] & H2 & H).
  inversion H; subst. clear H.
  assert (Hw1 : tx w1 = tx wtx /\ InMempool w1 = InMempool wtx).
  { destruct (flag_and filter ISMINE_SPENDABLE); [|inversion H1; auto].
    destruct (fDebitCached (cache wtx)); [inversion H1; auto|].
    apply bind_Ret_inv in H1. destruct H1 as (x & _ & H1). inversion H1; auto. }
  destruct Hw1 as [Ht1 Hm1]. rewrite <- Ht1, <- Hm1.
  destruct (flag_and filter ISMINE_WATCH_ONLY); [|inversion H2; auto].
  destruct (fWatchDebitCached (cache w1)); [inversion H2; auto|].
  apply bind_Ret_inv in H2. destruct H2 as (x & _ & H2). inversion H2; auto.
Qed.

Lemma Mutable_IsTrusted_result E w wtx :
  Mutable.IsTrusted E w wtx ≫= (fun p => Ret (fst p)) = IsTrusted E w wtx.
Proof.
  unfold Mutable.IsTrusted, IsTrusted.
  destruct (negb (CheckFinalTx E (tx wtx))); [reflexivity|]. cbv zeta.
  destruct (1 <=? GetDepthInMainChain E wtx); [reflexivity|].
  destruct (GetDepthInMainChain E wtx <? 0); [reflexivity|].
  destruct (negb (bSpendZeroConfChange E)); [reflexivity|].
  rewrite <- Mutable_IsFromMe_result. unfold Mutable.IsFromMe.
  destruct (Mutable.GetDebit E w wtx ISMINE_ALL) as [[d wtx']| | | |] eqn:Hd; try reflexivity.
  destruct (Mutable_GetDebit_tx E w wtx ISMINE_ALL d wtx' Hd) as [Ht Hm]. simpl.
  destruct (negb (0 <? d)); [reflexivity|]. rewrite Hm, Ht.
  destruct (negb (InMempool wtx)); [reflexivity|].
  destruct (IsTrusted_inputs E w (vin (tx wtx))); reflexivity.
Qed.

Lemma sum_values_credited_le E filter outs :
  (forall txout, In txout outs -> 0 <= nValue txout) ->
  0 <= sum_values (credited E filter outs) <= sum_values outs.
Proof.
  induction outs as [|o outs IH]; simpl; intros Hpos; [lia|].
  assert (H0 : 0 <= nValue o) by (apply Hpos; left; reflexivity).
  assert (Hrest : forall t, In t outs -> 0 <= nValue t) by (intros t Ht; apply Hpos; right; exact Ht).
  specialize (IH Hrest). unfold credited in *.
  destruct (flag_and (IsMine E o) filter); simpl; lia.
Qed.

Lemma sum_values_cons o l : sum_values (o :: l) = nValue o + sum_values l.
Proof. reflexivity. Qed.

Lemma unspent_le E w hashTx outs : forall k,
  (forall txout, In txout outs -> 0 <= nValue txout) ->
  0 <= sum_values
         (omap (fun p : nat * CTxOut =>
                  if IsSpent E w hashTx (N.of_nat (fst p)) then None else Some (snd p))
               (imap (fun i txout => ((k + i)%nat, txout)) outs))
  <= sum_values outs /\
  forall txout,
    In txout (omap (fun p : nat * CTxOut =>
                      if IsSpent E w hashTx (N.of_nat (fst p)) then None else Some (snd p))
                   (imap (fun i txout => ((k + i)%nat, txout)) outs)) ->
    0 <= nValue txout.
Proof.
  induction outs as [|o outs IH]; intros k Hpos.
  - simpl. split; [lia|intros ? []].
  - assert (H0 : 0 <= nValue o) by (apply Hpos; left; reflexivity).
    assert (Hrest : forall t, In t outs -> 0 <= nValue t) by (intros t Ht; apply Hpos; right; exact Ht).
    specialize (IH (S k) Hrest).
    assert (Himap : imap ((fun i txout => ((k + i)%nat, txout)) ∘ S) outs
                    = imap (fun i txout => ((S k + i)%nat, txout)) outs).
    { apply imap_ext. intros i x _. unfold compose. rewrite Nat.add_succ_r. reflexivity. }
    cbn [imap]. rewrite Himap. cbn [omap list_omap fst snd].
    destruct (IsSpent E w hashTx (N.of_nat (k + 0))).
    + destruct IH as [IH1 IH2]. rewrite sum_values_cons. split; [lia|exact IH2].
    + destruct IH as [IH1 IH2]. rewrite !sum_values_cons. split; [lia|].
      intros t [<-|Ht]; [exact H0|apply IH2; exact Ht].
Qed.

Lemma credited_cons E filter o l :
  credited E filter (o :: l)
  = if flag_and (IsMine E o) filter then o :: credited E filter l else credited E filter l.
Proof. reflexivity. Qed.

Lemma GetAvailableCredit_loop_in_range E w hashTx outs : forall k nCredit,
  (forall txout, In txout outs -> 0 <= nValue txout) ->
  0 <= nCredit ->
  nCredit + sum_values outs <= MAX_MONEY E ->
  GetAvailableCredit_loop E w hashTx (N.of_nat k) outs nCredit
  = Ret (nCredit
         + sum_values
             (credited E ISMINE_SPENDABLE
                (omap (fun p : nat * CTxOut =>
                         if IsSpent E w hashTx (N.of_nat (fst p)) then None
                         else Some (snd p))
                      (imap (fun i txout => ((k + i)%nat, txout)) outs)))).
Proof.
  induction outs as [|o outs IH]; intros k nCredit Hpos H0 Hmax.
  - simpl. f_equal. lia.
  - assert (Hv : 0 <= nValue o) by (apply Hpos; left; reflexivity).
    assert (Hrest : forall t, In t outs -> 0 <= nValue t)
      by (intros t Ht; apply Hpos; right; exact Ht).
    assert (Himap : imap ((fun i txout => ((k + i)%nat, txout)) ∘ S) outs
                    = imap (fun i txout => ((S k + i)%nat, txout)) outs).
    { apply imap_ext. intros i x _. unfold compose. rewrite Nat.add_succ_r. reflexivity. }
    destruct (unspent_le E w hashTx outs (S k) Hrest) as [Hle Hpos'].
    pose proof (sum_values_credited_le E ISMINE_SPENDABLE _ Hpos') as Hcr.
    pose proof (IH (S k)) as IHk. rewrite Nat2N.inj_succ in IHk.
    cbn [GetAvailableCredit_loop imap]. rewrite Himap. cbn [omap list_omap fst snd].
    replace (k + 0)%nat with k by lia.
    set (rest := omap _ (imap (fun i txout => ((S k + i)%nat, txout)) outs)) in *.
    rewrite sum_values_cons in Hmax.
    destruct (IsSpent E w hashTx (N.of_nat k)); cbn [negb].
    + apply IHk; auto. lia.
    + unfold GetCredit_txout, MoneyRange.
      replace (0 <=? nValue o) with true by (symmetry; apply Z.leb_le; lia).
      replace (nValue o <=? MAX_MONEY E) with true by (symmetry; apply Z.leb_le; lia).
      rewrite credited_cons.
      destruct (flag_and (IsMine E o) ISMINE_SPENDABLE); simpl.
      * replace (0 <=? nCredit + nValue o) with true by (symmetry; apply Z.leb_le; lia).
        replace (nCredit + nValue o <=? MAX_MONEY E) with true
          by (symmetry; apply Z.leb_le; lia).
        simpl. rewrite IHk by (auto; lia). f_equal. lia.
      * replace (0 <=? nCredit + 0) with true by (symmetry; apply Z.leb_le; lia).
        replace (nCredit + 0 <=? MAX_MONEY E) with true by (symmetry; apply Z.leb_le; lia).
        simpl. rewrite IHk by (auto; lia). f_equal. lia.
Qed.

Lemma Mutable_GetAvailableCredit_in_range E w wtx :
  record_in_range E w wtx ->
  Mutable.GetAvailableCredit E w wtx fUseCache_default
  = Ret (reported_credit E w wtx, credit_cached E w wtx).
Proof.
  intros (_ & _ & Hpos & Hmax & _).
  unfold Mutable.GetAvailableCredit, credit_cached, reported_credit, fUseCache_default.
  destruct (IsCoinBase wtx && (0 <? GetBlocksToMaturity E wtx)); [reflexivity|].
  rewrite andb_true_l.
  destruct (fAvailableCreditCached (cache wtx)) eqn:Hc.
  - rewrite set_AvailableCreditCached_same, set_cache_same by assumption. reflexivity.
  - change 0%N with (N.of_nat 0).
    rewrite GetAvailableCredit_loop_in_range by (auto; lia). reflexivity.
Qed.

(** ** What the getters read of the wallet

    The amounts and the trust of a record are read from the transactions,
    the block references and the positions of the records of the wallet
    and from the spend index, not from the caches of other records. *)

Lemma existsb_same {A} (f g : A -> bool) l :
  (forall x, f x = g x) -> existsb f l = existsb g l.
Proof. intros H. induction l as [|x l IH]; simpl; [reflexivity|]. rewrite H, IH. reflexivity. Qed.

Section SameLedger.

Variables (E : Externals) (w1 w2 : CWallet).

Hypothesis spends_same : mapTxSpends w1 = mapTxSpends w2.
Hypothesis records_same : forall h, same_record (mapWallet w1 !! h) (mapWallet w2 !! h).

Lemma same_ledger_tx h a :
  mapWallet w1 !! h = Some a ->
  exists b, mapWallet w2 !! h = Some b /\ same_chain_state a b.
Proof.
  intros Ha. pose proof (records_same h) as Hr. rewrite Ha in Hr.
  destruct (mapWallet w2 !! h) as [b|]; [eauto|contradiction].
Qed.

Lemma same_ledger_None h :
  mapWallet w1 !! h = None -> mapWallet w2 !! h = None.
Proof.
  intros Ha. pose proof (records_same h) as Hr. rewrite Ha in Hr.
  destruct (mapWallet w2 !! h) as [b|]; [contradiction|reflexivity].
Qed.

Lemma GetDebit_txin_same txin filter :
  GetDebit_txin E w1 txin filter = GetDebit_txin E w2 txin filter.
Proof.
  unfold GetDebit_txin.
  destruct (mapWallet w1 !! op_hash (prevout txin)) as [a|] eqn:Ha.
  - destruct (same_ledger_tx _ _ Ha) as (b & Hb & Ht & _). rewrite Hb, Ht. reflexivity.
  - rewrite (same_ledger_None _ Ha). reflexivity.
Qed.

Lemma GetDebit_loop_same filter ins : forall nDebit,
  GetDebit_loop E w1 filter ins nDebit = GetDebit_loop E w2 filter ins nDebit.
Proof.
  induction ins as [|txin ins IH]; intros nDebit; simpl; [reflexivity|].
  rewrite GetDebit_txin_same, IH. reflexivity.
Qed.

Lemma IsTrusted_inputs_same ins :
  IsTrusted_inputs E w1 ins = IsTrusted_inputs E w2 ins.
Proof.
  induction ins as [|txin ins IH]; simpl; [reflexivity|].
  destruct (mapWallet w1 !! op_hash (prevout txin)) as [a|] eqn:Ha.
  - destruct (same_ledger_tx _ _ Ha) as (b & Hb & Ht & _). rewrite Hb, Ht, IH. reflexivity.
  - rewrite (same_ledger_None _ Ha). reflexivity.
Qed.

Lemma IsSpent_same hash n : IsSpent E w1 hash n = IsSpent E w2 hash n.
Proof.
  unfold IsSpent. rewrite spends_same. apply existsb_same. intros e.
  destruct (mapWallet w1 !! snd e) as [a|] eqn:Ha.
  - destruct (same_ledger_tx _ _ Ha) as (b & Hb & Hs). rewrite Hb.
    rewrite (depth_ext E a b Hs). destruct Hs as (_ & Hh & _).
    unfold isAbandoned. rewrite Hh. reflexivity.
  - rewrite (same_ledger_None _ Ha). reflexivity.
Qed.

Lemma GetAvailableCredit_loop_same hashTx outs : forall i nCredit,
  GetAvailableCredit_loop E w1 hashTx i outs nCredit
  = GetAvailableCredit_loop E w2 hashTx i outs nCredit.
Proof.
  induction outs as [|o outs IH]; intros i nCredit; simpl; [reflexivity|].
  rewrite IsSpent_same. destruct (negb (IsSpent E w2 hashTx i)); [|apply IH].
  destruct (GetCredit_txout E o ISMINE_SPENDABLE); simpl; try reflexivity.
  destruct (negb (MoneyRange E _)); [reflexivity|apply IH].
Qed.

Lemma Mutable_GetDebit_same wtx filter :
  Mutable.GetDebit E w1 wtx filter = Mutable.GetDebit E w2 wtx filter.
Proof.
  unfold Mutable.GetDebit, GetDebit_tx.
  destruct (decide (vin (tx wtx) = [])); [reflexivity|].
  rewrite GetDebit_loop_same.
  assert (Hwatch : forall d1 wtx1,
             tx wtx1 = tx wtx ->
             (if flag_and filter ISMINE_WATCH_ONLY
              then if fWatchDebitCached (cache wtx1)
                   then Ret (nWatchDebitCached (cache wtx1), wtx1)
                   else d ← GetDebit_loop E w1 ISMINE_WATCH_ONLY (vin (tx wtx1)) 0;
                        Ret (d, set_cache (set_WatchDebitCached d (cache wtx1)) wtx1)
              else Ret (0, wtx1)) ≫= (fun '(d2, wtx2) => Ret (d1 + d2, wtx2))
             = (if flag_and filter ISMINE_WATCH_ONLY
                then if fWatchDebitCached (cache wtx1)
                     then Ret (nWatchDebitCached (cache wtx1), wtx1)
                     else d ← GetDebit_loop E w2 ISMINE_WATCH_ONLY (vin (tx wtx1)) 0;
                          Ret (d, set_cache (set_WatchDebitCached d (cache wtx1)) wtx1)
                else Ret (0, wtx1)) ≫= (fun '(d2, wtx2) => Ret (d1 + d2, wtx2))).
  { intros d1 wtx1 _. rewrite GetDebit_loop_same. reflexivity. }
  destruct (flag_and filter ISMINE_SPENDABLE).
  - destruct (fDebitCached (cache wtx)); simpl.
    + apply (Hwatch _ wtx). reflexivity.
    + destruct (GetDebit_loop E w2 ISMINE_SPENDABLE (vin (tx wtx)) 0) as [d| | | |];
        simpl; try reflexivity.
      exact (Hwatch d (set_cache (set_DebitCached d (cache wtx)) wtx) eq_refl).
  - simpl. apply (Hwatch _ wtx). reflexivity.
Qed.

Lemma Mutable_IsTrusted_same wtx :
  Mutable.IsTrusted E w1 wtx = Mutable.IsTrusted E w2 wtx.
Proof.
  unfold Mutable.IsTrusted, Mutable.IsFromMe. rewrite Mutable_GetDebit_same.
  destruct (negb (CheckFinalTx E (tx wtx))); [reflexivity|]. cbv zeta.
  destruct (1 <=? GetDepthInMainChain E wtx); [reflexivity|].
  destruct (GetDepthInMainChain E wtx <? 0); [reflexivity|].
  destruct (negb (bSpendZeroConfChange E)); [reflexivity|].
  destruct (Mutable.GetDebit E w2 wtx ISMINE_ALL) as [[d wtx']| | | |]; simpl;
    try reflexivity.
  destruct (negb (0 <? d)); [reflexivity|].
  destruct (negb (InMempool wtx')); [reflexivity|].
  rewrite IsTrusted_inputs_same. reflexivity.
Qed.

Lemma Mutable_GetAvailableCredit_same wtx fUseCache :
  Mutable.GetAvailableCredit E w1 wtx fUseCache
  = Mutable.GetAvailableCredit E w2 wtx fUseCache.
Proof.
  unfold Mutable.GetAvailableCredit. rewrite GetAvailableCredit_loop_same. reflexivity.
Qed.

End SameLedger.

Lemma record_in_range_tx E w a b :
  tx b = tx a -> record_in_range E w a -> record_in_range E w b.
Proof. unfold record_in_range. intros ->. auto. Qed.

Lemma debit_cached_fields E w wtx :
  same_chain_state (debit_cached E w wtx) wtx /\
  fAvailableCreditCached (cache (debit_cached E w wtx)) = fAvailableCreditCached (cache wtx) /\
  nAvailableCreditCached (cache (debit_cached E w wtx)) = nAvailableCreditCached (cache wtx).
Proof.
  unfold debit_cached, same_chain_state.
  destruct (decide (vin (tx wtx) = [])); simpl; auto.
Qed.

Lemma trust_cached_fields E w wtx :
  same_chain_state (trust_cached E w wtx) wtx /\
  fAvailableCreditCached (cache (trust_cached E w wtx)) = fAvailableCreditCached (cache wtx) /\
  nAvailableCreditCached (cache (trust_cached E w wtx)) = nAvailableCreditCached (cache wtx).
Proof.
  unfold trust_cached.
  destruct (CheckFinalTx E (tx wtx) && (GetDepthInMainChain E wtx =? 0)
            && bSpendZeroConfChange E).
  - apply debit_cached_fields.
  - unfold same_chain_state. auto.
Qed.

Lemma credit_cached_chain E w wtx : same_chain_state (credit_cached E w wtx) wtx.
Proof.
  unfold credit_cached, same_chain_state.
  destruct (IsCoinBase wtx && (0 <? GetBlocksToMaturity E wtx)); simpl; auto.
Qed.

Lemma reported_credit_same E w a b :
  same_chain_state a b ->
  fAvailableCreditCached (cache a) = fAvailableCreditCached (cache b) ->
  nAvailableCreditCached (cache a) = nAvailableCreditCached (cache b) ->
  reported_credit E w a = reported_credit E w b.
Proof.
  intros Hs Hf Hn. pose proof (depth_ext E a b Hs) as Hd. destruct Hs as (Ht & _ & _).
  unfold reported_credit, wallet_credit, unspent_outputs, GetBlocksToMaturity, IsCoinBase,
    GetHash.
  rewrite Ht, Hf, Hn, Hd. reflexivity.
Qed.

Section BalanceLoop.

Variables (E : Externals) (w : CWallet).

Hypothesis in_range : ledger_in_range E w.

Local Abbreviation credit_of :=
  (fun h : uint256 =>
     match mapWallet w !! h with
     | Some wtx => if bool_decide (record_trusted E w wtx) then reported_credit E w wtx else 0
     | None => 0
     end).

Lemma Mutable_GetBalance_loop_spec keys : forall wk nTotal,
  List.NoDup keys ->
  mapTxSpends wk = mapTxSpends w ->
  (forall h, same_record (mapWallet wk !! h) (mapWallet w !! h)) ->
  (forall h, In h keys ->
             is_Some (mapWallet w !! h) /\ mapWallet wk !! h = mapWallet w !! h) ->
  exists wf,
    Mutable.GetBalance_loop E keys wk nTotal
    = Ret (nTotal + sum_amounts (List.map credit_of keys), wf) /\
    mapTxSpends wf = mapTxSpends wk /\
    wtxOrdered wf = wtxOrdered wk /\
    nOrderPosNext wf = nOrderPosNext wk /\
    (forall h, In h keys -> mapWallet wf !! h = balance_cached E w <$> mapWallet w !! h) /\
    (forall h, ~ In h keys -> mapWallet wf !! h = mapWallet wk !! h).
Proof.
  induction keys as [|hash keys IH]; intros wk nTotal Hnd Hsp Hrec Hkeys.
  - exists wk. simpl. rewrite Z.add_0_r. repeat split; auto. intros h [].
  - inversion Hnd as [|? ? Hnotin Hnd']; subst.
    destruct (Hkeys hash (or_introl eq_refl)) as [[wtx Hw] Hwk]. rewrite Hw in Hwk.
    pose proof (in_range hash wtx Hw) as Hr.
    cbn [Mutable.GetBalance_loop]. rewrite Hwk.
    rewrite (Mutable_IsTrusted_same E wk w Hrec wtx).
    rewrite (Mutable_IsTrusted_in_range E w wtx Hr).
    cbn [mbind outcome_bind].
    destruct (trust_cached_fields E w wtx) as (Hchain & Hfc & Hnc).
    set (w1 := set_mapWallet (<[hash := trust_cached E w wtx]> (mapWallet wk)) wk).
    assert (Hrec1 : forall h, same_record (mapWallet w1 !! h) (mapWallet w !! h)).
    { intros h. subst w1. simpl. destruct (decide (h = hash)) as [->|Hne].
      - rewrite lookup_insert_eq, Hw. exact Hchain.
      - rewrite lookup_insert_ne by congruence. apply Hrec. }
    cbn [List.map]. rewrite sum_amounts_cons. rewrite Hw.
    destruct (bool_decide (record_trusted E w wtx)) eqn:Htrusted.
    + rewrite (Mutable_GetAvailableCredit_same E w1 w Hsp Hrec1).
      rewrite (Mutable_GetAvailableCredit_in_range E w (trust_cached E w wtx))
        by (apply (record_in_range_tx E w wtx); [apply Hchain|exact Hr]).
      cbn [mbind outcome_bind].
      rewrite (reported_credit_same E w _ wtx Hchain Hfc Hnc).
      set (w2 := set_mapWallet (<[hash := credit_cached E w (trust_cached E w wtx)]>
                                  (mapWallet w1)) w1).
      destruct (IH w2 (nTotal + reported_credit E w wtx) Hnd')
        as (wf & Hrun & H1 & H2 & H3 & Hin & Hout).
      * exact Hsp.
      * intros h. subst w2. simpl. destruct (decide (h = hash)) as [->|Hne].
        -- rewrite lookup_insert_eq, Hw.
           apply (same_chain_state_trans _ (trust_cached E w wtx));
             [apply credit_cached_chain|exact Hchain].
        -- rewrite lookup_insert_ne by congruence. apply Hrec1.
      * intros h Hh. destruct (Hkeys h (or_intror Hh)) as [Hs Heq]. split; [exact Hs|].
        subst w2 w1. simpl. rewrite !lookup_insert_ne by (intros ->; contradiction).
        exact Heq.
      * exists wf. rewrite Hrun. split; [f_equal; f_equal; lia|].
        split; [exact H1|]. split; [exact H2|]. split; [exact H3|]. split.
        -- intros h [<-|Hh]; [|apply Hin; exact Hh].
           rewrite (Hout hash Hnotin). subst w2. simpl. rewrite lookup_insert_eq, Hw.
           simpl. unfold balance_cached. rewrite Htrusted. reflexivity.
        -- intros h Hh. rewrite Hout by (intros Hx; apply Hh; right; exact Hx).
           subst w2 w1. simpl.
           rewrite !lookup_insert_ne by (intros ->; apply Hh; left; reflexivity).
           reflexivity.
    + destruct (IH w1 nTotal Hnd') as (wf & Hrun & H1 & H2 & H3 & Hin & Hout).
      * exact Hsp.
      * exact Hrec1.
      * intros h Hh. destruct (Hkeys h (or_intror Hh)) as [Hs Heq]. split; [exact Hs|].
        subst w1. simpl. rewrite lookup_insert_ne by (intros ->; contradiction).
        exact Heq.
      * exists wf. rewrite Hrun. split; [f_equal; f_equal; lia|].
        split; [exact H1|]. split; [exact H2|]. split; [exact H3|]. split.
        -- intros h [<-|Hh]; [|apply Hin; exact Hh].
           rewrite (Hout hash Hnotin). subst w1. simpl. rewrite lookup_insert_eq, Hw.
           simpl. unfold balance_cached. rewrite Htrusted. reflexivity.
        -- intros h Hh. rewrite Hout by (intros Hx; apply Hh; right; exact Hx).
           subst w1. simpl.
           rewrite lookup_insert_ne by (intros ->; apply Hh; left; reflexivity).
           reflexivity.
Qed.

End BalanceLoop.

Lemma sum_trusted_credit E w (entries : list (uint256 * CWalletTx)) :
  (forall e, In e entries -> mapWallet w !! fst e = Some (snd e)) ->
  sum_amounts
    (List.map (fun h : uint256 =>
                 match mapWallet w !! h with
                 | Some wtx =>
                     if bool_decide (record_trusted E w wtx) then reported_credit E w wtx
                     else 0
                 | None => 0
                 end) (List.map fst entries))
  = sum_amounts
      (List.map (fun e => reported_credit E w (snd e))
                (List.filter (fun e => bool_decide (record_trusted E w (snd e))) entries)).
Proof.
  induction entries as [|e entries IH]; intros Hall; [reflexivity|].
  cbn [List.map List.filter]. rewrite sum_amounts_cons.
  rewrite (Hall e (or_introl eq_refl)).
  rewrite IH by (intros x Hx; apply Hall; right; exact Hx).
  destruct (bool_decide (record_trusted E w (snd e))).
  - cbn [List.map]. rewrite sum_amounts_cons. reflexivity.
  - lia.
Qed.

Lemma wallet_entries_In (m : gmap uint256 CWalletTx) h wtx :
  In (h, wtx) (wallet_entries m) <-> m !! h = Some wtx.
Proof.
  rewrite <- list_elem_of_In, (wallet_entries_Permutation m).
  apply elem_of_map_to_list.
Qed.

(** C2, as the code has it.  [IsTrusted] answers, and a record is trusted
    exactly when it is final and either has depth >= 1, or has depth 0
    while unconfirmed change may be spent, the debit it reports is
    positive, it is in the mempool and each of its inputs spends an output
    of a tracked transaction that the wallet can spend; no ancestor beyond
    these outputs is looked at.  The debit a record reports is, for the
    spendable and for the watch-only part each, the amount in its cache
    when the flag next to it is set, whatever the wallet holds by now, and
    otherwise the value of the outputs of the wallet that its inputs
    spend; [IsTrusted] leaves what it reported in the cache.  [GetBalance]
    returns the sum, over exactly the records of [mapWallet] that are
    trusted in this sense, of the available credit each reports: nothing
    for a coinbase that is not mature, the amount in the cache when its
    flag is set, and otherwise the value of the record's unspent outputs
    that the wallet can spend; it leaves every record with the caches of
    what was asked of it.  The amounts are in the money range. *)
Theorem IsTrusted_and_GetBalance E w :
  (forall wtx,
      record_in_range E w wtx ->
      exists trusted,
        Mutable.IsTrusted E w wtx = Ret (trusted, trust_cached E w wtx) /\
        (trusted = true <-> record_trusted E w wtx)) /\
  (ledger_in_range E w ->
   exists trusted_records,
     List.NoDup trusted_records /\
     (forall hash wtx,
         In (hash, wtx) trusted_records <->
         mapWallet w !! hash = Some wtx /\ record_trusted E w wtx) /\
     Mutable.GetBalance E w
     = Ret (sum_amounts
              (List.map (fun entry => reported_credit E w (snd entry)) trusted_records),
            set_mapWallet (balance_cached E w <$> mapWallet w) w)).
Proof.
  split.
  - intros wtx Hr. exists (bool_decide (record_trusted E w wtx)).
    split; [apply Mutable_IsTrusted_in_range; exact Hr|].
    apply bool_decide_eq_true.
  - intros Hrange.
    destruct (wallet_entries_keys (mapWallet w)) as [Hnd Hlook].
    exists (List.filter (fun e => bool_decide (record_trusted E w (snd e)))
                        (wallet_entries (mapWallet w))).
    split; [|split].
    + apply List.NoDup_filter. apply (List.NoDup_map_inv fst). exact Hnd.
    + intros hash wtx. rewrite List.filter_In, wallet_entries_In. simpl.
      rewrite bool_decide_eq_true. reflexivity.
    + unfold Mutable.GetBalance.
      destruct (Mutable_GetBalance_loop_spec E w Hrange
                  (List.map fst (wallet_entries (mapWallet w))) w 0 Hnd eq_refl)
        as (wf & Hrun & Hsp & Hord & Hpos & Hin & Hout).
      * intros h. apply same_record_refl.
      * intros h Hh. apply List.in_map_iff in Hh. destruct Hh as (e & <- & He).
        rewrite (Hlook e He). split; [eauto|reflexivity].
      * rewrite Hrun, Z.add_0_l, (sum_trusted_credit E w _ Hlook). f_equal. f_equal.
        destruct wf as [m s o n]. simpl in *. subst s o n. unfold set_mapWallet.
        f_equal. apply map_eq. intros h. rewrite lookup_fmap.
        destruct (in_dec N.eq_dec h (List.map fst (wallet_entries (mapWallet w))))
          as [Hh|Hh].
        -- apply Hin. exact Hh.
        -- rewrite (Hout h Hh).
           destruct (mapWallet w !! h) as [wtx|] eqn:Hw; [|reflexivity].
           exfalso. apply Hh. apply List.in_map_iff. exists (h, wtx).
           split; [reflexivity|]. apply wallet_entries_In. exact Hw.
Qed.

Lemma record_in_range_zero_conf_child :
  record_in_range E0 wallet_zero_conf wtx_zero_conf_child.
Proof.
  repeat split.
  - intros txin [<-|[]]. vm_compute. discriminate.
  - vm_compute. discriminate.
  - intros txout [<-|[]]. vm_compute. discriminate.
  - vm_compute. discriminate.
  - intros txin parent [<-|[]] H. vm_compute in H. inversion H; subst. vm_compute. eauto.
Defined.

Lemma record_in_range_foreign_parent :
  record_in_range E0 wallet_zero_conf wtx_foreign_parent.
Proof.
  repeat split.
  - intros txin [<-|[]]. vm_compute. discriminate.
  - vm_compute. discriminate.
  - intros txout [<-|[]]. vm_compute. discriminate.
  - vm_compute. discriminate.
  - intros txin parent [<-|[]] H. vm_compute in H. discriminate H.
Defined.

Lemma ledger_in_range_zero_conf : ledger_in_range E0 wallet_zero_conf.
Proof.
  intros hash wtx H. simpl in H.
  apply lookup_insert_Some in H. destruct H as [[_ <-]|[_ H]].
  - exact record_in_range_foreign_parent.
  - apply lookup_insert_Some in H. destruct H as [[_ <-]|[_ H]].
    + exact record_in_range_zero_conf_child.
    + rewrite lookup_empty in H. discriminate H.
Defined.

Lemma IsTrusted_and_GetBalance_witness :
  record_in_range E0 wallet_zero_conf wtx_zero_conf_child /\
  ledger_in_range E0 wallet_zero_conf /\
  record_trusted E0 wallet_zero_conf wtx_zero_conf_child /\
  exists trusted_records,
    (forall hash wtx,
        In (hash, wtx) trusted_records <->
        mapWallet wallet_zero_conf !! hash = Some wtx /\
        record_trusted E0 wallet_zero_conf wtx) /\
    Mutable.GetBalance E0 wallet_zero_conf
    = Ret (sum_amounts
             (List.map (fun entry => reported_credit E0 wallet_zero_conf (snd entry))
                       trusted_records),
           set_mapWallet (balance_cached E0 wallet_zero_conf <$> mapWallet wallet_zero_conf)
                         wallet_zero_conf) /\
    sum_amounts
      (List.map (fun entry => reported_credit E0 wallet_zero_conf (snd entry))
                trusted_records) = 60.
Proof.
  destruct (IsTrusted_and_GetBalance E0 wallet_zero_conf) as [Htrust Hbalance].
  split; [exact record_in_range_zero_conf_child|].
  split; [exact ledger_in_range_zero_conf|]. split.
  - destruct (Htrust wtx_zero_conf_child record_in_range_zero_conf_child)
      as (trusted & Hrun & Hiff).
    apply Hiff. vm_compute in Hrun. injection Hrun as Ht. symmetry. exact Ht.
  - destruct (Hbalance ledger_in_range_zero_conf) as (l & _ & Hin & Hrun).
    exists l. split; [exact Hin|]. split; [exact Hrun|].
    assert (Hb : exists w', Mutable.GetBalance E0 wallet_zero_conf = Ret (60, w'))
      by (vm_compute; eexists; reflexivity).
    destruct Hb as [w' Hb]. rewrite Hb in Hrun. injection Hrun as Hs _. symmetry. exact Hs.
Defined.

(** A cached debit outlives what it was computed from.  While the wallet
    knows transaction [7] alone, [GetBalance] finds that [7] does not
    debit the wallet and leaves a debit of [0] in its cache.  When the
    transaction [6] that [7] spends is added, the caches of [7] are left
    as they are, so that [7] is still not trusted and the balance is
    still [0]; with the caches marked dirty the same wallet has a balance
    of [60]. *)
Lemma GetBalance_reads_stale_debit :
  exists w1 w2 w3 w4,
    Mutable.GetBalance E0 wallet_child_only = Ret (0, w1) /\
    AddToWallet E0 wtx_foreign_parent w1 = Ret (true, w2) /\
    Mutable.GetBalance E0 w2 = Ret (0, w3) /\
    Mutable.GetBalance E0 (set_mapWallet (MarkDirty <$> mapWallet w2) w2) = Ret (60, w4).
Proof.
  assert (H1 : exists w1, Mutable.GetBalance E0 wallet_child_only = Ret (0, w1))
    by (vm_compute; eexists; reflexivity).
  destruct H1 as [w1 H1]. exists w1.
  assert (Hw1 : w1 = match Mutable.GetBalance E0 wallet_child_only with
                     | Ret (_, w) => w | _ => wallet_child_only end)
    by (rewrite H1; reflexivity).
  assert (H2 : exists w2, AddToWallet E0 wtx_foreign_parent w1 = Ret (true, w2))
    by (rewrite Hw1; vm_compute; eexists; reflexivity).
  destruct H2 as [w2 H2]. exists w2.
  assert (Hw2 : w2 = match AddToWallet E0 wtx_foreign_parent w1 with
                     | Ret (_, w) => w | _ => w1 end)
    by (rewrite H2; reflexivity).
  assert (H3 : exists w3, Mutable.GetBalance E0 w2 = Ret (0, w3))
    by (rewrite Hw2, Hw1; vm_compute; eexists; reflexivity).
  assert (H4 : exists w4,
             Mutable.GetBalance E0 (set_mapWallet (MarkDirty <$> mapWallet w2) w2)
             = Ret (60, w4))
    by (rewrite Hw2, Hw1; vm_compute; eexists; reflexivity).
  destruct H3 as [w3 H3]. destruct H4 as [w4 H4]. exists w3, w4. auto.
Qed.
